(** * llama2.c (run.c): a shallow embedding of the inference engine

    The C functions of [run.c] are embedded as programs of a small
    memory monad: a program is a tree of loads and stores on the buffers the
    C code allocates ([calloc] in [malloc_run_state], [mmap] in [main]);
    running it on a memory either faults (an access outside a buffer, which is
    undefined behaviour in C) or yields a result, the memory after it and the
    trace of the accesses it made.

    Integers are C [int]s read as [Z].  Signed overflow and division by zero
    are undefined in C: an [int] expression of the code is evaluated by
    [int_eval], which has no value when an operation leaves the range of
    [int], and a program that needs such a value faults.  [/] on [int] is
    [Z.quot].  Floats are an interface ([FloatOps]) with an IEEE-754 binary32
    instance built on the Standard Library's [SpecFloat]. *)

From Stdlib Require Import ZArith Lia Bool List.
From Stdlib Require Import Strings.Byte.
From Stdlib Require Import Floats.SpecFloat.
From stdpp Require Import base list.

Local Open Scope Z_scope.

(** ** Single-precision floats, as the code uses them *)

Class FloatOps (F : Type) := {
  f_zero : F;                 (* 0.0f *)
  f_one : F;                  (* 1.0f *)
  f_eps : F;                  (* 1e-5f *)
  f_add : F -> F -> F;
  f_sub : F -> F -> F;
  f_mul : F -> F -> F;
  f_div : F -> F -> F;
  f_neg : F -> F;
  f_sqrt : F -> F;            (* sqrtf *)
  f_exp : F -> F;             (* expf, of the C library *)
  f_of_int : Z -> F;          (* (float) i *)
  f_of_bits : Z -> F;         (* the float stored as a 32-bit pattern *)
  f_lt : F -> F -> bool;      (* a < b *)
  f_eq : F -> F -> bool;      (* a == b *)
  f_is_nan : F -> bool
}.

(** C's [a > b]. *)
Definition f_gt {F} `{FloatOps F} (a b : F) : bool := f_lt b a.

(** The laws of the comparison the argmax proof rests on: [>] is transitive,
    and on numbers (no NaN) it is a strict weak order. *)
Class FloatOrder (F : Type) `{FloatOps F} := {
  f_lt_irrefl : forall a : F, f_lt a a = false;
  f_lt_trans : forall a b c : F, f_lt a b = true -> f_lt b c = true -> f_lt a c = true;
  f_lt_negtrans : forall a b c : F,
    f_is_nan c = false -> f_lt b a = true -> f_lt b c = false -> f_lt c a = true
}.

(** ** C [int]s *)

Definition INT_MIN : Z := -2147483648.
Definition INT_MAX : Z := 2147483647.

Definition in_int (z : Z) : Prop := INT_MIN <= z <= INT_MAX.

Definition int_ok (z : Z) : bool := (INT_MIN <=? z) && (z <=? INT_MAX).

(** An expression over [int] variables, with the operators the code uses. *)
Inductive int_exp :=
| Lit (z : Z)
| Add (a b : int_exp)
| Mul (a b : int_exp)
| Quot (a b : int_exp).

Coercion Lit : Z >-> int_exp.
Notation "a +! b" := (Add a b) (at level 50, left associativity).
Notation "a *! b" := (Mul a b) (at level 40, left associativity).
Notation "a /! b" := (Quot a b) (at level 40, left associativity).

(** The result of an operation when it is an [int]. *)
Definition checked (z : Z) : option Z := if int_ok z then Some z else None.

(** The value of an expression: none when an operation overflows or divides
    by zero (undefined behaviour). *)
Fixpoint int_eval (e : int_exp) : option Z :=
  match e with
  | Lit z => Some z
  | Add a b =>
      match int_eval a, int_eval b with
      | Some x, Some y => checked (x + y)
      | _, _ => None
      end
  | Mul a b =>
      match int_eval a, int_eval b with
      | Some x, Some y => checked (x * y)
      | _, _ => None
      end
  | Quot a b =>
      match int_eval a, int_eval b with
      | Some x, Some y => if y =? 0 then None else checked (Z.quot x y)
      | _, _ => None
      end
  end.

(** The same expression over the integers, and what makes the two agree. *)
Fixpoint int_value (e : int_exp) : Z :=
  match e with
  | Lit z => z
  | Add a b => int_value a + int_value b
  | Mul a b => int_value a * int_value b
  | Quot a b => Z.quot (int_value a) (int_value b)
  end.

Fixpoint int_safe (e : int_exp) : Prop :=
  match e with
  | Lit z => True
  | Add a b => int_safe a /\ int_safe b /\ in_int (int_value a + int_value b)
  | Mul a b => int_safe a /\ int_safe b /\ in_int (int_value a * int_value b)
  | Quot a b =>
      int_safe a /\ int_safe b /\ int_value b <> 0 /\
      in_int (Z.quot (int_value a) (int_value b))
  end.

(** ** Buffers and pointers *)

(** One name per allocation: the twelve [calloc]s of [malloc_run_state] and
    the [mmap] of the checkpoint file (viewed as an array of floats). *)
Inductive buffer :=
| Buf_x | Buf_xb | Buf_xb2 | Buf_hb | Buf_hb2 | Buf_q | Buf_k | Buf_v
| Buf_att | Buf_logits | Buf_key_cache | Buf_value_cache | Buf_data.

Global Instance buffer_eq_dec : EqDecision buffer.
Proof. solve_decision. Defined.

(** A [float*]: an allocation and an offset in floats. *)
Record ptr := Ptr { p_buf : buffer; p_off : Z }.

Global Instance ptr_eq_dec : EqDecision ptr.
Proof. solve_decision. Defined.

Definition padd (p : ptr) (n : Z) : ptr := Ptr (p_buf p) (p_off p + n).
Infix "+p" := padd (at level 50, left associativity).

Inductive event := Rd (p : ptr) | Wr (p : ptr).

Global Instance event_eq_dec : EqDecision event.
Proof. solve_decision. Defined.

(** ** The structs of run.c *)

Record Config := {
  dim : Z;        (* transformer dimension *)
  hidden_dim : Z; (* for ffn layers *)
  n_layers : Z;   (* number of layers *)
  n_heads : Z;    (* number of query heads *)
  n_kv_heads : Z; (* number of key/value heads *)
  vocab_size : Z; (* vocabulary size *)
  seq_len : Z     (* max sequence length *)
}.

Record TransformerWeights := {
  token_embedding_table : ptr; (* (vocab_size, dim) *)
  rms_att_weight : ptr;        (* (layer, dim) *)
  rms_ffn_weight : ptr;        (* (layer, dim) *)
  wq : ptr;                    (* (layer, dim, dim) *)
  wk : ptr;
  wv : ptr;
  wo : ptr;
  w1 : ptr;                    (* (layer, hidden_dim, dim) *)
  w2 : ptr;                    (* (layer, dim, hidden_dim) *)
  w3 : ptr;                    (* (layer, hidden_dim, dim) *)
  rms_final_weight : ptr;      (* (dim,) *)
  freq_cis_real : ptr;         (* (seq_len, head_size/2) *)
  freq_cis_imag : ptr;
  wcls : ptr                   (* classifier weights for the logits *)
}.

Module RS.
Record RunState := {
  x : ptr;           (* activation at current time stamp (dim,) *)
  xb : ptr;          (* same, but inside a residual branch (dim,) *)
  xb2 : ptr;         (* an additional buffer (dim,) *)
  hb : ptr;          (* buffer for hidden dimension in the ffn (hidden_dim,) *)
  hb2 : ptr;
  q : ptr;           (* query (dim,) *)
  k : ptr;           (* key (dim,) *)
  v : ptr;           (* value (dim,) *)
  att : ptr;         (* scores/attention values (n_heads, seq_len) *)
  logits : ptr;      (* output logits *)
  key_cache : ptr;   (* (layer, seq_len, dim) *)
  value_cache : ptr  (* (layer, seq_len, dim) *)
}.
End RS.
Abbreviation RunState := RS.RunState.

(** ** Programs over the buffers *)

Section Model.
Context {F : Type} `{!FloatOps F}.

Definition mem : Type := buffer -> list F.

(** [Fault] is undefined behaviour that is no access to memory: an [int]
    expression without a value, a size that is negative. *)
Inductive prog (A : Type) : Type :=
| Ret (a : A)
| Load (p : ptr) (k : F -> prog A)
| Store (p : ptr) (v : F) (k : prog A)
| Fault.
Global Arguments Ret {A} a.
Global Arguments Load {A} p k.
Global Arguments Store {A} p v k.
Global Arguments Fault {A}.

Fixpoint bind {A B} (c : prog A) (f : A -> prog B) : prog B :=
  match c with
  | Ret a => f a
  | Load p k => Load p (fun v => bind (k v) f)
  | Store p v k => Store p v (bind k f)
  | Fault => Fault
  end.

Definition load (p : ptr) : prog F := Load p Ret.
Definition store (p : ptr) (v : F) : prog unit := Store p v (Ret tt).

(** The value of an [int] expression of the code. *)
Definition int (e : int_exp) : prog Z :=
  match int_eval e with
  | Some z => Ret z
  | None => Fault
  end.

(** A read or write outside its buffer faults. *)
Definition mem_load (m : mem) (p : ptr) : option F :=
  if 0 <=? p_off p then m (p_buf p) !! Z.to_nat (p_off p) else None.

Definition mem_store (m : mem) (p : ptr) (v : F) : option mem :=
  if (0 <=? p_off p) && (p_off p <? Z.of_nat (length (m (p_buf p)))) then
    Some (fun b => if decide (b = p_buf p)
                   then <[Z.to_nat (p_off p) := v]> (m b) else m b)
  else None.

Fixpoint run {A} (c : prog A) (m : mem) : option (A * mem * list event) :=
  match c with
  | Ret a => Some (a, m, [])
  | Load p k =>
      match mem_load m p with
      | Some v =>
          match run (k v) m with
          | Some (a, m', t) => Some (a, m', Rd p :: t)
          | None => None
          end
      | None => None
      end
  | Store p v k =>
      match mem_store m p v with
      | Some m1 =>
          match run k m1 with
          | Some (a, m', t) => Some (a, m', Wr p :: t)
          | None => None
          end
      | None => None
      end
  | Fault => None
  end.

(** What a buffer holds after a run, and the accesses of the run. *)
Definition observe {A} (c : prog A) (m : mem) (b : buffer) : option (list F) :=
  match run c m with
  | Some (_, m', _) => Some (m' b)
  | None => None
  end.

Definition accesses {A} (c : prog A) (m : mem) : option (list event) :=
  match run c m with
  | Some (_, _, t) => Some t
  | None => None
  end.

Definition result {A} (c : prog A) (m : mem) : option A :=
  match run c m with
  | Some (a, _, _) => Some a
  | None => None
  end.

(** [for (i = lo; i < hi; i += step) body], [step > 0]. *)
Fixpoint for_loop (n : nat) (i step : Z) (body : Z -> prog unit) : prog unit :=
  match n with
  | O => Ret tt
  | S n' => bind (body i) (fun _ => for_loop n' (i + step) step body)
  end.

Definition trip_count (lo hi step : Z) : nat := Z.to_nat ((hi - lo + step - 1) / step).

Definition for_range_by (lo hi step : Z) (body : Z -> prog unit) : prog unit :=
  for_loop (trip_count lo hi step) lo step body.

Definition for_range (lo hi : Z) (body : Z -> prog unit) : prog unit :=
  for_range_by lo hi 1 body.

(** The same loop threading a local variable ([val += ...]). *)
Fixpoint fold_loop {A} (n : nat) (i : Z) (body : Z -> A -> prog A) (a : A) : prog A :=
  match n with
  | O => Ret a
  | S n' => bind (body i a) (fold_loop n' (i + 1) body)
  end.

Definition fold_range {A} (lo hi : Z) (body : Z -> A -> prog A) (a : A) : prog A :=
  fold_loop (Z.to_nat (hi - lo)) lo body a.

End Model.
Global Arguments prog : clear implicits.
Global Arguments mem : clear implicits.

Declare Scope prog_scope.
Delimit Scope prog_scope with prog.
Notation "x <- c ;; k" := (bind c (fun x => k))
  (at level 100, c at next level, right associativity) : prog_scope.
Notation "c ;; k" := (bind c (fun _ => k)) : prog_scope.
Local Open Scope prog_scope.

Notation "a +~ b" := (f_add a b) (at level 50, left associativity).
Notation "a -~ b" := (f_sub a b) (at level 50, left associativity).
Notation "a *~ b" := (f_mul a b) (at level 40, left associativity).
Notation "a /~ b" := (f_div a b) (at level 40, left associativity).

(** ** The neural net blocks of run.c *)

Section Blocks.
Context {F : Type} `{!FloatOps F}.

(** [memcpy(dst, src, n * sizeof(float))].  The size is a [size_t]: a
    negative [n] converts to more bytes than any buffer holds. *)
Definition memcpy (dst src : ptr) (n : Z) : prog F unit :=
  if n <? 0 then Fault
  else for_range 0 n (fun i => v <- load (src +p i);; store (dst +p i) v).

Definition accum (a b : ptr) (size : Z) : prog F unit :=
  for_range 0 size (fun i =>
    ai <- load (a +p i);; bi <- load (b +p i);; store (a +p i) (ai +~ bi)).

Definition rmsnorm (o x weight : ptr) (size : Z) : prog F unit :=
  (* calculate sum of squares *)
  ss <- fold_range 0 size (fun j ss =>
          xj <- load (x +p j);; Ret (ss +~ xj *~ xj)) f_zero;;
  let ss := ss /~ f_of_int size in
  let ss := ss +~ f_eps in
  let ss := f_one /~ f_sqrt ss in
  (* normalize and scale *)
  for_range 0 size (fun j =>
    wj <- load (weight +p j);; xj <- load (x +p j);;
    store (o +p j) (wj *~ (ss *~ xj))).

Definition softmax (x : ptr) (size : Z) : prog F unit :=
  (* find max value (for numerical stability) *)
  x0 <- load x;;
  max_val <- fold_range 1 size (fun i max_val =>
               xi <- load (x +p i);;
               Ret (if f_gt xi max_val then xi else max_val)) x0;;
  (* exp and sum *)
  sum <- fold_range 0 size (fun i sum =>
           xi <- load (x +p i);;
           let e := f_exp (xi -~ max_val) in
           store (x +p i) e;; Ret (sum +~ e)) f_zero;;
  (* normalize *)
  for_range 0 size (fun i =>
    xi <- load (x +p i);; store (x +p i) (xi /~ sum)).

(** [W (d,n) @ x (n,) -> xout (d,)]; the rows are taken in order. *)
Definition matmul (xout x w : ptr) (n d : Z) : prog F unit :=
  for_range 0 d (fun i =>
    val <- fold_range 0 n (fun j val =>
             ij <- int (i *! n +! j);;
             wij <- load (w +p ij);; xj <- load (x +p j);;
             Ret (val +~ wij *~ xj)) f_zero;;
    store (xout +p i) val).

End Blocks.

(** ** The forward pass *)

Section Transformer.
Context {F : Type} `{!FloatOps F}.

(** qkv matmuls for this position (run.c, lines 244-246). *)
Definition qkv_matmuls (p : Config) (s : RunState) (w : TransformerWeights) (l : Z)
  : prog F unit :=
  let dim := dim p in
  o <- int (l *! dim *! dim);;
  matmul (RS.q s) (RS.xb s) (wq w +p o) dim dim;;
  o <- int (l *! dim *! dim);;
  matmul (RS.k s) (RS.xb s) (wk w +p o) dim dim;;
  o <- int (l *! dim *! dim);;
  matmul (RS.v s) (RS.xb s) (wv w +p o) dim dim.

(** RoPE rotation of the q and k vectors of each head (lines 249-266).
    With [i < head_size] and [head_size] an [int], [i + 1] is an [int]. *)
Definition rope (p : Config) (s : RunState)
    (freq_cis_real_row freq_cis_imag_row : ptr) (head_size : Z) : prog F unit :=
  for_range 0 (n_heads p) (fun h =>
    o <- int (h *! head_size);;
    let q := RS.q s +p o in
    o <- int (h *! head_size);;
    let k := RS.k s +p o in
    for_range_by 0 head_size 2 (fun i =>
      q0 <- load (q +p i);;
      q1 <- load (q +p (i + 1));;
      k0 <- load (k +p i);;
      k1 <- load (k +p (i + 1));;
      fcr <- load (freq_cis_real_row +p Z.quot i 2);;
      fci <- load (freq_cis_imag_row +p Z.quot i 2);;
      store (q +p i) (q0 *~ fcr -~ q1 *~ fci);;
      store (q +p (i + 1)) (q0 *~ fci +~ q1 *~ fcr);;
      store (k +p i) (k0 *~ fcr -~ k1 *~ fci);;
      store (k +p (i + 1)) (k0 *~ fci +~ k1 *~ fcr))).

(** Save key, value at this time step to the kv cache (lines 270-273);
    [loff] is the layer offset of line 269. *)
Definition save_kv (p : Config) (s : RunState) (pos loff : Z) : prog F unit :=
  let dim := dim p in
  o <- int (pos *! dim);;
  let key_cache_row := RS.key_cache s +p loff +p o in
  o <- int (pos *! dim);;
  let value_cache_row := RS.value_cache s +p loff +p o in
  memcpy key_cache_row (RS.k s) dim;;
  memcpy value_cache_row (RS.v s) dim.

(** Multihead attention of one head (the body of the loop of lines 277-307).
    The loops [for (t = 0; t <= pos; t++)] count up to [pos + 1], which is
    also the size given to [softmax]. *)
Definition attention_head (p : Config) (s : RunState) (pos loff head_size h : Z)
  : prog F unit :=
  let dim := dim p in
  o <- int (h *! head_size);;
  let q := RS.q s +p o in
  o <- int (h *! seq_len p);;
  let att := RS.att s +p o in
  n <- int (pos +! 1);;
  (* iterate over all timesteps, including the current one *)
  for_range 0 n (fun t =>
    o <- int (t *! dim);;
    oh <- int (h *! head_size);;
    let k := RS.key_cache s +p loff +p o +p oh in
    score <- fold_range 0 head_size (fun i score =>
               qi <- load (q +p i);; ki <- load (k +p i);;
               Ret (score +~ qi *~ ki)) f_zero;;
    let score := score /~ f_sqrt (f_of_int head_size) in
    store (att +p t) score);;
  (* softmax the scores to get attention weights, from 0..pos inclusively *)
  softmax att n;;
  (* weighted sum of the values, store back into xb *)
  for_range 0 head_size (fun i =>
    val <- fold_range 0 n (fun t val =>
             o <- int (loff +! t *! dim +! h *! head_size +! i);;
             a <- load (att +p t);;
             vv <- load (RS.value_cache s +p o);;
             Ret (val +~ a *~ vv)) f_zero;;
    o <- int (h *! head_size +! i);;
    store (RS.xb s +p o) val).

(** The heads are taken in order ([#pragma omp parallel for] over disjoint
    rows of [att] and slices of [xb]). *)
Definition attention (p : Config) (s : RunState) (pos loff head_size : Z) : prog F unit :=
  for_range 0 (n_heads p) (attention_head p s pos loff head_size).

(** The feed-forward block with its residual connection (lines 316-337). *)
Definition ffn (p : Config) (s : RunState) (w : TransformerWeights) (l : Z) : prog F unit :=
  let x := RS.x s in
  let dim := dim p in
  let hidden_dim := hidden_dim p in
  o <- int (l *! dim);;
  rmsnorm (RS.xb s) x (rms_ffn_weight w +p o) dim;;
  o <- int (l *! dim *! hidden_dim);;
  matmul (RS.hb s) (RS.xb s) (w1 w +p o) dim hidden_dim;;
  o <- int (l *! dim *! hidden_dim);;
  matmul (RS.hb2 s) (RS.xb s) (w3 w +p o) dim hidden_dim;;
  (* F.silu; silu(x)=x*sigma(x) *)
  for_range 0 hidden_dim (fun i =>
    hi <- load (RS.hb s +p i);;
    store (RS.hb s +p i) (hi *~ (f_one /~ (f_one +~ f_exp (f_neg hi)))));;
  (* elementwise multiply with w3(x) *)
  for_range 0 hidden_dim (fun i =>
    hi <- load (RS.hb s +p i);; h2 <- load (RS.hb2 s +p i);;
    store (RS.hb s +p i) (hi *~ h2));;
  o <- int (l *! dim *! hidden_dim);;
  matmul (RS.xb s) (RS.hb s) (w2 w +p o) hidden_dim dim;;
  accum x (RS.xb s) dim.

(** One iteration of the loop over the layers (lines 238-338). *)
Definition layer (p : Config) (s : RunState) (w : TransformerWeights)
    (pos head_size : Z) (freq_cis_real_row freq_cis_imag_row : ptr) (l : Z) : prog F unit :=
  let x := RS.x s in
  let dim := dim p in
  o <- int (l *! dim);;
  rmsnorm (RS.xb s) x (rms_att_weight w +p o) dim;;
  qkv_matmuls p s w l;;
  rope p s freq_cis_real_row freq_cis_imag_row head_size;;
  loff <- int (l *! seq_len p *! dim);;
  save_kv p s pos loff;;
  attention p s pos loff head_size;;
  o <- int (l *! dim *! dim);;
  matmul (RS.xb2 s) (RS.xb s) (wo w +p o) dim dim;;
  accum x (RS.xb2 s) dim;;
  ffn p s w l.

Definition transformer (token pos : Z) (p : Config) (s : RunState)
    (w : TransformerWeights) : prog F unit :=
  let x := RS.x s in
  let dim := dim p in
  head_size <- int (dim /! n_heads p);;
  (* copy the token embedding into x *)
  o <- int (token *! dim);;
  let content_row := token_embedding_table w +p o in
  memcpy x content_row dim;;
  (* pluck out the "pos" row of freq_cis_real and freq_cis_imag *)
  o <- int (pos *! head_size /! 2);;
  let freq_cis_real_row := freq_cis_real w +p o in
  o <- int (pos *! head_size /! 2);;
  let freq_cis_imag_row := freq_cis_imag w +p o in
  (* forward all the layers *)
  for_range 0 (n_layers p)
    (layer p s w pos head_size freq_cis_real_row freq_cis_imag_row);;
  (* final rmsnorm *)
  rmsnorm x x (rms_final_weight w) dim;;
  (* classifier into logits *)
  matmul (RS.logits s) x (wcls w) dim (vocab_size p).

(** ** Sampling *)

(** [RAND_MAX] of [stdlib.h] (the GNU C library's value). *)
Definition RAND_MAX : Z := 2147483647.

(** The scan of [sample]: [fuel] entries are left, [i] is the next one. *)
Fixpoint sample_loop (fuel : nat) (probabilities : ptr) (n : Z) (r : F) (i : Z) (cdf : F)
  : prog F Z :=
  match fuel with
  | O => Ret (n - 1) (* in case of rounding errors *)
  | S fuel' =>
      pi <- load (probabilities +p i);;
      let cdf := cdf +~ pi in
      if f_lt r cdf then Ret i
      else sample_loop fuel' probabilities n r (i + 1) cdf
  end.

(** [rnd] is what the call of [rand()] returns. *)
Definition sample_r (rnd : Z) : F := f_of_int rnd /~ f_of_int RAND_MAX.

Definition sample (probabilities : ptr) (n : Z) (rnd : Z) : prog F Z :=
  sample_loop (Z.to_nat n) probabilities n (sample_r rnd) 0 f_zero.

Definition argmax (v : ptr) (n : Z) : prog F Z :=
  v0 <- load v;;
  (* the pair is (max_i, max_p) *)
  r <- fold_range 1 n (fun i r =>
         vi <- load (v +p i);;
         Ret (if f_gt vi (snd r) then (i, vi) else r)) (0, v0);;
  Ret (fst r).

End Transformer.

(** ** Initialization: the checkpoint and the run state *)

Definition obind {A B} (c : option A) (f : A -> option B) : option B :=
  match c with
  | Some a => f a
  | None => None
  end.

Notation "x <-? c ;; k" := (obind c (fun x => k))
  (at level 100, c at next level, right associativity).

(** How a run of [main] goes on: with a value, by leaving with an exit
    status, or into undefined behaviour. *)
Inductive outcome (A : Type) :=
| Done (a : A)
| Exit (status : Z)
| Undefined.
Global Arguments Done {A} a.
Global Arguments Exit {A} status.
Global Arguments Undefined {A}.

Section Init.
Context {F : Type} `{!FloatOps F}.

(** The increments of [ptr] are [int] expressions; there is no result when
    one of them has no value. *)
Definition checkpoint_init_weights (p : Config) (f : ptr) (shared_weights : bool)
  : option TransformerWeights :=
  let ptr := f in
  let token_embedding_table := ptr in
  n <-? int_eval (vocab_size p *! dim p);;
  let ptr := ptr +p n in
  let rms_att_weight := ptr in
  n <-? int_eval (n_layers p *! dim p);;
  let ptr := ptr +p n in
  let wq := ptr in
  n <-? int_eval (n_layers p *! dim p *! dim p);;
  let ptr := ptr +p n in
  let wk := ptr in
  n <-? int_eval (n_layers p *! dim p *! dim p);;
  let ptr := ptr +p n in
  let wv := ptr in
  n <-? int_eval (n_layers p *! dim p *! dim p);;
  let ptr := ptr +p n in
  let wo := ptr in
  n <-? int_eval (n_layers p *! dim p *! dim p);;
  let ptr := ptr +p n in
  let rms_ffn_weight := ptr in
  n <-? int_eval (n_layers p *! dim p);;
  let ptr := ptr +p n in
  let w1 := ptr in
  n <-? int_eval (n_layers p *! dim p *! hidden_dim p);;
  let ptr := ptr +p n in
  let w2 := ptr in
  n <-? int_eval (n_layers p *! hidden_dim p *! dim p);;
  let ptr := ptr +p n in
  let w3 := ptr in
  n <-? int_eval (n_layers p *! dim p *! hidden_dim p);;
  let ptr := ptr +p n in
  let rms_final_weight := ptr in
  let ptr := ptr +p dim p in
  let freq_cis_real := ptr in
  head_size <-? int_eval (dim p /! n_heads p);;
  n <-? int_eval (seq_len p *! head_size /! 2);;
  let ptr := ptr +p n in
  let freq_cis_imag := ptr in
  n <-? int_eval (seq_len p *! head_size /! 2);;
  let ptr := ptr +p n in
  Some {| token_embedding_table := token_embedding_table;
          rms_att_weight := rms_att_weight;
          rms_ffn_weight := rms_ffn_weight;
          wq := wq; wk := wk; wv := wv; wo := wo;
          w1 := w1; w2 := w2; w3 := w3;
          rms_final_weight := rms_final_weight;
          freq_cis_real := freq_cis_real;
          freq_cis_imag := freq_cis_imag;
          wcls := if shared_weights then token_embedding_table else ptr |}.

(** The [RunState] whose fields point to the twelve allocations. *)
Definition run_state : RunState :=
  {| RS.x := Ptr Buf_x 0; RS.xb := Ptr Buf_xb 0; RS.xb2 := Ptr Buf_xb2 0;
     RS.hb := Ptr Buf_hb 0; RS.hb2 := Ptr Buf_hb2 0;
     RS.q := Ptr Buf_q 0; RS.k := Ptr Buf_k 0; RS.v := Ptr Buf_v 0;
     RS.att := Ptr Buf_att 0; RS.logits := Ptr Buf_logits 0;
     RS.key_cache := Ptr Buf_key_cache 0; RS.value_cache := Ptr Buf_value_cache 0 |}.

(** [calloc(n, sizeof(float))] when it succeeds: [n] floats, all zero. *)
Definition calloc (n : Z) : list F := replicate (Z.to_nat n) f_zero.

(** [malloc_run_state(&state, &config)]; [data] is the mapped checkpoint.
    The counts of [att] and of the caches are [int] products.  [heap] tells
    whether the allocator has the memory asked for; a [calloc] also returns
    NULL for a count that is negative as an [int] (as a [size_t] its product
    with the size of a float overflows), and one NULL ends the program with
    [exit(1)].  A count of zero gives an allocation without a float (as the
    GNU C library does, where the result is not NULL). *)
Definition malloc_run_state (heap : bool) (p : Config) (data : list F) : outcome (mem F) :=
  match int_eval (n_heads p *! seq_len p), int_eval (n_layers p *! seq_len p *! dim p) with
  | Some n_att, Some n_cache =>
      if heap && forallb (Z.leb 0) [dim p; hidden_dim p; n_att; vocab_size p; n_cache]
      then Done (fun b =>
                   match b with
                   | Buf_x => calloc (dim p)
                   | Buf_xb => calloc (dim p)
                   | Buf_xb2 => calloc (dim p)
                   | Buf_hb => calloc (hidden_dim p)
                   | Buf_hb2 => calloc (hidden_dim p)
                   | Buf_q => calloc (dim p)
                   | Buf_k => calloc (dim p)
                   | Buf_v => calloc (dim p)
                   | Buf_att => calloc n_att
                   | Buf_logits => calloc (vocab_size p)
                   | Buf_key_cache => calloc n_cache
                   | Buf_value_cache => calloc n_cache
                   | Buf_data => data
                   end)
      else Exit 1
  | _, _ => Undefined
  end.

(** *** Reading the file *)

(** Four bytes, least significant first, as an unsigned 32-bit word. *)
Definition le_word (b0 b1 b2 b3 : byte) : Z :=
  Z.of_N (Byte.to_N b0) + 256 * Z.of_N (Byte.to_N b1)
  + 65536 * Z.of_N (Byte.to_N b2) + 16777216 * Z.of_N (Byte.to_N b3).

(** The same word read as an [int] (two's complement). *)
Definition le_int (b0 b1 b2 b3 : byte) : Z :=
  let u := le_word b0 b1 b2 b3 in
  if u <? 2147483648 then u else u - 4294967296.

(** The [k]-th [int] of the file. *)
Definition int_at (bytes : list byte) (k : nat) : option Z :=
  match bytes !! (4 * k)%nat, bytes !! (4 * k + 1)%nat,
        bytes !! (4 * k + 2)%nat, bytes !! (4 * k + 3)%nat with
  | Some b0, Some b1, Some b2, Some b3 => Some (le_int b0 b1 b2 b3)
  | _, _, _, _ => None
  end.

(** [fread(&config, sizeof(Config), 1, file)]: seven [int]s, or nothing when
    the file has fewer than 28 bytes. *)
Definition read_config (bytes : list byte) : option Config :=
  match int_at bytes 0, int_at bytes 1, int_at bytes 2, int_at bytes 3,
        int_at bytes 4, int_at bytes 5, int_at bytes 6 with
  | Some d, Some h, Some nl, Some nh, Some nkv, Some vs, Some sl =>
      Some {| dim := d; hidden_dim := h; n_layers := nl; n_heads := nh;
              n_kv_heads := nkv; vocab_size := vs; seq_len := sl |}
  | _, _, _, _, _, _, _ => None
  end.

(** Bytes read through a [float*]; trailing bytes that do not fill a float
    are out of reach. *)
Fixpoint floats_of_bytes (bytes : list byte) : list F :=
  match bytes with
  | b0 :: b1 :: b2 :: b3 :: rest => f_of_bits (le_word b0 b1 b2 b3) :: floats_of_bytes rest
  | _ => []
  end.

(** [mmap(NULL, file_size, ..., fd, 0)] maps whole pages of [page_size]
    bytes: the bytes after the end of the file, up to the end of its last
    page, read as zero. *)
Definition mmap (page_size : Z) (bytes : list byte) : list F :=
  let file_size := Z.of_nat (length bytes) in
  floats_of_bytes (bytes ++ replicate (Z.to_nat ((- file_size) mod page_size)) x00).

(** [abs] of [stdlib.h]: undefined when the result is not an [int]. *)
Definition c_abs (i : Z) : option Z :=
  if i =? INT_MIN then None else Some (Z.abs i).

Record checkpoint := {
  ck_config : Config;
  ck_shared_weights : bool;
  ck_data : list F;              (* the mapping [data], header included *)
  ck_weights : TransformerWeights
}.

(** [sizeof(Config) / sizeof(float)] *)
Definition header_floats : Z := 7.

(** [config.vocab_size = vs] *)
Definition set_vocab_size (config : Config) (vs : Z) : Config :=
  {| dim := dim config; hidden_dim := hidden_dim config; n_layers := n_layers config;
     n_heads := n_heads config; n_kv_heads := n_kv_heads config; vocab_size := vs;
     seq_len := seq_len config |}.

(** The block of [main] that reads the checkpoint (lines 455-482).  [file]
    is [None] when [fopen] fails; [mapped] tells whether [open] and the two
    calls of [mmap] succeed. *)
Definition load_checkpoint (page_size : Z) (file : option (list byte)) (mapped : bool)
  : outcome checkpoint :=
  match file with
  | None => Exit 1
  | Some bytes =>
      match read_config bytes with
      | None => Exit 1
      | Some config =>
          (* negative vocab size is hacky way of signaling unshared weights *)
          let shared_weights := 0 <? vocab_size config in
          match c_abs (vocab_size config) with
          | None => Undefined
          | Some vs =>
              let config := set_vocab_size config vs in
              if negb mapped then Exit 1
              else
                let data := Ptr Buf_data 0 in
                let weights_ptr := data +p header_floats in
                match checkpoint_init_weights config weights_ptr shared_weights with
                | None => Undefined
                | Some weights =>
                    Done {| ck_config := config;
                            ck_shared_weights := shared_weights;
                            ck_data := mmap page_size bytes;
                            ck_weights := weights |}
                end
          end
      end
  end.

(** ** The generation loop of [main] *)

(** Line 484. *)
Definition clamp_steps (steps seq_len : Z) : Z :=
  if (steps <=? 0) || (seq_len <? steps) then seq_len else steps.

(** Sample the next token (lines 640-650). *)
Definition next_token (temperature : F) (rnd : Z) (p : Config) (s : RunState) : prog F Z :=
  if f_eq temperature f_zero then
    (* greedy argmax sampling *)
    argmax (RS.logits s) (vocab_size p)
  else
    (* apply the temperature to the logits *)
    for_range 0 (vocab_size p) (fun q =>
      lq <- load (RS.logits s +p q);; store (RS.logits s +p q) (lq /~ temperature));;
    (* apply softmax to the logits to get the probabilities for next token *)
    softmax (RS.logits s) (vocab_size p);;
    sample (RS.logits s) (vocab_size p) rnd.

(** The body of the [while] loop, up to the choice of [next]. *)
Definition loop_body (temperature : F) (rnd : Z) (p : Config) (s : RunState)
    (w : TransformerWeights) (token pos : Z) : prog F Z :=
  transformer token pos p s w;;
  next_token temperature rnd p s.

(** One iteration as the loop went through it: the arguments of its call of
    [transformer], the token it chose and printed, its accesses and the memory
    after it. *)
Record step := {
  st_token : Z;
  st_pos : Z;
  st_next : Z;
  st_trace : list event;
  st_mem : mem F
}.

(** [while (pos < steps)] with [n] iterations to go.  [rand k] is what the
    [k]-th call of [rand()] after [srand(1337)] returns; the loop calls it
    once per iteration when it samples, so iteration [pos] gets [rand pos]. *)
Fixpoint generation_loop (n : nat) (temperature : F) (rand : Z -> Z) (p : Config)
    (s : RunState) (w : TransformerWeights) (token pos : Z) (m : mem F)
  : option (list step) :=
  match n with
  | O => Some []
  | S n' =>
      match run (loop_body temperature (rand pos) p s w token pos) m with
      | None => None
      | Some (next, m', t) =>
          match generation_loop n' temperature rand p s w next (pos + 1) m' with
          | None => None
          | Some rest =>
              Some ({| st_token := token; st_pos := pos; st_next := next;
                       st_trace := t; st_mem := m' |} :: rest)
          end
      end
  end.

(** [main] from line 484 on, without the tokenizer and the training path:
    the steps are clamped, the run state allocated, and the loop started at
    the BOS token.  A fault in the loop is undefined behaviour. *)
Definition generate (heap : bool) (steps : Z) (temperature : F) (rand : Z -> Z)
    (ck : checkpoint) : outcome (list step) :=
  let config := ck_config ck in
  let steps := clamp_steps steps (seq_len config) in
  match malloc_run_state heap config (ck_data ck) with
  | Done m =>
      let token := 1 in (* 1 = BOS token in Llama-2 sentencepiece *)
      let pos := 0 in
      match generation_loop (Z.to_nat (steps - pos)) temperature rand config run_state
              (ck_weights ck) token pos m with
      | Some trace => Done trace
      | None => Undefined
      end
  | Exit status => Exit status
  | Undefined => Undefined
  end.

End Init.
Global Arguments step : clear implicits.
Global Arguments checkpoint : clear implicits.

(** ** Resetting the run state *)

Section Reset.
Context {F : Type} `{!FloatOps F}.

(** [memset(p, 0, n * sizeof(float))]: every byte of the [n] floats from [p]
    on becomes zero, so each of them is [0.0f].  The size is a [size_t]: a
    negative [n] converts to more bytes than any buffer holds. *)
Definition memset_zero (p : ptr) (n : Z) : prog F unit :=
  if n <? 0 then Fault
  else for_range 0 n (fun i => store (p +p i) f_zero).

Definition zero_run_state (s : RunState) (p : Config) : prog F unit :=
  memset_zero (RS.x s) (dim p);;
  memset_zero (RS.xb s) (dim p);;
  memset_zero (RS.xb2 s) (dim p);;
  memset_zero (RS.hb s) (hidden_dim p);;
  memset_zero (RS.hb2 s) (hidden_dim p);;
  memset_zero (RS.q s) (dim p);;
  memset_zero (RS.k s) (dim p);;
  memset_zero (RS.v s) (dim p);;
  n <- int (n_heads p *! seq_len p);;
  memset_zero (RS.att s) n;;
  memset_zero (RS.logits s) (vocab_size p);;
  n <- int (n_layers p *! seq_len p *! dim p);;
  memset_zero (RS.key_cache s) n;;
  n <- int (n_layers p *! seq_len p *! dim p);;
  memset_zero (RS.value_cache s) n.

End Reset.

(** ** The tokenizer file and the printed text *)

Section Tokenizer.

(** The loop that reads [tokenizer.bin] (lines 496-501), with [n] entries to
    go: an [int] length, then as many bytes.  [fread] of an element of size 0
    returns 0, so an empty token ends the program with status 1, as does a
    file that ends early.  A negative length (converted to [size_t], the read
    overruns what [malloc(len + 1)] gave) and the length [INT_MAX] (where
    [len + 1] overflows) are undefined.  Every [malloc] is taken to succeed.
    An entry is kept as its [len] bytes; the code adds a zero byte after
    them. *)
Fixpoint read_vocab (n : nat) (bytes : list byte) : outcome (list (list byte)) :=
  match n with
  | O => Done []
  | S n' =>
      match bytes with
      | b0 :: b1 :: b2 :: b3 :: rest =>
          let len := le_int b0 b1 b2 b3 in
          if (len <? 0) || (len =? INT_MAX) then Undefined
          else if (len =? 0) || (Z.of_nat (length rest) <? len) then Exit 1
          else
            match read_vocab n' (drop (Z.to_nat len) rest) with
            | Done vocab => Done (take (Z.to_nat len) rest :: vocab)
            | Exit status => Exit status
            | Undefined => Undefined
            end
      | _ => Exit 1
      end
  end.

(** The block of [main] that reads the tokenizer (lines 486-503); [file] is
    [None] when [fopen] fails. *)
Definition load_tokenizer (file : option (list byte)) (vocab_size : Z)
  : outcome (list (list byte)) :=
  match file with
  | None => Exit 1
  | Some bytes => read_vocab (Z.to_nat vocab_size) bytes
  end.

(** What [printf("%s", s)] prints of an entry: its bytes up to the first zero
    byte. *)
Fixpoint c_string (bytes : list byte) : list byte :=
  match bytes with
  | [] => []
  | b :: rest => if Byte.eqb b x00 then [] else b :: c_string rest
  end.

(** [printf("%s", vocab[next])]; [None] when [next] is no index of [vocab]. *)
Definition token_text (vocab : list (list byte)) (next : Z) : option (list byte) :=
  if 0 <=? next then option_map c_string (vocab !! Z.to_nat next) else None.

(** The text the loop prints for the tokens it chooses, in order. *)
Fixpoint printed (vocab : list (list byte)) (nexts : list Z) : option (list byte) :=
  match nexts with
  | [] => Some []
  | next :: rest =>
      match token_text vocab next, printed vocab rest with
      | Some text, Some more => Some (text ++ more)
      | _, _ => None
      end
  end.

End Tokenizer.

(** ** Matching the training text against the vocabulary *)

Section Matching.

(** [strncmp(text, tok, strlen(tok)) == 0]: the bytes are compared in order
    up to the first difference ([tok] has no zero byte before its end);
    [None] when the comparison reads past the end of [text], which is not
    zero-terminated. *)
Fixpoint starts_with (text tok : list byte) {struct tok} : option bool :=
  match tok with
  | [] => Some true
  | t :: tok' =>
      match text with
      | [] => None
      | c :: text' => if Byte.eqb c t then starts_with text' tok' else Some false
      end
  end.

(** The loop over the vocabulary (lines 547-557), the entries from index [j]
    on being left to try. *)
Fixpoint match_loop (text : list byte) (vocab : list (list byte)) (j maxlen maxj : Z)
  : option (Z * Z) :=
  match vocab with
  | [] => Some (maxlen, maxj)
  | tok :: rest =>
      let s := c_string tok in
      let len := Z.of_nat (length s) in (* strlen(vocab[j]) *)
      match starts_with text s with
      | None => None
      | Some same =>
          if same && (maxlen <? len) then match_loop text rest (j + 1) len j
          else match_loop text rest (j + 1) maxlen maxj
      end
  end.

(** The match at [&train_text[i]]: [(maxlen, maxj)] when the loop is left. *)
Definition greedy_match (train_text : list byte) (i : Z) (vocab : list (list byte))
  : option (Z * Z) :=
  if (0 <=? i) && (i <? Z.of_nat (length train_text))
  then match_loop (drop (Z.to_nat i) train_text) vocab 0 (-1) (-1)
  else None.

End Matching.

(** ** The loss of the training path *)

Section Loss.
Context {F : Type} `{!FloatOps F}.

(** [x |-> (float)(-log((double)x + 1e-7))]: the logarithm of the C library,
    taken in double precision, is not part of run.c. *)
Variable neg_log_eps : F -> F.

(** [loss] (lines 375-388). *)
Definition loss (token pos : Z) (config : Config) (s : RunState) (w : TransformerWeights)
    (nexttok : Z) (temperature : F) : prog F F :=
  transformer token pos config s w;;
  (* apply the temperature to the logits *)
  for_range 0 (vocab_size config) (fun q =>
    lq <- load (RS.logits s +p q);; store (RS.logits s +p q) (lq /~ temperature));;
  (* apply softmax to the logits to get the probabilities for next token *)
  softmax (RS.logits s) (vocab_size config);;
  l <- load (RS.logits s +p nexttok);;
  Ret (neg_log_eps l).

End Loss.

(** ** IEEE-754 binary32 *)

Module B32.

Definition prec : Z := 24.
Definition emax : Z := 128.

Definition zero : spec_float := S754_zero false.
Definition one : spec_float := S754_finite false 8388608 (-23).
(** The float nearest to 1e-5 (bit pattern 0x3727C5AC). *)
Definition eps : spec_float := S754_finite false 10995116 (-40).

Definition of_int (i : Z) : spec_float := binary_normalize prec emax i 0 false.

Definition of_bits (w : Z) : spec_float :=
  let s := Z.testbit w 31 in
  let e := Z.land (Z.shiftr w 23) 255 in
  let f := Z.land w 8388607 in
  if e =? 255 then (if f =? 0 then S754_infinity s else S754_nan)
  else if e =? 0 then
    match f with Zpos m => S754_finite s m (-149) | _ => S754_zero s end
  else
    match f + 8388608 with Zpos m => S754_finite s m (e - 150) | _ => S754_nan end.

Definition add := SFadd prec emax.
Definition sub := SFsub prec emax.
Definition mul := SFmul prec emax.
Definition div := SFdiv prec emax.
Definition sqrt := SFsqrt prec emax.

Definition is_nan (a : spec_float) : bool :=
  match a with S754_nan => true | _ => false end.

(** [expf] belongs to the C library, and neither C nor IEEE 754 fixes its
    results beyond the special values ([expf(+-0) = 1], [expf(-inf) = +0],
    [expf(+inf) = +inf], NaN for NaN).  This instance rounds to binary32 an
    evaluation in binary64 (the Taylor polynomial of degree 14 at [a / 256],
    squared eight times), with overflow to [+inf] and underflow to [+0]; the
    theorems below hold for every [f_exp], and the examples that state a value
    evaluate it at zero only. *)
Definition prec64 : Z := 53.
Definition emax64 : Z := 1024.

Definition of_int64 (i : Z) : spec_float := binary_normalize prec64 emax64 i 0 false.

Fixpoint taylor (n : nat) (k : Z) (y : spec_float) : spec_float :=
  match n with
  | O => of_int64 1
  | S n' =>
      SFadd prec64 emax64 (of_int64 1)
        (SFmul prec64 emax64 (SFdiv prec64 emax64 y (of_int64 k)) (taylor n' (k + 1) y))
  end.

(** A binary64 number rounded to binary32. *)
Definition round32 (d : spec_float) : spec_float :=
  match d with
  | S754_finite s m e => binary_normalize prec emax (if s then Zneg m else Zpos m) e s
  | _ => d
  end.

Definition expf (a : spec_float) : spec_float :=
  match a with
  | S754_nan => S754_nan
  | S754_infinity s => if s then zero else S754_infinity false
  | S754_zero _ => one
  | S754_finite _ _ _ =>
      if SFltb (of_int 128) a then S754_infinity false
      else if SFltb a (of_int (-128)) then zero
      else round32 (Nat.iter 8 (fun e => SFmul prec64 emax64 e e)
                      (taylor 14 1 (SFdiv prec64 emax64 a (of_int64 256))))
  end.

Global Instance float_ops : FloatOps spec_float := {|
  f_zero := zero;
  f_one := one;
  f_eps := eps;
  f_add := add;
  f_sub := sub;
  f_mul := mul;
  f_div := div;
  f_neg := SFopp;
  f_sqrt := sqrt;
  f_exp := expf;
  f_of_int := of_int;
  f_of_bits := of_bits;
  f_lt := SFltb;
  f_eq := SFeqb;
  f_is_nan := is_nan
|}.

End B32.

(** ** Specifications *)

Section Specs.
Context {F : Type} `{!FloatOps F}.

Definition locset : Type := ptr -> Prop.

(** The [n] floats from [p] on. *)
Definition rng (p : ptr) (n : Z) : locset :=
  fun l => p_buf l = p_buf p /\ p_off p <= p_off l < p_off p + n.

Definition writes (t : list event) : locset := fun l => In (Wr l) t.

Definition writes_in (W : locset) (t : list event) : Prop :=
  forall l, In (Wr l) t -> W l.

(** Every read of the trace is of a place in [S] or of one the trace wrote
    before. *)
Fixpoint fresh_ok (S : locset) (t : list event) : Prop :=
  match t with
  | [] => True
  | Rd p :: t => S p /\ fresh_ok S t
  | Wr p :: t => fresh_ok (fun l => S l \/ l = p) t
  end.

Definition has_shape (len : buffer -> Z) (m : mem F) : Prop :=
  forall b, Z.of_nat (length (m b)) = len b.

Definition agree (S : locset) (m1 m2 : mem F) : Prop :=
  (forall b, length (m1 b) = length (m2 b)) /\
  (forall l, S l -> mem_load m1 l = mem_load m2 l).

(** [spec len S W c S' Q]: on every memory whose buffers have the lengths
    [len], [c] runs to the end without a fault; its result satisfies [Q]; it
    reads only places in [S] or written by itself before; it writes only
    places in [W]; and it writes every place of [S'] that is not in [S]. *)
Definition spec (len : buffer -> Z) (S W : locset) {A} (c : prog F A)
    (S' : locset) (Q : A -> Prop) : Prop :=
  forall m, has_shape len m ->
    exists a m' t, run c m = Some (a, m', t) /\ Q a /\
      fresh_ok S t /\ writes_in W t /\ (forall l, S' l -> S l \/ writes t l).

(** Two programs that run alike on every memory. *)
Definition same_run {A} (c c' : prog F A) : Prop := forall m, run c m = run c' m.

(** How often a trace writes a place. *)
Definition wcount (t : list event) (l : ptr) : nat := count_occ event_eq_dec t (Wr l).

(** Every run of [c] on a memory of shape [len] writes [l] exactly [n]
    times. *)
Definition cnt (len : buffer -> Z) {A} (c : prog F A) (l : ptr) (n : nat) : Prop :=
  forall m a m' t, has_shape len m -> run c m = Some (a, m', t) -> wcount t l = n.

End Specs.

(** ** Bounds, configurations and the places a step touches *)

(** [p] lies in its buffer. *)
Definition inb (len : buffer -> Z) (p : ptr) : Prop := 0 <= p_off p < len (p_buf p).

(** The [n] floats from [p] on lie in their buffer and in [S]. *)
Definition within (len : buffer -> Z) (S : locset) (p : ptr) (n : Z) : Prop :=
  forall i, 0 <= i < n -> inb len (p +p i) /\ S (p +p i).

(** The invariants of the data model: all fields positive, [dim] a multiple
    of [n_heads], an even [head_size], [n_kv_heads <= n_heads]. *)
Definition valid_config (p : Config) : Prop :=
  0 < dim p /\ 0 < hidden_dim p /\ 0 < n_layers p /\ 0 < n_heads p /\
  0 < n_kv_heads p /\ 0 < vocab_size p /\ 0 < seq_len p /\
  Z.rem (dim p) (n_heads p) = 0 /\
  Z.even (Z.quot (dim p) (n_heads p)) = true /\
  n_kv_heads p <= n_heads p.

(** The sizes are such that every [int] product of sizes that the code
    forms is an [int]: with the invariants of [valid_config], the four
    products below bound all of them. *)
Definition int_sized (p : Config) : Prop :=
  vocab_size p * dim p <= INT_MAX /\
  n_layers p * dim p * dim p <= INT_MAX /\
  n_layers p * dim p * hidden_dim p <= INT_MAX /\
  n_layers p * seq_len p * dim p <= INT_MAX.

(** The lengths of the buffers after [malloc_run_state], the mapping having
    [dlen] floats. *)
Definition state_len (p : Config) (dlen : Z) (b : buffer) : Z :=
  match b with
  | Buf_x | Buf_xb | Buf_xb2 | Buf_q | Buf_k | Buf_v => dim p
  | Buf_hb | Buf_hb2 => hidden_dim p
  | Buf_att => n_heads p * seq_len p
  | Buf_logits => vocab_size p
  | Buf_key_cache | Buf_value_cache => n_layers p * seq_len p * dim p
  | Buf_data => dlen
  end.

(** [n] floats at [q] lie in the mapping. *)
Definition in_data (dlen : Z) (q : ptr) (n : Z) : Prop :=
  p_buf q = Buf_data /\ 0 <= p_off q /\ p_off q + n <= dlen.

(** Every tensor of [w] lies in the mapping. *)
Definition weights_in_data (p : Config) (dlen : Z) (w : TransformerWeights) : Prop :=
  let hs := Z.quot (dim p) (n_heads p) in
  in_data dlen (token_embedding_table w) (vocab_size p * dim p) /\
  in_data dlen (rms_att_weight w) (n_layers p * dim p) /\
  in_data dlen (rms_ffn_weight w) (n_layers p * dim p) /\
  in_data dlen (wq w) (n_layers p * (dim p * dim p)) /\
  in_data dlen (wk w) (n_layers p * (dim p * dim p)) /\
  in_data dlen (wv w) (n_layers p * (dim p * dim p)) /\
  in_data dlen (wo w) (n_layers p * (dim p * dim p)) /\
  in_data dlen (w1 w) (n_layers p * (hidden_dim p * dim p)) /\
  in_data dlen (w2 w) (n_layers p * (dim p * hidden_dim p)) /\
  in_data dlen (w3 w) (n_layers p * (hidden_dim p * dim p)) /\
  in_data dlen (rms_final_weight w) (dim p) /\
  in_data dlen (freq_cis_real w) (seq_len p * (hs / 2)) /\
  in_data dlen (freq_cis_imag w) (seq_len p * (hs / 2)) /\
  in_data dlen (wcls w) (vocab_size p * dim p).

(** The number of floats the header implies after itself (section 4.1 of
    the format): [wcls] only when the weights are not shared. *)
Definition weights_floats (p : Config) (shared_weights : bool) : Z :=
  let hs := Z.quot (dim p) (n_heads p) in
  vocab_size p * dim p + n_layers p * dim p
  + 4 * (n_layers p * dim p * dim p)
  + n_layers p * dim p
  + 3 * (n_layers p * dim p * hidden_dim p)
  + dim p
  + 2 * Z.quot (seq_len p * hs) 2
  + (if shared_weights then 0 else vocab_size p * dim p).

(** The [int] expressions that [checkpoint_init_weights] evaluates. *)
Definition layout_ints (p : Config) : list int_exp :=
  [vocab_size p *! dim p; n_layers p *! dim p; n_layers p *! dim p *! dim p;
   n_layers p *! dim p *! hidden_dim p; n_layers p *! hidden_dim p *! dim p;
   dim p /! n_heads p; seq_len p *! Z.quot (dim p) (n_heads p) /! 2].

(** The mapping and the two caches: what a step may read without having
    written it. *)
Definition persistent : locset :=
  fun l => p_buf l = Buf_data \/ p_buf l = Buf_key_cache \/ p_buf l = Buf_value_cache.

(** The scratch vectors other than [att]. *)
Definition scratch : locset :=
  fun l => p_buf l = Buf_x \/ p_buf l = Buf_xb \/ p_buf l = Buf_xb2 \/
           p_buf l = Buf_hb \/ p_buf l = Buf_hb2 \/ p_buf l = Buf_q \/
           p_buf l = Buf_k \/ p_buf l = Buf_v \/ p_buf l = Buf_logits.

(** The entries [0..pos] of the rows of [att] of the heads below [h]. *)
Definition att_rows (p : Config) (pos h : Z) : locset :=
  fun l => p_buf l = Buf_att /\
           exists h', 0 <= h' < h /\ h' * seq_len p <= p_off l <= h' * seq_len p + pos.

(** The slot [(l, pos)] of a cache. *)
Definition kv_slot (p : Config) (cache : buffer) (l pos : Z) : locset :=
  rng (Ptr cache (l * seq_len p * dim p + pos * dim p)) (dim p).

(** The slots at [pos] of both caches, of the layers below [n]. *)
Definition kv_slots (p : Config) (pos n : Z) : locset :=
  fun l => exists ly, 0 <= ly < n /\
           (kv_slot p Buf_key_cache ly pos l \/ kv_slot p Buf_value_cache ly pos l).

(** What a forward pass at [pos] may write. *)
Definition step_writes (p : Config) (pos : Z) : locset :=
  fun l => scratch l \/ att_rows p pos (n_heads p) l \/ kv_slots p pos (n_layers p) l.

(** What a layer leaves written: the scratch vectors [xb] to [v] in full,
    and of [att] the entries [0..pos] of each row. *)
Definition layer_written (p : Config) (pos : Z) : locset :=
  fun l => rng (RS.xb run_state) (dim p) l \/ rng (RS.xb2 run_state) (dim p) l \/
           rng (RS.hb run_state) (hidden_dim p) l \/
           rng (RS.hb2 run_state) (hidden_dim p) l \/
           rng (RS.q run_state) (dim p) l \/ rng (RS.k run_state) (dim p) l \/
           rng (RS.v run_state) (dim p) l \/ att_rows p pos (n_heads p) l.

(** What a forward pass leaves written. *)
Definition step_written (p : Config) (pos : Z) : locset :=
  fun l => rng (RS.x run_state) (dim p) l \/
           rng (RS.logits run_state) (vocab_size p) l \/ layer_written p pos l.

(** The two caches. *)
Definition in_cache (x : ptr) : Prop :=
  p_buf x = Buf_key_cache \/ p_buf x = Buf_value_cache.

(** The rows of the positions below [n] of layer [l], in both caches. *)
Definition cache_rows (p : Config) (l n : Z) : locset :=
  fun x => exists c t, (c = Buf_key_cache \/ c = Buf_value_cache) /\ 0 <= t < n /\
                       kv_slot p c l t x.

(** What a forward pass at [pos] may depend on: the mapping and the cache
    rows of the positions before [pos]. *)
Definition past (p : Config) (pos : Z) : locset :=
  fun x => p_buf x = Buf_data \/ exists l, 0 <= l < n_layers p /\ cache_rows p l pos x.

(** ** Runs of the generation loop *)

Section RunVocabulary.
Context {F : Type} `{!FloatOps F}.

(** [st] is an iteration of the loop started on the memory [m]. *)
Definition step_of (temperature : F) (rand : Z -> Z) (p : Config) (w : TransformerWeights)
    (m : mem F) (st : step F) : Prop :=
  run (loop_body temperature (rand (st_pos st)) p run_state w (st_token st) (st_pos st)) m
  = Some (st_next st, st_mem st, st_trace st).

(** [trace] is a run of the loop from the state [(token, pos)] and the memory
    [m]: each iteration starts where the one before ended. *)
Fixpoint steps_from (temperature : F) (rand : Z -> Z) (p : Config) (w : TransformerWeights)
    (token pos : Z) (m : mem F) (trace : list (step F)) : Prop :=
  match trace with
  | [] => True
  | st :: rest =>
      st_token st = token /\ st_pos st = pos /\ step_of temperature rand p w m st /\
      steps_from temperature rand p w (st_next st) (pos + 1) (st_mem st) rest
  end.

(** What holds of every iteration of a run on a valid configuration. *)
Definition step_good (p : Config) (dlen : Z) (st : step F) : Prop :=
  0 <= st_pos st < seq_len p /\ 0 <= st_token st < vocab_size p /\
  0 <= st_next st < vocab_size p /\
  has_shape (state_len p dlen) (st_mem st) /\
  fresh_ok persistent (st_trace st) /\
  writes_in (step_writes p (st_pos st)) (st_trace st) /\
  (forall x, step_written p (st_pos st) x -> writes (st_trace st) x) /\
  (forall x, kv_slots p (st_pos st) (n_layers p) x -> wcount (st_trace st) x = 1%nat).

(** All the accesses of a run, in order. *)
Definition run_trace (trace : list (step F)) : list event :=
  concat (map st_trace trace).

(** A checkpoint the loop can run on: the configuration satisfies the
    invariants of the data model, its sizes do not overflow an [int], the BOS
    token 1 is a token, and the tensors lie in the mapping. *)
Definition runnable (ck : checkpoint F) : Prop :=
  valid_config (ck_config ck) /\ int_sized (ck_config ck) /\
  2 <= vocab_size (ck_config ck) /\
  weights_in_data (ck_config ck) (Z.of_nat (length (ck_data ck))) (ck_weights ck).

(** The effective step count, in the words of the specification. *)
Definition steps_eff (requested_steps seq_len : Z) : Z :=
  if (0 <? requested_steps) && (requested_steps <=? seq_len) then requested_steps
  else seq_len.

End RunVocabulary.

(** ** The sampler, in the words of the specification *)

Section SamplerSpec.
Context {F : Type} `{!FloatOps F}.

(** Left-to-right scan with the index of the element at hand. *)
Fixpoint fold_list {A} (g : Z -> A -> F -> A) (xs : list F) (i : Z) (a : A) : A :=
  match xs with
  | [] => a
  | x :: rest => fold_list g rest (i + 1) (g i a x)
  end.

(** "the index of the maximum value, ties broken by lowest index (first
    occurrence during a left-to-right scan)" *)
Definition argmax_list (v : list F) : Z :=
  fst (fold_list (fun i (r : Z * F) vi => if f_gt vi (snd r) then (i, vi) else r)
         (tail v) 1 (0, hd f_zero v)).

Definition list_max (xs : list F) : F :=
  fold_left (fun mx x => if f_gt x mx then x else mx) (tail xs) (hd f_zero xs).

(** "numerically stable softmax (subtract max, exponentiate, normalize)" *)
Definition softmax_list (xs : list F) : list F :=
  let mx := list_max xs in
  let es := map (fun x => f_exp (x -~ mx)) xs in
  let sum := fold_left f_add es f_zero in
  map (fun e => e /~ sum) es.

(** The cumulative sum of the probabilities up to and including index [j]. *)
Definition cumsum (probs : list F) (j : nat) : F :=
  fold_left f_add (take (Datatypes.S j) probs) f_zero.

(** "scan the cumulative sum of probabilities and return the first index
    whose cumulative sum exceeds r; if ... no index satisfies this, return the
    last index" *)
Fixpoint scan (probs : list F) (r : F) (i : Z) (cdf : F) (last : Z) : Z :=
  match probs with
  | [] => last
  | pr :: rest => if f_lt r (cdf +~ pr) then i else scan rest r (i + 1) (cdf +~ pr) last
  end.

(** "divide every logit by temperature, apply softmax, draw ... r ..., scan" *)
Definition probabilities (temperature : F) (logits : list F) : list F :=
  softmax_list (map (fun x => x /~ temperature) logits).

Definition sampler (temperature : F) (logits : list F) (r : F) : Z :=
  scan (probabilities temperature logits) r 0 f_zero (Z.of_nat (length logits) - 1).

End SamplerSpec.

(** ** Products, first maxima and buffers rewritten in place *)

Section Products.
Context {F : Type} `{!FloatOps F}.

(** [y_i = sum_j W[i,j] x_j], the sum taken from [j = 0] up. *)
Fixpoint dot_loop (wrow xv : Z -> F) (n : nat) (j : Z) (acc : F) : F :=
  match n with
  | O => acc
  | S n' => dot_loop wrow xv n' (j + 1) (acc +~ wrow j *~ xv j)
  end.

Definition dot (wrow xv : Z -> F) (n : Z) : F := dot_loop wrow xv (Z.to_nat n) 0 f_zero.

(** The float at [p], zero when [p] is outside its buffer. *)
Definition val (m : mem F) (p : ptr) : F := default f_zero (mem_load m p).

(** [(mi, mp)] is the first maximum of [pre]. *)
Definition first_max (pre : list F) (r : Z * F) : Prop :=
  0 <= fst r < Z.of_nat (length pre) /\
  pre !! Z.to_nat (fst r) = Some (snd r) /\
  (forall j vj, pre !! j = Some vj -> f_gt vj (snd r) = false) /\
  (forall j vj, (j < Z.to_nat (fst r))%nat -> pre !! j = Some vj -> f_gt (snd r) vj = true).

(** What the scan keeps of [pre], whatever the floats are: a place of
    [pre] with its content, and no later entry compares greater. *)
Definition scan_kept (pre : list F) (r : Z * F) : Prop :=
  0 <= fst r < Z.of_nat (length pre) /\
  pre !! Z.to_nat (fst r) = Some (snd r) /\
  (forall j vj, (Z.to_nat (fst r) < j)%nat -> pre !! j = Some vj -> f_gt vj (snd r) = false).

(** Row [i] of the [l]-th [dim x dim] block of tensor [t], times [xb]. *)
Definition row_times_xb (p : Config) (m : mem F) (t : ptr) (l i : Z) : F :=
  dot (fun j => val m (t +p l * dim p * dim p +p (i * dim p + j)))
      (fun j => val m (RS.xb run_state +p j)) (dim p).

(** The buffer while a loop rewrites it in place: [g] applied to the first
    [i] entries. *)
Definition partly (g : F -> F) (xs : list F) (i : nat) : list F :=
  map g (take i xs) ++ drop i xs.

End Products.

(** ** Files written for the loaders *)

(** The byte with the value [z mod 256]. *)
Definition byte_of (z : Z) : byte := default x00 (Byte.of_N (Z.to_N (z mod 256))).

(** An [int] as its four bytes, least significant first, two's complement. *)
Definition int_bytes (z : Z) : list byte :=
  let u := z mod 4294967296 in
  [byte_of u; byte_of (u / 256); byte_of (u / 65536); byte_of (u / 16777216)].

(** A vocabulary as a tokenizer file: for each token its length and its
    bytes. *)
Definition tokenizer_bytes (vocab : list (list byte)) : list byte :=
  concat (map (fun tok => int_bytes (Z.of_nat (length tok)) ++ tok) vocab).

(** A configuration as the 28 bytes of a header. *)
Definition config_bytes (c : Config) : list byte :=
  int_bytes (dim c) ++ int_bytes (hidden_dim c) ++ int_bytes (n_layers c)
  ++ int_bytes (n_heads c) ++ int_bytes (n_kv_heads c) ++ int_bytes (vocab_size c)
  ++ int_bytes (seq_len c).

(** Every field is an [int]. *)
Definition int_config (c : Config) : Prop :=
  Forall (fun z => INT_MIN <= z <= INT_MAX)
    [dim c; hidden_dim c; n_layers c; n_heads c; n_kv_heads c; vocab_size c; seq_len c].

(** [(maxlen, maxj)] is the first longest entry of [vocab] that [text] starts
    with, or [(-1, -1)] when it starts with none. *)
Definition first_longest (text : list byte) (vocab : list (list byte)) (maxlen maxj : Z)
  : Prop :=
  (maxlen = -1 /\ maxj = -1 /\
   forall j tok, vocab !! j = Some tok -> ~ c_string tok `prefix_of` text)
  \/ (0 <= maxj /\
      exists tok, vocab !! Z.to_nat maxj = Some tok /\ c_string tok `prefix_of` text /\
        maxlen = Z.of_nat (length (c_string tok)) /\
        forall j tok', vocab !! j = Some tok' -> c_string tok' `prefix_of` text ->
          Z.of_nat (length (c_string tok')) <= maxlen /\
          (Z.of_nat (length (c_string tok')) = maxlen -> maxj <= Z.of_nat j)).

(** ** Ranges of memory as lists *)

Section Slices.
Context {F : Type} `{!FloatOps F}.

(** The [n] floats from [p] on, as a list (zero where the memory has none). *)
Definition slice (m : mem F) (p : ptr) (n : Z) : list F :=
  map (fun i => val m (p +p Z.of_nat i)) (seq 0 (Z.to_nat n)).

(** The [n] floats from [p] on exist. *)
Definition allocated (m : mem F) (p : ptr) (n : Z) : Prop :=
  forall i, 0 <= i < n -> is_Some (mem_load m (p +p i)).

(** No place of the one range is a place of the other. *)
Definition apart (p : ptr) (n : Z) (q : ptr) (k : Z) : Prop :=
  forall l, rng p n l -> ~ rng q k l.

(** [m'] holds what [m] holds but for the [n] floats from [p] on. *)
Definition same_outside (p : ptr) (n : Z) (m m' : mem F) : Prop :=
  forall l, ~ rng p n l -> mem_load m' l = mem_load m l.

(** The factor of [rmsnorm]: [1 / sqrt(sum(x_j^2) / size + 1e-5)]. *)
Definition rms_scale (xs : list F) (size : Z) : F :=
  f_one /~ f_sqrt (fold_left (fun ss xj => ss +~ xj *~ xj) xs f_zero /~ f_of_int size +~ f_eps).

End Slices.

(** ** A small checkpoint and small memories *)

Module Toy.

Definition toy_config : Config :=
  {| dim := 2; hidden_dim := 2; n_layers := 1; n_heads := 1; n_kv_heads := 1;
     vocab_size := 2; seq_len := 2 |}.

(** The mapping: 7 header floats and the 42 floats the header implies, the
    float at index [i] being [i]. *)
Definition toy_data : list spec_float :=
  map (fun i => B32.of_int (Z.of_nat i)) (seq 0 49).

(** Where [checkpoint_init_weights] puts the tensors of [toy_config], tied
    weights. *)
Definition toy_tensors : TransformerWeights :=
  {| token_embedding_table := Ptr Buf_data 7;
     rms_att_weight := Ptr Buf_data 11;
     rms_ffn_weight := Ptr Buf_data 29;
     wq := Ptr Buf_data 13; wk := Ptr Buf_data 17; wv := Ptr Buf_data 21;
     wo := Ptr Buf_data 25;
     w1 := Ptr Buf_data 31; w2 := Ptr Buf_data 35; w3 := Ptr Buf_data 39;
     rms_final_weight := Ptr Buf_data 43;
     freq_cis_real := Ptr Buf_data 45;
     freq_cis_imag := Ptr Buf_data 47;
     wcls := Ptr Buf_data 7 |}.

Definition toy_ck : checkpoint spec_float :=
  {| ck_config := toy_config;
     ck_shared_weights := true;
     ck_data := toy_data;
     ck_weights := toy_tensors |}.

(** The memory [malloc_run_state] gives for [toy_config]. *)
Definition toy_mem : mem spec_float :=
  fun b => match b with
           | Buf_data => toy_data
           | Buf_key_cache | Buf_value_cache => replicate 4 B32.zero
           | _ => replicate 2 B32.zero
           end.

(** The same memory with [att] as an earlier step might have left it. *)
Definition toy_mem_att : mem spec_float :=
  fun b => match b with
           | Buf_att => [B32.of_int 5; B32.of_int 7]
           | _ => toy_mem b
           end.

(** The 28 bytes of the header of [toy_config], tied weights. *)
Definition toy_header : list byte :=
  [x02; x00; x00; x00;  x02; x00; x00; x00;  x01; x00; x00; x00;  x01; x00; x00; x00;
   x01; x00; x00; x00;  x02; x00; x00; x00;  x02; x00; x00; x00].

(** The same header with the vocabulary size stored as [-2]. *)
Definition untied_header : list byte :=
  [x02; x00; x00; x00;  x02; x00; x00; x00;  x01; x00; x00; x00;  x01; x00; x00; x00;
   x01; x00; x00; x00;  xfe; xff; xff; xff;  x02; x00; x00; x00].

Definition untied_raw : Config :=
  {| dim := 2; hidden_dim := 2; n_layers := 1; n_heads := 1; n_kv_heads := 1;
     vocab_size := -2; seq_len := 2 |}.

(** Four logits, the maximum twice. *)
Definition four_config : Config :=
  {| dim := 2; hidden_dim := 2; n_layers := 1; n_heads := 1; n_kv_heads := 1;
     vocab_size := 4; seq_len := 2 |}.

Definition four_mem : mem spec_float :=
  fun b => match b with
           | Buf_logits => map B32.of_int [1; 3; 3; 2]
           | _ => []
           end.

(** The toy memory with [xb = (1, 0)]. *)
Definition toy_mem_xb : mem spec_float :=
  fun b => match b with
           | Buf_xb => [B32.of_int 1; B32.of_int 0]
           | _ => toy_mem b
           end.

(** Three logits, the first of them a NaN. *)
Definition nan_config : Config :=
  {| dim := 2; hidden_dim := 2; n_layers := 1; n_heads := 1; n_kv_heads := 1;
     vocab_size := 3; seq_len := 2 |}.

Definition nan_mem : mem spec_float :=
  fun b => match b with
           | Buf_logits => [S754_nan; B32.of_int 1; B32.of_int 2]
           | _ => []
           end.

(** A vocabulary of one token. *)
Definition one_config : Config :=
  {| dim := 2; hidden_dim := 2; n_layers := 1; n_heads := 1; n_kv_heads := 1;
     vocab_size := 1; seq_len := 2 |}.

Definition one_mem : mem spec_float :=
  fun b => match b with
           | Buf_logits => [B32.of_int 5]
           | _ => []
           end.

(** A whole file for [toy_config]: the header and 42 floats, all zero. *)
Definition toy_file : list byte := toy_header ++ replicate 168 x00.

(** The checkpoint it loads as, with pages of 4096 bytes. *)
Definition toy_file_ck : checkpoint spec_float :=
  {| ck_config := toy_config;
     ck_shared_weights := true;
     ck_data := mmap 4096 toy_file;
     ck_weights := toy_tensors |}.

(** The two tokens [a] and [bc], and their tokenizer file. *)
Definition toy_vocab : list (list byte) := [[x61]; [x62; x63]].

Definition toy_tokenizer : list byte := tokenizer_bytes toy_vocab.

End Toy.

(** ** Order of binary32 *)

Module B32Order.
Import B32.

(** The comparison of binary32 numbers is a strict weak order. *)

Ltac cmp_cases :=
  repeat match goal with
  | H : context [Z.compare ?x ?y] |- _ => destruct (Z.compare_spec x y); simpl in H
  | |- context [Z.compare ?x ?y] => destruct (Z.compare_spec x y); simpl
  | H : context [Pos.compare ?x ?y] |- _ => destruct (Pos.compare_spec x y); simpl in H
  | |- context [Pos.compare ?x ?y] => destruct (Pos.compare_spec x y); simpl
  end.

Ltac sf_cases a b c :=
  unfold SFltb, SFcompare;
  destruct a as [[]|[]| |[] ? ?], b as [[]|[]| |[] ? ?], c as [[]|[]| |[] ? ?];
  simpl; intros; try discriminate; try reflexivity;
  change (Pos.compare_cont Eq) with Pos.compare in *;
  cmp_cases; try discriminate; try reflexivity; try lia.

Lemma SFltb_irrefl a : SFltb a a = false.
Proof.
  unfold SFltb, SFcompare. destruct a as [[]|[]| |[] m e]; try reflexivity;
    change (Pos.compare_cont Eq) with Pos.compare; rewrite Z.compare_refl, Pos.compare_refl;
    reflexivity.
Qed.

Lemma SFltb_trans a b c : SFltb a b = true -> SFltb b c = true -> SFltb a c = true.
Proof. sf_cases a b c. Qed.

Lemma SFltb_negtrans a b c :
  is_nan c = false -> SFltb b a = true -> SFltb b c = false -> SFltb c a = true.
Proof. unfold is_nan. sf_cases a b c. Qed.

Global Instance float_order : FloatOrder spec_float := {|
  f_lt_irrefl := SFltb_irrefl;
  f_lt_trans := SFltb_trans;
  f_lt_negtrans := SFltb_negtrans
|}.

End B32Order.

(** ** [int] expressions *)

Lemma int_ok_in_int z : int_ok z = true <-> in_int z.
Proof. unfold int_ok, in_int. rewrite andb_true_iff, !Z.leb_le. reflexivity. Qed.

(** An expression has a value exactly when no operation of it overflows or
    divides by zero, and the value is then the one over the integers. *)
Lemma int_eval_safe e : int_safe e -> int_eval e = Some (int_value e).
Proof.
  induction e as [z | a IHa b IHb | a IHa b IHb | a IHa b IHb]; cbn [int_safe int_eval int_value].
  - reflexivity.
  - intros (Ha & Hb & Hr). rewrite (IHa Ha), (IHb Hb). unfold checked.
    rewrite (proj2 (int_ok_in_int _) Hr). reflexivity.
  - intros (Ha & Hb & Hr). rewrite (IHa Ha), (IHb Hb). unfold checked.
    rewrite (proj2 (int_ok_in_int _) Hr). reflexivity.
  - intros (Ha & Hb & Hz & Hr). rewrite (IHa Ha), (IHb Hb).
    destruct (Z.eqb_spec (int_value b) 0); [contradiction|]. unfold checked.
    rewrite (proj2 (int_ok_in_int _) Hr). reflexivity.
Qed.

Lemma int_eval_Some e : forall z, int_eval e = Some z -> z = int_value e /\ int_safe e.
Proof.
  induction e as [z0 | a IHa b IHb | a IHa b IHb | a IHa b IHb];
    cbn [int_safe int_eval int_value]; intros z.
  - intros [= <-]. split; [reflexivity | exact I].
  - destruct (int_eval a) as [x|]; [|discriminate].
    destruct (int_eval b) as [y|]; [|discriminate].
    destruct (IHa x eq_refl) as [-> Ha]. destruct (IHb y eq_refl) as [-> Hb].
    unfold checked. destruct (int_ok _) eqn:E; [|discriminate].
    intros [= <-]. apply int_ok_in_int in E. auto.
  - destruct (int_eval a) as [x|]; [|discriminate].
    destruct (int_eval b) as [y|]; [|discriminate].
    destruct (IHa x eq_refl) as [-> Ha]. destruct (IHb y eq_refl) as [-> Hb].
    unfold checked. destruct (int_ok _) eqn:E; [|discriminate].
    intros [= <-]. apply int_ok_in_int in E. auto.
  - destruct (int_eval a) as [x|]; [|discriminate].
    destruct (int_eval b) as [y|]; [|discriminate].
    destruct (IHa x eq_refl) as [-> Ha]. destruct (IHb y eq_refl) as [-> Hb].
    destruct (Z.eqb_spec (int_value b) 0); [discriminate|].
    unfold checked. destruct (int_ok _) eqn:E; [|discriminate].
    intros [= <-]. apply int_ok_in_int in E. auto.
Qed.

(** ** The memory monad *)

Section MonadFacts.
Context {F : Type} `{!FloatOps F}.

Lemma run_bind {A B} (c : prog F A) (f : A -> prog F B) m :
  run (bind c f) m =
  match run c m with
  | Some (a, m1, t1) =>
      match run (f a) m1 with
      | Some (b, m2, t2) => Some (b, m2, t1 ++ t2)
      | None => None
      end
  | None => None
  end.
Proof.
  revert m. induction c as [a | p k IH | p v k IH | ]; intros m; simpl.
  - destruct (run (f a) m) as [[[b m2] t2]|]; reflexivity.
  - destruct (mem_load m p) as [v|]; [|reflexivity].
    rewrite IH. destruct (run (k v) m) as [[[a m1] t1]|]; [|reflexivity].
    destruct (run (f a) m1) as [[[b m2] t2]|]; reflexivity.
  - destruct (mem_store m p v) as [m0|]; [|reflexivity].
    rewrite IH. destruct (run k m0) as [[[a m1] t1]|]; [|reflexivity].
    destruct (run (f a) m1) as [[[b m2] t2]|]; reflexivity.
  - reflexivity.
Qed.

Lemma mem_load_Some (m : mem F) p :
  0 <= p_off p < Z.of_nat (length (m (p_buf p))) -> exists v, mem_load m p = Some v.
Proof.
  intros H. unfold mem_load.
  destruct (Z.leb_spec 0 (p_off p)); [|lia].
  destruct (lookup_lt_is_Some_2 (m (p_buf p)) (Z.to_nat (p_off p))) as [v Hv]; [lia|].
  exists v. exact Hv.
Qed.

Lemma mem_store_Some (m : mem F) p v :
  0 <= p_off p < Z.of_nat (length (m (p_buf p))) -> exists m', mem_store m p v = Some m'.
Proof.
  intros H. unfold mem_store.
  destruct (Z.leb_spec 0 (p_off p)); [|lia].
  destruct (Z.ltb_spec (p_off p) (Z.of_nat (length (m (p_buf p))))); [|lia].
  simpl. eauto.
Qed.

Lemma mem_store_length (m m' : mem F) p v b :
  mem_store m p v = Some m' -> length (m' b) = length (m b).
Proof.
  unfold mem_store. destruct (_ && _); [|discriminate].
  intros [= <-]. destruct (decide (b = p_buf p)); [|reflexivity].
  apply length_insert.
Qed.

Lemma mem_store_same (m m' : mem F) p v :
  mem_store m p v = Some m' -> mem_load m' p = Some v.
Proof.
  unfold mem_store, mem_load.
  destruct (Z.leb_spec 0 (p_off p)); [|discriminate].
  destruct (Z.ltb_spec (p_off p) (Z.of_nat (length (m (p_buf p))))); [|discriminate].
  simpl. intros [= <-]. destruct (decide (p_buf p = p_buf p)); [|congruence].
  apply list_lookup_insert_eq. lia.
Qed.

Lemma mem_store_other (m m' : mem F) p v l :
  mem_store m p v = Some m' -> l <> p -> mem_load m' l = mem_load m l.
Proof.
  unfold mem_store, mem_load.
  destruct (Z.leb_spec 0 (p_off p)); [|discriminate].
  destruct (_ <? _); [|discriminate]. simpl.
  intros [= <-] Hne. destruct (Z.leb_spec 0 (p_off l)); [|reflexivity].
  destruct (decide (p_buf l = p_buf p)) as [Hb|]; [|reflexivity].
  apply list_lookup_insert_ne. intros Ho.
  apply Hne. destruct l as [lb lo], p as [pb po]; simpl in *.
  f_equal; [exact Hb | lia].
Qed.

Lemma mem_store_Some_inv (m m' : mem F) p v :
  mem_store m p v = Some m' -> 0 <= p_off p < Z.of_nat (length (m (p_buf p))).
Proof.
  unfold mem_store.
  destruct (Z.leb_spec 0 (p_off p)); [|discriminate].
  destruct (Z.ltb_spec (p_off p) (Z.of_nat (length (m (p_buf p))))); [|discriminate].
  lia.
Qed.

Lemma mem_load_Some_inv (m : mem F) p v :
  mem_load m p = Some v -> 0 <= p_off p < Z.of_nat (length (m (p_buf p))).
Proof.
  unfold mem_load. destruct (Z.leb_spec 0 (p_off p)); [|discriminate].
  intros Hl. apply lookup_lt_Some in Hl. lia.
Qed.

(** Running a program never changes the length of a buffer. *)
Lemma run_length {A} (c : prog F A) m a m' t :
  run c m = Some (a, m', t) -> forall b, length (m' b) = length (m b).
Proof.
  revert m a m' t. induction c as [a0 | p k IH | p v k IH | ]; intros m a m' t; simpl.
  - intros [= _ <- _]. reflexivity.
  - destruct (mem_load m p) as [v|]; [|discriminate].
    destruct (run (k v) m) as [[[a1 m1] t1]|] eqn:Hr; [|discriminate].
    intros [= _ <- _]. eapply IH, Hr.
  - destruct (mem_store m p v) as [m0|] eqn:Hs; [|discriminate].
    destruct (run k m0) as [[[a1 m1] t1]|] eqn:Hr; [|discriminate].
    intros [= _ <- _] b. rewrite (IH _ _ _ _ Hr b). eapply mem_store_length, Hs.
  - discriminate.
Qed.

Lemma run_shape {A} (c : prog F A) len m a m' t :
  run c m = Some (a, m', t) -> has_shape len m -> has_shape len m'.
Proof. intros Hr Hm b. rewrite (run_length _ _ _ _ _ Hr b). apply Hm. Qed.

(** A place the trace does not write keeps its content. *)
Lemma run_frame {A} (c : prog F A) m a m' t :
  run c m = Some (a, m', t) ->
  forall l, ~ In (Wr l) t -> mem_load m' l = mem_load m l.
Proof.
  revert m a m' t. induction c as [a0 | p k IH | p v k IH | ]; intros m a m' t; simpl.
  - intros [= _ <- _]. reflexivity.
  - destruct (mem_load m p) as [v|]; [|discriminate].
    destruct (run (k v) m) as [[[a1 m1] t1]|] eqn:Hr; [|discriminate].
    intros [= _ <- <-] l Hl. eapply IH; [exact Hr|]. intros Hin. apply Hl. right. exact Hin.
  - destruct (mem_store m p v) as [m0|] eqn:Hs; [|discriminate].
    destruct (run k m0) as [[[a1 m1] t1]|] eqn:Hr; [|discriminate].
    intros [= _ <- <-] l Hl.
    rewrite (IH _ _ _ _ Hr l); [|intros Hin; apply Hl; right; exact Hin].
    eapply mem_store_other; [exact Hs|]. intros ->. apply Hl. left. reflexivity.
  - discriminate.
Qed.

Lemma agree_mono (S S' : locset) (m1 m2 : mem F) :
  (forall l, S' l -> S l) -> agree S m1 m2 -> agree S' m1 m2.
Proof. intros Hs [Hl Ha]. split; [exact Hl|]. intros l Hin. apply Ha, Hs, Hin. Qed.

Lemma fresh_ok_mono (S S' : locset) t :
  (forall l, S l -> S' l) -> fresh_ok S t -> fresh_ok S' t.
Proof.
  revert S S'. induction t as [|[p|p] t IH]; intros S S' Hs; simpl.
  - trivial.
  - intros [Hp Ht]. split; [apply Hs, Hp | eapply IH; eauto].
  - apply IH. intros l [Hl|Hl]; [left; apply Hs, Hl | right; exact Hl].
Qed.

Lemma fresh_ok_app (S : locset) t1 t2 :
  fresh_ok S t1 -> fresh_ok (fun l => S l \/ writes t1 l) t2 -> fresh_ok S (t1 ++ t2).
Proof.
  revert S. induction t1 as [|[p|p] t1 IH]; intros S; simpl.
  - intros _. apply fresh_ok_mono. intros l [Hl|[]]. exact Hl.
  - intros [Hp H1] H2. split; [exact Hp|]. apply IH; [exact H1|].
    revert H2. apply fresh_ok_mono. intros l [Hl|Hl]; [left; exact Hl|].
    destruct Hl as [Hl|Hl]; [discriminate | right; exact Hl].
  - intros H1 H2. apply IH; [exact H1|].
    revert H2. apply fresh_ok_mono. intros l [Hl|Hl]; [left; left; exact Hl|].
    destruct Hl as [Hl|Hl]; [left; right; congruence | right; exact Hl].
Qed.

(** Two memories that agree on what a run reads before writing it give the
    same run, and agree afterwards on all it wrote as well. *)
Lemma run_agree {A} (c : prog F A) (S : locset) m1 m2 a m1' t :
  run c m1 = Some (a, m1', t) -> agree S m1 m2 -> fresh_ok S t ->
  exists m2', run c m2 = Some (a, m2', t) /\ agree (fun l => S l \/ writes t l) m1' m2'.
Proof.
  revert S m1 m2 a m1' t.
  induction c as [a0 | p k IH | p v k IH | ]; intros S m1 m2 a m1' t; simpl.
  - intros [= <- <- <-] Hag _. exists m2. split; [reflexivity|].
    revert Hag. apply agree_mono. intros l [Hl|[]]. exact Hl.
  - destruct (mem_load m1 p) as [v|] eqn:Hl1; [|discriminate].
    destruct (run (k v) m1) as [[[a1 m1''] t1]|] eqn:Hr; [|discriminate].
    intros [= <- <- <-] Hag [Hp Hf].
    destruct Hag as [Hlen Hag]. rewrite <- (Hag p Hp), Hl1.
    destruct (IH v S m1 m2 _ _ _ Hr (conj Hlen Hag) Hf) as (m2' & Hr2 & Hag2).
    exists m2'. rewrite Hr2. split; [reflexivity|].
    revert Hag2. apply agree_mono. intros l [Hl|Hl]; [left; exact Hl|].
    destruct Hl as [Hl|Hl]; [discriminate | right; exact Hl].
  - destruct (mem_store m1 p v) as [m0|] eqn:Hs1; [|discriminate].
    destruct (run k m0) as [[[a1 m1''] t1]|] eqn:Hr; [|discriminate].
    intros [= <- <- <-] [Hlen Hag] Hf.
    destruct (mem_store_Some m2 p v) as [m0' Hs2].
    { rewrite <- Hlen. eapply mem_store_Some_inv, Hs1. }
    rewrite Hs2.
    assert (Hag0 : agree (fun l => S l \/ l = p) m0 m0').
    { split.
      - intros b. rewrite (mem_store_length _ _ _ _ b Hs1), (mem_store_length _ _ _ _ b Hs2).
        apply Hlen.
      - intros l Hl. destruct (decide (l = p)) as [->|Hne].
        + rewrite (mem_store_same _ _ _ _ Hs1), (mem_store_same _ _ _ _ Hs2). reflexivity.
        + rewrite (mem_store_other _ _ _ _ l Hs1 Hne), (mem_store_other _ _ _ _ l Hs2 Hne).
          apply Hag. destruct Hl as [Hl|Hl]; [exact Hl | contradiction]. }
    destruct (IH _ m0 m0' _ _ _ Hr Hag0 Hf) as (m2' & Hr2 & Hag2).
    exists m2'. rewrite Hr2. split; [reflexivity|].
    revert Hag2. apply agree_mono. intros l [Hl|Hl]; [left; left; exact Hl|].
    destruct Hl as [Hl|Hl]; [left; right; congruence | right; exact Hl].
  - discriminate.
Qed.

(** A read of a trace is of a place the trace may read fresh or of one it
    writes. *)
Lemma fresh_ok_reads (t : list event) :
  forall S : locset, fresh_ok S t -> forall l, In (Rd l) t -> S l \/ In (Wr l) t.
Proof.
  induction t as [|e t IH]; intros S Hf l Hin; [contradiction|].
  destruct e as [q|q]; simpl in Hf.
  - destruct Hf as [Hq Hf]. destruct Hin as [He|Hin].
    + injection He as ->. left. exact Hq.
    + destruct (IH S Hf l Hin) as [Hs|Hw]; [left; exact Hs | right; right; exact Hw].
  - destruct Hin as [He|Hin]; [discriminate|].
    destruct (IH _ Hf l Hin) as [[Hs| ->]|Hw].
    + left. exact Hs.
    + right. left. reflexivity.
    + right. right. exact Hw.
Qed.

(** *** [int] expressions in programs *)

Lemma run_int (e : int_exp) (m : mem F) :
  int_safe e -> run (int e) m = Some (int_value e, m, []).
Proof. intros He. unfold int. rewrite (int_eval_safe e He). reflexivity. Qed.

Lemma run_bind_int {A} (e : int_exp) (k : Z -> prog F A) (m : mem F) :
  int_safe e -> run (bind (int e) k) m = run (k (int_value e)) m.
Proof. intros He. unfold int. rewrite (int_eval_safe e He). reflexivity. Qed.

(** What follows an expression runs on its value, if it runs at all. *)
Lemma run_bind_int_inv {A} (e : int_exp) (k : Z -> prog F A) (m : mem F) r :
  run (bind (int e) k) m = Some r -> int_safe e /\ run (k (int_value e)) m = Some r.
Proof.
  unfold int. destruct (int_eval e) as [z|] eqn:E; [|discriminate].
  destruct (int_eval_Some e z E) as [-> He]. intros Hr. split; [exact He | exact Hr].
Qed.

Lemma same_run_refl {A} (c : prog F A) : same_run c c.
Proof. intros m. reflexivity. Qed.

Lemma same_run_trans {A} (c1 c2 c3 : prog F A) :
  same_run c1 c2 -> same_run c2 c3 -> same_run c1 c3.
Proof. intros H1 H2 m. rewrite (H1 m). apply H2. Qed.

Lemma same_run_bind {A B} (c c' : prog F A) (f f' : A -> prog F B) :
  same_run c c' -> (forall a, same_run (f a) (f' a)) -> same_run (bind c f) (bind c' f').
Proof.
  intros Hc Hf m. rewrite !run_bind, (Hc m).
  destruct (run c' m) as [[[a m1] t1]|]; [|reflexivity]. rewrite (Hf a m1). reflexivity.
Qed.

Lemma same_run_int {A} (e : int_exp) (k : Z -> prog F A) :
  int_safe e -> same_run (bind (int e) k) (k (int_value e)).
Proof. intros He m. apply run_bind_int, He. Qed.

Lemma same_run_for_loop (body body' : Z -> prog F unit) (n : nat) :
  forall i,
  (forall j, i <= j < i + Z.of_nat n -> same_run (body j) (body' j)) ->
  same_run (for_loop n i 1 body) (for_loop n i 1 body').
Proof.
  induction n as [|n IH]; intros i Hb; cbn [for_loop]; [apply same_run_refl|].
  apply same_run_bind; [apply Hb; lia|]. intros _. apply IH. intros j Hj. apply Hb. lia.
Qed.

Lemma same_run_for_range (body body' : Z -> prog F unit) lo hi :
  (forall i, lo <= i < hi -> same_run (body i) (body' i)) ->
  same_run (for_range lo hi body) (for_range lo hi body').
Proof.
  intros Hb. unfold for_range, for_range_by, trip_count.
  apply same_run_for_loop. intros j Hj. apply Hb.
  rewrite Z.div_1_r in Hj. lia.
Qed.

Lemma same_run_fold_loop {A} (body body' : Z -> A -> prog F A) (n : nat) :
  forall i a,
  (forall j b, i <= j < i + Z.of_nat n -> same_run (body j b) (body' j b)) ->
  same_run (fold_loop n i body a) (fold_loop n i body' a).
Proof.
  induction n as [|n IH]; intros i a Hb; cbn [fold_loop]; [apply same_run_refl|].
  apply same_run_bind; [apply Hb; lia|]. intros b. apply IH. intros j c Hj. apply Hb. lia.
Qed.

Lemma same_run_fold_range {A} (body body' : Z -> A -> prog F A) lo hi a :
  (forall j b, lo <= j < hi -> same_run (body j b) (body' j b)) ->
  same_run (fold_range lo hi body a) (fold_range lo hi body' a).
Proof.
  intros Hb. unfold fold_range. apply same_run_fold_loop. intros j b Hj. apply Hb. lia.
Qed.

End MonadFacts.

(** ** Rules of the access logic *)

Section Logic.
Context {F : Type} `{!FloatOps F}.
Variable len : buffer -> Z.

Lemma spec_ret {A} (S W S' : locset) (Q : A -> Prop) a :
  (forall l, S' l -> S l) -> Q a -> spec len S W (@Ret F A a) S' Q.
Proof.
  intros Hs Hq m _. exists a, m, []. simpl.
  repeat split; auto. intros l [].
Qed.

Lemma spec_load {A} (S W S' : locset) (Q : A -> Prop) p (k : F -> prog F A) :
  inb len p -> S p -> (forall v, spec len S W (k v) S' Q) ->
  spec len S W (Load p k) S' Q.
Proof.
  intros Hin Hp Hk m Hm. simpl.
  destruct (mem_load_Some m p) as [v Hv]; [rewrite Hm; exact Hin|].
  destruct (Hk v m Hm) as (a & m' & t & Hr & Hq & Hf & Hw & Hc).
  exists a, m', (Rd p :: t). rewrite Hv, Hr. split; [reflexivity|].
  split; [exact Hq|]. split; [split; assumption|]. split.
  - intros l [Hl|Hl]; [discriminate | apply Hw, Hl].
  - intros l Hl. destruct (Hc l Hl) as [H1|H1]; [left; exact H1 | right; right; exact H1].
Qed.

Lemma spec_store {A} (S W S' : locset) (Q : A -> Prop) p v (k : prog F A) :
  inb len p -> W p -> spec len (fun l => S l \/ l = p) W k S' Q ->
  spec len S W (Store p v k) S' Q.
Proof.
  intros Hin Hp Hk m Hm. simpl.
  destruct (mem_store_Some m p v) as [m0 Hs]; [rewrite Hm; exact Hin|].
  assert (Hm0 : has_shape len m0).
  { intros b. rewrite (mem_store_length _ _ _ _ b Hs). apply Hm. }
  destruct (Hk m0 Hm0) as (a & m' & t & Hr & Hq & Hf & Hw & Hc).
  exists a, m', (Wr p :: t). rewrite Hs, Hr. split; [reflexivity|].
  split; [exact Hq|]. split; [exact Hf|]. split.
  - intros l [Hl|Hl]; [congruence | apply Hw, Hl].
  - intros l Hl. destruct (Hc l Hl) as [[H1|H1]|H1].
    + left; exact H1.
    + right; left; congruence.
    + right; right; exact H1.
Qed.

Lemma spec_bind {A B} (S W S1 S2 : locset) (Q1 : A -> Prop) (Q2 : B -> Prop)
    (c : prog F A) (f : A -> prog F B) :
  spec len S W c S1 Q1 ->
  (forall a, Q1 a -> spec len S1 W (f a) S2 Q2) ->
  spec len S W (bind c f) S2 Q2.
Proof.
  intros Hc Hf m Hm.
  destruct (Hc m Hm) as (a & m1 & t1 & Hr1 & Hq1 & Hf1 & Hw1 & Hc1).
  destruct (Hf a Hq1 m1 (run_shape _ _ _ _ _ _ Hr1 Hm))
    as (b & m2 & t2 & Hr2 & Hq2 & Hf2 & Hw2 & Hc2).
  exists b, m2, (t1 ++ t2). rewrite run_bind, Hr1, Hr2.
  split; [reflexivity|]. split; [exact Hq2|]. split; [|split].
  - apply fresh_ok_app; [exact Hf1|]. revert Hf2. apply fresh_ok_mono. exact Hc1.
  - intros l Hl. apply in_app_or in Hl. destruct Hl; [apply Hw1 | apply Hw2]; assumption.
  - intros l Hl. unfold writes. destruct (Hc2 l Hl) as [H1|H1].
    + destruct (Hc1 l H1) as [H0|H0]; [left; exact H0 | right; apply in_or_app; left; exact H0].
    + right. apply in_or_app. right. exact H1.
Qed.

(** Consequence and frame in one: more may be known before, more may be
    allowed, and what was known before is still known after. *)
Lemma spec_conseq {A} (S0 W0 S0' S W S' : locset) (Q0 Q : A -> Prop) (c : prog F A) :
  spec len S0 W0 c S0' Q0 ->
  (forall l, S0 l -> S l) -> (forall l, W0 l -> W l) ->
  (forall l, S' l -> S0' l \/ S l) -> (forall a, Q0 a -> Q a) ->
  spec len S W c S' Q.
Proof.
  intros Hc Hs Hw Hs' Hq m Hm.
  destruct (Hc m Hm) as (a & m1 & t1 & Hr1 & Hq1 & Hf1 & Hw1 & Hc1).
  exists a, m1, t1. split; [exact Hr1|]. split; [apply Hq, Hq1|]. split; [|split].
  - revert Hf1. apply fresh_ok_mono, Hs.
  - intros l Hl. apply Hw, Hw1, Hl.
  - intros l Hl. destruct (Hs' l Hl) as [H1|H1]; [|left; exact H1].
    destruct (Hc1 l H1) as [H0|H0]; [left; apply Hs, H0 | right; exact H0].
Qed.

Lemma spec_same_run {A} (S W S' : locset) (Q : A -> Prop) (c c' : prog F A) :
  same_run c c' -> spec len S W c' S' Q -> spec len S W c S' Q.
Proof. intros Hc Hs m Hm. rewrite (Hc m). apply Hs, Hm. Qed.

(** An [int] expression that is safe has its value, and no effect. *)
Lemma spec_int {A} (S W S' : locset) (Q : A -> Prop) (e : int_exp) (k : Z -> prog F A) :
  int_safe e -> spec len S W (k (int_value e)) S' Q -> spec len S W (bind (int e) k) S' Q.
Proof. intros He. apply spec_same_run, same_run_int, He. Qed.

Lemma spec_for_loop (W : locset) (Inv : Z -> locset) n i step (body : Z -> prog F unit) :
  forall k0,
  (forall k, k0 <= k < k0 + Z.of_nat n ->
     spec len (Inv k) W (body (i + (k - k0) * step)) (Inv (k + 1)) (fun _ => True)) ->
  spec len (Inv k0) W (for_loop n i step body) (Inv (k0 + Z.of_nat n)) (fun _ => True).
Proof.
  revert i. induction n as [|n IH]; intros i k0 Hb; simpl for_loop.
  - apply spec_ret; [|exact I]. intros l. replace (k0 + Z.of_nat 0) with k0 by lia. auto.
  - eapply spec_bind.
    + specialize (Hb k0). replace (i + (k0 - k0) * step) with i in Hb by lia.
      apply Hb. lia.
    + intros _ _. replace (k0 + Z.of_nat (Datatypes.S n)) with ((k0 + 1) + Z.of_nat n) by lia.
      apply IH. intros k Hk.
      replace (i + step + (k - (k0 + 1)) * step) with (i + (k - k0) * step) by lia.
      apply Hb. lia.
Qed.

Lemma spec_for_range (W : locset) (Inv : Z -> locset) lo hi (body : Z -> prog F unit) :
  lo <= hi ->
  (forall i, lo <= i < hi -> spec len (Inv i) W (body i) (Inv (i + 1)) (fun _ => True)) ->
  spec len (Inv lo) W (for_range lo hi body) (Inv hi) (fun _ => True).
Proof.
  intros Hle Hb. unfold for_range, for_range_by, trip_count.
  replace (hi - lo + 1 - 1) with (hi - lo) by lia. rewrite Z.div_1_r.
  replace hi with (lo + Z.of_nat (Z.to_nat (hi - lo))) at 2 by lia.
  apply spec_for_loop. intros k Hk.
  replace (lo + (k - lo) * 1) with k by lia. apply Hb. lia.
Qed.

Lemma spec_fold_loop {A} (W : locset) (Inv : Z -> locset) (QI : Z -> A -> Prop)
    n (body : Z -> A -> prog F A) :
  forall i a,
  (forall j b, i <= j < i + Z.of_nat n -> QI j b ->
     spec len (Inv j) W (body j b) (Inv (j + 1)) (QI (j + 1))) ->
  QI i a ->
  spec len (Inv i) W (fold_loop n i body a) (Inv (i + Z.of_nat n)) (QI (i + Z.of_nat n)).
Proof.
  induction n as [|n IH]; intros i a Hb Ha; simpl fold_loop.
  - replace (i + Z.of_nat 0) with i by lia. apply spec_ret; auto.
  - eapply spec_bind.
    + apply Hb; [lia | exact Ha].
    + intros b Hq. replace (i + Z.of_nat (Datatypes.S n)) with ((i + 1) + Z.of_nat n) by lia.
      apply IH; [|exact Hq]. intros j c Hj. apply Hb. lia.
Qed.

Lemma spec_fold_range {A} (W : locset) (Inv : Z -> locset) (QI : Z -> A -> Prop)
    lo hi (body : Z -> A -> prog F A) a :
  lo <= hi ->
  (forall j b, lo <= j < hi -> QI j b ->
     spec len (Inv j) W (body j b) (Inv (j + 1)) (QI (j + 1))) ->
  QI lo a ->
  spec len (Inv lo) W (fold_range lo hi body a) (Inv hi) (QI hi).
Proof.
  intros Hle Hb Ha. unfold fold_range.
  replace hi with (lo + Z.of_nat (Z.to_nat (hi - lo))) at 2 3 by lia.
  apply spec_fold_loop; [|exact Ha]. intros j b Hj. apply Hb. lia.
Qed.

End Logic.

(** ** Accesses of the neural net blocks *)

(** [rd H]: the place is one of those [H : within S p n] speaks of. *)
Ltac rd H := first [ apply H; lia | left; rd H ].

Section BlockSpecs.
Context {F : Type} `{!FloatOps F}.
Variable len : buffer -> Z.

Lemma padd_padd p a b : p +p a +p b = p +p (a + b).
Proof. destruct p as [b0 o]. unfold padd. simpl. f_equal. lia. Qed.

Lemma padd_0 p : p +p 0 = p.
Proof. destruct p as [b0 o]. unfold padd. simpl. f_equal. lia. Qed.

Lemma rng_padd p n i : 0 <= i < n -> rng p n (p +p i).
Proof. intros Hi. unfold rng, padd. simpl. split; [reflexivity | lia]. Qed.

Lemma rng_snoc p i l : 0 <= i -> rng p (i + 1) l -> rng p i l \/ l = p +p i.
Proof.
  intros Hi [Hb Ho]. destruct (Z.eq_dec (p_off l) (p_off p + i)) as [He|Hne].
  - right. destruct l as [lb lo], p as [pb po]. unfold padd. simpl in *. congruence.
  - left. split; [exact Hb | lia].
Qed.

Lemma rng_empty p n l : n <= 0 -> ~ rng p n l.
Proof. intros Hn [_ Ho]. lia. Qed.

Lemma rng_inv p n l : rng p n l -> exists i, 0 <= i < n /\ l = p +p i.
Proof.
  intros [Hb Ho]. exists (p_off l - p_off p). split; [lia|].
  destruct l as [lb lo], p as [pb po]. unfold padd. simpl in *. f_equal; [exact Hb | lia].
Qed.

Lemma within_mono (S S' : locset) p n :
  (forall l, S l -> S' l) -> within len S p n -> within len S' p n.
Proof. intros Hs Hw i Hi. destruct (Hw i Hi). split; auto. Qed.

Lemma within_sub (S : locset) p N a n :
  within len S p N -> 0 <= a -> a + n <= N -> within len S (p +p a) n.
Proof. intros Hw Ha Hn i Hi. rewrite padd_padd. apply Hw. lia. Qed.

Lemma within_rng (S : locset) p n l : within len S p n -> rng p n l -> S l.
Proof. intros Hw Hr. destruct (rng_inv _ _ _ Hr) as (i & Hi & ->). apply Hw, Hi. Qed.

(** What was writable is readable once it has been written. *)
Lemma within_written (S W : locset) p n :
  within len W p n -> within len (fun l => S l \/ rng p n l) p n.
Proof. intros Hw i Hi. split; [apply Hw, Hi | right; apply rng_padd, Hi]. Qed.

Lemma within_0 (S : locset) p n : within len S p n -> 0 < n -> inb len p /\ S p.
Proof. intros Hw Hn. rewrite <- (padd_0 p). apply Hw. lia. Qed.

(** A loop that fills [out] front to back. *)
Lemma spec_fill (S W : locset) out n (body : Z -> prog F unit) :
  0 <= n ->
  (forall i, 0 <= i < n ->
     spec len (fun l => S l \/ rng out i l) W (body i)
       (fun l => (S l \/ rng out i l) \/ l = out +p i) (fun _ => True)) ->
  spec len S W (for_range 0 n body) (fun l => S l \/ rng out n l) (fun _ => True).
Proof.
  intros Hn Hb.
  apply spec_conseq with (S0 := fun l => S l \/ rng out 0 l)
    (S0' := fun l => S l \/ rng out n l) (W0 := W) (Q0 := fun _ => True);
    [ apply spec_for_range with (Inv := fun i l => S l \/ rng out i l); [exact Hn|]
    | | auto | auto | auto ].
  - intros i Hi. eapply spec_conseq; [apply (Hb i Hi) | auto | auto | | auto].
    intros l [Hl|Hl]; [left; left; left; exact Hl|].
    apply rng_snoc in Hl; [|lia]. destruct Hl; [left; left; right | left; right]; assumption.
  - intros l [Hl|Hl]; [exact Hl|]. apply rng_empty in Hl; [contradiction | lia].
Qed.

Lemma spec_fold_fill {A} (S W : locset) out n (body : Z -> A -> prog F A) a :
  0 <= n ->
  (forall i b, 0 <= i < n ->
     spec len (fun l => S l \/ rng out i l) W (body i b)
       (fun l => (S l \/ rng out i l) \/ l = out +p i) (fun _ => True)) ->
  spec len S W (fold_range 0 n body a) (fun l => S l \/ rng out n l) (fun _ => True).
Proof.
  intros Hn Hb.
  apply spec_conseq with (S0 := fun l => S l \/ rng out 0 l)
    (S0' := fun l => S l \/ rng out n l) (W0 := W) (Q0 := fun _ => True);
    [ apply spec_fold_range with (Inv := fun i l => S l \/ rng out i l)
        (QI := fun _ _ => True); [exact Hn| |exact I]
    | | auto | auto | auto ].
  - intros i b Hi _. eapply spec_conseq; [apply (Hb i b Hi) | auto | auto | | auto].
    intros l [Hl|Hl]; [left; left; left; exact Hl|].
    apply rng_snoc in Hl; [|lia]. destruct Hl; [left; left; right | left; right]; assumption.
  - intros l [Hl|Hl]; [exact Hl|]. apply rng_empty in Hl; [contradiction | lia].
Qed.

(** A loop that only reads. *)
Lemma spec_fold_ro {A} (S W : locset) lo hi (body : Z -> A -> prog F A) a :
  lo <= hi ->
  (forall j b, lo <= j < hi -> spec len S W (body j b) S (fun _ => True)) ->
  spec len S W (fold_range lo hi body a) S (fun _ => True).
Proof.
  intros Hle Hb.
  apply spec_fold_range with (Inv := fun _ => S) (QI := fun _ _ => True); auto.
Qed.

Lemma memcpy_spec (S W : locset) dst src n :
  0 <= n -> within len S src n -> within len W dst n ->
  spec (F:=F) len S W (memcpy dst src n) (fun l => S l \/ rng dst n l) (fun _ => True).
Proof.
  intros Hn Hsrc Hdst. unfold memcpy. destruct (Z.ltb_spec n 0); [lia|].
  apply spec_fill; [exact Hn|].
  intros i Hi. cbn [bind load store].
  apply spec_load; [rd Hsrc | rd Hsrc | intros v].
  apply spec_store; [rd Hdst | rd Hdst |].
  apply spec_ret; auto.
Qed.

Lemma accum_spec (S W : locset) a b size :
  0 <= size -> within len S a size -> within len S b size -> within len W a size ->
  spec len S W (accum a b size) (fun l => S l \/ rng a size l) (fun _ => True).
Proof.
  intros Hn Ha Hb Hw. unfold accum. apply spec_fill; [exact Hn|].
  intros i Hi. cbn [bind load store].
  apply spec_load; [rd Ha | rd Ha | intros ai].
  apply spec_load; [rd Hb | rd Hb | intros bi].
  apply spec_store; [rd Hw | rd Hw |].
  apply spec_ret; auto.
Qed.

Lemma rmsnorm_spec (S W : locset) o x weight size :
  0 <= size -> within len S x size -> within len S weight size -> within len W o size ->
  spec len S W (rmsnorm o x weight size) (fun l => S l \/ rng o size l) (fun _ => True).
Proof.
  intros Hn Hx Hwt Ho. unfold rmsnorm.
  eapply spec_bind.
  - apply spec_fold_ro; [exact Hn|]. intros j ss Hj. cbn [bind load].
    apply spec_load; [rd Hx | rd Hx | intros xj]. apply spec_ret; auto.
  - intros ss _. apply spec_fill; [exact Hn|].
    intros j Hj. cbn [bind load store].
    apply spec_load; [rd Hwt | rd Hwt | intros wj].
    apply spec_load; [rd Hx | rd Hx | intros xj].
    apply spec_store; [rd Ho | rd Ho |].
    apply spec_ret; auto.
Qed.

(** When the matrix has at most [INT_MAX] entries, the index [i * n + j] of
    [matmul] never overflows. *)
Lemma matmul_ints (xout x w : ptr) (n d : Z) :
  0 <= n -> 0 <= d -> d * n <= INT_MAX ->
  same_run (matmul xout x w n d)
    (for_range 0 d (fun i =>
       val <- fold_range 0 n (fun j val =>
                wij <- load (w +p (i * n + j));; xj <- load (x +p j);;
                Ret (val +~ wij *~ xj)) f_zero;;
       store (xout +p i) val)).
Proof.
  intros Hn Hd Hdn. unfold matmul. apply same_run_for_range. intros i Hi.
  apply same_run_bind; [|intros val; apply same_run_refl].
  apply same_run_fold_range. intros j val Hj.
  apply (same_run_int (i *! n +! j)). cbn [int_safe int_value].
  unfold in_int, INT_MIN, INT_MAX in *. repeat split; try exact I; nia.
Qed.

Lemma matmul_spec (S W : locset) xout x w n d :
  0 <= n -> 0 <= d -> d * n <= INT_MAX ->
  within len S x n -> within len S w (d * n) -> within len W xout d ->
  spec len S W (matmul xout x w n d) (fun l => S l \/ rng xout d l) (fun _ => True).
Proof.
  intros Hn Hd Hdn Hx Hw Ho.
  apply (spec_same_run len _ _ _ _ _ _ (matmul_ints xout x w n d Hn Hd Hdn)).
  apply spec_fill; [exact Hd|].
  intros i Hi. eapply spec_bind.
  - apply spec_fold_ro; [exact Hn|]. intros j val Hj. cbn [bind load].
    assert (0 <= i * n + j < d * n) by nia.
    apply spec_load; [rd Hw | rd Hw | intros wij].
    apply spec_load; [rd Hx | rd Hx | intros xj]. apply spec_ret; auto.
  - intros val _. cbn [store]. apply spec_store; [rd Ho | rd Ho |].
    apply spec_ret; auto.
Qed.

Lemma softmax_spec (S W : locset) x size :
  1 <= size -> within len S x size -> within len W x size ->
  spec len S W (softmax x size) (fun l => S l \/ rng x size l) (fun _ => True).
Proof.
  intros Hn Hx Hw. unfold softmax.
  destruct (within_0 _ _ _ Hx) as [Hx0 Hx0']; [lia|].
  cbn [bind load]. apply spec_load; [exact Hx0 | exact Hx0' | intros x0].
  eapply spec_bind.
  { apply spec_fold_ro; [exact Hn|]. intros i mv Hi. cbn [bind load].
    apply spec_load; [rd Hx | rd Hx | intros xi]. apply spec_ret; auto. }
  intros max_val _. eapply spec_bind.
  { apply spec_fold_fill with (out := x); [lia|].
    intros i sum Hi. cbn [bind load store].
    apply spec_load; [rd Hx | rd Hx | intros xi].
    apply spec_store; [rd Hw | rd Hw |].
    apply spec_ret; auto. }
  intros sum _.
  eapply spec_conseq; [apply spec_fill with (out := x); [lia|] | | | | ];
    [ | intros l Hl; exact Hl | intros l Hl; exact Hl | | auto ].
  - intros i Hi. cbn [bind load store].
    apply spec_load; [rd Hx | rd Hx | intros xi].
    apply spec_store; [rd Hw | rd Hw |].
    apply spec_ret; auto.
  - intros l [Hl|Hl]; [left; left; left; exact Hl | left; right; exact Hl].
Qed.

(** A loop with a stride whose body keeps [S]. *)
Lemma spec_for_range_by_ro (S W : locset) lo hi step (body : Z -> prog F unit) :
  0 < step ->
  (forall i, lo <= i < hi -> (i - lo) mod step = 0 ->
     spec len S W (body i) S (fun _ => True)) ->
  spec len S W (for_range_by lo hi step body) S (fun _ => True).
Proof.
  intros Hstep Hb. unfold for_range_by, trip_count.
  set (n := Z.to_nat ((hi - lo + step - 1) / step)).
  apply spec_conseq with (S0 := S) (S0' := S) (W0 := W) (Q0 := fun _ => True); auto.
  apply (spec_for_loop len W (fun _ => S) n lo step body 0).
  intros k Hk. replace (k - 0) with k by lia. apply Hb.
  - assert (Hn : Z.of_nat n = (hi - lo + step - 1) / step \/ Z.of_nat n = 0) by lia.
    destruct Hn as [Hn|Hn]; [|lia].
    assert (k + 1 <= (hi - lo + step - 1) / step) by lia.
    assert ((k + 1) * step <= hi - lo + step - 1).
    { etransitivity; [apply Z.mul_le_mono_nonneg_r; [lia | eassumption]|].
      rewrite Z.mul_comm. apply Z.mul_div_le. lia. }
    nia.
  - replace (lo + k * step - lo) with (k * step) by lia. apply Z.mod_mul. lia.
Qed.

Lemma spec_for_range_ro (S W : locset) lo hi (body : Z -> prog F unit) :
  (forall i, lo <= i < hi -> spec len S W (body i) S (fun _ => True)) ->
  spec len S W (for_range lo hi body) S (fun _ => True).
Proof.
  intros Hb. apply spec_for_range_by_ro; [lia|]. intros i Hi _. apply Hb, Hi.
Qed.

Lemma argmax_spec (S W : locset) v n :
  1 <= n -> within len S v n ->
  spec len S W (argmax v n) S (fun i => 0 <= i < n).
Proof.
  intros Hn Hv. unfold argmax.
  destruct (within_0 _ _ _ Hv) as [Hv0 Hv0']; [lia|].
  cbn [bind load]. apply spec_load; [exact Hv0 | exact Hv0' | intros v0].
  eapply spec_bind.
  - apply spec_fold_range with (Inv := fun _ => S)
      (QI := fun (_ : Z) (r : Z * F) => 0 <= fst r < n); [exact Hn | | simpl; lia].
    intros i [max_i max_p] Hi Hq. cbn [bind load].
    apply spec_load; [rd Hv | rd Hv | intros vi].
    apply spec_ret; [auto|]. simpl. destruct (f_gt vi max_p); simpl in *; lia.
  - intros r Hr. apply spec_ret; auto.
Qed.

Lemma sample_loop_spec (S W : locset) probabilities n r fuel :
  forall i cdf, 0 <= i -> i + Z.of_nat fuel <= n -> 1 <= n ->
  within len S probabilities n ->
  spec len S W (sample_loop fuel probabilities n r i cdf) S (fun j => 0 <= j < n).
Proof.
  induction fuel as [|fuel IH]; intros i cdf Hi Hfuel Hn Hp; simpl sample_loop.
  - apply spec_ret; [auto | lia].
  - cbn [bind load]. apply spec_load; [rd Hp | rd Hp | intros pi].
    destruct (f_lt r (cdf +~ pi)).
    + apply spec_ret; [auto | lia].
    + apply IH; [lia | lia | exact Hn | exact Hp].
Qed.

Lemma sample_spec (S W : locset) probabilities n rnd :
  1 <= n -> within len S probabilities n ->
  spec len S W (sample probabilities n rnd) S (fun j => 0 <= j < n).
Proof.
  intros Hn Hp. unfold sample. apply sample_loop_spec; [lia | lia | exact Hn | exact Hp].
Qed.

End BlockSpecs.

(** ** The forward pass: what it reads and writes *)

Lemma idx2 l L n : 0 <= l < L -> 0 <= n -> 0 <= l * n /\ l * n + n <= L * n.
Proof. intros Hl Hn. nia. Qed.

Lemma idx3 l L t T j D :
  0 <= l < L -> 0 <= t < T -> 0 <= j < D ->
  0 <= l * T * D + t * D + j < L * T * D.
Proof.
  intros Hl Ht Hj.
  assert (H1 : (t + 1) * D <= T * D) by (apply Z.mul_le_mono_nonneg_r; lia).
  assert (H0 : 0 <= T * D) by (apply Z.mul_nonneg_nonneg; lia).
  assert (H2 : (l + 1) * (T * D) <= L * (T * D)) by (apply Z.mul_le_mono_nonneg_r; lia).
  assert (H3 : 0 <= l * (T * D)) by (apply Z.mul_nonneg_nonneg; lia).
  assert (H4 : 0 <= t * D) by (apply Z.mul_nonneg_nonneg; lia).
  rewrite <- !Z.mul_assoc. lia.
Qed.

Lemma head_size_facts (p : Config) :
  valid_config p ->
  let hs := Z.quot (dim p) (n_heads p) in
  0 < hs /\ n_heads p * hs = dim p /\ hs = 2 * (hs / 2) /\
  (forall pos, 0 <= pos -> Z.quot (pos * hs) 2 = pos * (hs / 2)).
Proof.
  intros (Hd & _ & _ & Hh & _ & _ & _ & Hrem & Hev & _) hs.
  assert (Hdiv : dim p = n_heads p * hs).
  { unfold hs. rewrite (Z.quot_rem' (dim p) (n_heads p)) at 1. lia. }
  assert (Hpos : 0 < hs) by nia.
  assert (H2 : hs = 2 * (hs / 2)).
  { destruct (proj1 (Z.even_spec _) Hev) as [k Hk]. fold hs in Hk.
    assert (hs / 2 = k) by (rewrite Hk, Z.mul_comm; apply Z.div_mul; lia). lia. }
  repeat split; [exact Hpos | lia | exact H2 |].
  intros pos Hp. rewrite Z.quot_div_nonneg; [|nia|lia].
  rewrite H2 at 1. replace (pos * (2 * (hs / 2))) with (pos * (hs / 2) * 2) by lia.
  apply Z.div_mul. lia.
Qed.

(** ** Sizes that fit an [int] *)

Section Sizes.
Variable p : Config.
Hypothesis Hcfg : valid_config p.
Hypothesis Hint : int_sized p.

Local Abbreviation hs := (Z.quot (dim p) (n_heads p)).

Lemma size_bounds :
  0 < hs <= dim p /\ n_heads p <= dim p /\ n_heads p * hs = dim p /\
  dim p <= INT_MAX /\ seq_len p <= INT_MAX /\
  dim p * dim p <= INT_MAX /\ hidden_dim p * dim p <= INT_MAX /\
  seq_len p * dim p <= INT_MAX /\ n_layers p * dim p <= INT_MAX /\
  n_layers p * seq_len p <= INT_MAX /\ n_layers p * hidden_dim p <= INT_MAX /\
  n_heads p * seq_len p <= INT_MAX.
Proof.
  destruct (head_size_facts p Hcfg) as (Hhs & Hnh & _ & _).
  destruct Hcfg as (Hd & Hhd & Hnl & Hh & _ & Hvs & Hsl & _).
  destruct Hint as (Hvd & Hldd & Hldh & Hlsd).
  fold hs in Hhs, Hnh.
  assert (H1 : hs <= dim p) by nia.
  assert (H2 : n_heads p <= dim p) by nia.
  assert (H3 : dim p * dim p <= n_layers p * dim p * dim p) by nia.
  assert (H4 : hidden_dim p * dim p <= n_layers p * dim p * hidden_dim p) by nia.
  assert (H5 : seq_len p * dim p <= n_layers p * seq_len p * dim p) by nia.
  assert (H6 : n_layers p * dim p <= n_layers p * dim p * dim p) by nia.
  assert (H7 : n_layers p * seq_len p <= n_layers p * seq_len p * dim p) by nia.
  assert (H8 : n_layers p * hidden_dim p <= n_layers p * dim p * hidden_dim p) by nia.
  assert (H9 : n_heads p * seq_len p <= seq_len p * dim p) by nia.
  assert (H10 : dim p <= dim p * dim p) by nia.
  assert (H11 : seq_len p <= seq_len p * dim p) by nia.
  repeat split; lia.
Qed.

Lemma dim_dim_fits : dim p * dim p <= INT_MAX.
Proof. apply size_bounds. Qed.

Lemma hidden_dim_fits : hidden_dim p * dim p <= INT_MAX.
Proof. apply size_bounds. Qed.

Lemma dim_hidden_fits : dim p * hidden_dim p <= INT_MAX.
Proof. rewrite Z.mul_comm. apply size_bounds. Qed.

Lemma vocab_dim_fits : vocab_size p * dim p <= INT_MAX.
Proof. apply Hint. Qed.

Ltac in_ints := cbn [int_safe int_value]; unfold in_int, INT_MIN in *; repeat split; try exact I.

Lemma head_size_safe : int_safe (dim p /! n_heads p).
Proof.
  pose proof size_bounds as (Hhs & _ & _ & Hd & _). destruct Hcfg as (_ & _ & _ & Hh & _).
  in_ints; lia.
Qed.

Lemma token_safe token : 0 <= token < vocab_size p -> int_safe (token *! dim p).
Proof.
  intros Ht. destruct Hcfg as (Hd & _). destruct Hint as (Hvd & _).
  assert (0 <= token * dim p <= vocab_size p * dim p) by nia. in_ints; lia.
Qed.

Lemma pos_row_safe pos : 0 <= pos < seq_len p -> int_safe (pos *! hs /! 2).
Proof.
  intros Hp. pose proof size_bounds as (Hhs & _ & _ & _ & _ & _ & _ & Hsd & _).
  destruct Hcfg as (Hd & _).
  assert (H1 : 0 <= pos * hs <= seq_len p * dim p) by nia.
  assert (H2 : 0 <= Z.quot (pos * hs) 2 <= pos * hs).
  { rewrite Z.quot_div_nonneg by lia. split; [apply Z.div_pos; lia|].
    apply Z.div_le_upper_bound; lia. }
  in_ints; lia.
Qed.

Lemma pos_dim_safe t : 0 <= t < seq_len p -> int_safe (t *! dim p).
Proof.
  intros Ht. pose proof size_bounds as (_ & _ & _ & _ & _ & _ & _ & Hsd & _).
  destruct Hcfg as (Hd & _).
  assert (0 <= t * dim p <= seq_len p * dim p) by nia. in_ints; lia.
Qed.

Lemma pos_next_safe pos : 0 <= pos < seq_len p -> int_safe (pos +! 1).
Proof.
  intros Hp. pose proof size_bounds as (_ & _ & _ & _ & Hsl & _). in_ints; lia.
Qed.

Lemma layer_dim_safe l : 0 <= l < n_layers p -> int_safe (l *! dim p).
Proof.
  intros Hl. pose proof size_bounds as (_ & _ & _ & _ & _ & _ & _ & _ & Hld & _).
  destruct Hcfg as (Hd & _).
  assert (0 <= l * dim p <= n_layers p * dim p) by nia. in_ints; lia.
Qed.

Lemma layer_dim_dim_safe l : 0 <= l < n_layers p -> int_safe (l *! dim p *! dim p).
Proof.
  intros Hl. pose proof (layer_dim_safe l Hl) as Hs. destruct Hcfg as (Hd & _).
  destruct Hint as (_ & Hldd & _).
  assert (0 <= l * dim p <= n_layers p * dim p) by nia.
  assert (0 <= l * dim p * dim p <= n_layers p * dim p * dim p) by nia.
  cbn [int_safe int_value] in *. unfold in_int, INT_MIN in *. repeat split; try exact I; lia.
Qed.

Lemma layer_dim_hidden_safe l : 0 <= l < n_layers p -> int_safe (l *! dim p *! hidden_dim p).
Proof.
  intros Hl. pose proof (layer_dim_safe l Hl) as Hs. destruct Hcfg as (Hd & Hhd & _).
  destruct Hint as (_ & _ & Hldh & _).
  assert (0 <= l * dim p <= n_layers p * dim p) by nia.
  assert (0 <= l * dim p * hidden_dim p <= n_layers p * dim p * hidden_dim p) by nia.
  cbn [int_safe int_value] in *. unfold in_int, INT_MIN in *. repeat split; try exact I; lia.
Qed.

Lemma layer_offset_safe l : 0 <= l < n_layers p -> int_safe (l *! seq_len p *! dim p).
Proof.
  intros Hl. pose proof size_bounds as (_ & _ & _ & _ & _ & _ & _ & _ & _ & Hls & _).
  destruct Hcfg as (Hd & _ & _ & _ & _ & _ & Hsl & _). destruct Hint as (_ & _ & _ & Hlsd).
  assert (0 <= l * seq_len p <= n_layers p * seq_len p) by nia.
  assert (0 <= l * seq_len p * dim p <= n_layers p * seq_len p * dim p) by nia.
  in_ints; lia.
Qed.

Lemma head_safe h : 0 <= h < n_heads p -> int_safe (h *! hs).
Proof.
  intros Hh. pose proof size_bounds as (Hhs & _ & Hnh & Hd & _).
  assert (0 <= h * hs <= n_heads p * hs) by nia. in_ints; lia.
Qed.

Lemma head_row_safe h : 0 <= h < n_heads p -> int_safe (h *! seq_len p).
Proof.
  intros Hh. pose proof size_bounds as Hb. destruct Hcfg as (_ & _ & _ & _ & _ & _ & Hsl & _).
  assert (0 <= h * seq_len p <= n_heads p * seq_len p) by nia. in_ints; lia.
Qed.

Lemma head_index_safe h i : 0 <= h < n_heads p -> 0 <= i < hs -> int_safe (h *! hs +! i).
Proof.
  intros Hh Hi. pose proof (head_safe h Hh) as Hs.
  pose proof size_bounds as (Hhs & _ & Hnh & Hd & _).
  assert (h * hs + hs <= n_heads p * hs) by nia.
  cbn [int_safe int_value] in *. unfold in_int, INT_MIN in *. repeat split; try exact I; lia.
Qed.

(** The index of [value_cache] in the attention. *)
Lemma value_index_safe l t h i :
  0 <= l < n_layers p -> 0 <= t < seq_len p -> 0 <= h < n_heads p -> 0 <= i < hs ->
  int_safe (l * seq_len p * dim p +! t *! dim p +! h *! hs +! i).
Proof.
  intros Hl Ht Hh Hi.
  pose proof (pos_dim_safe t Ht) as H1. pose proof (head_safe h Hh) as H2.
  pose proof size_bounds as (Hhs & _ & Hnh & _).
  destruct Hcfg as (Hd & _). destruct Hint as (_ & _ & _ & Hlsd).
  assert (Hs : h * hs + hs <= n_heads p * hs) by nia.
  assert (H0 : 0 <= h * hs) by nia.
  pose proof (idx3 l (n_layers p) t (seq_len p) (h * hs + i) (dim p) Hl Ht ltac:(lia)) as H3.
  pose proof (idx3 l (n_layers p) t (seq_len p) 0 (dim p) Hl Ht ltac:(lia)) as H4.
  cbn [int_safe int_value] in *. unfold in_int, INT_MIN in *. repeat split; try exact I; lia.
Qed.

Lemma layout_ints_safe : Forall int_safe (layout_ints p).
Proof.
  pose proof size_bounds as (Hhs & _ & _ & Hdm & Hsm & Hdd & Hhd & Hsd & Hld & Hls & Hlh & _).
  pose proof head_size_safe as Hq.
  assert (Hcf := Hcfg). destruct Hcf as (Hd & Hh' & Hnl & Hh & _ & Hvs & Hsl & _).
  destruct Hint as (Hvd & Hldd & Hldh & Hlsd).
  assert (H1 : 0 <= seq_len p * hs <= seq_len p * dim p) by nia.
  assert (H2 : 0 <= Z.quot (seq_len p * hs) 2 <= seq_len p * hs).
  { rewrite Z.quot_div_nonneg by lia. split; [apply Z.div_pos; lia|].
    apply Z.div_le_upper_bound; lia. }
  assert (H3 : n_layers p * hidden_dim p * dim p = n_layers p * dim p * hidden_dim p) by ring.
  assert (0 <= vocab_size p * dim p) by nia. assert (0 <= n_layers p * dim p) by nia.
  assert (0 <= n_layers p * dim p * dim p) by nia.
  assert (0 <= n_layers p * dim p * hidden_dim p) by nia.
  assert (0 <= n_layers p * hidden_dim p) by nia.
  unfold layout_ints.
  repeat (apply Forall_cons; split); [..|apply Forall_nil];
    cbn [int_safe int_value] in *; unfold in_int, INT_MIN in *;
    repeat split; try exact I; try lia.
Qed.

Lemma state_ints_safe :
  int_safe (n_heads p *! seq_len p) /\ int_safe (n_layers p *! seq_len p *! dim p).
Proof.
  pose proof size_bounds as (_ & _ & _ & _ & _ & _ & _ & _ & _ & Hls & _ & Hhs).
  destruct Hcfg as (Hd & _ & Hnl & Hh & _ & _ & Hsl & _). destruct Hint as (_ & _ & _ & Hlsd).
  assert (0 <= n_heads p * seq_len p) by nia. assert (0 <= n_layers p * seq_len p) by nia.
  assert (0 <= n_layers p * seq_len p * dim p) by nia.
  split; in_ints; lia.
Qed.

End Sizes.

Ltac fits :=
  first [ apply dim_dim_fits | apply hidden_dim_fits | apply dim_hidden_fits
        | apply vocab_dim_fits ]; assumption.

Ltac mem :=
  first
    [ solve [ right; apply rng_padd; lia ]
    | solve [ right; rewrite ?padd_padd; apply rng_padd; lia ]
    | solve [ match goal with H : within _ _ _ _ |- _ => apply H; lia end ]
    | solve [ match goal with H : within _ _ _ _ |- _ => rewrite ?padd_padd; apply H; lia end ]
    | solve [ match goal with H : forall l, persistent l -> _ |- _ =>
                apply H; unfold persistent; simpl; tauto end ]
    | left; mem ].

Ltac inbt := unfold inb; simpl; lia.

(** [win]: a goal [within len S q n]. *)
Ltac win := let i := fresh "i" in let Hi := fresh "Hi" in
  intros i Hi; split; [ inbt | mem ].

(** [scr Hscr]: a goal [within len W q n], [q] a scratch vector. *)
Ltac scr Hscr := let i := fresh "i" in let Hi := fresh "Hi" in
  intros i Hi; split; [ inbt | apply Hscr; unfold scratch; simpl; tauto ].

(** [ints lemma]: the next statement of the program is an [int] expression
    that [lemma] shows safe; go on with its value. *)
Ltac ints lemma :=
  apply spec_int; [ apply lemma; first [assumption | lia] | cbn [int_value] ].

Section TransformerSpec.
Context {F : Type} `{!FloatOps F}.
Variables (p : Config) (dlen pos : Z) (w : TransformerWeights).
Hypothesis Hcfg : valid_config p.
Hypothesis Hint : int_sized p.
Hypothesis Hpos : 0 <= pos < seq_len p.
Hypothesis Hw : weights_in_data p dlen w.

Local Abbreviation len := (state_len p dlen).
Local Abbreviation s := run_state.
Local Abbreviation hs := (Z.quot (dim p) (n_heads p)).

Lemma in_data_within (S : locset) q N a n :
  in_data dlen q N -> 0 <= a -> a + n <= N ->
  (forall l, persistent l -> S l) -> within len S (q +p a) n.
Proof.
  intros (Hb & Ho & Hn) Ha Han Hper i Hi. split.
  - unfold inb. simpl. rewrite Hb. simpl. lia.
  - apply Hper. left. simpl. exact Hb.
Qed.

Lemma scratch_within (W : locset) b n :
  (forall l, scratch l -> W l) -> scratch (Ptr b 0) -> n <= len b ->
  within len W (Ptr b 0) n.
Proof.
  intros Hscr Hb Hn i Hi. split.
  - unfold inb. simpl. lia.
  - apply Hscr. exact Hb.
Qed.

(** A tensor of [L] blocks of [n] floats: the block [l]. *)
Lemma block_tensor (S : locset) L q n a l :
  in_data dlen q (L * n) -> 0 <= l < L -> 0 <= n -> a = l * n ->
  (forall l, persistent l -> S l) -> within len S (q +p a) n.
Proof.
  intros Hq Hl Hn -> Hper. destruct (idx2 l L n Hl Hn).
  eapply in_data_within; eauto.
Qed.

Lemma layer_tensor (S : locset) q n a l :
  in_data dlen q (n_layers p * n) -> 0 <= l < n_layers p -> 0 <= n -> a = l * n ->
  (forall l, persistent l -> S l) -> within len S (q +p a) n.
Proof. apply block_tensor. Qed.

Lemma whole_tensor (S : locset) q n :
  in_data dlen q n -> (forall l, persistent l -> S l) -> within len S q n.
Proof.
  intros Hq Hper. rewrite <- (padd_0 q). eapply in_data_within; eauto; lia.
Qed.


(** On a layer of the model the offsets of [qkv_matmuls] do not overflow. *)
Lemma qkv_matmuls_ints (s0 : RunState) l :
  0 <= l < n_layers p ->
  same_run (F:=F) (qkv_matmuls p s0 w l)
    (matmul (RS.q s0) (RS.xb s0) (wq w +p l * dim p * dim p) (dim p) (dim p);;
     matmul (RS.k s0) (RS.xb s0) (wk w +p l * dim p * dim p) (dim p) (dim p);;
     matmul (RS.v s0) (RS.xb s0) (wv w +p l * dim p * dim p) (dim p) (dim p)).
Proof.
  intros Hl. unfold qkv_matmuls. cbv zeta.
  pose proof (layer_dim_dim_safe p Hcfg Hint l Hl) as Hs.
  eapply same_run_trans; [apply same_run_int, Hs|]. cbn [int_value].
  apply same_run_bind; [apply same_run_refl|]. intros _.
  eapply same_run_trans; [apply same_run_int, Hs|]. cbn [int_value].
  apply same_run_bind; [apply same_run_refl|]. intros _.
  eapply same_run_trans; [apply same_run_int, Hs|]. cbn [int_value].
  apply same_run_refl.
Qed.

Lemma qkv_matmuls_spec (S W : locset) l :
  0 <= l < n_layers p ->
  (forall x, persistent x -> S x) -> (forall x, scratch x -> W x) ->
  within len S (RS.xb s) (dim p) ->
  spec len S W (qkv_matmuls p s w l)
    (fun x => ((S x \/ rng (RS.q s) (dim p) x) \/ rng (RS.k s) (dim p) x)
              \/ rng (RS.v s) (dim p) x)
    (fun _ => True).
Proof.
  intros Hl Hper Hscr Hxb.
  apply (spec_same_run len _ _ _ _ _ _ (qkv_matmuls_ints s l Hl)).
  destruct Hcfg as (Hd & _).
  destruct Hw as (_ & _ & _ & Hwq & Hwk & Hwv & _).
  assert (Hdd : 0 <= dim p * dim p) by nia.
  eapply spec_bind.
  { apply matmul_spec; [lia | lia | fits | exact Hxb | | scr Hscr].
    apply (layer_tensor S _ _ _ l Hwq Hl Hdd); [ring | exact Hper]. }
  intros _ _. eapply spec_bind.
  { apply matmul_spec; [lia | lia | fits | win | | scr Hscr].
    apply (layer_tensor _ _ _ _ l Hwk Hl Hdd); [ring | intros x Hx; left; auto]. }
  intros _ _.
  apply matmul_spec; [lia | lia | fits | win | | scr Hscr].
  apply (layer_tensor _ _ _ _ l Hwv Hl Hdd); [ring | intros x Hx; left; left; auto].
Qed.

Lemma rope_spec (S W : locset) :
  (forall x, persistent x -> S x) -> (forall x, scratch x -> W x) ->
  within len S (RS.q s) (dim p) -> within len S (RS.k s) (dim p) ->
  spec len S W
    (rope p s (freq_cis_real w +p Z.quot (pos * hs) 2)
       (freq_cis_imag w +p Z.quot (pos * hs) 2) hs)
    S (fun _ => True).
Proof.
  intros Hper Hscr Hq Hk. unfold rope.
  destruct (head_size_facts p Hcfg) as (Hhs & Hnh & Heven & Hrow).
  destruct Hcfg as (Hd & _ & _ & Hh & _).
  destruct Hw as (_ & _ & _ & _ & _ & _ & _ & _ & _ & _ & _ & Hfr & Hfi & _).
  assert (Hh2 : 0 <= hs / 2) by lia.
  assert (Hrows : 0 <= pos * (hs / 2) /\ pos * (hs / 2) + hs / 2 <= seq_len p * (hs / 2)) by nia.
  assert (Hfrr : within len S (freq_cis_real w +p Z.quot (pos * hs) 2) (hs / 2)).
  { rewrite Hrow by lia. eapply in_data_within; eauto; lia. }
  assert (Hfir : within len S (freq_cis_imag w +p Z.quot (pos * hs) 2) (hs / 2)).
  { rewrite Hrow by lia. eapply in_data_within; eauto; lia. }
  assert (Hqw : within len W (RS.q s) (dim p)) by scr Hscr.
  assert (Hkw : within len W (RS.k s) (dim p)) by scr Hscr.
  apply spec_for_range_ro. intros h Hh'.
  assert (Hslice : 0 <= h * hs /\ h * hs + hs <= dim p) by nia.
  ints head_safe. ints head_safe.
  apply spec_for_range_by_ro; [lia|]. intros i Hi Hmod.
  replace (i - 0) with i in Hmod by lia.
  assert (Hi1 : i + 1 < hs) by (apply Z.mod_divide in Hmod; [destruct Hmod; lia | lia]).
  assert (Hi2 : 0 <= Z.quot i 2 < hs / 2).
  { rewrite Z.quot_div_nonneg by lia. split; [apply Z.div_pos; lia|].
    apply Z.div_lt_upper_bound; lia. }
  cbn [bind load store].
  apply spec_load; [inbt | mem | intros q0].
  apply spec_load; [inbt | mem | intros q1].
  apply spec_load; [inbt | mem | intros k0].
  apply spec_load; [inbt | mem | intros k1].
  apply spec_load; [apply Hfrr, Hi2 | apply Hfrr, Hi2 | intros fcr].
  apply spec_load; [apply Hfir, Hi2 | apply Hfir, Hi2 | intros fci].
  apply spec_store; [inbt | rewrite padd_padd; apply Hqw; lia |].
  apply spec_store; [inbt | rewrite padd_padd; apply Hqw; lia |].
  apply spec_store; [inbt | rewrite padd_padd; apply Hkw; lia |].
  apply spec_store; [inbt | rewrite padd_padd; apply Hkw; lia |].
  apply spec_ret; [tauto | exact I].
Qed.

Lemma save_kv_spec (S W : locset) l :
  0 <= l < n_layers p ->
  (forall x, persistent x -> S x) ->
  (forall x, kv_slot p Buf_key_cache l pos x \/ kv_slot p Buf_value_cache l pos x -> W x) ->
  within len S (RS.k s) (dim p) -> within len S (RS.v s) (dim p) ->
  spec (F:=F) len S W (save_kv p s pos (l * seq_len p * dim p)) S (fun _ => True).
Proof.
  intros Hl Hper Hkv Hk Hv. unfold save_kv.
  destruct Hcfg as (Hd & _).
  assert (Hidx : forall i, 0 <= i < dim p ->
            0 <= l * seq_len p * dim p + pos * dim p + i < n_layers p * seq_len p * dim p).
  { intros i Hi. apply idx3; lia. }
  eapply spec_conseq with (S0 := S) (W0 := W); [ | auto | auto | | auto ].
  - ints pos_dim_safe. ints pos_dim_safe. eapply spec_bind.
    + apply memcpy_spec; [lia | exact Hk |].
      intros i Hi. specialize (Hidx i Hi). split; [inbt|].
      apply Hkv. left. unfold kv_slot, rng. simpl. split; [reflexivity | lia].
    + intros _ _. apply memcpy_spec; [lia | win |].
      intros i Hi. specialize (Hidx i Hi). split; [inbt|].
      apply Hkv. right. unfold kv_slot, rng. simpl. split; [reflexivity | lia].
  - intros x Hx. right. exact Hx.
Qed.

Lemma attention_head_spec (S W : locset) l h :
  0 <= l < n_layers p -> 0 <= h < n_heads p ->
  (forall x, persistent x -> S x) -> (forall x, scratch x -> W x) ->
  (forall x, att_rows p pos (n_heads p) x -> W x) ->
  within len S (RS.q s) (dim p) ->
  spec len S W (attention_head p s pos (l * seq_len p * dim p) hs h)
    (fun x => S x \/ rng (RS.att s +p h * seq_len p) (pos + 1) x) (fun _ => True).
Proof.
  intros Hl Hh Hper Hscr Hatt Hq. unfold attention_head.
  destruct (head_size_facts p Hcfg) as (Hhs & Hnh & _ & _).
  destruct Hcfg as (Hd & _).
  assert (Hslice : 0 <= h * hs /\ h * hs + hs <= dim p) by nia.
  assert (Hrow : 0 <= h * seq_len p /\ h * seq_len p + seq_len p <= n_heads p * seq_len p)
    by (apply idx2; lia).
  assert (Hidx : forall t i, 0 <= t <= pos -> 0 <= i < hs ->
            0 <= l * seq_len p * dim p + t * dim p + (h * hs + i)
              < n_layers p * seq_len p * dim p).
  { intros t i Ht Hi. apply idx3; lia. }
  assert (Hattw : within len W (RS.att s +p h * seq_len p) (pos + 1)).
  { intros t Ht. split; [inbt|]. apply Hatt. split; [reflexivity|].
    exists h. simpl. lia. }
  assert (Hxbw : within len W (RS.xb s) (dim p)) by scr Hscr.
  eapply spec_conseq with (S0 := S) (W0 := W); [ | auto | auto | | auto ].
  - ints head_safe. ints head_row_safe. ints (pos_next_safe p). eapply spec_bind.
    { apply spec_fill with (out := RS.att s +p h * seq_len p); [lia|].
      intros t Ht. ints pos_dim_safe. ints head_safe. eapply spec_bind.
      - apply spec_fold_ro; [lia|]. intros i sc Hi. cbn [bind load].
        specialize (Hidx t i ltac:(lia) Hi).
        apply spec_load; [inbt | mem | intros qi].
        apply spec_load; [inbt | mem | intros ki].
        apply spec_ret; auto.
      - intros sc _. cbn [store].
        apply spec_store; [apply Hattw; lia | apply Hattw; lia |].
        apply spec_ret; auto. }
    intros _ _. eapply spec_bind.
    { apply softmax_spec; [lia | apply within_written with (W := W); exact Hattw | exact Hattw]. }
    intros _ _. apply spec_for_range_ro. intros i Hi.
    eapply spec_bind.
    + apply spec_fold_ro; [lia|]. intros t val Ht. ints value_index_safe. cbn [bind load].
      specialize (Hidx t i ltac:(lia) Hi).
      apply spec_load; [apply Hattw; lia | mem | intros a].
      apply spec_load; [inbt | mem | intros vv].
      apply spec_ret; auto.
    + intros val _. ints head_index_safe. cbn [store].
      apply spec_store; [apply Hxbw; lia | apply Hxbw; lia |].
      apply spec_ret; [tauto | exact I].
  - intros x Hx. left. destruct Hx as [Hx|Hx]; [left; left; exact Hx | right; exact Hx].
Qed.

Lemma attention_spec (S W : locset) l :
  0 <= l < n_layers p ->
  (forall x, persistent x -> S x) -> (forall x, scratch x -> W x) ->
  (forall x, att_rows p pos (n_heads p) x -> W x) ->
  within len S (RS.q s) (dim p) ->
  spec len S W (attention p s pos (l * seq_len p * dim p) hs)
    (fun x => S x \/ att_rows p pos (n_heads p) x) (fun _ => True).
Proof.
  intros Hl Hper Hscr Hatt Hq. unfold attention.
  destruct Hcfg as (_ & _ & _ & Hh & _).
  apply spec_conseq with (S0 := fun x => S x \/ att_rows p pos 0 x)
    (S0' := fun x => S x \/ att_rows p pos (n_heads p) x) (W0 := W) (Q0 := fun _ => True);
    [ apply spec_for_range with (Inv := fun h x => S x \/ att_rows p pos h x); [lia|]
    | | auto | auto | auto ].
  - intros h Hh'.
    eapply spec_conseq;
      [ apply (attention_head_spec (fun x => S x \/ att_rows p pos h x) W l h);
        [exact Hl | exact Hh' | intros x Hx; left; auto | exact Hscr | exact Hatt | win]
      | auto | auto | | auto ].
    intros x [Hx|(Hb & h' & Hh'' & Ho)]; [right; left; exact Hx|].
    destruct (Z.eq_dec h' h) as [->|Hne].
    + left. right. split; [exact Hb | simpl; lia].
    + right. right. split; [exact Hb|]. exists h'. lia.
  - intros x [Hx|(_ & h' & Hh' & _)]; [exact Hx | lia].
Qed.

Lemma ffn_spec (S W : locset) l :
  0 <= l < n_layers p ->
  (forall x, persistent x -> S x) -> (forall x, scratch x -> W x) ->
  within len S (RS.x s) (dim p) ->
  spec len S W (ffn p s w l)
    (fun y => ((S y \/ rng (RS.xb s) (dim p) y) \/ rng (RS.hb s) (hidden_dim p) y)
              \/ rng (RS.hb2 s) (hidden_dim p) y)
    (fun _ => True).
Proof.
  intros Hl Hper Hscr Hx. unfold ffn.
  destruct Hcfg as (Hd & Hhd & _).
  destruct Hw as (_ & _ & Hrf & _ & _ & _ & _ & Hw1 & Hw2 & Hw3 & _).
  assert (Hhdd : 0 <= hidden_dim p * dim p) by nia.
  assert (Hdhd : 0 <= dim p * hidden_dim p) by nia.
  assert (Hxbw : within len W (RS.xb s) (dim p)) by scr Hscr.
  assert (Hhbw : within len W (RS.hb s) (hidden_dim p)) by scr Hscr.
  eapply spec_conseq with (S0 := S) (W0 := W); [ | auto | auto | | auto ].
  - ints layer_dim_safe. eapply spec_bind.
    { apply rmsnorm_spec; [lia | exact Hx | | exact Hxbw].
      apply (layer_tensor S _ _ _ l Hrf Hl); [lia | ring | exact Hper]. }
    intros _ _. ints layer_dim_hidden_safe. eapply spec_bind.
    { apply matmul_spec; [lia | lia | fits | win | | scr Hscr].
      apply (layer_tensor _ _ _ _ l Hw1 Hl Hhdd); [ring | intros x Hp; left; auto]. }
    intros _ _. ints layer_dim_hidden_safe. eapply spec_bind.
    { apply matmul_spec; [lia | lia | fits | win | | scr Hscr].
      apply (layer_tensor _ _ _ _ l Hw3 Hl Hhdd); [ring | intros x Hp; left; left; auto]. }
    intros _ _. eapply spec_bind.
    { apply spec_for_range_ro. intros i Hi. cbn [bind load store].
      apply spec_load; [inbt | mem | intros hi].
      apply spec_store; [apply Hhbw; lia | apply Hhbw; lia |].
      apply spec_ret; [tauto | exact I]. }
    intros _ _. eapply spec_bind.
    { apply spec_for_range_ro. intros i Hi. cbn [bind load store].
      apply spec_load; [inbt | mem | intros hi].
      apply spec_load; [inbt | mem | intros h2].
      apply spec_store; [apply Hhbw; lia | apply Hhbw; lia |].
      apply spec_ret; [tauto | exact I]. }
    intros _ _. ints layer_dim_hidden_safe. eapply spec_bind.
    { apply matmul_spec; [lia | lia | fits | win | | exact Hxbw].
      apply (layer_tensor _ _ _ _ l Hw2 Hl Hdhd);
        [ring | intros x Hp; left; left; left; auto]. }
    intros _ _.
    apply accum_spec; [lia | win | win | scr Hscr].
  - intros y Hy. tauto.
Qed.

Lemma layer_spec (S W : locset) l :
  0 <= l < n_layers p ->
  (forall x, persistent x -> S x) -> (forall x, scratch x -> W x) ->
  (forall x, att_rows p pos (n_heads p) x -> W x) ->
  (forall x, kv_slot p Buf_key_cache l pos x \/ kv_slot p Buf_value_cache l pos x -> W x) ->
  within len S (RS.x s) (dim p) ->
  spec len S W
    (layer p s w pos hs (freq_cis_real w +p Z.quot (pos * hs) 2)
       (freq_cis_imag w +p Z.quot (pos * hs) 2) l)
    (fun y => S y \/ layer_written p pos y) (fun _ => True).
Proof.
  intros Hl Hper Hscr Hatt Hkv Hx. unfold layer.
  assert (Hd : 0 < dim p) by apply Hcfg.
  assert (Hra : in_data dlen (rms_att_weight w) (n_layers p * dim p)) by apply Hw.
  assert (Hwo : in_data dlen (wo w) (n_layers p * (dim p * dim p))) by apply Hw.
  assert (Hdd : 0 <= dim p * dim p) by nia.
  eapply spec_conseq with (S0 := S) (W0 := W); [ | auto | auto | | auto ].
  - ints layer_dim_safe. eapply spec_bind.
    { apply rmsnorm_spec; [lia | exact Hx | | scr Hscr].
      apply (layer_tensor S _ _ _ l Hra Hl); [lia | ring | exact Hper]. }
    intros _ _. eapply spec_bind.
    { apply qkv_matmuls_spec; [exact Hl | intros x Hp; left; auto | exact Hscr | win]. }
    intros _ _. eapply spec_bind.
    { apply rope_spec; [intros x Hp; do 4 left; auto | exact Hscr | win | win]. }
    intros _ _. ints layer_offset_safe. eapply spec_bind.
    { apply save_kv_spec; [exact Hl | intros x Hp; do 4 left; auto | exact Hkv | win | win]. }
    intros _ _. eapply spec_bind.
    { apply attention_spec;
        [exact Hl | intros x Hp; do 4 left; auto | exact Hscr | exact Hatt | win]. }
    intros _ _. ints layer_dim_dim_safe. eapply spec_bind.
    { apply matmul_spec; [lia | lia | fits | win | | scr Hscr].
      apply (layer_tensor _ _ _ _ l Hwo Hl Hdd); [ring | intros x Hp; do 5 left; auto]. }
    intros _ _. eapply spec_bind.
    { apply accum_spec; [lia | win | win | scr Hscr]. }
    intros _ _.
    apply ffn_spec; [exact Hl | intros x Hp; do 7 left; auto | exact Hscr | win].
  - intros y [Hy|Hy]; [tauto|]. unfold layer_written in Hy. tauto.
Qed.

Lemma transformer_spec (S W : locset) token :
  0 <= token < vocab_size p ->
  (forall x, persistent x -> S x) -> (forall x, scratch x -> W x) ->
  (forall x, att_rows p pos (n_heads p) x -> W x) ->
  (forall x, kv_slots p pos (n_layers p) x -> W x) ->
  spec len S W (transformer token pos p s w)
    (fun y => S y \/ step_written p pos y) (fun _ => True).
Proof.
  intros Htok Hper Hscr Hatt Hkv. unfold transformer.
  assert (Hd : 0 < dim p) by apply Hcfg.
  assert (Hnl : 0 < n_layers p) by apply Hcfg.
  assert (Hvs : 0 < vocab_size p) by apply Hcfg.
  assert (Hte : in_data dlen (token_embedding_table w) (vocab_size p * dim p)) by apply Hw.
  assert (Hrf : in_data dlen (rms_final_weight w) (dim p)) by apply Hw.
  assert (Hcl : in_data dlen (wcls w) (vocab_size p * dim p)) by apply Hw.
  eapply spec_conseq with (S0 := S) (W0 := W); [ | auto | auto | | auto ].
  - ints head_size_safe. ints token_safe. eapply spec_bind.
    { apply memcpy_spec; [lia | | scr Hscr].
      apply (block_tensor S _ _ _ _ token Hte Htok); [lia | ring | exact Hper]. }
    intros _ _. ints pos_row_safe. ints pos_row_safe. eapply spec_bind.
    { apply spec_conseq with
        (S0 := fun y => (S y \/ rng (RS.x s) (dim p) y) \/ (0 < 0 /\ layer_written p pos y))
        (S0' := fun y => (S y \/ rng (RS.x s) (dim p) y)
                         \/ (0 < n_layers p /\ layer_written p pos y))
        (W0 := W) (Q0 := fun _ => True) (Q := fun _ => True);
        [ apply spec_for_range with
            (Inv := fun l y => (S y \/ rng (RS.x s) (dim p) y)
                               \/ (0 < l /\ layer_written p pos y)); [lia|]
        | | auto | intros y Hy; left; exact Hy | auto ].
      - intros l Hl.
        eapply spec_conseq with
          (S0 := fun y => (S y \/ rng (RS.x s) (dim p) y) \/ (0 < l /\ layer_written p pos y))
          (W0 := W);
          [ apply layer_spec;
            [ exact Hl | intros x Hp; do 2 left; auto | exact Hscr | exact Hatt
            | intros x Hx; apply Hkv; exists l; split; [lia | exact Hx] | win ]
          | auto | auto | | auto ].
        intros y [Hy|[_ Hy]]; [right; left; exact Hy | left; right; exact Hy].
      - intros y [Hy|[Hy _]]; [exact Hy | lia]. }
    intros _ _. eapply spec_bind.
    { apply rmsnorm_spec; [lia | win | | scr Hscr].
      apply whole_tensor; [exact Hrf | intros x Hp; do 2 left; auto]. }
    intros _ _.
    apply matmul_spec; [lia | lia | fits | win | | scr Hscr].
    apply whole_tensor; [exact Hcl | intros x Hp; do 3 left; auto].
  - intros y [Hy|Hy]; [tauto|]. unfold step_written in Hy. tauto.
Qed.

Lemma next_token_spec (S W : locset) temperature rnd :
  (forall x, scratch x -> W x) ->
  within len S (RS.logits s) (vocab_size p) ->
  spec len S W (next_token temperature rnd p s) S (fun next => 0 <= next < vocab_size p).
Proof.
  intros Hscr Hlg. unfold next_token.
  assert (Hvs : 0 < vocab_size p) by apply Hcfg.
  assert (Hlw : within len W (RS.logits s) (vocab_size p)) by scr Hscr.
  destruct (f_eq temperature f_zero).
  - apply argmax_spec; [lia | exact Hlg].
  - eapply spec_bind.
    { apply spec_for_range_ro. intros i Hi. cbn [bind load store].
      apply spec_load; [rd Hlg | rd Hlg | intros lq].
      apply spec_store; [rd Hlw | rd Hlw |].
      apply spec_ret; [tauto | exact I]. }
    intros _ _. eapply spec_bind.
    { eapply spec_conseq with (S0 := S) (W0 := W) (S' := S) (Q := fun _ => True);
        [ apply softmax_spec; [lia | exact Hlg | exact Hlw] | auto | auto | | auto ].
      intros x Hx. right. exact Hx. }
    intros _ _. apply sample_spec; [lia | exact Hlg].
Qed.

Lemma loop_body_spec (S W : locset) temperature rnd token :
  0 <= token < vocab_size p ->
  (forall x, persistent x -> S x) -> (forall x, scratch x -> W x) ->
  (forall x, att_rows p pos (n_heads p) x -> W x) ->
  (forall x, kv_slots p pos (n_layers p) x -> W x) ->
  spec len S W (loop_body temperature rnd p s w token pos)
    (fun y => S y \/ step_written p pos y) (fun next => 0 <= next < vocab_size p).
Proof.
  intros Htok Hper Hscr Hatt Hkv. unfold loop_body.
  eapply spec_bind.
  - apply transformer_spec; eauto.
  - intros _ _. apply next_token_spec; [exact Hscr|].
    intros i Hi. split; [inbt|]. right. unfold step_written. right. left.
    apply rng_padd. exact Hi.
Qed.

End TransformerSpec.

(** ** The layout of the checkpoint *)

Section Layout.
Context {F : Type} `{!FloatOps F}.

(** Each tensor starts where the one before it ends. *)
Lemma checkpoint_init_weights_fields (p : Config) (f : ptr) (shared_weights : bool)
    (w : TransformerWeights) :
  checkpoint_init_weights p f shared_weights = Some w ->
  Forall int_safe (layout_ints p) /\
  token_embedding_table w = f /\
  rms_att_weight w = token_embedding_table w +p vocab_size p * dim p /\
  wq w = rms_att_weight w +p n_layers p * dim p /\
  wk w = wq w +p n_layers p * dim p * dim p /\
  wv w = wk w +p n_layers p * dim p * dim p /\
  wo w = wv w +p n_layers p * dim p * dim p /\
  rms_ffn_weight w = wo w +p n_layers p * dim p * dim p /\
  w1 w = rms_ffn_weight w +p n_layers p * dim p /\
  w2 w = w1 w +p n_layers p * dim p * hidden_dim p /\
  w3 w = w2 w +p n_layers p * hidden_dim p * dim p /\
  rms_final_weight w = w3 w +p n_layers p * dim p * hidden_dim p /\
  freq_cis_real w = rms_final_weight w +p dim p /\
  freq_cis_imag w
  = freq_cis_real w +p Z.quot (seq_len p * Z.quot (dim p) (n_heads p)) 2 /\
  wcls w = if shared_weights then token_embedding_table w
           else freq_cis_imag w +p Z.quot (seq_len p * Z.quot (dim p) (n_heads p)) 2.
Proof.
  unfold checkpoint_init_weights, layout_ints. cbv zeta.
  repeat match goal with
  | |- obind (int_eval ?e) _ = Some _ -> _ =>
      let E := fresh "E" in
      destruct (int_eval e) as [?|] eqn:E; [|discriminate];
      apply int_eval_Some in E; destruct E as [-> ?]; cbn [obind int_value]
  end.
  intros [= <-]. cbn [token_embedding_table rms_att_weight rms_ffn_weight wq wk wv wo w1 w2 w3
    rms_final_weight freq_cis_real freq_cis_imag wcls].
  split; [repeat (apply Forall_cons; split; [assumption|]); constructor|].
  repeat split; reflexivity.
Qed.

(** There is a result when no expression of the function overflows. *)
Lemma checkpoint_init_weights_defined (p : Config) (f : ptr) (shared_weights : bool) :
  Forall int_safe (layout_ints p) ->
  exists w, checkpoint_init_weights p f shared_weights = Some w.
Proof.
  unfold layout_ints. intros Hall.
  repeat (apply Forall_cons_1 in Hall; destruct Hall as [? Hall]).
  unfold checkpoint_init_weights. cbv zeta.
  repeat match goal with
  | H : int_safe ?e |- context [int_eval ?e] =>
      rewrite (int_eval_safe e H); cbn [obind int_value]
  end.
  eexists. reflexivity.
Qed.

(** When the mapping holds the floats the header implies, every tensor
    [checkpoint_init_weights] hands out lies in it. *)
Lemma checkpoint_weights_in_data (p : Config) (shared_weights : bool) (dlen : Z)
    (w : TransformerWeights) :
  valid_config p ->
  checkpoint_init_weights p (Ptr Buf_data 0 +p header_floats) shared_weights = Some w ->
  header_floats + weights_floats p shared_weights <= dlen ->
  weights_in_data p dlen w.
Proof.
  intros Hcfg Hw Hlen.
  destruct (checkpoint_init_weights_fields _ _ _ _ Hw)
    as (_ & E0 & E1 & E2 & E3 & E4 & E5 & E6 & E7 & E8 & E9 & E10 & E11 & E12 & E13).
  destruct (head_size_facts p Hcfg) as (Hhs & Hnh & Heven & Hrow).
  destruct Hcfg as (Hd & Hhd & Hnl & Hh & _ & Hvs & Hsl & _).
  unfold weights_floats in Hlen. rewrite (Hrow (seq_len p)) in Hlen by lia.
  rewrite (Hrow (seq_len p)) in E12, E13 by lia.
  unfold weights_in_data, in_data, header_floats in *.
  set (V := vocab_size p) in *. set (D := dim p) in *. set (L := n_layers p) in *.
  set (H := hidden_dim p) in *. set (T := seq_len p) in *.
  set (R := Z.quot D (n_heads p) / 2) in *.
  assert (0 <= R) by (unfold R; lia).
  assert (0 <= V * D) by nia. assert (0 <= L * D) by nia.
  assert (0 <= L * D * D) by nia. assert (0 <= L * D * H) by nia.
  assert (0 <= T * R) by nia.
  assert (E1' : L * (D * D) = L * D * D) by ring.
  assert (E2' : L * (H * D) = L * D * H) by ring.
  assert (E3' : L * (D * H) = L * D * H) by ring.
  assert (E4' : L * H * D = L * D * H) by ring.
  rewrite E1', E2', E3'. rewrite E4' in E9.
  assert (B0 : p_buf (token_embedding_table w) = Buf_data) by (rewrite E0; reflexivity).
  assert (O0 : p_off (token_embedding_table w) = 7) by (rewrite E0; reflexivity).
  assert (B1 : p_buf (rms_att_weight w) = Buf_data) by (rewrite E1; exact B0).
  assert (O1 : p_off (rms_att_weight w) = 7 + V * D) by (rewrite E1; simpl; lia).
  assert (B2 : p_buf (wq w) = Buf_data) by (rewrite E2; exact B1).
  assert (O2 : p_off (wq w) = p_off (rms_att_weight w) + L * D) by (rewrite E2; reflexivity).
  assert (B3 : p_buf (wk w) = Buf_data) by (rewrite E3; exact B2).
  assert (O3 : p_off (wk w) = p_off (wq w) + L * D * D) by (rewrite E3; reflexivity).
  assert (B4 : p_buf (wv w) = Buf_data) by (rewrite E4; exact B3).
  assert (O4 : p_off (wv w) = p_off (wk w) + L * D * D) by (rewrite E4; reflexivity).
  assert (B5 : p_buf (wo w) = Buf_data) by (rewrite E5; exact B4).
  assert (O5 : p_off (wo w) = p_off (wv w) + L * D * D) by (rewrite E5; reflexivity).
  assert (B6 : p_buf (rms_ffn_weight w) = Buf_data) by (rewrite E6; exact B5).
  assert (O6 : p_off (rms_ffn_weight w) = p_off (wo w) + L * D * D) by (rewrite E6; reflexivity).
  assert (B7 : p_buf (w1 w) = Buf_data) by (rewrite E7; exact B6).
  assert (O7 : p_off (w1 w) = p_off (rms_ffn_weight w) + L * D) by (rewrite E7; reflexivity).
  assert (B8 : p_buf (w2 w) = Buf_data) by (rewrite E8; exact B7).
  assert (O8 : p_off (w2 w) = p_off (w1 w) + L * D * H) by (rewrite E8; reflexivity).
  assert (B9 : p_buf (w3 w) = Buf_data) by (rewrite E9; exact B8).
  assert (O9 : p_off (w3 w) = p_off (w2 w) + L * D * H) by (rewrite E9; reflexivity).
  assert (B10 : p_buf (rms_final_weight w) = Buf_data) by (rewrite E10; exact B9).
  assert (O10 : p_off (rms_final_weight w) = p_off (w3 w) + L * D * H)
    by (rewrite E10; reflexivity).
  assert (B11 : p_buf (freq_cis_real w) = Buf_data) by (rewrite E11; exact B10).
  assert (O11 : p_off (freq_cis_real w) = p_off (rms_final_weight w) + D)
    by (rewrite E11; reflexivity).
  assert (B12 : p_buf (freq_cis_imag w) = Buf_data) by (rewrite E12; exact B11).
  assert (O12 : p_off (freq_cis_imag w) = p_off (freq_cis_real w) + T * R)
    by (rewrite E12; reflexivity).
  assert (B13 : p_buf (wcls w) = Buf_data)
    by (rewrite E13; destruct shared_weights; [exact B0 | exact B12]).
  assert (O13 : p_off (wcls w) = if shared_weights then 7 else p_off (freq_cis_imag w) + T * R)
    by (rewrite E13; destruct shared_weights; [exact O0 | reflexivity]).
  destruct shared_weights; repeat split; try assumption; lia.
Qed.

(** On a valid configuration whose sizes fit an [int], and with the memory
    asked for, [malloc_run_state] gives twelve zeroed buffers of the lengths
    [state_len] beside the mapping. *)
Lemma malloc_run_state_Done (p : Config) (data : list F) :
  valid_config p -> int_sized p ->
  exists m0,
    malloc_run_state true p data = Done m0 /\
    has_shape (state_len p (Z.of_nat (length data))) m0 /\
    m0 Buf_data = data /\
    forall b, b <> Buf_data -> m0 b = calloc (state_len p 0 b).
Proof.
  intros Hcfg Hint. destruct (state_ints_safe p Hcfg Hint) as [Ha Hc].
  destruct Hcfg as (Hd & Hhd & Hnl & Hh & _ & Hvs & Hsl & _).
  unfold malloc_run_state. rewrite (int_eval_safe _ Ha), (int_eval_safe _ Hc).
  cbn [int_value andb forallb].
  rewrite !(proj2 (Z.leb_le 0 _)) by nia. cbn [andb].
  eexists. split; [reflexivity|]. split; [|split].
  - intros b. destruct b; simpl; unfold calloc; rewrite ?length_replicate; try lia; nia.
  - reflexivity.
  - intros b Hb. destruct b; try reflexivity. contradiction.
Qed.

End Layout.

(** ** Counting writes *)

Section Counting.
Context {F : Type} `{!FloatOps F}.
Variable len : buffer -> Z.

Lemma wcount_app t1 t2 l : wcount (t1 ++ t2) l = (wcount t1 l + wcount t2 l)%nat.
Proof. apply count_occ_app. Qed.

Lemma wcount_0 t l : ~ In (Wr l) t -> wcount t l = 0%nat.
Proof. apply count_occ_not_In. Qed.

Lemma wcount_pos t l : In (Wr l) t <-> (0 < wcount t l)%nat.
Proof. apply count_occ_In. Qed.

Lemma cnt_ret {A} (a : A) l : cnt (F:=F) len (Ret a) l 0.
Proof. intros m a' m' t _ [= _ _ <-]. reflexivity. Qed.

Lemma cnt_bind {A B} (c : prog F A) (f : A -> prog F B) l n1 n2 n :
  cnt len c l n1 -> (forall a, cnt len (f a) l n2) -> n = (n1 + n2)%nat ->
  cnt len (bind c f) l n.
Proof.
  intros Hc Hf -> m b m2 t Hm. rewrite run_bind.
  destruct (run c m) as [[[a m1] t1]|] eqn:Hr1; [|discriminate].
  destruct (run (f a) m1) as [[[b' m2'] t2]|] eqn:Hr2; [|discriminate].
  intros [= _ _ <-]. rewrite wcount_app.
  rewrite (Hc _ _ _ _ Hm Hr1), (Hf a _ _ _ _ (run_shape _ _ _ _ _ _ Hr1 Hm) Hr2).
  reflexivity.
Qed.

Lemma cnt_bind_0l {A B} (c : prog F A) (f : A -> prog F B) l n :
  cnt len c l 0 -> (forall a, cnt len (f a) l n) -> cnt len (bind c f) l n.
Proof. intros Hc Hf. eapply cnt_bind; eauto. Qed.

Lemma cnt_bind_0r {A B} (c : prog F A) (f : A -> prog F B) l n :
  cnt len c l n -> (forall a, cnt len (f a) l 0) -> cnt len (bind c f) l n.
Proof. intros Hc Hf. eapply cnt_bind; eauto. Qed.

(** An [int] expression writes nothing. *)
Lemma cnt_int {A} (e : int_exp) (k : Z -> prog F A) l n :
  cnt len (k (int_value e)) l n -> cnt len (bind (int e) k) l n.
Proof.
  intros Hk m a m' t Hm Hr. apply run_bind_int_inv in Hr. destruct Hr as [_ Hr].
  exact (Hk _ _ _ _ Hm Hr).
Qed.

(** A program that may only write within [W] does not write outside. *)
Lemma cnt_of_spec {A} (S W S' : locset) (Q : A -> Prop) (c : prog F A) l :
  spec len S W c S' Q -> ~ W l -> cnt len c l 0.
Proof.
  intros Hs Hl m a m' t Hm Hr.
  destruct (Hs m Hm) as (a' & m'' & t' & Hr' & _ & _ & Hw & _).
  rewrite Hr in Hr'. injection Hr' as _ _ <-.
  apply wcount_0. intros Hin. apply Hl, Hw, Hin.
Qed.

Lemma cnt_load {A} p (k : F -> prog F A) l n :
  (forall v, cnt len (k v) l n) -> cnt len (Load p k) l n.
Proof.
  intros Hk m a m' t Hm. simpl.
  destruct (mem_load m p) as [v|]; [|discriminate].
  destruct (run (k v) m) as [[[a1 m1] t1]|] eqn:Hr; [|discriminate].
  intros [= _ _ <-]. unfold wcount.
  rewrite count_occ_cons_neq by discriminate. eapply Hk; eauto.
Qed.

Lemma cnt_store {A} p v (k : prog F A) l n :
  cnt len k l n ->
  cnt len (Store p v k) l (if decide (l = p) then Datatypes.S n else n).
Proof.
  intros Hk m a m' t Hm. simpl.
  destruct (mem_store m p v) as [m0|] eqn:Hs; [|discriminate].
  destruct (run k m0) as [[[a1 m1] t1]|] eqn:Hr; [|discriminate].
  intros [= _ _ <-]. unfold wcount.
  assert (Hm0 : has_shape len m0).
  { intros b. rewrite (mem_store_length _ _ _ _ b Hs). apply Hm. }
  pose proof (Hk _ _ _ _ Hm0 Hr) as Hc. unfold wcount in Hc.
  destruct (decide (l = p)) as [->|Hd].
  - rewrite count_occ_cons_eq by reflexivity. f_equal. exact Hc.
  - rewrite count_occ_cons_neq by congruence. exact Hc.
Qed.

(** A loop in which only the iteration [i0] writes [l]. *)
Lemma cnt_for_loop (body : Z -> prog F unit) l n k i0 :
  forall i,
  (forall j, i <= j < i + Z.of_nat k -> j <> i0 -> cnt len (body j) l 0) ->
  cnt len (body i0) l n ->
  cnt len (for_loop k i 1 body) l (if decide (i <= i0 < i + Z.of_nat k) then n else 0%nat).
Proof.
  induction k as [|k IH]; intros i Hz Hn; simpl for_loop.
  - destruct (decide _) as [Hd|Hd]; [lia|]. apply cnt_ret.
  - destruct (Z.eq_dec i i0) as [->|Hne].
    + eapply cnt_bind; [exact Hn | intros _; apply IH; [|exact Hn] |].
      * intros j Hj Hji. apply Hz; [lia | exact Hji].
      * destruct (decide (i0 <= i0 < i0 + Z.of_nat (Datatypes.S k))) as [_|Hd]; [|lia].
        destruct (decide (i0 + 1 <= i0 < i0 + 1 + Z.of_nat k)) as [Hd|_]; [lia|]. lia.
    + eapply cnt_bind; [apply Hz; [lia | exact Hne] | intros _; apply IH; [|exact Hn] |].
      * intros j Hj Hji. apply Hz; [lia | exact Hji].
      * destruct (decide (i <= i0 < i + Z.of_nat (Datatypes.S k))) as [Hd|Hd];
          destruct (decide (i + 1 <= i0 < i + 1 + Z.of_nat k)) as [Hd'|Hd']; lia.
Qed.

Lemma cnt_for_one (body : Z -> prog F unit) l n lo hi i0 :
  lo <= i0 < hi ->
  (forall j, lo <= j < hi -> j <> i0 -> cnt len (body j) l 0) ->
  cnt len (body i0) l n ->
  cnt len (for_range lo hi body) l n.
Proof.
  intros Hi Hz Hn. unfold for_range, for_range_by, trip_count.
  replace (hi - lo + 1 - 1) with (hi - lo) by lia. rewrite Z.div_1_r.
  pose proof (cnt_for_loop body l n (Z.to_nat (hi - lo)) i0 lo) as Hc.
  destruct (decide (lo <= i0 < lo + Z.of_nat (Z.to_nat (hi - lo)))) as [_|Hd]; [|lia].
  apply Hc; [|exact Hn]. intros j Hj. apply Hz. lia.
Qed.

(** [memcpy] writes every float of its destination once. *)
Lemma memcpy_cnt dst src n l :
  rng dst n l -> cnt (F:=F) len (memcpy dst src n) l 1.
Proof.
  intros Hl. destruct (rng_inv _ _ _ Hl) as (i0 & Hi0 & ->). unfold memcpy.
  destruct (Z.ltb_spec n 0); [lia|].
  apply cnt_for_one with (i0 := i0); [exact Hi0 | |].
  - intros j Hj Hne. cbn [bind load store]. apply cnt_load. intros v.
    pose proof (cnt_store (dst +p j) v (Ret tt) (dst +p i0) 0 (cnt_ret tt _)) as Hc.
    destruct (decide (dst +p i0 = dst +p j)) as [He|_]; [|exact Hc].
    exfalso. apply Hne. injection He. lia.
  - cbn [bind load store]. apply cnt_load. intros v.
    pose proof (cnt_store (dst +p i0) v (Ret tt) (dst +p i0) 0 (cnt_ret tt _)) as Hc.
    destruct (decide (dst +p i0 = dst +p i0)) as [_|Hd]; [exact Hc | congruence].
Qed.

End Counting.

(** ** The forward pass writes each of its cache slots once *)

Ltac win_top := let i := fresh "i" in let Hi := fresh "Hi" in
  intros i Hi; split; [ inbt | exact I ].

Section StepCount.
Context {F : Type} `{!FloatOps F}.
Variables (p : Config) (dlen pos : Z) (w : TransformerWeights).
Hypothesis Hcfg : valid_config p.
Hypothesis Hint : int_sized p.
Hypothesis Hpos : 0 <= pos < seq_len p.
Hypothesis Hw : weights_in_data p dlen w.

Local Abbreviation len := (state_len p dlen).
Local Abbreviation s := run_state.
Local Abbreviation hs := (Z.quot (dim p) (n_heads p)).
Local Abbreviation top := (fun _ : ptr => True).
Local Abbreviation W0 := (fun y : ptr => scratch y \/ att_rows p pos (n_heads p) y).

Lemma cache_not_W0 x : in_cache x -> ~ W0 x.
Proof.
  unfold in_cache, scratch, att_rows. intros Hc [Hs|[Ha _]]; intuition congruence.
Qed.

Lemma kv_slot_in_cache c ly x :
  c = Buf_key_cache \/ c = Buf_value_cache -> kv_slot p c ly pos x -> in_cache x.
Proof. intros Hc [Hb _]. simpl in Hb. unfold in_cache. destruct Hc; subst c; auto. Qed.

Lemma kv_slot_disjoint c c' l ly x :
  0 <= l < n_layers p -> 0 <= ly < n_layers p -> l <> ly ->
  kv_slot p c ly pos x -> ~ kv_slot p c' l pos x.
Proof.
  intros Hl Hly Hne [_ Ho] [_ Ho']. simpl in *.
  assert (Hd : 0 < dim p) by apply Hcfg.
  assert (Hrow : pos * dim p + dim p <= seq_len p * dim p) by nia.
  assert (H0 : 0 <= pos * dim p) by nia.
  assert (Hlt : l < ly \/ ly < l) by lia.
  destruct Hlt as [Hlt|Hlt].
  - assert ((l + 1) * (seq_len p * dim p) <= ly * (seq_len p * dim p))
      by (apply Z.mul_le_mono_nonneg_r; lia).
    rewrite <- !Z.mul_assoc in *. lia.
  - assert ((ly + 1) * (seq_len p * dim p) <= l * (seq_len p * dim p))
      by (apply Z.mul_le_mono_nonneg_r; lia).
    rewrite <- !Z.mul_assoc in *. lia.
Qed.

Lemma save_kv_cnt ly x :
  0 <= ly < n_layers p ->
  kv_slot p Buf_key_cache ly pos x \/ kv_slot p Buf_value_cache ly pos x ->
  cnt (F:=F) len (save_kv p s pos (ly * seq_len p * dim p)) x 1.
Proof.
  intros Hly Hx. unfold save_kv. do 2 (apply cnt_int; cbn [int_value]).
  assert (Hd : 0 < dim p) by apply Hcfg.
  assert (Hidx : forall i, 0 <= i < dim p ->
            0 <= ly * seq_len p * dim p + pos * dim p + i < n_layers p * seq_len p * dim p).
  { intros i Hi. apply idx3; lia. }
  destruct Hx as [Hx|Hx].
  - apply cnt_bind_0r; [ apply memcpy_cnt | intros _ ].
    + destruct Hx as [Hb Ho]. split; [exact Hb | simpl in *; lia].
    + eapply cnt_of_spec with (S := top)
        (W := rng (RS.value_cache s +p ly * seq_len p * dim p +p pos * dim p) (dim p)).
      * apply memcpy_spec; [lia | win_top |].
        intros i Hi. specialize (Hidx i Hi). split; [inbt | apply rng_padd, Hi].
      * destruct Hx as [Hb _]. intros [Hb' _]. simpl in *. congruence.
  - apply cnt_bind_0l; [ | intros _; apply memcpy_cnt ].
    + eapply cnt_of_spec with (S := top)
        (W := rng (RS.key_cache s +p ly * seq_len p * dim p +p pos * dim p) (dim p)).
      * apply memcpy_spec; [lia | win_top |].
        intros i Hi. specialize (Hidx i Hi). split; [inbt | apply rng_padd, Hi].
      * destruct Hx as [Hb _]. intros [Hb' _]. simpl in *. congruence.
    + destruct Hx as [Hb Ho]. split; [exact Hb | simpl in *; lia].
Qed.

Lemma layer_cnt_same ly x :
  0 <= ly < n_layers p ->
  kv_slot p Buf_key_cache ly pos x \/ kv_slot p Buf_value_cache ly pos x ->
  cnt len (layer p s w pos hs (freq_cis_real w +p Z.quot (pos * hs) 2)
             (freq_cis_imag w +p Z.quot (pos * hs) 2) ly) x 1.
Proof.
  intros Hly Hx. unfold layer.
  assert (Hc : ~ W0 x).
  { apply cache_not_W0. destruct Hx as [Hx|Hx].
    - apply (kv_slot_in_cache Buf_key_cache ly); [left; reflexivity | exact Hx].
    - apply (kv_slot_in_cache Buf_value_cache ly); [right; reflexivity | exact Hx]. }
  assert (Hd : 0 < dim p) by apply Hcfg.
  assert (Hra : in_data dlen (rms_att_weight w) (n_layers p * dim p)) by apply Hw.
  assert (Hwo : in_data dlen (wo w) (n_layers p * (dim p * dim p))) by apply Hw.
  assert (Hdd : 0 <= dim p * dim p) by nia.
  assert (Hscr : forall y, scratch y -> W0 y) by (intros y Hy; left; exact Hy).
  assert (Hatt : forall y, att_rows p pos (n_heads p) y -> W0 y)
    by (intros y Hy; right; exact Hy).
  assert (Hper : forall y, persistent y -> top y) by (intros; exact I).
  apply cnt_int; cbn [int_value].
  apply cnt_bind_0l; [ | intros _ ].
  { eapply cnt_of_spec with (S := top) (W := W0); [|exact Hc].
    apply rmsnorm_spec; [lia | win_top | | scr Hscr].
    apply (layer_tensor p dlen top _ _ _ ly Hra Hly); [lia | ring | exact Hper]. }
  apply cnt_bind_0l; [ | intros _ ].
  { eapply cnt_of_spec with (S := top) (W := W0); [|exact Hc].
    eapply qkv_matmuls_spec with (pos := pos); eauto. win_top. }
  apply cnt_bind_0l; [ | intros _ ].
  { eapply cnt_of_spec with (S := top) (W := W0); [|exact Hc].
    apply rope_spec; auto; win_top. }
  apply cnt_int; cbn [int_value].
  apply cnt_bind_0r; [ apply save_kv_cnt; [exact Hly | exact Hx] | intros _ ].
  apply cnt_bind_0l; [ | intros _ ].
  { eapply cnt_of_spec with (S := top) (W := W0); [|exact Hc].
    apply attention_spec; auto. win_top. }
  apply cnt_int; cbn [int_value].
  apply cnt_bind_0l; [ | intros _ ].
  { eapply cnt_of_spec with (S := top) (W := W0); [|exact Hc].
    apply matmul_spec; [lia | lia | fits | win_top | | scr Hscr].
    apply (layer_tensor p dlen top _ _ _ ly Hwo Hly Hdd); [ring | exact Hper]. }
  apply cnt_bind_0l; [ | intros _ ].
  { eapply cnt_of_spec with (S := top) (W := W0); [|exact Hc].
    apply accum_spec; [lia | win_top | win_top | scr Hscr]. }
  eapply cnt_of_spec with (S := top) (W := W0); [|exact Hc].
  eapply ffn_spec with (pos := pos); eauto. win_top.
Qed.

Lemma layer_cnt_other l ly x :
  0 <= l < n_layers p -> 0 <= ly < n_layers p -> l <> ly ->
  kv_slot p Buf_key_cache ly pos x \/ kv_slot p Buf_value_cache ly pos x ->
  cnt len (layer p s w pos hs (freq_cis_real w +p Z.quot (pos * hs) 2)
             (freq_cis_imag w +p Z.quot (pos * hs) 2) l) x 0.
Proof.
  intros Hl Hly Hne Hx.
  eapply cnt_of_spec with (S := top)
    (W := fun y => W0 y \/ kv_slot p Buf_key_cache l pos y \/ kv_slot p Buf_value_cache l pos y).
  - apply (layer_spec p dlen pos w Hcfg Hint Hpos Hw); [exact Hl | | | | | win_top].
    + intros y _. exact I.
    + intros y Hy. left. left. exact Hy.
    + intros y Hy. left. right. exact Hy.
    + intros y Hy. right. exact Hy.
  - intros [Hc|Hc].
    + revert Hc. apply cache_not_W0. destruct Hx as [Hx|Hx].
      * apply (kv_slot_in_cache Buf_key_cache ly); [left; reflexivity | exact Hx].
      * apply (kv_slot_in_cache Buf_value_cache ly); [right; reflexivity | exact Hx].
    + destruct Hx as [Hx|Hx]; destruct Hc as [Hc|Hc];
        exact (kv_slot_disjoint _ _ l ly x Hl Hly Hne Hx Hc).
Qed.

Lemma transformer_cnt token x :
  0 <= token < vocab_size p -> kv_slots p pos (n_layers p) x ->
  cnt len (transformer token pos p s w) x 1.
Proof.
  intros Htok (ly & Hly & Hx). unfold transformer.
  assert (Hc : ~ W0 x).
  { apply cache_not_W0. destruct Hx as [Hx|Hx].
    - apply (kv_slot_in_cache Buf_key_cache ly); [left; reflexivity | exact Hx].
    - apply (kv_slot_in_cache Buf_value_cache ly); [right; reflexivity | exact Hx]. }
  assert (Hd : 0 < dim p) by apply Hcfg.
  assert (Hvs : 0 < vocab_size p) by apply Hcfg.
  assert (Hte : in_data dlen (token_embedding_table w) (vocab_size p * dim p)) by apply Hw.
  assert (Hrf : in_data dlen (rms_final_weight w) (dim p)) by apply Hw.
  assert (Hcl : in_data dlen (wcls w) (vocab_size p * dim p)) by apply Hw.
  assert (Hscr : forall y, scratch y -> W0 y) by (intros y Hy; left; exact Hy).
  assert (Hper : forall y, persistent y -> top y) by (intros; exact I).
  do 2 (apply cnt_int; cbn [int_value]).
  apply cnt_bind_0l; [ | intros _ ].
  { eapply cnt_of_spec with (S := top) (W := W0); [|exact Hc].
    apply memcpy_spec; [lia | | scr Hscr].
    apply (block_tensor p dlen top _ _ _ _ token Hte Htok); [lia | ring | exact Hper]. }
  do 2 (apply cnt_int; cbn [int_value]).
  apply cnt_bind_0r; [ | intros _ ].
  { apply cnt_for_one with (i0 := ly); [exact Hly | |].
    - intros l Hl Hne. apply layer_cnt_other with (ly := ly); assumption.
    - apply layer_cnt_same; assumption. }
  apply cnt_bind_0l; [ | intros _ ].
  { eapply cnt_of_spec with (S := top) (W := W0); [|exact Hc].
    apply rmsnorm_spec; [lia | win_top | | scr Hscr].
    apply (whole_tensor p dlen); [exact Hrf | exact Hper]. }
  eapply cnt_of_spec with (S := top) (W := W0); [|exact Hc].
  apply matmul_spec; [lia | lia | fits | win_top | | scr Hscr].
  apply (whole_tensor p dlen); [exact Hcl | exact Hper].
Qed.

Lemma loop_body_cnt temperature rnd token x :
  0 <= token < vocab_size p -> kv_slots p pos (n_layers p) x ->
  cnt len (loop_body temperature rnd p s w token pos) x 1.
Proof.
  intros Htok Hx. unfold loop_body.
  apply cnt_bind_0r; [ apply transformer_cnt; assumption | intros _ ].
  eapply cnt_of_spec with (S := top) (W := W0).
  - apply (next_token_spec p dlen pos Hcfg Hpos); [intros y Hy; left; exact Hy | win_top].
  - apply cache_not_W0. destruct Hx as (ly & _ & [Hx|Hx]).
    + apply (kv_slot_in_cache Buf_key_cache ly); [left; reflexivity | exact Hx].
    + apply (kv_slot_in_cache Buf_value_cache ly); [right; reflexivity | exact Hx].
Qed.

End StepCount.

(** ** The generation loop *)

Lemma persistent_not_written (p : Config) pos x : step_written p pos x -> ~ persistent x.
Proof.
  unfold step_written, layer_written, persistent, rng, att_rows. simpl.
  intros Hx Hp. intuition congruence.
Qed.

Section Generation.
Context {F : Type} `{!FloatOps F}.

Variables (p : Config) (dlen : Z) (w : TransformerWeights) (temperature : F) (rand : Z -> Z).
Hypothesis Hcfg : valid_config p.
Hypothesis Hint : int_sized p.
Hypothesis Hw : weights_in_data p dlen w.

Lemma generation_loop_steps n :
  forall token pos m trace,
  generation_loop n temperature rand p run_state w token pos m = Some trace ->
  length trace = n /\ steps_from temperature rand p w token pos m trace.
Proof.
  induction n as [|n IH]; intros token pos m trace; simpl.
  - intros [= <-]. split; [reflexivity | exact I].
  - destruct (run _ m) as [[[next m'] t]|] eqn:Hr; [|discriminate].
    destruct (generation_loop n _ _ _ _ _ next (pos + 1) m') as [rest|] eqn:Hg; [|discriminate].
    intros [= <-]. destruct (IH _ _ _ _ Hg) as [Hlen Hst]. simpl. split; [lia|].
    repeat split; [exact Hr | exact Hst].
Qed.

Lemma loop_body_good token pos m :
  0 <= pos < seq_len p -> 0 <= token < vocab_size p ->
  has_shape (state_len p dlen) m ->
  exists next m' t,
    run (loop_body temperature (rand pos) p run_state w token pos) m = Some (next, m', t) /\
    step_good p dlen
      {| st_token := token; st_pos := pos; st_next := next; st_trace := t; st_mem := m' |}.
Proof.
  intros Hpos Htok Hm.
  assert (Hs : spec (state_len p dlen) persistent (step_writes p pos)
                 (loop_body temperature (rand pos) p run_state w token pos)
                 (fun y => persistent y \/ step_written p pos y)
                 (fun next => 0 <= next < vocab_size p)).
  { apply (loop_body_spec p dlen pos w Hcfg Hint Hpos Hw); [exact Htok | auto | | |].
    - intros x Hx. left. exact Hx.
    - intros x Hx. right. left. exact Hx.
    - intros x Hx. right. right. exact Hx. }
  destruct (Hs m Hm) as (next & m' & t & Hr & Hq & Hf & Hwr & Hc).
  exists next, m', t. split; [exact Hr|]. unfold step_good. simpl.
  repeat split; try lia; try assumption.
  - apply (run_shape _ _ _ _ _ _ Hr Hm).
  - intros x Hx. destruct (Hc x (or_intror Hx)) as [Hp|Hx']; [|exact Hx'].
    exfalso. exact (persistent_not_written p pos x Hx Hp).
  - intros x Hx.
    exact (loop_body_cnt p dlen pos w Hcfg Hint Hpos Hw temperature (rand pos) token x Htok Hx
             m next m' t Hm Hr).
Qed.

(** The loop runs its [n] iterations, and every one of them is good. *)
Lemma generation_loop_good n :
  forall token pos m,
  0 <= pos -> pos + Z.of_nat n <= seq_len p -> 0 <= token < vocab_size p ->
  has_shape (state_len p dlen) m ->
  exists trace,
    generation_loop n temperature rand p run_state w token pos m = Some trace /\
    Forall (step_good p dlen) trace.
Proof.
  induction n as [|n IH]; intros token pos m Hpos Hn Htok Hm; simpl.
  - exists []. split; [reflexivity | constructor].
  - destruct (loop_body_good token pos m) as (next & m' & t & Hr & Hg); [lia | exact Htok | exact Hm |].
    rewrite Hr.
    destruct (IH next (pos + 1) m') as (rest & Hrest & Hall);
      [lia | lia | apply Hg | apply Hg |].
    rewrite Hrest. eexists. split; [reflexivity|]. constructor; assumption.
Qed.

Lemma steps_from_lookup trace :
  forall token pos m k st,
  steps_from temperature rand p w token pos m trace -> trace !! k = Some st ->
  st_pos st = pos + Z.of_nat k.
Proof.
  induction trace as [|st0 rest IH]; intros token pos m k st Hs Hk; [discriminate|].
  destruct Hs as (_ & Hp & _ & Hrest). destruct k as [|k]; simpl in Hk.
  - injection Hk as <-. lia.
  - rewrite (IH _ _ _ _ _ Hrest Hk). lia.
Qed.

(** The memory a later iteration starts from differs from the one an
    earlier iteration left only where the iterations between wrote. *)
Lemma steps_from_frame trace :
  forall token pos m j st x,
  steps_from temperature rand p w token pos m trace -> trace !! j = Some st ->
  (forall i sti, (i <= j)%nat -> trace !! i = Some sti -> ~ In (Wr x) (st_trace sti)) ->
  mem_load (st_mem st) x = mem_load m x.
Proof.
  induction trace as [|st0 rest IH]; intros token pos m j st x Hs Hj Hno; [discriminate|].
  destruct Hs as (_ & _ & Hrun & Hrest). unfold step_of in Hrun.
  assert (H0 : mem_load (st_mem st0) x = mem_load m x).
  { eapply run_frame; [exact Hrun|]. apply (Hno 0%nat st0); [lia | reflexivity]. }
  destruct j as [|j]; simpl in Hj.
  - injection Hj as <-. exact H0.
  - rewrite (IH _ _ _ j st x Hrest Hj); [exact H0|].
    intros i sti Hi Hl. apply (Hno (Datatypes.S i) sti); [lia | exact Hl].
Qed.

End Generation.

(** ** Runs of [main] on a well-formed checkpoint *)

Section Runs.
Context {F : Type} `{!FloatOps F}.

Lemma clamp_steps_eff steps sl : clamp_steps steps sl = steps_eff steps sl.
Proof.
  unfold clamp_steps, steps_eff.
  destruct (Z.leb_spec steps 0), (Z.ltb_spec sl steps), (Z.ltb_spec 0 steps),
    (Z.leb_spec steps sl); simpl; lia.
Qed.

Lemma radix_unique a b a' b' D :
  0 <= b < D -> 0 <= b' < D -> a * D + b = a' * D + b' -> a = a' /\ b = b'.
Proof. intros Hb Hb' He. assert (a = a') by nia. subst. lia. Qed.

(** The slots of different positions are disjoint. *)
Lemma kv_slots_pos_disjoint (p : Config) pos pos' x :
  0 <= pos < seq_len p -> 0 <= pos' < seq_len p -> pos <> pos' ->
  kv_slots p pos (n_layers p) x -> ~ kv_slots p pos' (n_layers p) x.
Proof.
  intros Hp Hp' Hne (l & Hl & Hx) (l' & Hl' & Hx').
  assert (Ho : l * seq_len p * dim p + pos * dim p <= p_off x
               < l * seq_len p * dim p + pos * dim p + dim p).
  { destruct Hx as [[_ Ho]|[_ Ho]]; simpl in Ho; lia. }
  assert (Ho' : l' * seq_len p * dim p + pos' * dim p <= p_off x
                < l' * seq_len p * dim p + pos' * dim p + dim p).
  { destruct Hx' as [[_ Ho']|[_ Ho']]; simpl in Ho'; lia. }
  set (D := dim p) in *. set (T := seq_len p) in *.
  destruct (radix_unique (l * T + pos) (p_off x - (l * T * D + pos * D))
              (l' * T + pos') (p_off x - (l' * T * D + pos' * D)) D) as [Ha _];
    [lia | lia | ring | ].
  destruct (radix_unique l pos l' pos' T); [lia | lia | exact Ha | lia].
Qed.

Lemma in_slot_kv_slots (p : Config) c l pos i :
  c = Buf_key_cache \/ c = Buf_value_cache ->
  0 <= l < n_layers p -> 0 <= i < dim p ->
  kv_slots p pos (n_layers p) (Ptr c (l * seq_len p * dim p + pos * dim p + i)).
Proof.
  intros Hc Hl Hi. exists l. split; [exact Hl|].
  destruct Hc as [-> | ->]; [left | right]; split; simpl; try reflexivity; lia.
Qed.

Lemma kv_slots_not_written_elsewhere (p : Config) dlen pos x (st : step F) :
  step_good p dlen st -> 0 <= pos < seq_len p -> st_pos st <> pos ->
  kv_slots p pos (n_layers p) x -> ~ In (Wr x) (st_trace st).
Proof.
  intros (Hpos & _ & _ & _ & _ & Hwr & _) Hp Hne Hx Hin.
  destruct (Hwr x Hin) as [Hs|[Ha|Hk]].
  - destruct Hx as (l & _ & [[Hb _]|[Hb _]]); simpl in Hb;
      unfold scratch in Hs; intuition congruence.
  - destruct Ha as [Ha _]. destruct Hx as (l & _ & [[Hb _]|[Hb _]]); simpl in Hb; congruence.
  - exact (kv_slots_pos_disjoint p pos (st_pos st) x Hp Hpos (fun e => Hne (eq_sym e)) Hx Hk).
Qed.

Lemma wcount_run_trace (trace : list (step F)) x (k : nat) :
  (forall j st, trace !! j = Some st ->
     wcount (st_trace st) x = if decide (j = k) then 1%nat else 0%nat) ->
  (k < length trace)%nat ->
  wcount (run_trace trace) x = 1%nat.
Proof.
  revert k. induction trace as [|st0 rest IH]; intros k Hc Hk; simpl in Hk; [lia|].
  unfold run_trace. simpl. rewrite wcount_app.
  pose proof (Hc 0%nat st0 eq_refl) as H0.
  destruct k as [|k].
  - rewrite H0. simpl. f_equal.
    apply wcount_0. intros Hin. apply in_concat in Hin. destruct Hin as (t & Ht & Hin).
    apply in_map_iff in Ht. destruct Ht as (st & <- & Hst).
    apply list_elem_of_In, list_elem_of_lookup in Hst. destruct Hst as [j Hj].
    pose proof (Hc (Datatypes.S j) st Hj) as Hz. simpl in Hz.
    apply wcount_pos in Hin. lia.
  - rewrite H0. simpl. apply (IH k); [|lia].
    intros j st Hj. rewrite (Hc (Datatypes.S j) st Hj).
    destruct (decide (Datatypes.S j = Datatypes.S k)), (decide (j = k)); try reflexivity; lia.
Qed.

(** The iterations after iteration [j] are a run from where it ended. *)
Lemma steps_from_suffix temperature rand (p : Config) (w : TransformerWeights)
    (trace : list (step F)) :
  forall token pos m j k stj stk,
  steps_from temperature rand p w token pos m trace ->
  trace !! j = Some stj -> trace !! k = Some stk -> (j < k)%nat ->
  exists rest,
    steps_from temperature rand p w (st_next stj) (st_pos stj + 1) (st_mem stj) rest /\
    rest !! (k - j - 1)%nat = Some stk /\
    forall i' sti, rest !! i' = Some sti -> trace !! (j + 1 + i')%nat = Some sti.
Proof.
  induction trace as [|st0 rest IH]; intros token pos m j k stj stk Hst Hj Hk Hjk;
    [discriminate|].
  destruct Hst as (_ & Hp0 & _ & Hrest). destruct j as [|j]; simpl in Hj.
  - injection Hj as <-. exists rest. rewrite Hp0. split; [exact Hrest|].
    destruct k as [|k]; [lia|]. simpl in Hk.
    replace (Datatypes.S k - 0 - 1)%nat with k by lia. split; [exact Hk|].
    intros i' sti Hi'. exact Hi'.
  - destruct k as [|k]; [lia|]. simpl in Hk.
    destruct (IH _ _ _ j k stj stk Hrest Hj Hk ltac:(lia)) as (r & H1 & H2 & H3).
    exists r. split; [exact H1|]. split; [exact H2|].
    intros i' sti Hi'. simpl. apply H3, Hi'.
Qed.

Lemma wcount_run_trace_0 (trace : list (step F)) x :
  (forall j st, trace !! j = Some st -> wcount (st_trace st) x = 0%nat) ->
  wcount (run_trace trace) x = 0%nat.
Proof.
  intros Hc. apply wcount_0. intros Hin. unfold run_trace in Hin.
  apply in_concat in Hin. destruct Hin as (t & Ht & Hin).
  apply in_map_iff in Ht. destruct Ht as (st & <- & Hst).
  apply list_elem_of_In, list_elem_of_lookup in Hst. destruct Hst as [j Hj].
  pose proof (Hc j st Hj) as Hz. apply wcount_pos in Hin. lia.
Qed.

(** The run of [main] on a runnable checkpoint, when [calloc] gives the
    memory asked for. *)
Lemma generate_good (ck : checkpoint F) steps temperature rand :
  runnable ck ->
  exists m0 trace,
    malloc_run_state true (ck_config ck) (ck_data ck) = Done m0 /\
    generate true steps temperature rand ck = Done trace /\
    Z.of_nat (length trace) = steps_eff steps (seq_len (ck_config ck)) /\
    steps_from temperature rand (ck_config ck) (ck_weights ck) 1 0 m0 trace /\
    Forall (step_good (ck_config ck) (Z.of_nat (length (ck_data ck)))) trace.
Proof.
  intros (Hcfg & Hint & Hvs & Hw). unfold generate. cbv zeta.
  destruct (malloc_run_state_Done (ck_config ck) (ck_data ck) Hcfg Hint)
    as (m0 & Hm0 & Hsh & _).
  rewrite Hm0.
  assert (Hsl : 0 < seq_len (ck_config ck)) by apply Hcfg.
  assert (Heff : 0 < steps_eff steps (seq_len (ck_config ck)) <= seq_len (ck_config ck)).
  { unfold steps_eff. destruct (Z.ltb_spec 0 steps), (Z.leb_spec steps (seq_len (ck_config ck)));
      simpl; lia. }
  rewrite clamp_steps_eff.
  destruct (generation_loop_good (ck_config ck) (Z.of_nat (length (ck_data ck))) (ck_weights ck)
              temperature rand Hcfg Hint Hw
              (Z.to_nat (steps_eff steps (seq_len (ck_config ck)) - 0)) 1 0 m0)
    as (trace & Hrun & Hall); [lia | lia | lia | exact Hsh |].
  exists m0, trace. split; [reflexivity|]. rewrite Hrun. split; [reflexivity|].
  destruct (generation_loop_steps (ck_config ck) (ck_weights ck) temperature rand _ _ _ _ _ Hrun)
    as [Hlen Hst].
  split; [lia|]. split; [exact Hst | exact Hall].
Qed.

(** Without the memory asked for, [main] leaves with status 1 before the
    loop. *)
Lemma generate_no_memory (ck : checkpoint F) steps temperature rand :
  valid_config (ck_config ck) -> int_sized (ck_config ck) ->
  generate false steps temperature rand ck = Exit 1.
Proof.
  intros Hcfg Hint. unfold generate, malloc_run_state. cbv zeta.
  destruct (state_ints_safe _ Hcfg Hint) as [Ha Hc].
  rewrite (int_eval_safe _ Ha), (int_eval_safe _ Hc). reflexivity.
Qed.

End Runs.

(** ** Positions outside the sequence *)

Section Faults.
Context {F : Type} `{!FloatOps F}.

Section Shape.
Variable len : buffer -> Z.

Lemma mem_store_None (m : mem F) p v :
  ~ (0 <= p_off p < Z.of_nat (length (m (p_buf p)))) -> mem_store m p v = None.
Proof.
  intros Hout. unfold mem_store.
  destruct (Z.leb_spec 0 (p_off p)); [|reflexivity].
  destruct (Z.ltb_spec (p_off p) (Z.of_nat (length (m (p_buf p))))); [lia | reflexivity].
Qed.

Lemma bind_faults_l {A B} (c : prog F A) (f : A -> prog F B) m :
  run c m = None -> run (bind c f) m = None.
Proof. intros Hc. rewrite run_bind, Hc. reflexivity. Qed.

Lemma bind_faults_r {A B} (c : prog F A) (f : A -> prog F B) :
  (forall a m1, has_shape len m1 -> run (f a) m1 = None) ->
  forall m, has_shape len m -> run (bind c f) m = None.
Proof.
  intros Hf m Hm. rewrite run_bind.
  destruct (run c m) as [[[a m1] t]|] eqn:Hc; [|reflexivity].
  rewrite (Hf a m1); [reflexivity|]. exact (run_shape _ _ _ _ _ _ Hc Hm).
Qed.

(** What follows an [int] expression need only fault when the expression
    has a value. *)
Lemma bind_int_faults {A} (e : int_exp) (k : Z -> prog F A) m :
  (int_safe e -> run (k (int_value e)) m = None) -> run (bind (int e) k) m = None.
Proof.
  unfold int. destruct (int_eval e) as [z|] eqn:E; [|reflexivity].
  destruct (int_eval_Some e z E) as [-> He]. intros Hk. apply Hk, He.
Qed.

(** A loop one of whose iterations faults on every memory faults. *)
Lemma for_loop_faults (body : Z -> prog F unit) (l0 : Z) (n : nat) :
  (forall m, has_shape len m -> run (body l0) m = None) ->
  forall i, i <= l0 < i + Z.of_nat n ->
  forall m, has_shape len m -> run (for_loop n i 1 body) m = None.
Proof.
  intros Hb. induction n as [|n IH]; intros i Hi m Hm; [lia|]. cbn [for_loop].
  destruct (Z.eq_dec i l0) as [->|Hne].
  - apply bind_faults_l, Hb, Hm.
  - apply bind_faults_r; [|exact Hm]. intros _ m1 Hm1. apply IH; [lia | exact Hm1].
Qed.

(** [memcpy] of at least one float to a place outside its buffer faults. *)
Lemma memcpy_faults (dst src : ptr) (n : Z) :
  0 < n -> ~ (0 <= p_off dst < len (p_buf dst)) ->
  forall m : mem F, has_shape len m -> run (memcpy dst src n) m = None.
Proof.
  intros Hn Hout m Hm. unfold memcpy. destruct (Z.ltb_spec n 0); [reflexivity|].
  unfold for_range, for_range_by, trip_count.
  replace (Z.to_nat ((n - 0 + 1 - 1) / 1)) with (Datatypes.S (Z.to_nat (n - 1)))
    by (rewrite Z.div_1_r; lia).
  cbn [for_loop]. apply bind_faults_l. cbn [bind load store run].
  destruct (mem_load m (src +p 0)) as [v|]; [|reflexivity].
  rewrite mem_store_None; [reflexivity|].
  rewrite padd_0, (Hm (p_buf dst)). exact Hout.
Qed.

End Shape.

(** A forward pass at a position outside [[0, seq_len)] does not run to
    the end: at the latest the copy of the key vector into its cache row (of
    layer 0 when [pos < 0], of the last layer when [pos >= seq_len]) is an
    access outside the key cache. *)
Lemma transformer_faults_outside (p : Config) (dlen : Z) (w : TransformerWeights)
    (token pos : Z) (m : mem F) :
  valid_config p -> has_shape (state_len p dlen) m ->
  pos < 0 \/ seq_len p <= pos ->
  run (transformer token pos p run_state w) m = None.
Proof.
  intros (Hd & Hh & Hl & Hnh & Hkv & Hv & Hs & _) Hm Hpos.
  set (l0 := if Z.ltb pos 0 then 0 else n_layers p - 1).
  assert (Hl0 : 0 <= l0 < n_layers p) by (unfold l0; destruct (Z.ltb_spec pos 0); lia).
  assert (Hout : ~ (0 <= l0 * seq_len p * dim p + pos * dim p
                    < n_layers p * seq_len p * dim p)).
  { unfold l0. destruct (Z.ltb_spec pos 0) as [Hneg|Hnn].
    - assert (pos * dim p < 0) by nia. lia.
    - destruct Hpos as [?|Hge]; [lia|].
      assert (seq_len p * dim p <= pos * dim p) by nia.
      assert ((n_layers p - 1) * seq_len p * dim p + seq_len p * dim p
              = n_layers p * seq_len p * dim p) by lia.
      lia. }
  unfold transformer. cbv zeta.
  do 2 (apply bind_int_faults; intros _; cbn [int_value]).
  apply (bind_faults_r (state_len p dlen)); [|exact Hm]. intros _ m1 Hm1.
  do 2 (apply bind_int_faults; intros _; cbn [int_value]).
  apply bind_faults_l. unfold for_range, for_range_by, trip_count.
  apply (for_loop_faults (state_len p dlen) _ l0); [|rewrite Z.div_1_r; lia | exact Hm1].
  intros m2 Hm2. unfold layer. cbv zeta.
  apply bind_int_faults; intros _; cbn [int_value].
  apply (bind_faults_r (state_len p dlen)); [|exact Hm2]. intros _ m3 Hm3.
  apply (bind_faults_r (state_len p dlen)); [|exact Hm3]. intros _ m4 Hm4.
  apply (bind_faults_r (state_len p dlen)); [|exact Hm4]. intros _ m5 Hm5.
  apply bind_int_faults; intros _; cbn [int_value].
  apply bind_faults_l. unfold save_kv. cbv zeta.
  do 2 (apply bind_int_faults; intros _; cbn [int_value]).
  apply bind_faults_l.
  apply memcpy_faults with (len := state_len p dlen); [exact Hd | | exact Hm5].
  simpl. replace (0 + l0 * seq_len p * dim p + pos * dim p)
    with (l0 * seq_len p * dim p + pos * dim p) by lia. exact Hout.
Qed.

End Faults.

(** ** The claims about the forward pass and the loop *)

Section Claims.
Context {F : Type} `{!FloatOps F}.

Lemma buffer_unchanged (m m' : mem F) b :
  (forall o, mem_load m' (Ptr b o) = mem_load m (Ptr b o)) -> m' b = m b.
Proof.
  intros Hl. apply list_eq. intros i. specialize (Hl (Z.of_nat i)).
  unfold mem_load in Hl. simpl in Hl.
  destruct (Z.leb_spec 0 (Z.of_nat i)); [|lia]. rewrite Nat2Z.id in Hl. exact Hl.
Qed.

(** C1 (amended): [transformer] checks neither argument and has no failure
    to report.  Under the preconditions [0 <= token < vocab_size] and
    [0 <= pos < seq_len], on a valid configuration whose sizes fit an [int]
    and whose tensors lie in the mapping, it runs to the end without a fault,
    leaves the mapped weights as they are, and changes no float outside the
    scratch vectors and the cache slots [(l, pos)].  At a position outside
    [[0, seq_len)] it does not run to the end, whatever the token: it
    faults (at the latest on an access outside the key cache). *)
Theorem transformer_total_frame (p : Config) (dlen : Z) (w : TransformerWeights)
    (token pos : Z) (m : mem F) :
  valid_config p -> int_sized p -> weights_in_data p dlen w ->
  0 <= token < vocab_size p -> 0 <= pos < seq_len p ->
  has_shape (state_len p dlen) m ->
  (exists m' t,
     run (transformer token pos p run_state w) m = Some (tt, m', t) /\
     m' Buf_data = m Buf_data /\
     writes_in (step_writes p pos) t /\
     (forall x, ~ step_writes p pos x -> mem_load m' x = mem_load m x)) /\
  (forall token' pos', pos' < 0 \/ seq_len p <= pos' ->
     run (transformer token' pos' p run_state w) m = None).
Proof.
  intros Hcfg Hint Hw Htok Hpos Hm. split;
    [|intros token' pos' Hout; exact (transformer_faults_outside p dlen w token' pos' m
                                        Hcfg Hm Hout)].
  assert (Hs : spec (state_len p dlen) persistent (step_writes p pos)
                 (transformer token pos p run_state w)
                 (fun y => persistent y \/ step_written p pos y) (fun _ => True)).
  { apply (transformer_spec p dlen pos w Hcfg Hint Hpos Hw); [exact Htok | auto | | |].
    - intros x Hx. left. exact Hx.
    - intros x Hx. right. left. exact Hx.
    - intros x Hx. right. right. exact Hx. }
  destruct (Hs m Hm) as ([] & m' & t & Hr & _ & _ & Hwr & _).
  assert (Hfr : forall x, ~ step_writes p pos x -> mem_load m' x = mem_load m x).
  { intros x Hx. apply (run_frame _ _ _ _ _ Hr). intros Hin. apply Hx, Hwr, Hin. }
  exists m', t. split; [exact Hr|]. split; [|split; [exact Hwr | exact Hfr]].
  apply buffer_unchanged. intros o. apply Hfr.
  unfold step_writes, scratch, att_rows, kv_slots, kv_slot, rng. simpl.
  intros [Hx|[[Hx _]|(l & _ & [[Hx _]|[Hx _]])]]; intuition congruence.
Qed.

(** C2: on a runnable checkpoint, and with the memory [calloc] is asked
    for, the loop runs exactly [steps_eff] steps. *)
Theorem generation_runs_steps_eff (ck : checkpoint F) (steps : Z) (temperature : F)
    (rand : Z -> Z) :
  runnable ck ->
  exists trace,
    generate true steps temperature rand ck = Done trace /\
    Z.of_nat (length trace) = steps_eff steps (seq_len (ck_config ck)) /\
    (steps = 0 -> Z.of_nat (length trace) = seq_len (ck_config ck)).
Proof.
  intros Hck. destruct (generate_good ck steps temperature rand Hck)
    as (m0 & trace & _ & Hg & Hlen & _).
  exists trace. split; [exact Hg|]. split; [exact Hlen|].
  intros ->. rewrite Hlen. reflexivity.
Qed.

(** C10: every call of [transformer] the loop makes, from [(token, pos) =
    (1, 0)] and the memory of [malloc_run_state] on, has [0 <= pos < seq_len]
    and [0 <= token < vocab_size], and every token chosen lies in
    [[0, vocab_size)]; the loop makes [steps_eff] such calls. *)
Theorem generation_calls_in_range (ck : checkpoint F) (steps : Z) (temperature : F)
    (rand : Z -> Z) :
  runnable ck ->
  exists m0 trace,
    malloc_run_state true (ck_config ck) (ck_data ck) = Done m0 /\
    generate true steps temperature rand ck = Done trace /\
    Z.of_nat (length trace) = steps_eff steps (seq_len (ck_config ck)) /\
    steps_from temperature rand (ck_config ck) (ck_weights ck) 1 0 m0 trace /\
    Forall (fun st => 0 <= st_pos st < seq_len (ck_config ck) /\
                      0 <= st_token st < vocab_size (ck_config ck) /\
                      0 <= st_next st < vocab_size (ck_config ck)) trace.
Proof.
  intros Hck. destruct (generate_good ck steps temperature rand Hck)
    as (m0 & trace & Hm0 & Hg & Hlen & Hst & Hall).
  exists m0, trace. split; [exact Hm0|]. split; [exact Hg|]. split; [exact Hlen|].
  split; [exact Hst|].
  eapply Forall_impl; [exact Hall|]. intros st (Hp & Ht & Hn & _). auto.
Qed.

(** C6 (amended): a run makes [steps_eff] iterations, the [k]-th at
    position [k].  Every float of the cache slot [(l, pos)] of a position
    [pos < steps_eff] is written exactly once over the run, by the iteration
    at [pos], and after that iteration its content stays as it is; a slot of
    a position the run does not reach ([steps_eff <= pos < seq_len]) is not
    written at all. *)
Theorem cache_slot_written_once (ck : checkpoint F) (steps : Z) (temperature : F)
    (rand : Z -> Z) :
  runnable ck ->
  let p := ck_config ck in
  exists trace,
    generate true steps temperature rand ck = Done trace /\
    Z.of_nat (length trace) = steps_eff steps (seq_len p) /\
    forall c l pos i,
      c = Buf_key_cache \/ c = Buf_value_cache ->
      0 <= l < n_layers p -> 0 <= pos < seq_len p -> 0 <= i < dim p ->
      let x := Ptr c (l * seq_len p * dim p + pos * dim p + i) in
      wcount (run_trace trace) x
      = (if pos <? steps_eff steps (seq_len p) then 1%nat else 0%nat) /\
      (forall k st, trace !! k = Some st ->
         st_pos st = Z.of_nat k /\
         wcount (st_trace st) x = if decide (st_pos st = pos) then 1%nat else 0%nat) /\
      (forall j k stj stk, trace !! j = Some stj -> trace !! k = Some stk ->
         st_pos stj = pos -> (j <= k)%nat ->
         mem_load (st_mem stk) x = mem_load (st_mem stj) x).
Proof.
  intros Hck p. destruct (generate_good ck steps temperature rand Hck)
    as (m0 & trace & _ & Hg & Hlen & Hst & Hall).
  exists trace. split; [exact Hg|]. split; [exact Hlen|].
  intros c l pos i Hc Hl Hpos Hi x.
  assert (Hx : kv_slots p pos (n_layers p) x) by (apply in_slot_kv_slots; assumption).
  assert (Hpos_of : forall k st, trace !! k = Some st -> st_pos st = Z.of_nat k).
  { intros k st Hk. rewrite (steps_from_lookup _ _ _ _ _ _ _ _ _ _ Hst Hk). lia. }
  set (dlen := Z.of_nat (length (ck_data ck))) in *.
  assert (Hgood : forall k st, trace !! k = Some st -> step_good p dlen st).
  { intros k st Hk. eapply Forall_lookup_1; eauto. }
  assert (Hcount : forall k st, trace !! k = Some st ->
            wcount (st_trace st) x = if decide (st_pos st = pos) then 1%nat else 0%nat).
  { intros k st Hk. destruct (decide (st_pos st = pos)) as [He|Hne].
    - destruct (Hgood k st Hk) as (_ & _ & _ & _ & _ & _ & _ & Hc1). apply Hc1.
      rewrite He. exact Hx.
    - apply wcount_0.
      apply (kv_slots_not_written_elsewhere p dlen pos x st (Hgood k st Hk));
        [lia | exact Hne | exact Hx]. }
  split; [|split].
  - fold p in Hlen. destruct (Z.ltb_spec pos (steps_eff steps (seq_len p))) as [Hlt|Hge].
    + apply wcount_run_trace with (k := Z.to_nat pos); [|lia].
      intros j st Hj. rewrite (Hcount j st Hj), (Hpos_of j st Hj).
      destruct (decide (Z.of_nat j = pos)), (decide (j = Z.to_nat pos)); try reflexivity; lia.
    + apply wcount_run_trace_0. intros j st Hj. rewrite (Hcount j st Hj), (Hpos_of j st Hj).
      apply lookup_lt_Some in Hj. destruct (decide (Z.of_nat j = pos)); [lia | reflexivity].
  - intros k st Hk. split; [exact (Hpos_of k st Hk) | exact (Hcount k st Hk)].
  - intros j k stj stk Hj Hk Hpj Hjk.
    destruct (decide (j = k)) as [->|Hne]; [congruence|].
    destruct (steps_from_suffix temperature rand p (ck_weights ck) trace _ _ _ j k stj stk
                Hst Hj Hk ltac:(lia)) as (rest & Hrest & Hk' & Hsub).
    apply (steps_from_frame p (ck_weights ck) temperature rand rest _ _ _ _ _ x Hrest Hk').
    intros i' sti _ Hi'. pose proof (Hsub i' sti Hi') as Ht.
    apply (kv_slots_not_written_elsewhere p dlen pos x sti (Hgood _ sti Ht)); [lia | | exact Hx].
    rewrite (Hpos_of _ sti Ht). rewrite (Hpos_of j stj Hj) in Hpj. lia.
Qed.

(** C9 (amended): a forward pass overwrites each of [x], [xb], [xb2], [hb],
    [hb2], [q], [k], [v] and [logits] in full; of [att] it overwrites the
    entries [0..pos] of each head's row and nothing else, and it reads no
    other entry of [att]; every read it makes outside the mapping and the
    caches is of a place it has written before; and what it leaves in memory
    does not depend on what the scratch vectors held before: two memories that
    agree on the weights and the caches give the same accesses and agree
    afterwards on all that was written. *)
Theorem scratch_overwritten (p : Config) (dlen : Z) (w : TransformerWeights)
    (token pos : Z) (m1 : mem F) :
  valid_config p -> int_sized p -> weights_in_data p dlen w ->
  0 <= token < vocab_size p -> 0 <= pos < seq_len p ->
  has_shape (state_len p dlen) m1 ->
  exists m1' t,
    run (transformer token pos p run_state w) m1 = Some (tt, m1', t) /\
    (forall x, step_written p pos x -> In (Wr x) t) /\
    (forall x, p_buf x = Buf_att -> In (Wr x) t -> att_rows p pos (n_heads p) x) /\
    (forall x, p_buf x = Buf_att -> In (Rd x) t -> att_rows p pos (n_heads p) x) /\
    fresh_ok persistent t /\
    (forall m2, has_shape (state_len p dlen) m2 -> agree persistent m1 m2 ->
       exists m2',
         run (transformer token pos p run_state w) m2 = Some (tt, m2', t) /\
         agree (fun x => persistent x \/ step_written p pos x) m1' m2').
Proof.
  intros Hcfg Hint Hw Htok Hpos Hm.
  assert (Hs : spec (state_len p dlen) persistent (step_writes p pos)
                 (transformer token pos p run_state w)
                 (fun y => persistent y \/ step_written p pos y) (fun _ => True)).
  { apply (transformer_spec p dlen pos w Hcfg Hint Hpos Hw); [exact Htok | auto | | |].
    - intros x Hx. left. exact Hx.
    - intros x Hx. right. left. exact Hx.
    - intros x Hx. right. right. exact Hx. }
  destruct (Hs m1 Hm) as ([] & m1' & t & Hr & _ & Hf & Hwr & Hc).
  assert (Hcov : forall x, step_written p pos x -> In (Wr x) t).
  { intros x Hx. destruct (Hc x (or_intror Hx)) as [Hp|Hx']; [|exact Hx'].
    exfalso. exact (persistent_not_written p pos x Hx Hp). }
  assert (Hatt : forall x, p_buf x = Buf_att -> In (Wr x) t -> att_rows p pos (n_heads p) x).
  { intros x Hb Hin. destruct (Hwr x Hin) as [Hx|[Hx|(l & _ & [[Hx _]|[Hx _]])]].
    - unfold scratch in Hx. intuition congruence.
    - exact Hx.
    - simpl in Hx. congruence.
    - simpl in Hx. congruence. }
  exists m1', t. split; [exact Hr|]. split; [exact Hcov|]. split; [exact Hatt|].
  split; [|split; [exact Hf|]].
  - intros x Hb Hin. destruct (fresh_ok_reads t persistent Hf x Hin) as [Hp|Hw'].
    + unfold persistent in Hp. intuition congruence.
    + exact (Hatt x Hb Hw').
  - intros m2 Hm2 Hag.
    destruct (run_agree _ persistent m1 m2 _ _ _ Hr Hag Hf) as (m2' & Hr2 & Hag2).
    exists m2'. split; [exact Hr2|]. revert Hag2. apply agree_mono.
    intros x [Hp|Hx]; [left; exact Hp | right; apply Hcov, Hx].
Qed.

End Claims.

(** ** A toy checkpoint in binary32 *)

Module ToyRuns.
Import Toy.

Lemma toy_valid : valid_config toy_config.
Proof. unfold valid_config. simpl. repeat split; lia. Qed.

Lemma toy_int_sized : int_sized toy_config.
Proof. unfold int_sized, INT_MAX. simpl. lia. Qed.

Lemma toy_layout :
  checkpoint_init_weights toy_config (Ptr Buf_data 0 +p header_floats) true = Some toy_tensors.
Proof. reflexivity. Qed.

Lemma toy_weights : weights_in_data toy_config 49 toy_tensors.
Proof.
  apply (checkpoint_weights_in_data toy_config true 49 toy_tensors toy_valid toy_layout).
  vm_compute. discriminate.
Qed.

Lemma toy_runnable : runnable toy_ck.
Proof.
  split; [exact toy_valid|]. split; [exact toy_int_sized|].
  split; [simpl; lia | exact toy_weights].
Qed.

Lemma toy_malloc : malloc_run_state true toy_config toy_data = Done toy_mem.
Proof. reflexivity. Qed.

Lemma toy_shape : has_shape (state_len toy_config 49) toy_mem.
Proof. intros b. destruct b; reflexivity. Qed.

Lemma toy_shape_att : has_shape (state_len toy_config 49) toy_mem_att.
Proof. intros b. destruct b; reflexivity. Qed.

(** C1, counterexample: the token id [2 = vocab_size] is not rejected; the
    call runs to the end, and the row it copies into [x] starts at the float
    11 of the mapping, the first one after the embedding table (which is the
    floats 7 to 10). *)
Lemma token_out_of_range_runs :
  vocab_size toy_config <= 2 /\
  token_embedding_table toy_tensors +p vocab_size toy_config * dim toy_config
  = Ptr Buf_data 11 /\
  result (transformer 2 0 toy_config run_state toy_tensors) toy_mem = Some tt /\
  option_map (take 4) (accesses (transformer 2 0 toy_config run_state toy_tensors) toy_mem)
  = Some [Rd (Ptr Buf_data 11); Wr (Ptr Buf_x 0); Rd (Ptr Buf_data 12); Wr (Ptr Buf_x 1)].
Proof. split; [simpl; lia | repeat split; vm_compute; reflexivity]. Qed.

Lemma transformer_total_frame_witness :
  (exists m' t,
     run (transformer 0 0 toy_config run_state toy_tensors) toy_mem = Some (tt, m', t) /\
     m' Buf_data = toy_mem Buf_data /\
     writes_in (step_writes toy_config 0) t /\
     (forall x, ~ step_writes toy_config 0 x -> mem_load m' x = mem_load toy_mem x)) /\
  (forall token' pos', pos' < 0 \/ seq_len toy_config <= pos' ->
     run (transformer token' pos' toy_config run_state toy_tensors) toy_mem = None).
Proof.
  apply (transformer_total_frame toy_config 49 toy_tensors 0 0 toy_mem
           toy_valid toy_int_sized toy_weights); [simpl; lia | simpl; lia | exact toy_shape].
Defined.

Lemma generation_runs_steps_eff_witness :
  exists trace,
    generate true 0 B32.zero (fun _ => 0) toy_ck = Done trace /\
    Z.of_nat (length trace) = steps_eff 0 (seq_len (ck_config toy_ck)) /\
    (0 = 0 -> Z.of_nat (length trace) = seq_len (ck_config toy_ck)).
Proof. exact (generation_runs_steps_eff toy_ck 0 B32.zero (fun _ => 0) toy_runnable). Defined.

Lemma generation_calls_in_range_witness :
  exists m0 trace,
    malloc_run_state true (ck_config toy_ck) (ck_data toy_ck) = Done m0 /\
    generate true 2 B32.one (fun _ => 12345) toy_ck = Done trace /\
    Z.of_nat (length trace) = steps_eff 2 (seq_len (ck_config toy_ck)) /\
    steps_from B32.one (fun _ => 12345) (ck_config toy_ck) (ck_weights toy_ck) 1 0 m0 trace /\
    Forall (fun st => 0 <= st_pos st < seq_len (ck_config toy_ck) /\
                      0 <= st_token st < vocab_size (ck_config toy_ck) /\
                      0 <= st_next st < vocab_size (ck_config toy_ck)) trace.
Proof. exact (generation_calls_in_range toy_ck 2 B32.one (fun _ => 12345) toy_runnable). Defined.

(** C6, counterexample: with [seq_len = 2] and one step asked for, the run
    makes one iteration, and the key cache slot of layer 0 at position 1
    (whose first float is the float 2 of the cache) is never written. *)
Lemma later_slot_never_written :
  0 <= 1 < seq_len toy_config /\
  0 * seq_len toy_config * dim toy_config + 1 * dim toy_config + 0 = 2 /\
  match generate true 1 B32.zero (fun _ => 0) toy_ck with
  | Done trace => Some (length trace, wcount (run_trace trace) (Ptr Buf_key_cache 2))
  | _ => None
  end = Some (1%nat, 0%nat).
Proof. split; [simpl; lia | split; [reflexivity | vm_compute; reflexivity]]. Qed.

Lemma cache_slot_written_once_witness :
  exists trace,
    generate true 0 B32.zero (fun _ => 0) toy_ck = Done trace /\
    Z.of_nat (length trace) = steps_eff 0 (seq_len (ck_config toy_ck)) /\
    forall c l pos i,
      c = Buf_key_cache \/ c = Buf_value_cache ->
      0 <= l < n_layers (ck_config toy_ck) -> 0 <= pos < seq_len (ck_config toy_ck) ->
      0 <= i < dim (ck_config toy_ck) ->
      let x := Ptr c (l * seq_len (ck_config toy_ck) * dim (ck_config toy_ck)
                      + pos * dim (ck_config toy_ck) + i) in
      wcount (run_trace trace) x
      = (if pos <? steps_eff 0 (seq_len (ck_config toy_ck)) then 1%nat else 0%nat) /\
      (forall k st, trace !! k = Some st ->
         st_pos st = Z.of_nat k /\
         wcount (st_trace st) x = if decide (st_pos st = pos) then 1%nat else 0%nat) /\
      (forall j k stj stk, trace !! j = Some stj -> trace !! k = Some stk ->
         st_pos stj = pos -> (j <= k)%nat ->
         mem_load (st_mem stk) x = mem_load (st_mem stj) x).
Proof. exact (cache_slot_written_once toy_ck 0 B32.zero (fun _ => 0) toy_runnable). Defined.

(** C9, counterexample: with [seq_len = 2] the step at [pos = 0] never
    writes [att[1]], which keeps what it held before the step. *)
Lemma att_not_overwritten :
  toy_mem_att Buf_att = [B32.of_int 5; B32.of_int 7] /\
  option_map (fun att => att !! 1%nat)
    (observe (transformer 0 0 toy_config run_state toy_tensors) toy_mem_att Buf_att)
  = Some (Some (B32.of_int 7)) /\
  option_map (fun t => wcount t (Ptr Buf_att 1))
    (accesses (transformer 0 0 toy_config run_state toy_tensors) toy_mem_att)
  = Some 0%nat.
Proof. repeat split; vm_compute; reflexivity. Qed.

Lemma scratch_overwritten_witness :
  exists m1' t,
    run (transformer 0 0 toy_config run_state toy_tensors) toy_mem = Some (tt, m1', t) /\
    (forall x, step_written toy_config 0 x -> In (Wr x) t) /\
    (forall x, p_buf x = Buf_att -> In (Wr x) t -> att_rows toy_config 0 (n_heads toy_config) x) /\
    (forall x, p_buf x = Buf_att -> In (Rd x) t -> att_rows toy_config 0 (n_heads toy_config) x) /\
    fresh_ok persistent t /\
    (forall m2, has_shape (state_len toy_config 49) m2 -> agree persistent toy_mem m2 ->
       exists m2',
         run (transformer 0 0 toy_config run_state toy_tensors) m2 = Some (tt, m2', t) /\
         agree (fun x => persistent x \/ step_written toy_config 0 x) m1' m2').
Proof.
  apply (scratch_overwritten toy_config 49 toy_tensors 0 0 toy_mem
           toy_valid toy_int_sized toy_weights); [simpl; lia | simpl; lia | exact toy_shape].
Defined.

End ToyRuns.

(** ** The checkpoint loader *)

Section Loader.
Context {F : Type} `{!FloatOps F}.

Lemma int_at_Some (bytes : list byte) k :
  (4 * k + 3 < length bytes)%nat -> exists z, int_at bytes k = Some z.
Proof.
  intros Hk. unfold int_at.
  destruct (lookup_lt_is_Some_2 bytes (4 * k)%nat) as [b0 ->]; [lia|].
  destruct (lookup_lt_is_Some_2 bytes (4 * k + 1)%nat) as [b1 ->]; [lia|].
  destruct (lookup_lt_is_Some_2 bytes (4 * k + 2)%nat) as [b2 ->]; [lia|].
  destruct (lookup_lt_is_Some_2 bytes (4 * k + 3)%nat) as [b3 ->]; [lia|].
  eauto.
Qed.

Lemma int_at_None (bytes : list byte) k :
  (length bytes <= 4 * k + 3)%nat -> int_at bytes k = None.
Proof.
  intros Hk. unfold int_at.
  rewrite (lookup_ge_None_2 bytes (4 * k + 3)%nat) by lia.
  destruct (bytes !! (4 * k)%nat), (bytes !! (4 * k + 1)%nat), (bytes !! (4 * k + 2)%nat);
    reflexivity.
Qed.

Lemma read_config_Some (bytes : list byte) :
  (28 <= length bytes)%nat -> exists raw, read_config bytes = Some raw.
Proof.
  intros Hlen. unfold read_config.
  destruct (int_at_Some bytes 0) as [z0 ->]; [lia|].
  destruct (int_at_Some bytes 1) as [z1 ->]; [lia|].
  destruct (int_at_Some bytes 2) as [z2 ->]; [lia|].
  destruct (int_at_Some bytes 3) as [z3 ->]; [lia|].
  destruct (int_at_Some bytes 4) as [z4 ->]; [lia|].
  destruct (int_at_Some bytes 5) as [z5 ->]; [lia|].
  destruct (int_at_Some bytes 6) as [z6 ->]; [lia|].
  eauto.
Qed.

Lemma read_config_None (bytes : list byte) :
  (length bytes < 28)%nat -> read_config bytes = None.
Proof.
  intros Hlen. unfold read_config. rewrite (int_at_None bytes 6) by lia.
  destruct (int_at bytes 0), (int_at bytes 1), (int_at bytes 2), (int_at bytes 3),
    (int_at bytes 4), (int_at bytes 5); reflexivity.
Qed.

Lemma floats_of_bytes_length (bytes : list byte) :
  length (floats_of_bytes (F:=F) bytes) = (length bytes / 4)%nat.
Proof.
  assert (H : forall k (bs : list byte), (length bs < 4 * k)%nat ->
            length (floats_of_bytes (F:=F) bs) = (length bs / 4)%nat).
  { induction k as [|k IH]; intros bs Hk; [lia|].
    destruct bs as [|b0 [|b1 [|b2 [|b3 rest]]]]; try reflexivity.
    simpl length. rewrite IH by (simpl in Hk; lia).
    replace (Datatypes.S (Datatypes.S (Datatypes.S (Datatypes.S (length rest)))))
      with (length rest + 1 * 4)%nat by lia.
    rewrite Nat.div_add by lia. lia. }
  apply (H (Datatypes.S (length bytes))). lia.
Qed.

(** The mapping holds at least the floats of the file. *)
Lemma mmap_length (page_size : Z) (bytes : list byte) :
  (length bytes / 4 <= length (mmap (F:=F) page_size bytes))%nat.
Proof.
  unfold mmap. rewrite floats_of_bytes_length, length_app.
  apply Nat.Div0.div_le_mono. lia.
Qed.

(** What the loader does with a header it could read, when the file is
    mapped and the sizes of the tensors are [int]s. *)
Lemma load_checkpoint_Done (page_size : Z) (bytes : list byte) (raw : Config) :
  read_config bytes = Some raw -> vocab_size raw <> INT_MIN ->
  Forall int_safe (layout_ints (set_vocab_size raw (Z.abs (vocab_size raw)))) ->
  exists w,
    checkpoint_init_weights (set_vocab_size raw (Z.abs (vocab_size raw)))
      (Ptr Buf_data 0 +p header_floats) (0 <? vocab_size raw) = Some w /\
    load_checkpoint (F:=F) page_size (Some bytes) true =
    Done {| ck_config := set_vocab_size raw (Z.abs (vocab_size raw));
            ck_shared_weights := 0 <? vocab_size raw;
            ck_data := mmap page_size bytes;
            ck_weights := w |}.
Proof.
  intros Hr Hv Hsafe.
  destruct (checkpoint_init_weights_defined _ (Ptr Buf_data 0 +p header_floats)
              (0 <? vocab_size raw) Hsafe) as [w Hw].
  exists w. split; [exact Hw|].
  unfold load_checkpoint. rewrite Hr. unfold c_abs.
  destruct (Z.eqb_spec (vocab_size raw) INT_MIN); [contradiction|].
  cbv zeta. cbn [negb]. rewrite Hw. reflexivity.
Qed.

(** Without [open] or [mmap], the loader leaves with status 1. *)
Lemma load_checkpoint_not_mapped (page_size : Z) (bytes : list byte) (raw : Config) :
  read_config bytes = Some raw -> vocab_size raw <> INT_MIN ->
  load_checkpoint (F:=F) page_size (Some bytes) false = Exit 1.
Proof.
  intros Hr Hv. unfold load_checkpoint. rewrite Hr. unfold c_abs.
  destruct (Z.eqb_spec (vocab_size raw) INT_MIN); [contradiction | reflexivity].
Qed.

(** C5: a negative raw [vocab_size] means that [wcls] is a tensor of its own,
    placed after [freq_cis_imag]; the vocabulary size of the configuration is
    the absolute value; a positive one makes [wcls] the token embedding table
    itself, so that the classifier [matmul] is the one over the embedding
    table.  This holds of every header that can be read, whose raw
    [vocab_size] has an absolute value and whose tensor sizes are [int]s
    (the code is undefined otherwise), when the file is mapped. *)
Theorem vocab_size_sign_flag (page_size : Z) (bytes : list byte) (raw : Config) :
  read_config bytes = Some raw -> vocab_size raw <> INT_MIN ->
  Forall int_safe (layout_ints (set_vocab_size raw (Z.abs (vocab_size raw)))) ->
  exists ck,
    load_checkpoint (F:=F) page_size (Some bytes) true = Done ck /\
    vocab_size (ck_config ck) = Z.abs (vocab_size raw) /\
    (vocab_size raw < 0 ->
       ck_shared_weights ck = false /\
       wcls (ck_weights ck) =
         freq_cis_imag (ck_weights ck)
         +p Z.quot (seq_len (ck_config ck)
                    * Z.quot (dim (ck_config ck)) (n_heads (ck_config ck))) 2) /\
    (0 < vocab_size raw ->
       ck_shared_weights ck = true /\
       wcls (ck_weights ck) = token_embedding_table (ck_weights ck) /\
       forall xout x : ptr,
         matmul (F:=F) xout x (wcls (ck_weights ck))
           (dim (ck_config ck)) (vocab_size (ck_config ck))
         = matmul xout x (token_embedding_table (ck_weights ck))
             (dim (ck_config ck)) (vocab_size (ck_config ck))).
Proof.
  intros Hr Hv Hsafe.
  destruct (load_checkpoint_Done page_size bytes raw Hr Hv Hsafe) as (w & Hw & Hck).
  eexists. split; [exact Hck|].
  destruct (checkpoint_init_weights_fields _ _ _ _ Hw) as (_ & Hfields).
  cbn [ck_config ck_shared_weights ck_weights]. split; [reflexivity|]. split.
  - intros Hneg. destruct (Z.ltb_spec 0 (vocab_size raw)); [lia|].
    split; [reflexivity | apply Hfields].
  - intros Hp. destruct (Z.ltb_spec 0 (vocab_size raw)); [|lia].
    assert (Hcls : wcls w = token_embedding_table w) by apply Hfields.
    split; [reflexivity|]. split; [exact Hcls|]. intros xout x. rewrite Hcls. reflexivity.
Qed.

(** C7 (amended): the loader leaves with exit status 1 when the file cannot
    be opened, when its 28-byte header cannot be read, or when [open] or
    [mmap] fails; it never compares the byte count with the size the header
    implies: every file of at least 28 bytes (whose header has sizes that are
    [int]s) is mapped, in whole pages, and its weight views are handed
    out. *)
Theorem loader_checks_header_only (page_size : Z) (file : option (list byte))
    (mapped : bool) :
  match file with
  | None => load_checkpoint (F:=F) page_size file mapped = Exit 1
  | Some bytes =>
      if (length bytes <? 28)%nat then load_checkpoint (F:=F) page_size file mapped = Exit 1
      else exists raw, read_config bytes = Some raw /\
             (vocab_size raw <> INT_MIN ->
              let config := set_vocab_size raw (Z.abs (vocab_size raw)) in
              if mapped then
                Forall int_safe (layout_ints config) ->
                exists ck, load_checkpoint (F:=F) page_size file mapped = Done ck /\
                  ck_config ck = config /\
                  ck_data ck = mmap page_size bytes /\
                  (length bytes / 4 <= length (ck_data ck))%nat /\
                  checkpoint_init_weights config (Ptr Buf_data 0 +p header_floats)
                    (ck_shared_weights ck) = Some (ck_weights ck)
              else load_checkpoint (F:=F) page_size file mapped = Exit 1)
  end.
Proof.
  destruct file as [bytes|]; [|reflexivity].
  destruct (Nat.ltb_spec (length bytes) 28) as [Hlt|Hge].
  - unfold load_checkpoint. rewrite read_config_None by exact Hlt. reflexivity.
  - destruct (read_config_Some bytes Hge) as [raw Hr]. exists raw. split; [exact Hr|].
    intros Hv config. destruct mapped.
    + intros Hsafe.
      destruct (load_checkpoint_Done page_size bytes raw Hr Hv Hsafe) as (w & Hw & Hck).
      eexists. split; [exact Hck|]. cbn [ck_data ck_weights ck_config ck_shared_weights].
      split; [reflexivity|]. split; [reflexivity|]. split; [apply mmap_length | exact Hw].
    + exact (load_checkpoint_not_mapped page_size bytes raw Hr Hv).
Qed.

(** A file that holds what its header implies loads into a checkpoint whose
    tensors lie in the mapping. *)
Lemma load_checkpoint_weights_in_data (page_size : Z) (bytes : list byte) (mapped : bool)
    (ck : checkpoint F) :
  load_checkpoint page_size (Some bytes) mapped = Done ck -> valid_config (ck_config ck) ->
  4 * (header_floats + weights_floats (ck_config ck) (ck_shared_weights ck))
    <= Z.of_nat (length bytes) ->
  weights_in_data (ck_config ck) (Z.of_nat (length (ck_data ck))) (ck_weights ck).
Proof.
  unfold load_checkpoint. destruct (read_config bytes) as [raw|]; [|discriminate].
  destruct (c_abs (vocab_size raw)) as [vs|]; [|discriminate]. cbv zeta.
  destruct (negb mapped); [discriminate|].
  destruct (checkpoint_init_weights _ _ _) as [w|] eqn:Hw; [|discriminate].
  intros [= <-]. cbn [ck_config ck_shared_weights ck_data ck_weights].
  intros Hcfg Hlen. apply (checkpoint_weights_in_data _ _ _ _ Hcfg Hw).
  pose proof (mmap_length page_size bytes) as Hm. apply Nat2Z.inj_le in Hm.
  rewrite Nat2Z.inj_div in Hm. simpl Z.of_nat in Hm.
  assert (header_floats + weights_floats (set_vocab_size raw vs) (0 <? vocab_size raw)
          <= Z.of_nat (length bytes) / 4) by (apply Z.div_le_lower_bound; lia).
  lia.
Qed.

End Loader.

(** ** The loops over a whole buffer *)

Section Loops.
Context {F : Type} `{!FloatOps F}.

Lemma mem_load_whole (m : mem F) b (i : nat) :
  mem_load m (Ptr b 0 +p Z.of_nat i) = m b !! i.
Proof.
  unfold mem_load, padd. cbn [p_off p_buf].
  destruct (Z.leb_spec 0 (0 + Z.of_nat i)); [|lia].
  replace (Z.to_nat (0 + Z.of_nat i)) with i by lia. reflexivity.
Qed.

(** A loop that reads the buffer from [i] on and folds what it reads. *)
Lemma run_fold_reads {A} (g : Z -> A -> F -> A) (m : mem F) b (k : nat) :
  forall (i : nat) a,
  (i + k <= length (m b))%nat ->
  exists t,
    run (fold_loop k (Z.of_nat i)
           (fun j acc => Load (Ptr b 0 +p j) (fun v => Ret (g j acc v))) a) m
    = Some (fold_list g (take k (drop i (m b))) (Z.of_nat i) a, m, t).
Proof.
  induction k as [|k IH]; intros i a Hk; cbn [fold_loop bind].
  - exists []. reflexivity.
  - destruct (lookup_lt_is_Some_2 (m b) i) as [x Hx]; [lia|].
    cbn [run]. rewrite mem_load_whole, Hx.
    replace (Z.of_nat i + 1) with (Z.of_nat (Datatypes.S i)) by lia.
    destruct (IH (Datatypes.S i) (g (Z.of_nat i) a x)) as [t Ht]; [lia|].
    rewrite Ht. eexists. rewrite (drop_S _ _ _ Hx). simpl.
    replace (Z.of_nat i + 1) with (Z.of_nat (Datatypes.S i)) by lia. reflexivity.
Qed.

Lemma run_fold_range_reads {A} (g : Z -> A -> F -> A) (m : mem F) b (lo : nat) a :
  (lo <= length (m b))%nat ->
  exists t,
    run (fold_range (Z.of_nat lo) (Z.of_nat (length (m b)))
           (fun j acc => Load (Ptr b 0 +p j) (fun v => Ret (g j acc v))) a) m
    = Some (fold_list g (drop lo (m b)) (Z.of_nat lo) a, m, t).
Proof.
  intros Hlo. unfold fold_range.
  replace (Z.to_nat (Z.of_nat (length (m b)) - Z.of_nat lo)) with (length (m b) - lo)%nat by lia.
  destruct (run_fold_reads g m b (length (m b) - lo) lo a) as [t Ht]; [lia|].
  exists t. rewrite Ht. rewrite take_ge by (rewrite length_drop; lia). reflexivity.
Qed.

End Loops.

(** ** Greedy sampling *)

Section Argmax.
Context {F : Type} `{!FloatOps F} `{!FloatOrder F}.

Lemma fold_argmax_inv (rest : list F) :
  forall (pre : list F) (r : Z * F),
  first_max pre r -> Forall (fun x => f_is_nan x = false) (pre ++ rest) ->
  first_max (pre ++ rest)
    (fold_list (fun i (r : Z * F) vi => if f_gt vi (snd r) then (i, vi) else r)
       rest (Z.of_nat (length pre)) r).
Proof.
  induction rest as [|x rest IH]; intros pre [mi mp] Hfm Hnan; simpl fold_list.
  - rewrite app_nil_r. exact Hfm.
  - replace (pre ++ x :: rest) with ((pre ++ [x]) ++ rest) in * by (rewrite <- app_assoc; reflexivity).
    replace (Z.of_nat (length pre) + 1) with (Z.of_nat (length (pre ++ [x])))
      by (rewrite length_app; simpl; lia).
    apply IH; [|exact Hnan].
    unfold first_max, f_gt in *.
    destruct Hfm as (Hi & Hmp & Hmax & Hfirst). simpl in *.
    assert (Hnx : forall j vj, pre !! j = Some vj -> f_is_nan vj = false).
    { intros j vj Hj. rewrite Forall_forall in Hnan. apply Hnan.
      apply elem_of_app. left. apply elem_of_app. left.
      eapply list_elem_of_lookup_2, Hj. }
    destruct (f_lt mp x) eqn:Hgt; simpl.
    + split; [rewrite length_app; simpl; lia|]. split.
      { rewrite Nat2Z.id. apply list_lookup_middle. reflexivity. }
      split.
      * intros j vj Hj. apply lookup_app_Some in Hj. destruct Hj as [Hj|[Hlen Hj]].
        -- destruct (f_lt x vj) eqn:Hxv; [|reflexivity].
           rewrite <- (Hmax j vj Hj). symmetry. eapply f_lt_trans; eauto.
        -- destruct (j - length pre)%nat; simpl in Hj; [|destruct n; discriminate].
           injection Hj as <-. apply f_lt_irrefl.
      * intros j vj Hlt Hj. rewrite Nat2Z.id in Hlt.
        rewrite lookup_app_l in Hj by exact Hlt.
        destruct (Nat.lt_trichotomy j (Z.to_nat mi)) as [Hjm|[Hjm|Hjm]].
        -- eapply f_lt_trans; [apply (Hfirst j vj Hjm Hj) | exact Hgt].
        -- subst j. rewrite Hmp in Hj. injection Hj as <-. exact Hgt.
        -- apply (f_lt_negtrans x mp vj); [eapply Hnx, Hj | exact Hgt | apply (Hmax j vj Hj)].
    + split; [rewrite length_app; simpl; lia|]. split.
      { apply lookup_app_l_Some. exact Hmp. }
      split.
      * intros j vj Hj. apply lookup_app_Some in Hj. destruct Hj as [Hj|[Hlen Hj]].
        -- apply (Hmax j vj Hj).
        -- destruct (j - length pre)%nat; simpl in Hj; [|destruct n; discriminate].
           injection Hj as <-. exact Hgt.
      * intros j vj Hlt Hj. rewrite lookup_app_l in Hj by lia. apply (Hfirst j vj Hlt Hj).
Qed.

Lemma argmax_list_first_max (v : list F) :
  v <> [] -> Forall (fun x => f_is_nan x = false) v ->
  first_max v (fold_list (fun i (r : Z * F) vi => if f_gt vi (snd r) then (i, vi) else r)
                 (tail v) 1 (0, hd f_zero v)).
Proof.
  destruct v as [|x0 rest]; [congruence|]. intros _ Hnan. simpl.
  apply (fold_argmax_inv rest [x0] (0, x0)); [|exact Hnan].
  unfold first_max. simpl. split; [lia|]. split; [reflexivity|]. split.
  - intros [|j] vj Hj; simpl in Hj; [|discriminate]. injection Hj as <-. apply f_lt_irrefl.
  - intros j vj Hlt. lia.
Qed.

Lemma run_argmax (m : mem F) b :
  m b <> [] ->
  exists t,
    run (argmax (Ptr b 0) (Z.of_nat (length (m b)))) m = Some (argmax_list (m b), m, t).
Proof.
  intros Hne. unfold argmax. cbn [bind load].
  destruct (m b) as [|x0 rest] eqn:Hmb; [congruence|].
  cbn [run]. replace (mem_load m (Ptr b 0)) with (Some x0).
  2:{ unfold mem_load. simpl. rewrite Hmb. reflexivity. }
  rewrite run_bind. rewrite <- Hmb.
  destruct (run_fold_range_reads
              (fun i (r : Z * F) vi => if f_gt vi (snd r) then (i, vi) else r)
              m b 1 (0, x0)) as [t Ht]; [rewrite Hmb; simpl; lia|].
  change (Z.of_nat 1) with 1 in Ht. rewrite Ht. cbn [run]. eexists.
  unfold argmax_list. rewrite Hmb. simpl. reflexivity.
Qed.

Lemma fold_scan_kept (rest : list F) :
  forall (pre : list F) (r : Z * F),
  scan_kept pre r ->
  scan_kept (pre ++ rest)
    (fold_list (fun i (r : Z * F) vi => if f_gt vi (snd r) then (i, vi) else r)
       rest (Z.of_nat (length pre)) r).
Proof.
  induction rest as [|x rest IH]; intros pre [mi mp] Hk; simpl fold_list.
  - rewrite app_nil_r. exact Hk.
  - replace (pre ++ x :: rest) with ((pre ++ [x]) ++ rest)
      by (rewrite <- app_assoc; reflexivity).
    replace (Z.of_nat (length pre) + 1) with (Z.of_nat (length (pre ++ [x])))
      by (rewrite length_app; simpl; lia).
    apply IH. unfold scan_kept in *. destruct Hk as (Hi & Hmp & Hlater). simpl in *.
    destruct (f_gt x mp) eqn:Hgt; simpl.
    + split; [rewrite length_app; simpl; lia|]. split.
      { rewrite Nat2Z.id. apply list_lookup_middle. reflexivity. }
      intros j vj Hlt Hj. rewrite Nat2Z.id in Hlt.
      apply lookup_lt_Some in Hj. rewrite length_app in Hj. simpl in Hj. lia.
    + split; [rewrite length_app; simpl; lia|]. split.
      { apply lookup_app_l_Some. exact Hmp. }
      intros j vj Hlt Hj. apply lookup_app_Some in Hj. destruct Hj as [Hj|[Hlen Hj]].
      * apply (Hlater j vj Hlt Hj).
      * destruct (j - length pre)%nat; simpl in Hj; [|destruct n; discriminate].
        injection Hj as <-. exact Hgt.
Qed.

Lemma argmax_list_scan_kept (v : list F) :
  v <> [] ->
  scan_kept v (fold_list (fun i (r : Z * F) vi => if f_gt vi (snd r) then (i, vi) else r)
                 (tail v) 1 (0, hd f_zero v)).
Proof.
  destruct v as [|x0 rest]; [congruence|]. intros _. simpl.
  apply (fold_scan_kept rest [x0] (0, x0)).
  unfold scan_kept. simpl. split; [lia|]. split; [reflexivity|].
  intros [|j] vj Hlt Hj; [lia | discriminate].
Qed.

(** C3 (amended): with [temperature == 0] the sampler leaves memory as it
    is and returns the index that the left-to-right scan of the logits keeps:
    an index of the logits such that no later entry compares greater than the
    one it holds.  When no logit is a NaN, that entry is the maximum (no
    entry is greater) and every entry before it is strictly smaller: among
    equal maxima it is the lowest index. *)
Theorem greedy_returns_first_argmax (p : Config) (temperature : F) (rnd : Z) (m : mem F) :
  f_eq temperature f_zero = true ->
  Z.of_nat (length (m Buf_logits)) = vocab_size p ->
  m Buf_logits <> [] ->
  exists (i : nat) (vi : F) t,
    run (next_token temperature rnd p run_state) m = Some (Z.of_nat i, m, t) /\
    Z.of_nat i = argmax_list (m Buf_logits) /\
    m Buf_logits !! i = Some vi /\
    (forall j vj, (i < j)%nat -> m Buf_logits !! j = Some vj -> f_gt vj vi = false) /\
    (Forall (fun x => f_is_nan x = false) (m Buf_logits) ->
     (forall j vj, m Buf_logits !! j = Some vj -> f_gt vj vi = false) /\
     (forall j vj, (j < i)%nat -> m Buf_logits !! j = Some vj -> f_gt vi vj = true)).
Proof.
  intros Ht Hlen Hne. unfold next_token. rewrite Ht. rewrite <- Hlen.
  destruct (run_argmax m Buf_logits Hne) as [t Hr].
  destruct (argmax_list_scan_kept (m Buf_logits) Hne) as (Hi & Hv & Hlater).
  pose proof (argmax_list_first_max (m Buf_logits) Hne) as Hfm.
  unfold argmax_list in Hr. unfold argmax_list.
  set (r := fold_list _ _ _ _) in *.
  exists (Z.to_nat (fst r)), (snd r), t.
  replace (Z.of_nat (Z.to_nat (fst r))) with (fst r) by lia.
  split; [exact Hr|]. split; [reflexivity|]. split; [exact Hv|]. split; [exact Hlater|].
  intros Hnan. destruct (Hfm Hnan) as (_ & _ & Hmax & Hfirst). split; assumption.
Qed.

End Argmax.


(** ** Matrix-vector products *)

Section Matmul.
Context {F : Type} `{!FloatOps F}.

Lemma val_load (m : mem F) p : is_Some (mem_load m p) -> mem_load m p = Some (val m p).
Proof. intros [v Hv]. unfold val. rewrite Hv. reflexivity. Qed.

Lemma val_eq (m m1 : mem F) p : mem_load m1 p = mem_load m p -> val m1 p = val m p.
Proof. intros He. unfold val. rewrite He. reflexivity. Qed.

Lemma dot_loop_ext (f f' g g' : Z -> F) (k : nat) :
  forall j acc,
  (forall j', j <= j' < j + Z.of_nat k -> f j' = f' j' /\ g j' = g' j') ->
  dot_loop f g k j acc = dot_loop f' g' k j acc.
Proof.
  induction k as [|k IH]; intros j acc He; cbn [dot_loop]; [reflexivity|].
  destruct (He j ltac:(lia)) as [-> ->]. apply IH. intros j' Hj'. apply He. lia.
Qed.

(** The inner loop of [matmul]: the sum of one row. *)
Lemma run_dot_loop (m : mem F) (pw px : Z -> ptr) (k : nat) :
  forall j acc,
  (forall j', j <= j' < j + Z.of_nat k ->
     is_Some (mem_load m (pw j')) /\ is_Some (mem_load m (px j'))) ->
  exists t,
    run (fold_loop k j
           (fun j val => Load (pw j) (fun wij => Load (px j) (fun xj =>
              Ret (val +~ wij *~ xj)))) acc) m
    = Some (dot_loop (fun j => val m (pw j)) (fun j => val m (px j)) k j acc, m, t).
Proof.
  induction k as [|k IH]; intros j acc Hl; cbn [fold_loop bind dot_loop].
  - exists []. reflexivity.
  - destruct (Hl j ltac:(lia)) as [Hw Hx]. cbn [run].
    rewrite (val_load _ _ Hw), (val_load _ _ Hx).
    destruct (IH (j + 1) (acc +~ val m (pw j) *~ val m (px j))) as [t Ht].
    { intros j' Hj'. apply Hl. lia. }
    rewrite Ht. eexists. reflexivity.
Qed.

(** A counted loop with an invariant on the memory. *)
Lemma run_for_loop_inv (I : Z -> mem F -> Prop) (body : Z -> prog F unit) (n : nat) :
  forall i m,
  I i m ->
  (forall j m1, i <= j < i + Z.of_nat n -> I j m1 ->
     exists m2 t, run (body j) m1 = Some (tt, m2, t) /\ I (j + 1) m2) ->
  exists m' t, run (for_loop n i 1 body) m = Some (tt, m', t) /\ I (i + Z.of_nat n) m'.
Proof.
  induction n as [|n IH]; intros i m Hi Hb; cbn [for_loop].
  - exists m, []. split; [reflexivity|]. replace (i + Z.of_nat 0) with i by lia. exact Hi.
  - destruct (Hb i m ltac:(lia) Hi) as (m1 & t1 & Hr1 & Hi1).
    destruct (IH (i + 1) m1 Hi1) as (m2 & t2 & Hr2 & Hi2).
    { intros j m' Hj. apply Hb. lia. }
    exists m2, (t1 ++ t2). rewrite run_bind, Hr1, Hr2. split; [reflexivity|].
    replace (i + Z.of_nat (Datatypes.S n)) with (i + 1 + Z.of_nat n) by lia. exact Hi2.
Qed.

Lemma padd_inj p i j : p +p i = p +p j -> i = j.
Proof. unfold padd. intros [= He]. lia. Qed.

(** [matmul] leaves in [xout[i]] the dot product of row [i] of [w] with [x],
    and changes nothing outside the buffer of [xout]. *)
Lemma matmul_correct (m : mem F) (xout x w : ptr) (n d : Z) :
  0 <= n -> 0 <= d -> d * n <= INT_MAX ->
  (forall j, 0 <= j < n -> is_Some (mem_load m (x +p j))) ->
  (forall j, 0 <= j < d * n -> is_Some (mem_load m (w +p j))) ->
  (forall i, 0 <= i < d -> 0 <= p_off (xout +p i) < Z.of_nat (length (m (p_buf xout)))) ->
  p_buf x <> p_buf xout -> p_buf w <> p_buf xout ->
  exists m' t,
    run (matmul xout x w n d) m = Some (tt, m', t) /\
    (forall i, 0 <= i < d ->
       mem_load m' (xout +p i)
       = Some (dot (fun j => val m (w +p (i * n + j))) (fun j => val m (x +p j)) n)) /\
    (forall l, p_buf l <> p_buf xout -> mem_load m' l = mem_load m l) /\
    (forall b, length (m' b) = length (m b)).
Proof.
  intros Hn Hd Hfit Hx Hw Ho Hbx Hbw. rewrite (matmul_ints xout x w n d Hn Hd Hfit m).
  unfold for_range, for_range_by, trip_count.
  replace (d - 0 + 1 - 1) with d by lia. rewrite Z.div_1_r.
  set (I := fun (i : Z) (m1 : mem F) =>
    (forall i', 0 <= i' < i ->
       mem_load m1 (xout +p i')
       = Some (dot (fun j => val m (w +p (i' * n + j))) (fun j => val m (x +p j)) n)) /\
    (forall l, p_buf l <> p_buf xout -> mem_load m1 l = mem_load m l) /\
    (forall b, length (m1 b) = length (m b))).
  destruct (run_for_loop_inv I
              (fun i => val <- fold_range 0 n (fun j val =>
                           wij <- load (w +p (i * n + j));; xj <- load (x +p j);;
                           Ret (val +~ wij *~ xj)) f_zero;;
                        store (xout +p i) val)
              (Z.to_nat d) 0 m) as (m' & t & Hr & Hi).
  - unfold I. split; [intros i' Hi'; lia|]. split; reflexivity.
  - intros i m1 Hi (Hdone & Hsame & Hlen).
    assert (Hrow : forall j, 0 <= j < 0 + Z.of_nat (Z.to_nat (n - 0)) ->
              mem_load m1 (w +p (i * n + j)) = mem_load m (w +p (i * n + j)) /\
              mem_load m1 (x +p j) = mem_load m (x +p j)).
    { intros j Hj. split; apply Hsame; simpl; assumption. }
    destruct (run_dot_loop m1 (fun j => w +p (i * n + j)) (fun j => x +p j)
                (Z.to_nat (n - 0)) 0 f_zero) as [t1 Ht1].
    { intros j Hj. destruct (Hrow j Hj) as [-> ->].
      split; [apply Hw; nia | apply Hx; lia]. }
    rewrite (dot_loop_ext _ (fun j => val m (w +p (i * n + j)))
                          _ (fun j => val m (x +p j))) in Ht1.
    2:{ intros j Hj. destruct (Hrow j Hj) as [H1 H2]. split; apply val_eq; assumption. }
    rewrite run_bind. unfold fold_range.
    change (run (fold_loop (Z.to_nat (n - 0)) 0
                   (fun j val => wij <- load (w +p (i * n + j));; xj <- load (x +p j);;
                                 Ret (val +~ wij *~ xj)) f_zero) m1)
      with (run (fold_loop (Z.to_nat (n - 0)) 0
                   (fun j val => Load (w +p (i * n + j)) (fun wij => Load (x +p j) (fun xj =>
                      Ret (val +~ wij *~ xj)))) f_zero) m1).
    rewrite Ht1.
    destruct (mem_store_Some m1 (xout +p i)
                (dot_loop (fun j => val m (w +p (i * n + j))) (fun j => val m (x +p j))
                   (Z.to_nat (n - 0)) 0 f_zero)) as [m2 Hs].
    { rewrite Hlen. apply Ho. lia. }
    unfold store. cbn [run]. rewrite Hs. exists m2. eexists. split; [reflexivity|].
    unfold I. split; [|split].
    + intros i' Hi'. destruct (Z.eq_dec i' i) as [->|Hne].
      * rewrite (mem_store_same _ _ _ _ Hs). unfold dot.
        replace (n - 0) with n by lia. reflexivity.
      * rewrite (mem_store_other _ _ _ _ _ Hs).
        -- apply Hdone. lia.
        -- intros He. apply padd_inj in He. contradiction.
    + intros l Hl. rewrite (mem_store_other _ _ _ _ _ Hs).
      * apply Hsame, Hl.
      * intros ->. apply Hl. reflexivity.
    + intros b. rewrite (mem_store_length _ _ _ _ b Hs). apply Hlen.
  - exists m', t. split; [exact Hr|]. destruct Hi as (Hdone & Hsame & Hlen).
    split; [|split; assumption].
    intros i Hi. apply Hdone. lia.
Qed.

End Matmul.

Section ProjectionsSpec.
Context {F : Type} `{!FloatOps F}.

Lemma row_times_xb_ext p (m m1 : mem F) t l i :
  p_buf t = Buf_data ->
  (forall q, p_buf q = Buf_data \/ p_buf q = Buf_xb -> mem_load m1 q = mem_load m q) ->
  row_times_xb p m1 t l i = row_times_xb p m t l i.
Proof.
  intros Ht He. unfold row_times_xb, dot. apply dot_loop_ext.
  intros j _. split; apply val_eq, He; simpl; auto.
Qed.

Lemma block_loadable p dlen (m : mem F) (t : ptr) (l : Z) :
  has_shape (state_len p dlen) m ->
  0 < dim p -> 0 <= l < n_layers p ->
  in_data dlen t (n_layers p * (dim p * dim p)) ->
  forall j, 0 <= j < dim p * dim p ->
  is_Some (mem_load m (t +p l * dim p * dim p +p j)).
Proof.
  intros Hm Hd Hl (Hb & Ho & Hlen) j Hj.
  destruct (mem_load_Some m (t +p l * dim p * dim p +p j)) as [v Hv]; [|eauto].
  simpl. rewrite Hb, (Hm Buf_data). simpl.
  assert (0 <= l * dim p * dim p) by (apply Z.mul_nonneg_nonneg; nia).
  assert (l * dim p * dim p + dim p * dim p <= n_layers p * (dim p * dim p)) by nia.
  lia.
Qed.

Lemma xb_loadable p dlen (m : mem F) :
  has_shape (state_len p dlen) m ->
  forall j, 0 <= j < dim p -> is_Some (mem_load m (RS.xb run_state +p j)).
Proof.
  intros Hm j Hj. destruct (mem_load_Some m (RS.xb run_state +p j)) as [v Hv]; [|eauto].
  simpl. rewrite (Hm Buf_xb). simpl. lia.
Qed.

Lemma shape_of_length len (m m1 : mem F) :
  has_shape len m -> (forall b, length (m1 b) = length (m b)) -> has_shape len m1.
Proof. intros Hm Hl b. rewrite Hl. apply Hm. Qed.

(** C8 (amended): at layer [l] the three projections read
    three different tensors: [q = Wq xb], [k = Wk xb] and [v = Wv xb], each
    entry the dot product of a row of the layer's block with [xb] (on a valid
    configuration whose sizes fit an [int]). *)
Theorem qkv_rows_of_wq_wk_wv (p : Config) (dlen : Z) (w : TransformerWeights)
    (l : Z) (m : mem F) :
  valid_config p -> int_sized p -> weights_in_data p dlen w -> 0 <= l < n_layers p ->
  has_shape (state_len p dlen) m ->
  exists m' t,
    run (qkv_matmuls p run_state w l) m = Some (tt, m', t) /\
    forall i, 0 <= i < dim p ->
      mem_load m' (RS.q run_state +p i) = Some (row_times_xb p m (wq w) l i) /\
      mem_load m' (RS.k run_state +p i) = Some (row_times_xb p m (wk w) l i) /\
      mem_load m' (RS.v run_state +p i) = Some (row_times_xb p m (wv w) l i).
Proof.
  intros Hcfg Hint Hw Hl Hm.
  assert (Hd : 0 < dim p) by (destruct Hcfg as (? & _); assumption).
  assert (Hdd : dim p * dim p <= INT_MAX) by (apply dim_dim_fits; assumption).
  destruct Hw as (_ & _ & _ & Hq & Hk & Hv & _).
  assert (Hbq : p_buf (wq w) = Buf_data) by apply Hq.
  assert (Hbk : p_buf (wk w) = Buf_data) by apply Hk.
  assert (Hbv : p_buf (wv w) = Buf_data) by apply Hv.
  rewrite (qkv_matmuls_ints p w Hcfg Hint run_state l Hl m).
  destruct (matmul_correct m (RS.q run_state) (RS.xb run_state)
              (wq w +p l * dim p * dim p) (dim p) (dim p))
    as (m1 & t1 & Hr1 & Ho1 & Hs1 & Hl1); try lia.
  { apply (xb_loadable p dlen), Hm. }
  { apply (block_loadable p dlen); assumption. }
  { intros i Hi. simpl. rewrite (Hm Buf_q). simpl. lia. }
  { simpl. discriminate. }
  { simpl. rewrite Hbq. discriminate. }
  assert (Hm1 : has_shape (state_len p dlen) m1) by (eapply shape_of_length; eassumption).
  destruct (matmul_correct m1 (RS.k run_state) (RS.xb run_state)
              (wk w +p l * dim p * dim p) (dim p) (dim p))
    as (m2 & t2 & Hr2 & Ho2 & Hs2 & Hl2); try lia.
  { apply (xb_loadable p dlen), Hm1. }
  { apply (block_loadable p dlen); assumption. }
  { intros i Hi. simpl. rewrite (Hm1 Buf_k). simpl. lia. }
  { simpl. discriminate. }
  { simpl. rewrite Hbk. discriminate. }
  assert (Hm2 : has_shape (state_len p dlen) m2) by (eapply shape_of_length; eassumption).
  destruct (matmul_correct m2 (RS.v run_state) (RS.xb run_state)
              (wv w +p l * dim p * dim p) (dim p) (dim p))
    as (m3 & t3 & Hr3 & Ho3 & Hs3 & Hl3); try lia.
  { apply (xb_loadable p dlen), Hm2. }
  { apply (block_loadable p dlen); assumption. }
  { intros i Hi. simpl. rewrite (Hm2 Buf_v). simpl. lia. }
  { simpl. discriminate. }
  { simpl. rewrite Hbv. discriminate. }
  exists m3, (t1 ++ t2 ++ t3).
  rewrite run_bind, Hr1, run_bind, Hr2, Hr3. split; [reflexivity|].
  intros i Hi. split; [|split].
  - rewrite Hs3 by (simpl; discriminate). rewrite Hs2 by (simpl; discriminate).
    rewrite (Ho1 i Hi). reflexivity.
  - rewrite Hs3 by (simpl; discriminate). rewrite (Ho2 i Hi). f_equal.
    apply (row_times_xb_ext p m m1 (wk w) l i Hbk).
    intros q [Hb|Hb]; apply Hs1; rewrite Hb; simpl; discriminate.
  - rewrite (Ho3 i Hi). f_equal.
    transitivity (row_times_xb p m1 (wv w) l i).
    + apply (row_times_xb_ext p m1 m2 (wv w) l i Hbv).
      intros q [Hb|Hb]; apply Hs2; rewrite Hb; simpl; discriminate.
    + apply (row_times_xb_ext p m m1 (wv w) l i Hbv).
      intros q [Hb|Hb]; apply Hs1; rewrite Hb; simpl; discriminate.
Qed.

End ProjectionsSpec.

(** ** Concrete files, logits and projections *)

Module Cases.
Import Toy ToyRuns.

Lemma toy_shape_xb : has_shape (state_len toy_config 49) toy_mem_xb.
Proof. intros b. destruct b; reflexivity. Qed.

Lemma greedy_returns_first_argmax_witness :
  exists (i : nat) (vi : spec_float) t,
    run (next_token B32.zero 0 four_config run_state) four_mem = Some (Z.of_nat i, four_mem, t) /\
    Z.of_nat i = argmax_list (four_mem Buf_logits) /\
    four_mem Buf_logits !! i = Some vi /\
    (forall j vj, (i < j)%nat -> four_mem Buf_logits !! j = Some vj -> f_gt vj vi = false) /\
    (Forall (fun x => f_is_nan x = false) (four_mem Buf_logits) ->
     (forall j vj, four_mem Buf_logits !! j = Some vj -> f_gt vj vi = false) /\
     (forall j vj, (j < i)%nat -> four_mem Buf_logits !! j = Some vj -> f_gt vi vj = true)).
Proof.
  apply (greedy_returns_first_argmax four_config B32.zero 0 four_mem);
    [reflexivity | reflexivity | discriminate].
Defined.

(** C3, counterexample: on the logits [NaN, 1, 2] the greedy sampler returns
    0, the place of the NaN, and not 2, the place of the greatest logit: no
    comparison with a NaN holds. *)
Lemma greedy_keeps_leading_nan :
  nan_mem Buf_logits = [S754_nan; B32.of_int 1; B32.of_int 2] /\
  Z.of_nat (length (nan_mem Buf_logits)) = vocab_size nan_config /\
  result (next_token B32.zero 0 nan_config run_state) nan_mem = Some 0 /\
  f_gt (B32.of_int 2) (B32.of_int 1) = true /\
  f_gt (B32.of_int 1) S754_nan = false /\
  f_gt (B32.of_int 2) S754_nan = false.
Proof. repeat split; vm_compute; reflexivity. Qed.

Lemma untied_layout :
  Forall int_safe (layout_ints (set_vocab_size untied_raw (Z.abs (vocab_size untied_raw)))).
Proof.
  repeat (apply Forall_cons; split); [..|constructor]; vm_compute;
    repeat split; discriminate.
Qed.

Lemma vocab_size_sign_flag_witness :
  exists ck,
    load_checkpoint (F:=spec_float) 4096 (Some untied_header) true = Done ck /\
    vocab_size (ck_config ck) = Z.abs (vocab_size untied_raw) /\
    (vocab_size untied_raw < 0 ->
       ck_shared_weights ck = false /\
       wcls (ck_weights ck) =
         freq_cis_imag (ck_weights ck)
         +p Z.quot (seq_len (ck_config ck)
                    * Z.quot (dim (ck_config ck)) (n_heads (ck_config ck))) 2) /\
    (0 < vocab_size untied_raw ->
       ck_shared_weights ck = true /\
       wcls (ck_weights ck) = token_embedding_table (ck_weights ck) /\
       forall xout x : ptr,
         matmul (F:=spec_float) xout x (wcls (ck_weights ck))
           (dim (ck_config ck)) (vocab_size (ck_config ck))
         = matmul xout x (token_embedding_table (ck_weights ck))
             (dim (ck_config ck)) (vocab_size (ck_config ck))).
Proof.
  apply (vocab_size_sign_flag (F:=spec_float) 4096 untied_header untied_raw);
    [reflexivity | discriminate | exact untied_layout].
Defined.

(** C7, counterexample: a file of 28 bytes whose header implies 196 is
    loaded, and its weight views are handed out: [wcls] and the embedding
    table at the float 7, the first after the header, which is past the 28
    bytes of the file. *)
Lemma header_only_file_is_loaded :
  length toy_header = 28%nat /\
  4 * (header_floats + weights_floats toy_config true) = 196 /\
  load_checkpoint (F:=spec_float) 4096 (Some toy_header) true
  = Done {| ck_config := toy_config; ck_shared_weights := true;
            ck_data := mmap 4096 toy_header;
            ck_weights := toy_tensors |} /\
  token_embedding_table toy_tensors = Ptr Buf_data 7 /\
  wcls toy_tensors = Ptr Buf_data 7.
Proof. repeat split; vm_compute; reflexivity. Qed.

(** The run on that file goes on in the zero-filled rest of the page the
    file is mapped in: every weight reads as zero, token 0 is chosen twice,
    and with the vocabulary [toy_vocab] the two steps print [aa]. *)
Lemma header_only_file_runs :
  match generate true 0 B32.zero (fun _ => 0)
          {| ck_config := toy_config; ck_shared_weights := true;
             ck_data := mmap 4096 toy_header; ck_weights := toy_tensors |} with
  | Done trace => printed toy_vocab (map st_next trace)
  | _ => None
  end = Some [x61; x61].
Proof. vm_compute. reflexivity. Qed.

Lemma qkv_rows_of_wq_wk_wv_witness :
  exists m' t,
    run (qkv_matmuls toy_config run_state (ck_weights toy_ck) 0) toy_mem_xb = Some (tt, m', t) /\
    forall i, 0 <= i < dim toy_config ->
      mem_load m' (RS.q run_state +p i)
        = Some (row_times_xb toy_config toy_mem_xb (wq (ck_weights toy_ck)) 0 i) /\
      mem_load m' (RS.k run_state +p i)
        = Some (row_times_xb toy_config toy_mem_xb (wk (ck_weights toy_ck)) 0 i) /\
      mem_load m' (RS.v run_state +p i)
        = Some (row_times_xb toy_config toy_mem_xb (wv (ck_weights toy_ck)) 0 i).
Proof.
  apply (qkv_rows_of_wq_wk_wv toy_config 49 (ck_weights toy_ck) 0 toy_mem_xb
           toy_valid toy_int_sized toy_weights); [simpl; lia | exact toy_shape_xb].
Defined.

(** C8, counterexample: with [xb = (1, 0)] the key vector is the first column
    of [wk], not that of [wv]. *)
Lemma key_is_wk_product_not_wv :
  observe (qkv_matmuls toy_config run_state (ck_weights toy_ck) 0) toy_mem_xb Buf_k
    = Some [B32.of_int 17; B32.of_int 19] /\
  map (row_times_xb toy_config toy_mem_xb (wk (ck_weights toy_ck)) 0) [0; 1]
    = [B32.of_int 17; B32.of_int 19] /\
  map (row_times_xb toy_config toy_mem_xb (wv (ck_weights toy_ck)) 0) [0; 1]
    = [B32.of_int 21; B32.of_int 23].
Proof. repeat split; vm_compute; reflexivity. Qed.

End Cases.

(** ** Sampling with a temperature *)

Section InPlace.
Context {F : Type} `{!FloatOps F}.

Lemma mem_store_whole (m : mem F) b (i : nat) v :
  (i < length (m b))%nat ->
  exists m2, mem_store m (Ptr b 0 +p Z.of_nat i) v = Some m2 /\
             m2 b = <[i := v]> (m b) /\ forall b', b' <> b -> m2 b' = m b'.
Proof.
  intros Hi. unfold mem_store, padd. cbn [p_off p_buf].
  destruct (Z.leb_spec 0 (0 + Z.of_nat i)); [|lia].
  destruct (Z.ltb_spec (0 + Z.of_nat i) (Z.of_nat (length (m b)))); [|lia].
  cbn [andb]. eexists. split; [reflexivity|].
  replace (Z.to_nat (0 + Z.of_nat i)) with i by lia. split.
  - destruct (decide (b = b)); [reflexivity | congruence].
  - intros b' Hb'. destruct (decide (b' = b)); [congruence | reflexivity].
Qed.

Lemma partly_0 g xs : partly (F:=F) g xs 0 = xs.
Proof. unfold partly. rewrite take_0, drop_0. reflexivity. Qed.

Lemma partly_all g xs : partly (F:=F) g xs (length xs) = map g xs.
Proof. unfold partly. rewrite take_ge, drop_all, app_nil_r by lia. reflexivity. Qed.

Lemma partly_length g xs i : length (partly (F:=F) g xs i) = length xs.
Proof.
  unfold partly. rewrite length_app, length_map.
  rewrite <- (length_app (take i xs) (drop i xs)), take_drop. reflexivity.
Qed.

Lemma partly_lookup g xs i x : xs !! i = Some x -> partly (F:=F) g xs i !! i = Some x.
Proof.
  intros Hx. unfold partly. rewrite (drop_S _ _ _ Hx).
  apply list_lookup_middle. rewrite length_map, length_take.
  apply lookup_lt_Some in Hx. lia.
Qed.

Lemma partly_insert (g : F -> F) xs i x :
  xs !! i = Some x -> <[i := g x]> (partly g xs i) = partly g xs (Datatypes.S i).
Proof.
  intros Hx. unfold partly. rewrite (drop_S _ _ _ Hx), (take_S_r _ _ _ Hx).
  assert (Hl : length (map g (take i xs)) = i).
  { rewrite length_map, length_take. apply lookup_lt_Some in Hx. lia. }
  rewrite insert_app_r_alt by lia. rewrite Hl, Nat.sub_diag. simpl.
  rewrite map_app. simpl. rewrite <- app_assoc. reflexivity.
Qed.

(** [for (q = i; q < n; q++) b[q] = g(b[q])] *)
Lemma run_map_loop (g : F -> F) b (xs : list F) (k : nat) :
  forall (i : nat) (m : mem F),
  m b = partly g xs i -> (i + k)%nat = length xs ->
  exists m' t,
    run (for_loop k (Z.of_nat i) 1
           (fun j => Load (Ptr b 0 +p j) (fun x => Store (Ptr b 0 +p j) (g x) (Ret tt)))) m
    = Some (tt, m', t) /\
    m' b = map g xs /\ forall b', b' <> b -> m' b' = m b'.
Proof.
  induction k as [|k IH]; intros i m Hm Hk; cbn [for_loop bind].
  - exists m, []. split; [reflexivity|]. split; [|reflexivity].
    rewrite Hm. replace i with (length xs) by lia. apply partly_all.
  - destruct (lookup_lt_is_Some_2 xs i) as [x Hx]; [lia|].
    cbn [run]. rewrite mem_load_whole, Hm, (partly_lookup g xs i x Hx).
    destruct (mem_store_whole m b i (g x)) as (m1 & Hs & Hb & Ho).
    { rewrite Hm, partly_length. lia. }
    rewrite Hs.
    destruct (IH (Datatypes.S i) m1) as (m' & t & Hr & Hb' & Ho'); [|lia|].
    { rewrite Hb, Hm. apply partly_insert, Hx. }
    replace (Z.of_nat i + 1) with (Z.of_nat (Datatypes.S i)) by lia.
    rewrite Hr. exists m'. eexists. split; [reflexivity|]. split; [exact Hb'|].
    intros b' Hne. rewrite Ho', Ho by assumption. reflexivity.
Qed.

(** The same loop with a local variable that accumulates what it stores. *)
Lemma run_map_fold_loop {A} (g : F -> F) (h : A -> F -> A) b (xs : list F) (k : nat) :
  forall (i : nat) (acc : A) (m : mem F),
  m b = partly g xs i -> (i + k)%nat = length xs ->
  exists m' t,
    run (fold_loop k (Z.of_nat i)
           (fun j acc => Load (Ptr b 0 +p j) (fun x =>
              Store (Ptr b 0 +p j) (g x) (Ret (h acc (g x))))) acc) m
    = Some (fold_left h (map g (drop i xs)) acc, m', t) /\
    m' b = map g xs /\ forall b', b' <> b -> m' b' = m b'.
Proof.
  induction k as [|k IH]; intros i acc m Hm Hk; cbn [fold_loop bind].
  - exists m, []. rewrite drop_ge by lia. split; [reflexivity|]. split; [|reflexivity].
    rewrite Hm. replace i with (length xs) by lia. apply partly_all.
  - destruct (lookup_lt_is_Some_2 xs i) as [x Hx]; [lia|].
    cbn [run]. rewrite mem_load_whole, Hm, (partly_lookup g xs i x Hx).
    destruct (mem_store_whole m b i (g x)) as (m1 & Hs & Hb & Ho).
    { rewrite Hm, partly_length. lia. }
    rewrite Hs. cbn [run].
    destruct (IH (Datatypes.S i) (h acc (g x)) m1) as (m' & t & Hr & Hb' & Ho'); [|lia|].
    { rewrite Hb, Hm. apply partly_insert, Hx. }
    replace (Z.of_nat i + 1) with (Z.of_nat (Datatypes.S i)) by lia.
    rewrite Hr. exists m'. eexists. rewrite (drop_S _ _ _ Hx). simpl.
    split; [reflexivity|]. split; [exact Hb'|].
    intros b' Hne. rewrite Ho', Ho by assumption. reflexivity.
Qed.

Lemma fold_list_fold_left {A} (h : A -> F -> A) (xs : list F) :
  forall i a, fold_list (fun _ a x => h a x) xs i a = fold_left h xs a.
Proof. induction xs as [|x xs IH]; intros i a; simpl; [reflexivity | apply IH]. Qed.

(** The scan of [sample] over the whole buffer. *)
Lemma run_sample_loop (m : mem F) b (n : Z) (r : F) (fuel : nat) :
  forall (i : nat) (cdf : F),
  (i + fuel)%nat = length (m b) ->
  exists t,
    run (sample_loop fuel (Ptr b 0) n r (Z.of_nat i) cdf) m
    = Some (scan (drop i (m b)) r (Z.of_nat i) cdf (n - 1), m, t).
Proof.
  induction fuel as [|fuel IH]; intros i cdf Hf; cbn [sample_loop bind load].
  - exists []. rewrite drop_ge by lia. reflexivity.
  - destruct (lookup_lt_is_Some_2 (m b) i) as [x Hx]; [lia|].
    cbn [run]. rewrite mem_load_whole, Hx, (drop_S _ _ _ Hx). cbn [scan].
    destruct (f_lt r (cdf +~ x)).
    + eexists. reflexivity.
    + destruct (IH (Datatypes.S i) (cdf +~ x)) as [t Ht]; [lia|].
      replace (Z.of_nat i + 1) with (Z.of_nat (Datatypes.S i)) by lia.
      rewrite Ht. eexists. reflexivity.
Qed.

End InPlace.

Section Softmax.
Context {F : Type} `{!FloatOps F}.

Lemma mem_load_first (m : mem F) b : mem_load m (Ptr b 0) = m b !! 0%nat.
Proof. reflexivity. Qed.

(** [softmax] rewrites the whole buffer into [softmax_list] of it. *)
Lemma softmax_correct (m : mem F) b (xs : list F) :
  m b = xs -> xs <> [] ->
  exists m' t,
    run (softmax (Ptr b 0) (Z.of_nat (length xs))) m = Some (tt, m', t) /\
    m' b = softmax_list xs /\ forall b', b' <> b -> m' b' = m b'.
Proof.
  intros Hm Hne. unfold softmax.
  destruct xs as [|x0 rest] eqn:Hxs; [congruence|]. rewrite <- Hxs in *.
  assert (H0 : m b !! 0%nat = Some x0) by (rewrite Hm, Hxs; reflexivity).
  cbn [bind load]. cbn [run]. rewrite mem_load_first, H0.
  (* the maximum *)
  rewrite run_bind.
  destruct (run_fold_range_reads (fun _ mx xi => if f_gt xi mx then xi else mx)
              m b 1 x0) as [t1 Ht1]; [rewrite Hm, Hxs; simpl; lia|].
  change (Z.of_nat 1) with 1 in Ht1. rewrite Hm in Ht1 at 1. rewrite Ht1.
  rewrite fold_list_fold_left.
  assert (Hmax : fold_left (fun mx x => if f_gt x mx then x else mx) (drop 1 (m b)) x0
                 = list_max xs).
  { rewrite Hm, Hxs. reflexivity. }
  rewrite Hmax. clear Ht1 Hmax.
  (* exp and sum *)
  rewrite run_bind. unfold fold_range.
  replace (Z.to_nat (Z.of_nat (length xs) - 0)) with (length xs) by lia.
  destruct (run_map_fold_loop (fun x => f_exp (x -~ list_max xs)) f_add b xs (length xs)
              0%nat f_zero m) as (m1 & t2 & Hr2 & Hb1 & Ho1); [|lia|].
  { rewrite partly_0. exact Hm. }
  change (Z.of_nat 0) with 0 in Hr2. rewrite drop_0 in Hr2.
  cbn [store bind]. rewrite Hr2. clear Hr2.
  (* normalize *)
  set (es := map (fun x => f_exp (x -~ list_max xs)) xs) in *.
  set (sum := fold_left f_add es f_zero).
  unfold for_range, for_range_by, trip_count.
  replace (Z.to_nat ((Z.of_nat (length xs) - 0 + 1 - 1) / 1)) with (length es).
  2:{ rewrite Z.div_1_r. unfold es. rewrite length_map. lia. }
  destruct (run_map_loop (fun e => e /~ sum) b es (length es) 0%nat m1)
    as (m2 & t3 & Hr3 & Hb2 & Ho2); [|lia|].
  { rewrite partly_0. exact Hb1. }
  change (Z.of_nat 0) with 0 in Hr3. unfold store. rewrite Hr3.
  exists m2. eexists. split; [reflexivity|]. split.
  - rewrite Hb2. reflexivity.
  - intros b' Hb'. rewrite Ho2, Ho1 by assumption. reflexivity.
Qed.

End Softmax.

Section Sampler.
Context {F : Type} `{!FloatOps F}.

Lemma softmax_list_length (xs : list F) : length (softmax_list xs) = length xs.
Proof. unfold softmax_list. rewrite !length_map. reflexivity. Qed.

Lemma probabilities_length (temperature : F) (xs : list F) :
  length (probabilities temperature xs) = length xs.
Proof. unfold probabilities. rewrite softmax_list_length, length_map. reflexivity. Qed.

(** What [scan] returns: the first index whose running sum exceeds [r], or
    [last] when there is none. *)
Lemma scan_first (r : F) (last : Z) (probs : list F) :
  forall (i : Z) (cdf : F),
  (exists j : nat,
     scan probs r i cdf last = i + Z.of_nat j /\ (j < length probs)%nat /\
     f_lt r (fold_left f_add (take (Datatypes.S j) probs) cdf) = true /\
     forall j', (j' < j)%nat ->
       f_lt r (fold_left f_add (take (Datatypes.S j') probs) cdf) = false)
  \/ (scan probs r i cdf last = last /\
      forall j, (j < length probs)%nat ->
        f_lt r (fold_left f_add (take (Datatypes.S j) probs) cdf) = false).
Proof.
  induction probs as [|pr rest IH]; intros i cdf; cbn [scan].
  - right. split; [reflexivity|]. intros j Hj. simpl in Hj. lia.
  - destruct (f_lt r (cdf +~ pr)) eqn:E.
    + left. exists 0%nat. split; [lia|]. split; [simpl; lia|].
      split; [simpl; exact E|]. intros j' Hj'. lia.
    + destruct (IH (i + 1) (cdf +~ pr)) as [(j & Hs & Hj & Hlt & Hfirst)|(Hs & Hall)].
      * left. exists (Datatypes.S j). split; [rewrite Hs; lia|]. split; [simpl; lia|].
        split; [exact Hlt|]. intros [|j'] Hj'; [simpl; exact E|].
        apply Hfirst. lia.
      * right. split; [exact Hs|]. intros [|j] Hj; [simpl; exact E|].
        apply Hall. simpl in Hj. lia.
Qed.

(** C4 (amended): with [temperature != 0] the sampler divides the
    logits by the temperature and applies softmax, in place; with
    [r = (float)rand() / (float)RAND_MAX] it returns the first index whose
    cumulative sum of probabilities exceeds [r], the last index when there is
    none; the index lies in [0, vocab_size). *)
Theorem sampler_scans_cumulative_sum (p : Config) (temperature : F) (rnd : Z) (m : mem F) :
  f_eq temperature f_zero = false ->
  Z.of_nat (length (m Buf_logits)) = vocab_size p ->
  m Buf_logits <> [] ->
  exists (i : Z) (m' : mem F) t,
    run (next_token temperature rnd p run_state) m = Some (i, m', t) /\
    m' Buf_logits = probabilities temperature (m Buf_logits) /\
    (forall b, b <> Buf_logits -> m' b = m b) /\
    i = sampler temperature (m Buf_logits) (sample_r rnd) /\
    0 <= i < vocab_size p /\
    ((exists j : nat,
        i = Z.of_nat j /\ (j < length (m Buf_logits))%nat /\
        f_lt (sample_r rnd) (cumsum (probabilities temperature (m Buf_logits)) j) = true /\
        forall j', (j' < j)%nat ->
          f_lt (sample_r rnd) (cumsum (probabilities temperature (m Buf_logits)) j') = false)
     \/ (i = vocab_size p - 1 /\
         forall j, (j < length (m Buf_logits))%nat ->
           f_lt (sample_r rnd) (cumsum (probabilities temperature (m Buf_logits)) j) = false)).
Proof.
  intros Ht Hlen Hne. unfold next_token. rewrite Ht.
  set (xs := m Buf_logits) in *.
  assert (Hpos : (0 < length xs)%nat) by (destruct xs; [congruence | simpl; lia]).
  (* apply the temperature *)
  rewrite run_bind. unfold for_range, for_range_by, trip_count.
  replace (Z.to_nat ((vocab_size p - 0 + 1 - 1) / 1)) with (length xs)
    by (rewrite Z.div_1_r; lia).
  destruct (run_map_loop (fun x => x /~ temperature) Buf_logits xs (length xs) 0%nat m)
    as (m1 & t1 & Hr1 & Hb1 & Ho1); [|lia|].
  { rewrite partly_0. reflexivity. }
  change (Z.of_nat 0) with 0 in Hr1. cbn [bind load]. unfold store.
  change (RS.logits run_state) with (Ptr Buf_logits 0). rewrite Hr1.
  (* softmax *)
  rewrite run_bind.
  destruct (softmax_correct m1 Buf_logits (map (fun x => x /~ temperature) xs) Hb1)
    as (m2 & t2 & Hr2 & Hb2 & Ho2).
  { destruct xs; [congruence | discriminate]. }
  rewrite length_map, Hlen in Hr2. rewrite Hr2.
  (* sample *)
  unfold sample.
  destruct (run_sample_loop m2 Buf_logits (vocab_size p) (sample_r rnd)
              (Z.to_nat (vocab_size p)) 0%nat f_zero) as [t3 Hr3].
  { rewrite Hb2, softmax_list_length, length_map. lia. }
  change (Z.of_nat 0) with 0 in Hr3. rewrite Hr3. rewrite drop_0, Hb2.
  fold (probabilities temperature xs).
  eexists _, m2, _. split; [reflexivity|]. split; [exact Hb2|]. split.
  { intros b Hb. rewrite Ho2, Ho1 by assumption. reflexivity. }
  split. { unfold sampler. rewrite <- Hlen. reflexivity. }
  destruct (scan_first (sample_r rnd) (vocab_size p - 1) (probabilities temperature xs)
              0 f_zero) as [(j & Hs & Hj & Hlt & Hfirst)|(Hs & Hall)];
    rewrite probabilities_length in *.
  - rewrite Hs. split; [lia|]. left. exists j. split; [lia|]. split; [exact Hj|].
    split; [exact Hlt | exact Hfirst].
  - rewrite Hs. split; [lia|]. right. split; [reflexivity | exact Hall].
Qed.

End Sampler.

(** ** Concrete draws *)

Module Draws.
Import Toy.

Lemma sampler_scans_cumulative_sum_witness :
  exists (i : Z) (m' : mem spec_float) t,
    run (next_token B32.one 12345 four_config run_state) four_mem = Some (i, m', t) /\
    m' Buf_logits = probabilities B32.one (four_mem Buf_logits) /\
    (forall b, b <> Buf_logits -> m' b = four_mem b) /\
    i = sampler B32.one (four_mem Buf_logits) (sample_r 12345) /\
    0 <= i < vocab_size four_config /\
    ((exists j : nat,
        i = Z.of_nat j /\ (j < length (four_mem Buf_logits))%nat /\
        f_lt (sample_r 12345) (cumsum (probabilities B32.one (four_mem Buf_logits)) j) = true /\
        forall j', (j' < j)%nat ->
          f_lt (sample_r 12345) (cumsum (probabilities B32.one (four_mem Buf_logits)) j')
          = false)
     \/ (i = vocab_size four_config - 1 /\
         forall j, (j < length (four_mem Buf_logits))%nat ->
           f_lt (sample_r 12345) (cumsum (probabilities B32.one (four_mem Buf_logits)) j)
           = false)).
Proof.
  apply (sampler_scans_cumulative_sum four_config B32.one 12345 four_mem);
    [reflexivity | reflexivity | discriminate].
Defined.

(** C4, counterexample: when [rand()] returns [RAND_MAX] the draw is [1.0],
    which is not below 1; on a single logit the probability is [1.0], no
    cumulative sum exceeds the draw, and the last index is returned without
    any rounding error. *)
Lemma draw_reaches_one :
  sample_r (F:=spec_float) RAND_MAX = B32.one /\
  f_lt (sample_r (F:=spec_float) RAND_MAX) B32.one = false /\
  observe (next_token B32.one RAND_MAX one_config run_state) one_mem Buf_logits
    = Some [B32.one] /\
  f_lt (sample_r (F:=spec_float) RAND_MAX) (cumsum [B32.one] 0) = false /\
  result (next_token B32.one RAND_MAX one_config run_state) one_mem = Some 0.
Proof. repeat split; vm_compute; reflexivity. Qed.

End Draws.

(** ** The neural net blocks as functions on ranges *)

Section RangeFacts.
Context {F : Type} `{!FloatOps F}.

Lemma slice_length (m : mem F) p n : length (slice m p n) = Z.to_nat n.
Proof. unfold slice. rewrite length_map, length_seq. reflexivity. Qed.

Lemma slice_of_loads (m : mem F) p n (g : Z -> F) :
  (forall i, 0 <= i < n -> mem_load m (p +p i) = Some (g i)) ->
  slice m p n = map (fun i => g (Z.of_nat i)) (seq 0 (Z.to_nat n)).
Proof.
  intros Hl. unfold slice. apply map_ext_in. intros i Hi. apply in_seq in Hi.
  unfold val. rewrite Hl by lia. reflexivity.
Qed.

Lemma slice_ext (m m1 : mem F) p n :
  (forall i, 0 <= i < n -> mem_load m1 (p +p i) = mem_load m (p +p i)) ->
  slice m1 p n = slice m p n.
Proof.
  intros Hl. unfold slice. apply map_ext_in. intros i Hi. apply in_seq in Hi.
  apply val_eq, Hl. lia.
Qed.

Lemma slice_cons (m : mem F) p n :
  0 < n -> slice m p n = val m p :: slice m (p +p 1) (n - 1).
Proof.
  intros Hn. unfold slice.
  replace (Z.to_nat n) with (Datatypes.S (Z.to_nat (n - 1))) by lia.
  cbn [seq map]. change (Z.of_nat 0) with 0. rewrite padd_0. f_equal.
  rewrite <- seq_shift, map_map. apply map_ext. intros i.
  rewrite padd_padd. do 2 f_equal. lia.
Qed.

Lemma zip_with_maps {A} (f : F -> F -> F) (g1 g2 : A -> F) (l : list A) :
  zip_with f (map g1 l) (map g2 l) = map (fun i => f (g1 i) (g2 i)) l.
Proof. induction l as [|a l IH]; simpl; [reflexivity | rewrite IH; reflexivity]. Qed.

Lemma allocated_val (m : mem F) p n i :
  allocated m p n -> 0 <= i < n -> mem_load m (p +p i) = Some (val m (p +p i)).
Proof. intros Ha Hi. apply val_load, Ha, Hi. Qed.

(** A range that lies in its buffer is allocated. *)
Lemma allocated_in_buffer (m : mem F) p n :
  0 <= p_off p -> p_off p + n <= Z.of_nat (length (m (p_buf p))) -> allocated m p n.
Proof.
  intros Hlo Hhi i Hi. destruct (mem_load_Some m (p +p i)) as [v Hv]; [simpl; lia|].
  rewrite Hv. eauto.
Qed.

Lemma same_outside_refl (m : mem F) p n : same_outside p n m m.
Proof. intros l _. reflexivity. Qed.

Lemma same_outside_trans (m m1 m2 : mem F) p n :
  same_outside p n m m1 -> same_outside p n m1 m2 -> same_outside p n m m2.
Proof. intros H1 H2 l Hl. rewrite (H2 l Hl). apply H1, Hl. Qed.

Lemma same_outside_mono (m m1 : mem F) p i n :
  i <= n -> same_outside p i m m1 -> same_outside p n m m1.
Proof. intros Hi Hs l Hl. apply Hs. intros [Hb Ho]. apply Hl. split; [exact Hb | lia]. Qed.

(** What lies apart from the whole range lies apart from its first [i]
    places. *)
Lemma apart_read (m m1 : mem F) dst n i q k j :
  apart dst n q k -> same_outside dst i m m1 -> i <= n -> 0 <= j < k ->
  mem_load m1 (q +p j) = mem_load m (q +p j).
Proof.
  intros Ha Hs Hi Hj. apply Hs. intros [Hb Ho].
  apply (Ha (q +p j)); [split; [exact Hb | lia] | apply rng_padd, Hj].
Qed.

(** The place a loop is about to write still holds what it held. *)
Lemma self_read (m m1 : mem F) dst i :
  same_outside dst i m m1 -> mem_load m1 (dst +p i) = mem_load m (dst +p i).
Proof. intros Hs. apply Hs. intros [_ Ho]. simpl in Ho. lia. Qed.

Lemma run_store_at (m1 : mem F) p v :
  is_Some (mem_load m1 p) ->
  exists m2, mem_store m1 p v = Some m2 /\ mem_load m2 p = Some v /\
             forall l, l <> p -> mem_load m2 l = mem_load m1 l.
Proof.
  intros [x Hx].
  destruct (mem_store_Some m1 p v (mem_load_Some_inv _ _ _ Hx)) as [m2 Hs].
  exists m2. split; [exact Hs|]. split; [exact (mem_store_same _ _ _ _ Hs)|].
  intros l Hl. exact (mem_store_other _ _ _ _ _ Hs Hl).
Qed.

(** A loop that reads [k] floats from [p +p j] on and folds them. *)
Lemma run_fold_read {A} (g : A -> F -> A) (m : mem F) p (k : nat) :
  forall j a,
  (forall i, j <= i < j + Z.of_nat k -> is_Some (mem_load m (p +p i))) ->
  exists t,
    run (fold_loop k j (fun j acc => Load (p +p j) (fun v => Ret (g acc v))) a) m
    = Some (fold_left g (slice m (p +p j) (Z.of_nat k)) a, m, t).
Proof.
  induction k as [|k IH]; intros j a Hl; cbn [fold_loop bind].
  - exists []. reflexivity.
  - cbn [run]. rewrite (val_load _ _ (Hl j ltac:(lia))).
    destruct (IH (j + 1) (g a (val m (p +p j)))) as [t Ht].
    { intros i Hi. apply Hl. lia. }
    rewrite Ht. eexists. rewrite (slice_cons m (p +p j)) by lia.
    rewrite padd_padd. replace (Z.of_nat (Datatypes.S k) - 1) with (Z.of_nat k) by lia.
    reflexivity.
Qed.

(** A loop each of whose iterations leaves [g i] in [dst[i]] and touches
    nothing else. *)
Lemma run_pointwise (m : mem F) (dst : ptr) (n : Z) (body : Z -> prog F unit) (g : Z -> F) :
  0 <= n ->
  (forall i m1, 0 <= i < n ->
     (forall i', 0 <= i' < i -> mem_load m1 (dst +p i') = Some (g i')) ->
     same_outside dst i m m1 ->
     exists m2 t, run (body i) m1 = Some (tt, m2, t) /\
       mem_load m2 (dst +p i) = Some (g i) /\
       forall l, l <> dst +p i -> mem_load m2 l = mem_load m1 l) ->
  exists m' t,
    run (for_range 0 n body) m = Some (tt, m', t) /\
    (forall i, 0 <= i < n -> mem_load m' (dst +p i) = Some (g i)) /\
    same_outside dst n m m'.
Proof.
  intros Hn Hbody. unfold for_range, for_range_by, trip_count.
  replace ((n - 0 + 1 - 1) / 1) with n by (rewrite Z.div_1_r; lia).
  destruct (run_for_loop_inv
              (fun i m1 => (forall i', 0 <= i' < i -> mem_load m1 (dst +p i') = Some (g i')) /\
                           same_outside dst i m m1)
              body (Z.to_nat n) 0 m) as (m' & t & Hr & Hv & Hs).
  - split; [intros i' Hi'; lia | apply same_outside_refl].
  - intros j m1 Hj [Hv Hs].
    destruct (Hbody j m1 ltac:(lia) Hv Hs) as (m2 & t & Hr & Hj2 & Ho).
    exists m2, t. split; [exact Hr|]. split.
    + intros i' Hi'. destruct (Z.eq_dec i' j) as [->|Hne]; [exact Hj2|].
      rewrite Ho; [apply Hv; lia|]. intros He. apply padd_inj in He. contradiction.
    + intros l Hl. rewrite Ho.
      * apply Hs. intros [Hb Hoff]. apply Hl. split; [exact Hb | lia].
      * intros ->. apply Hl. apply rng_padd. lia.
  - exists m', t. split; [exact Hr|].
    replace (0 + Z.of_nat (Z.to_nat n)) with n in * by lia. split; assumption.
Qed.

(** A loop that rewrites [k] floats in place and accumulates what it
    stores. *)
Lemma run_inplace_fold {A} (e : F -> F) (h : A -> F -> A) p (k : nat) :
  forall j acc (m : mem F),
  (forall i, j <= i < j + Z.of_nat k -> is_Some (mem_load m (p +p i))) ->
  exists m' t,
    run (fold_loop k j (fun j acc => Load (p +p j) (fun xj =>
           Store (p +p j) (e xj) (Ret (h acc (e xj))))) acc) m
    = Some (fold_left h (map e (slice m (p +p j) (Z.of_nat k))) acc, m', t) /\
    (forall i, j <= i < j + Z.of_nat k ->
       mem_load m' (p +p i) = Some (e (val m (p +p i)))) /\
    (forall l, (forall i, j <= i < j + Z.of_nat k -> l <> p +p i) ->
       mem_load m' l = mem_load m l).
Proof.
  induction k as [|k IH]; intros j acc m Hl; cbn [fold_loop bind].
  - exists m, []. split; [reflexivity|]. split; [intros i Hi; lia | reflexivity].
  - pose proof (Hl j ltac:(lia)) as Hj. cbn [run]. rewrite (val_load _ _ Hj).
    destruct (run_store_at m (p +p j) (e (val m (p +p j))) Hj) as (m1 & Hs & Hsame & Ho).
    rewrite Hs.
    assert (Hlater : forall i, j + 1 <= i < j + 1 + Z.of_nat k ->
                       mem_load m1 (p +p i) = mem_load m (p +p i)).
    { intros i Hi. apply Ho. intros He. apply padd_inj in He. lia. }
    destruct (IH (j + 1) (h acc (e (val m (p +p j)))) m1) as (m' & t & Hr & Hv & Hf).
    { intros i Hi. rewrite Hlater by exact Hi. apply Hl. lia. }
    rewrite Hr. exists m'. eexists. split; [|split].
    + rewrite (slice_cons m (p +p j)) by lia. rewrite padd_padd.
      replace (Z.of_nat (Datatypes.S k) - 1) with (Z.of_nat k) by lia.
      rewrite (slice_ext m m1 (p +p (j + 1)) (Z.of_nat k)).
      * reflexivity.
      * intros i Hi. rewrite padd_padd. apply Hlater. lia.
    + intros i Hi. destruct (Z.eq_dec i j) as [->|Hne].
      * rewrite Hf; [exact Hsame|]. intros i Hi' He. apply padd_inj in He. lia.
      * rewrite Hv by lia. do 2 f_equal. apply val_eq, Hlater. lia.
    + intros l Hl'. rewrite Hf.
      * apply Ho. apply Hl'. lia.
      * intros i Hi. apply Hl'. lia.
Qed.

End RangeFacts.

Section BlockFunctions.
Context {F : Type} `{!FloatOps F}.

(** [memcpy] of [n] floats between two allocated ranges that do not
    overlap runs to the end, leaves in the destination what the source held,
    and changes nothing outside the destination. *)
Lemma memcpy_copies (m : mem F) (dst src : ptr) (n : Z) :
  0 <= n -> allocated m src n -> allocated m dst n -> apart dst n src n ->
  exists m' t,
    run (memcpy dst src n) m = Some (tt, m', t) /\
    slice m' dst n = slice m src n /\
    same_outside dst n m m'.
Proof.
  intros Hn Hsrc Hdst Hap. unfold memcpy. destruct (Z.ltb_spec n 0); [lia|].
  destruct (run_pointwise m dst n (fun i => v <- load (src +p i);; store (dst +p i) v)
              (fun i => val m (src +p i)) Hn) as (m' & t & Hr & Hv & Hs).
  { intros i m1 Hi _ Hsame. cbn [bind load store run].
    rewrite (apart_read m m1 dst n i src n i Hap Hsame ltac:(lia) Hi).
    rewrite (allocated_val m src n i Hsrc Hi).
    destruct (run_store_at m1 (dst +p i) (val m (src +p i))) as (m2 & Hst & Hl & Ho).
    { rewrite (self_read m m1 dst i Hsame). apply Hdst, Hi. }
    rewrite Hst. exists m2. eexists. split; [reflexivity|]. split; assumption. }
  exists m', t. split; [exact Hr|]. split; [|exact Hs].
  rewrite (slice_of_loads m' dst n _ Hv). reflexivity.
Qed.

(** X1: [accum(a, b, size)] on two allocated ranges that do not overlap
    leaves [a[i] + b[i]] in [a[i]] for every [i < size] and changes nothing
    else. *)
Theorem accum_adds (m : mem F) (a b : ptr) (size : Z) :
  0 <= size -> allocated m a size -> allocated m b size -> apart a size b size ->
  exists m' t,
    run (accum a b size) m = Some (tt, m', t) /\
    slice m' a size = zip_with f_add (slice m a size) (slice m b size) /\
    same_outside a size m m'.
Proof.
  intros Hn Ha Hb Hap. unfold accum.
  destruct (run_pointwise m a size
              (fun i => ai <- load (a +p i);; bi <- load (b +p i);; store (a +p i) (ai +~ bi))
              (fun i => val m (a +p i) +~ val m (b +p i)) Hn) as (m' & t & Hr & Hv & Hs).
  { intros i m1 Hi _ Hsame. cbn [bind load store run].
    rewrite (self_read m m1 a i Hsame), (allocated_val m a size i Ha Hi).
    rewrite (apart_read m m1 a size i b size i Hap Hsame ltac:(lia) Hi).
    rewrite (allocated_val m b size i Hb Hi).
    destruct (run_store_at m1 (a +p i) (val m (a +p i) +~ val m (b +p i)))
      as (m2 & Hst & Hl & Ho).
    { rewrite (self_read m m1 a i Hsame). apply Ha, Hi. }
    rewrite Hst. exists m2. eexists. split; [reflexivity|]. split; assumption. }
  exists m', t. split; [exact Hr|]. split; [|exact Hs].
  rewrite (slice_of_loads m' a size _ Hv). unfold slice. rewrite zip_with_maps. reflexivity.
Qed.

(** X2: [rmsnorm(o, x, weight, size)] leaves in [o[j]] the product
    [weight[j] * (ss * x[j])] with [ss = 1 / sqrt(sum(x^2) / size + 1e-5)]
    taken over what [x] held at the call, and changes nothing outside [o];
    this holds when [o] does not overlap [x] and also when [o] is [x] itself
    (the final rmsnorm of the forward pass). *)
Theorem rmsnorm_normalizes (m : mem F) (o x weight : ptr) (size : Z) :
  0 <= size -> allocated m x size -> allocated m weight size -> allocated m o size ->
  apart o size weight size -> o = x \/ apart o size x size ->
  exists m' t,
    run (rmsnorm o x weight size) m = Some (tt, m', t) /\
    slice m' o size
    = zip_with (fun wj xj => wj *~ (rms_scale (slice m x size) size *~ xj))
        (slice m weight size) (slice m x size) /\
    same_outside o size m m'.
Proof.
  intros Hn Hx Hw Ho Hapw Hapx. unfold rmsnorm. rewrite run_bind. unfold fold_range.
  destruct (run_fold_read (fun ss xj => ss +~ xj *~ xj) m x (Z.to_nat (size - 0)) 0 f_zero)
    as [t1 Ht1].
  { intros i Hi. apply Hx. lia. }
  rewrite padd_0 in Ht1. replace (Z.of_nat (Z.to_nat (size - 0))) with size in Ht1 by lia.
  cbn [bind load]. rewrite Ht1. cbv zeta. fold (rms_scale (slice m x size) size).
  set (ss := rms_scale (slice m x size) size).
  assert (Hreadx : forall i m1, 0 <= i < size -> same_outside o i m m1 ->
                     mem_load m1 (x +p i) = mem_load m (x +p i)).
  { intros i m1 Hi Hsame. destruct Hapx as [->|Hapx].
    - apply (self_read m m1 x i Hsame).
    - apply (apart_read m m1 o size i x size i Hapx Hsame); lia. }
  destruct (run_pointwise m o size
              (fun j => wj <- load (weight +p j);; xj <- load (x +p j);;
                        store (o +p j) (wj *~ (ss *~ xj)))
              (fun j => val m (weight +p j) *~ (ss *~ val m (x +p j))) Hn)
    as (m' & t & Hr & Hv & Hs).
  { intros i m1 Hi _ Hsame. cbn [bind load store run].
    rewrite (apart_read m m1 o size i weight size i Hapw Hsame ltac:(lia) Hi).
    rewrite (allocated_val m weight size i Hw Hi).
    rewrite (Hreadx i m1 Hi Hsame), (allocated_val m x size i Hx Hi).
    destruct (run_store_at m1 (o +p i) (val m (weight +p i) *~ (ss *~ val m (x +p i))))
      as (m2 & Hst & Hl & Hoth).
    { rewrite (self_read m m1 o i Hsame). apply Ho, Hi. }
    rewrite Hst. exists m2. eexists. split; [reflexivity|]. split; assumption. }
  cbn [bind load store] in Hr. cbn [bind load store]. rewrite Hr.
  exists m'. eexists. split; [reflexivity|]. split; [|exact Hs].
  rewrite (slice_of_loads m' o size _ Hv). unfold slice. rewrite zip_with_maps. reflexivity.
Qed.

(** X3: [softmax(x, size)] on an allocated range of at least one float
    rewrites it in place into [exp(x_i - max) / sum], [max] and [sum] taken
    from left to right, and changes nothing outside the range. *)
Theorem softmax_on_range (m : mem F) (x : ptr) (size : Z) :
  1 <= size -> allocated m x size ->
  exists m' t,
    run (softmax x size) m = Some (tt, m', t) /\
    slice m' x size = softmax_list (slice m x size) /\
    same_outside x size m m'.
Proof.
  intros Hn Hx. unfold softmax. cbn [bind load]. cbn [run].
  pose proof (allocated_val m x size 0 Hx ltac:(lia)) as H0. rewrite padd_0 in H0.
  rewrite H0.
  (* the maximum *)
  rewrite run_bind. unfold fold_range.
  destruct (run_fold_read (fun mx xi => if f_gt xi mx then xi else mx) m x
              (Z.to_nat (size - 1)) 1 (val m x)) as [t1 Ht1].
  { intros i Hi. apply Hx. lia. }
  replace (Z.of_nat (Z.to_nat (size - 1))) with (size - 1) in Ht1 by lia.
  rewrite Ht1. clear Ht1.
  assert (Hmax : fold_left (fun mx xi => if f_gt xi mx then xi else mx)
                   (slice m (x +p 1) (size - 1)) (val m x) = list_max (slice m x size)).
  { rewrite (slice_cons m x size) by lia. reflexivity. }
  rewrite Hmax. clear Hmax. set (mx := list_max (slice m x size)).
  (* exp and sum *)
  rewrite run_bind.
  destruct (run_inplace_fold (fun xi => f_exp (xi -~ mx)) f_add x (Z.to_nat (size - 0))
              0 f_zero m) as (m1 & t2 & Hr2 & Hv2 & Hf2).
  { intros i Hi. apply Hx. lia. }
  rewrite padd_0 in Hr2. replace (Z.of_nat (Z.to_nat (size - 0))) with size in * by lia.
  cbn [store bind]. rewrite Hr2. clear Hr2. cbn [bind load store].
  set (es := map (fun xi => f_exp (xi -~ mx)) (slice m x size)).
  set (sum := fold_left f_add es f_zero).
  (* normalize *)
  destruct (run_pointwise m1 x size
              (fun i => Load (x +p i) (fun xi => Store (x +p i) (xi /~ sum) (Ret tt)))
              (fun i => f_exp (val m (x +p i) -~ mx) /~ sum) ltac:(lia))
    as (m2 & t3 & Hr3 & Hv3 & Hs3).
  { intros i m2 Hi _ Hsame. cbn [run].
    rewrite (self_read m1 m2 x i Hsame), (Hv2 i ltac:(lia)).
    destruct (run_store_at m2 (x +p i) (f_exp (val m (x +p i) -~ mx) /~ sum))
      as (m3 & Hst & Hl & Ho).
    { rewrite (self_read m1 m2 x i Hsame), (Hv2 i ltac:(lia)). eauto. }
    rewrite Hst. exists m3. eexists. split; [reflexivity|]. split; assumption. }
  unfold store. rewrite Hr3. exists m2. eexists. split; [reflexivity|]. split.
  - rewrite (slice_of_loads m2 x size _ Hv3). unfold softmax_list. fold mx. fold es. fold sum.
    unfold es, slice. rewrite !map_map. reflexivity.
  - intros l Hl. rewrite (Hs3 l Hl). apply Hf2. intros i Hi ->. apply Hl, rng_padd. lia.
Qed.

(** X4: [matmul(xout, x, w, n, d)], with [d * n] an [int], [x], [w] and
    [xout] allocated and [xout] apart from both, leaves in [xout[i]], for
    every row [i < d], the sum over [j] from 0 up of [w[i * n + j] * x[j]],
    and changes nothing outside [xout]. *)
Theorem matmul_rows (m : mem F) (xout x w : ptr) (n d : Z) :
  0 <= n -> 0 <= d -> d * n <= INT_MAX ->
  allocated m x n -> allocated m w (d * n) -> allocated m xout d ->
  apart xout d x n -> apart xout d w (d * n) ->
  exists m' t,
    run (matmul xout x w n d) m = Some (tt, m', t) /\
    (forall i, 0 <= i < d ->
       mem_load m' (xout +p i)
       = Some (dot (fun j => val m (w +p (i * n + j))) (fun j => val m (x +p j)) n)) /\
    same_outside xout d m m'.
Proof.
  intros Hn Hd Hfit Hx Hw Ho Hapx Hapw. rewrite (matmul_ints xout x w n d Hn Hd Hfit m).
  apply (run_pointwise m xout d
           (fun i => val <- fold_range 0 n (fun j val =>
                        wij <- load (w +p (i * n + j));; xj <- load (x +p j);;
                        Ret (val +~ wij *~ xj)) f_zero;;
                     store (xout +p i) val)
           (fun i => dot (fun j => val m (w +p (i * n + j))) (fun j => val m (x +p j)) n) Hd).
  intros i m1 Hi _ Hsame.
  assert (Hrow : forall j, 0 <= j < 0 + Z.of_nat (Z.to_nat (n - 0)) ->
            mem_load m1 (w +p (i * n + j)) = mem_load m (w +p (i * n + j)) /\
            mem_load m1 (x +p j) = mem_load m (x +p j)).
  { intros j Hj. split.
    - apply (apart_read m m1 xout d i w (d * n) (i * n + j) Hapw Hsame); [lia | nia].
    - apply (apart_read m m1 xout d i x n j Hapx Hsame); lia. }
  destruct (run_dot_loop m1 (fun j => w +p (i * n + j)) (fun j => x +p j)
              (Z.to_nat (n - 0)) 0 f_zero) as [t1 Ht1].
  { intros j Hj. destruct (Hrow j Hj) as [-> ->].
    split; [apply Hw; nia | apply Hx; lia]. }
  rewrite (dot_loop_ext _ (fun j => val m (w +p (i * n + j)))
                        _ (fun j => val m (x +p j))) in Ht1.
  2:{ intros j Hj. destruct (Hrow j Hj) as [H1 H2]. split; apply val_eq; assumption. }
  rewrite run_bind. unfold fold_range. cbn [bind load]. rewrite Ht1.
  destruct (run_store_at m1 (xout +p i)
              (dot_loop (fun j => val m (w +p (i * n + j))) (fun j => val m (x +p j))
                 (Z.to_nat (n - 0)) 0 f_zero)) as (m2 & Hst & Hl & Hoth).
  { rewrite (self_read m m1 xout i Hsame). apply Ho, Hi. }
  unfold store. cbn [run]. rewrite Hst. exists m2. eexists. split; [reflexivity|].
  split; [|exact Hoth]. rewrite Hl. unfold dot. replace (n - 0) with n by lia. reflexivity.
Qed.

End BlockFunctions.

Section RangeChecks.
Context {F : Type} `{!FloatOps F}.

Lemma apart_buffers (p q : ptr) (n k : Z) : p_buf p <> p_buf q -> apart p n q k.
Proof. intros Hne l [Hb _] [Hb' _]. congruence. Qed.

End RangeChecks.

(** ** The blocks on the toy memories *)

Module Blocks.
Import Toy.

Lemma memcpy_copies_witness :
  exists m' t,
    run (memcpy (Ptr Buf_x 0) (Ptr Buf_data 7) 2) toy_mem = Some (tt, m', t) /\
    slice m' (Ptr Buf_x 0) 2 = slice toy_mem (Ptr Buf_data 7) 2 /\
    same_outside (Ptr Buf_x 0) 2 toy_mem m'.
Proof.
  apply (memcpy_copies toy_mem (Ptr Buf_x 0) (Ptr Buf_data 7) 2); [lia | | |].
  - apply allocated_in_buffer; vm_compute; discriminate.
  - apply allocated_in_buffer; vm_compute; discriminate.
  - apply apart_buffers. discriminate.
Defined.

Lemma accum_adds_witness :
  exists m' t,
    run (accum (Ptr Buf_x 0) (Ptr Buf_xb 0) 2) toy_mem_xb = Some (tt, m', t) /\
    slice m' (Ptr Buf_x 0) 2
    = zip_with f_add (slice toy_mem_xb (Ptr Buf_x 0) 2) (slice toy_mem_xb (Ptr Buf_xb 0) 2) /\
    same_outside (Ptr Buf_x 0) 2 toy_mem_xb m'.
Proof.
  apply (accum_adds toy_mem_xb (Ptr Buf_x 0) (Ptr Buf_xb 0) 2); [lia | | |].
  - apply allocated_in_buffer; vm_compute; discriminate.
  - apply allocated_in_buffer; vm_compute; discriminate.
  - apply apart_buffers. discriminate.
Defined.

Lemma rmsnorm_normalizes_witness :
  exists m' t,
    run (rmsnorm (Ptr Buf_xb 0) (Ptr Buf_xb 0) (Ptr Buf_data 11) 2) toy_mem_xb
    = Some (tt, m', t) /\
    slice m' (Ptr Buf_xb 0) 2
    = zip_with (fun wj xj => wj *~ (rms_scale (slice toy_mem_xb (Ptr Buf_xb 0) 2) 2 *~ xj))
        (slice toy_mem_xb (Ptr Buf_data 11) 2) (slice toy_mem_xb (Ptr Buf_xb 0) 2) /\
    same_outside (Ptr Buf_xb 0) 2 toy_mem_xb m'.
Proof.
  apply (rmsnorm_normalizes toy_mem_xb (Ptr Buf_xb 0) (Ptr Buf_xb 0) (Ptr Buf_data 11) 2);
    [lia | | | | | left; reflexivity].
  - apply allocated_in_buffer; vm_compute; discriminate.
  - apply allocated_in_buffer; vm_compute; discriminate.
  - apply allocated_in_buffer; vm_compute; discriminate.
  - apply apart_buffers. discriminate.
Defined.

Lemma softmax_on_range_witness :
  exists m' t,
    run (softmax (Ptr Buf_att 0) 2) toy_mem_att = Some (tt, m', t) /\
    slice m' (Ptr Buf_att 0) 2 = softmax_list (slice toy_mem_att (Ptr Buf_att 0) 2) /\
    same_outside (Ptr Buf_att 0) 2 toy_mem_att m'.
Proof.
  apply (softmax_on_range toy_mem_att (Ptr Buf_att 0) 2); [lia|].
  apply allocated_in_buffer; vm_compute; discriminate.
Defined.

Lemma matmul_rows_witness :
  exists m' t,
    run (matmul (Ptr Buf_q 0) (Ptr Buf_xb 0) (Ptr Buf_data 13) 2 2) toy_mem_xb
    = Some (tt, m', t) /\
    (forall i, 0 <= i < 2 ->
       mem_load m' (Ptr Buf_q 0 +p i)
       = Some (dot (fun j => val toy_mem_xb (Ptr Buf_data 13 +p (i * 2 + j)))
                   (fun j => val toy_mem_xb (Ptr Buf_xb 0 +p j)) 2)) /\
    same_outside (Ptr Buf_q 0) 2 toy_mem_xb m'.
Proof.
  apply (matmul_rows toy_mem_xb (Ptr Buf_q 0) (Ptr Buf_xb 0) (Ptr Buf_data 13) 2 2);
    [lia | lia | unfold INT_MAX; lia | | | | |].
  - apply allocated_in_buffer; vm_compute; discriminate.
  - apply allocated_in_buffer; vm_compute; discriminate.
  - apply allocated_in_buffer; vm_compute; discriminate.
  - apply apart_buffers. discriminate.
  - apply apart_buffers. discriminate.
Defined.

End Blocks.

Section PositionFaults.
Context {F : Type} `{!FloatOps F}.

(** X5: a forward pass at a position outside [[0, seq_len)] never runs to
    the end, whatever the token and the weights: at the latest the copy of
    the key vector into its cache row (of layer 0 when [pos < 0], of the last
    layer when [pos >= seq_len]) is an access outside the key cache. *)
Theorem transformer_pos_out_of_range_faults (p : Config) (dlen : Z)
    (w : TransformerWeights) (token pos : Z) (m : mem F) :
  valid_config p -> has_shape (state_len p dlen) m ->
  pos < 0 \/ seq_len p <= pos ->
  run (transformer token pos p run_state w) m = None.
Proof. apply transformer_faults_outside. Qed.

End PositionFaults.

(** ** The forward pass reads the past only *)

Section Causal.
Context {F : Type} `{!FloatOps F}.
Variables (p : Config) (dlen pos : Z) (w : TransformerWeights).
Hypothesis Hcfg : valid_config p.
Hypothesis Hint : int_sized p.
Hypothesis Hpos : 0 <= pos < seq_len p.
Hypothesis Hw : weights_in_data p dlen w.

Local Abbreviation len := (state_len p dlen).
Local Abbreviation s := run_state.
Local Abbreviation hs := (Z.quot (dim p) (n_heads p)).

Lemma data_within (S : locset) q N a n :
  in_data dlen q N -> 0 <= a -> a + n <= N ->
  (forall l, p_buf l = Buf_data -> S l) -> within len S (q +p a) n.
Proof.
  intros (Hb & Ho & Hn) Ha Han Hdat i Hi. split.
  - unfold inb. simpl. rewrite Hb. simpl. lia.
  - apply Hdat. simpl. exact Hb.
Qed.

Lemma data_block (S : locset) L q n a l :
  in_data dlen q (L * n) -> 0 <= l < L -> 0 <= n -> a = l * n ->
  (forall l, p_buf l = Buf_data -> S l) -> within len S (q +p a) n.
Proof.
  intros Hq Hl Hn -> Hdat. destruct (idx2 l L n Hl Hn).
  eapply data_within; eauto.
Qed.

Lemma data_whole (S : locset) q n :
  in_data dlen q n -> (forall l, p_buf l = Buf_data -> S l) -> within len S q n.
Proof.
  intros Hq Hdat. rewrite <- (padd_0 q). eapply data_within; eauto; lia.
Qed.

Lemma qkv_matmuls_causal (S W : locset) l :
  0 <= l < n_layers p ->
  (forall x, p_buf x = Buf_data -> S x) -> (forall x, scratch x -> W x) ->
  within len S (RS.xb s) (dim p) ->
  spec len S W (qkv_matmuls p s w l)
    (fun x => ((S x \/ rng (RS.q s) (dim p) x) \/ rng (RS.k s) (dim p) x)
              \/ rng (RS.v s) (dim p) x)
    (fun _ => True).
Proof.
  intros Hl Hdat Hscr Hxb.
  apply (spec_same_run len _ _ _ _ _ _ (qkv_matmuls_ints p w Hcfg Hint s l Hl)).
  destruct Hcfg as (Hd & _).
  destruct Hw as (_ & _ & _ & Hwq & Hwk & Hwv & _).
  assert (Hdd : 0 <= dim p * dim p) by nia.
  eapply spec_bind.
  { apply matmul_spec; [lia | lia | fits | exact Hxb | | scr Hscr].
    apply (data_block S _ _ _ _ l Hwq Hl Hdd); [ring | exact Hdat]. }
  intros _ _. eapply spec_bind.
  { apply matmul_spec; [lia | lia | fits | win | | scr Hscr].
    apply (data_block _ _ _ _ _ l Hwk Hl Hdd); [ring | intros x Hx; left; auto]. }
  intros _ _.
  apply matmul_spec; [lia | lia | fits | win | | scr Hscr].
  apply (data_block _ _ _ _ _ l Hwv Hl Hdd); [ring | intros x Hx; left; left; auto].
Qed.

Lemma rope_causal (S W : locset) :
  (forall x, p_buf x = Buf_data -> S x) -> (forall x, scratch x -> W x) ->
  within len S (RS.q s) (dim p) -> within len S (RS.k s) (dim p) ->
  spec len S W
    (rope p s (freq_cis_real w +p Z.quot (pos * hs) 2)
       (freq_cis_imag w +p Z.quot (pos * hs) 2) hs)
    S (fun _ => True).
Proof.
  intros Hdat Hscr Hq Hk. unfold rope.
  destruct (head_size_facts p Hcfg) as (Hhs & Hnh & Heven & Hrow).
  destruct Hcfg as (Hd & _ & _ & Hh & _).
  destruct Hw as (_ & _ & _ & _ & _ & _ & _ & _ & _ & _ & _ & Hfr & Hfi & _).
  assert (Hh2 : 0 <= hs / 2) by lia.
  assert (Hrows : 0 <= pos * (hs / 2) /\ pos * (hs / 2) + hs / 2 <= seq_len p * (hs / 2)) by nia.
  assert (Hfrr : within len S (freq_cis_real w +p Z.quot (pos * hs) 2) (hs / 2)).
  { rewrite Hrow by lia. eapply data_within; eauto; lia. }
  assert (Hfir : within len S (freq_cis_imag w +p Z.quot (pos * hs) 2) (hs / 2)).
  { rewrite Hrow by lia. eapply data_within; eauto; lia. }
  assert (Hqw : within len W (RS.q s) (dim p)) by scr Hscr.
  assert (Hkw : within len W (RS.k s) (dim p)) by scr Hscr.
  apply spec_for_range_ro. intros h Hh'.
  assert (Hslice : 0 <= h * hs /\ h * hs + hs <= dim p) by nia.
  ints head_safe. ints head_safe.
  apply spec_for_range_by_ro; [lia|]. intros i Hi Hmod.
  replace (i - 0) with i in Hmod by lia.
  assert (Hi1 : i + 1 < hs) by (apply Z.mod_divide in Hmod; [destruct Hmod; lia | lia]).
  assert (Hi2 : 0 <= Z.quot i 2 < hs / 2).
  { rewrite Z.quot_div_nonneg by lia. split; [apply Z.div_pos; lia|].
    apply Z.div_lt_upper_bound; lia. }
  cbn [bind load store].
  apply spec_load; [inbt | mem | intros q0].
  apply spec_load; [inbt | mem | intros q1].
  apply spec_load; [inbt | mem | intros k0].
  apply spec_load; [inbt | mem | intros k1].
  apply spec_load; [apply Hfrr, Hi2 | apply Hfrr, Hi2 | intros fcr].
  apply spec_load; [apply Hfir, Hi2 | apply Hfir, Hi2 | intros fci].
  apply spec_store; [inbt | rewrite padd_padd; apply Hqw; lia |].
  apply spec_store; [inbt | rewrite padd_padd; apply Hqw; lia |].
  apply spec_store; [inbt | rewrite padd_padd; apply Hkw; lia |].
  apply spec_store; [inbt | rewrite padd_padd; apply Hkw; lia |].
  apply spec_ret; [tauto | exact I].
Qed.

(** Saving the key and the value makes their slots at [pos] readable. *)
Lemma save_kv_causal (S W : locset) l :
  0 <= l < n_layers p ->
  (forall x, kv_slot p Buf_key_cache l pos x \/ kv_slot p Buf_value_cache l pos x -> W x) ->
  within len S (RS.k s) (dim p) -> within len S (RS.v s) (dim p) ->
  spec (F:=F) len S W (save_kv p s pos (l * seq_len p * dim p))
    (fun x => (S x \/ kv_slot p Buf_key_cache l pos x) \/ kv_slot p Buf_value_cache l pos x)
    (fun _ => True).
Proof.
  intros Hl Hkv Hk Hv. unfold save_kv.
  destruct Hcfg as (Hd & _).
  assert (Hidx : forall i, 0 <= i < dim p ->
            0 <= l * seq_len p * dim p + pos * dim p + i < n_layers p * seq_len p * dim p).
  { intros i Hi. apply idx3; lia. }
  eapply spec_conseq with (S0 := S) (W0 := W); [ | auto | auto | | auto ].
  - ints pos_dim_safe. ints pos_dim_safe. eapply spec_bind.
    + apply memcpy_spec; [lia | exact Hk |].
      intros i Hi. specialize (Hidx i Hi). split; [inbt|].
      apply Hkv. left. unfold kv_slot, rng. simpl. split; [reflexivity | lia].
    + intros _ _. apply memcpy_spec; [lia | win |].
      intros i Hi. specialize (Hidx i Hi). split; [inbt|].
      apply Hkv. right. unfold kv_slot, rng. simpl. split; [reflexivity | lia].
  - intros x [[Hx|Hx]|Hx].
    + right. exact Hx.
    + left. left. right. unfold kv_slot, rng in *. simpl in *. split; [tauto | lia].
    + left. right. unfold kv_slot, rng in *. simpl in *. split; [tauto | lia].
Qed.

Lemma attention_head_causal (S W : locset) l h :
  0 <= l < n_layers p -> 0 <= h < n_heads p ->
  (forall x, cache_rows p l (pos + 1) x -> S x) -> (forall x, scratch x -> W x) ->
  (forall x, att_rows p pos (n_heads p) x -> W x) ->
  within len S (RS.q s) (dim p) ->
  spec len S W (attention_head p s pos (l * seq_len p * dim p) hs h)
    (fun x => S x \/ rng (RS.att s +p h * seq_len p) (pos + 1) x) (fun _ => True).
Proof.
  intros Hl Hh Hrows Hscr Hatt Hq. unfold attention_head.
  destruct (head_size_facts p Hcfg) as (Hhs & Hnh & _ & _).
  destruct Hcfg as (Hd & _).
  assert (Hslice : 0 <= h * hs /\ h * hs + hs <= dim p) by nia.
  assert (Hrow : 0 <= h * seq_len p /\ h * seq_len p + seq_len p <= n_heads p * seq_len p)
    by (apply idx2; lia).
  assert (Hidx : forall t i, 0 <= t <= pos -> 0 <= i < hs ->
            0 <= l * seq_len p * dim p + t * dim p + (h * hs + i)
              < n_layers p * seq_len p * dim p).
  { intros t i Ht Hi. apply idx3; lia. }
  assert (Hkr : forall t i, 0 <= t <= pos -> 0 <= i < hs ->
            S (RS.key_cache s +p l * seq_len p * dim p +p t * dim p +p h * hs +p i)).
  { intros t i Ht Hi. apply Hrows. exists Buf_key_cache, t.
    split; [left; reflexivity|]. split; [lia|].
    unfold kv_slot, rng. simpl. split; [reflexivity | lia]. }
  assert (Hvr : forall t i, 0 <= t <= pos -> 0 <= i < hs ->
            S (RS.value_cache s +p (l * seq_len p * dim p + t * dim p + h * hs + i))).
  { intros t i Ht Hi. apply Hrows. exists Buf_value_cache, t.
    split; [right; reflexivity|]. split; [lia|].
    unfold kv_slot, rng. simpl. split; [reflexivity | lia]. }
  assert (Hattw : within len W (RS.att s +p h * seq_len p) (pos + 1)).
  { intros t Ht. split; [inbt|]. apply Hatt. split; [reflexivity|].
    exists h. simpl. lia. }
  assert (Hxbw : within len W (RS.xb s) (dim p)) by scr Hscr.
  eapply spec_conseq with (S0 := S) (W0 := W); [ | auto | auto | | auto ].
  - ints head_safe. ints head_row_safe. ints (pos_next_safe p). eapply spec_bind.
    { apply spec_fill with (out := RS.att s +p h * seq_len p); [lia|].
      intros t Ht. ints pos_dim_safe. ints head_safe. eapply spec_bind.
      - apply spec_fold_ro; [lia|]. intros i sc Hi. cbn [bind load].
        specialize (Hidx t i ltac:(lia) Hi).
        apply spec_load; [inbt | mem | intros qi].
        apply spec_load; [inbt | left; apply Hkr; lia | intros ki].
        apply spec_ret; auto.
      - intros sc _. cbn [store].
        apply spec_store; [apply Hattw; lia | apply Hattw; lia |].
        apply spec_ret; auto. }
    intros _ _. eapply spec_bind.
    { apply softmax_spec; [lia | apply within_written with (W := W); exact Hattw | exact Hattw]. }
    intros _ _. apply spec_for_range_ro. intros i Hi.
    eapply spec_bind.
    + apply spec_fold_ro; [lia|]. intros t val Ht. ints value_index_safe. cbn [bind load].
      specialize (Hidx t i ltac:(lia) Hi).
      apply spec_load; [apply Hattw; lia | mem | intros a].
      apply spec_load; [inbt | do 2 left; apply Hvr; lia | intros vv].
      apply spec_ret; auto.
    + intros val _. ints head_index_safe. cbn [store].
      apply spec_store; [apply Hxbw; lia | apply Hxbw; lia |].
      apply spec_ret; [tauto | exact I].
  - intros x Hx. left. destruct Hx as [Hx|Hx]; [left; left; exact Hx | right; exact Hx].
Qed.

Lemma attention_causal (S W : locset) l :
  0 <= l < n_layers p ->
  (forall x, cache_rows p l (pos + 1) x -> S x) -> (forall x, scratch x -> W x) ->
  (forall x, att_rows p pos (n_heads p) x -> W x) ->
  within len S (RS.q s) (dim p) ->
  spec len S W (attention p s pos (l * seq_len p * dim p) hs)
    (fun x => S x \/ att_rows p pos (n_heads p) x) (fun _ => True).
Proof.
  intros Hl Hrows Hscr Hatt Hq. unfold attention.
  destruct Hcfg as (_ & _ & _ & Hh & _).
  apply spec_conseq with (S0 := fun x => S x \/ att_rows p pos 0 x)
    (S0' := fun x => S x \/ att_rows p pos (n_heads p) x) (W0 := W) (Q0 := fun _ => True);
    [ apply spec_for_range with (Inv := fun h x => S x \/ att_rows p pos h x); [lia|]
    | | auto | auto | auto ].
  - intros h Hh'.
    eapply spec_conseq;
      [ apply (attention_head_causal (fun x => S x \/ att_rows p pos h x) W l h);
        [exact Hl | exact Hh' | intros x Hx; left; auto | exact Hscr | exact Hatt | win]
      | auto | auto | | auto ].
    intros x [Hx|(Hb & h' & Hh'' & Ho)]; [right; left; exact Hx|].
    destruct (Z.eq_dec h' h) as [->|Hne].
    + left. right. split; [exact Hb | simpl; lia].
    + right. right. split; [exact Hb|]. exists h'. lia.
  - intros x [Hx|(_ & h' & Hh' & _)]; [exact Hx | lia].
Qed.

Lemma ffn_causal (S W : locset) l :
  0 <= l < n_layers p ->
  (forall x, p_buf x = Buf_data -> S x) -> (forall x, scratch x -> W x) ->
  within len S (RS.x s) (dim p) ->
  spec len S W (ffn p s w l)
    (fun y => ((S y \/ rng (RS.xb s) (dim p) y) \/ rng (RS.hb s) (hidden_dim p) y)
              \/ rng (RS.hb2 s) (hidden_dim p) y)
    (fun _ => True).
Proof.
  intros Hl Hdat Hscr Hx. unfold ffn.
  destruct Hcfg as (Hd & Hhd & _).
  destruct Hw as (_ & _ & Hrf & _ & _ & _ & _ & Hw1 & Hw2 & Hw3 & _).
  assert (Hhdd : 0 <= hidden_dim p * dim p) by nia.
  assert (Hdhd : 0 <= dim p * hidden_dim p) by nia.
  assert (Hxbw : within len W (RS.xb s) (dim p)) by scr Hscr.
  assert (Hhbw : within len W (RS.hb s) (hidden_dim p)) by scr Hscr.
  eapply spec_conseq with (S0 := S) (W0 := W); [ | auto | auto | | auto ].
  - ints layer_dim_safe. eapply spec_bind.
    { apply rmsnorm_spec; [lia | exact Hx | | exact Hxbw].
      apply (data_block S _ _ _ _ l Hrf Hl); [lia | ring | exact Hdat]. }
    intros _ _. ints layer_dim_hidden_safe. eapply spec_bind.
    { apply matmul_spec; [lia | lia | fits | win | | scr Hscr].
      apply (data_block _ _ _ _ _ l Hw1 Hl Hhdd); [ring | intros x Hp; left; auto]. }
    intros _ _. ints layer_dim_hidden_safe. eapply spec_bind.
    { apply matmul_spec; [lia | lia | fits | win | | scr Hscr].
      apply (data_block _ _ _ _ _ l Hw3 Hl Hhdd); [ring | intros x Hp; left; left; auto]. }
    intros _ _. eapply spec_bind.
    { apply spec_for_range_ro. intros i Hi. cbn [bind load store].
      apply spec_load; [inbt | mem | intros hi].
      apply spec_store; [apply Hhbw; lia | apply Hhbw; lia |].
      apply spec_ret; [tauto | exact I]. }
    intros _ _. eapply spec_bind.
    { apply spec_for_range_ro. intros i Hi. cbn [bind load store].
      apply spec_load; [inbt | mem | intros hi].
      apply spec_load; [inbt | mem | intros h2].
      apply spec_store; [apply Hhbw; lia | apply Hhbw; lia |].
      apply spec_ret; [tauto | exact I]. }
    intros _ _. ints layer_dim_hidden_safe. eapply spec_bind.
    { apply matmul_spec; [lia | lia | fits | win | | exact Hxbw].
      apply (data_block _ _ _ _ _ l Hw2 Hl Hdhd);
        [ring | intros x Hp; left; left; left; auto]. }
    intros _ _.
    apply accum_spec; [lia | win | win | scr Hscr].
  - intros y Hy. tauto.
Qed.

Lemma layer_causal (S W : locset) l :
  0 <= l < n_layers p ->
  (forall x, p_buf x = Buf_data -> S x) -> (forall x, cache_rows p l pos x -> S x) ->
  (forall x, scratch x -> W x) ->
  (forall x, att_rows p pos (n_heads p) x -> W x) ->
  (forall x, kv_slot p Buf_key_cache l pos x \/ kv_slot p Buf_value_cache l pos x -> W x) ->
  within len S (RS.x s) (dim p) ->
  spec len S W
    (layer p s w pos hs (freq_cis_real w +p Z.quot (pos * hs) 2)
       (freq_cis_imag w +p Z.quot (pos * hs) 2) l)
    (fun y => S y \/ layer_written p pos y) (fun _ => True).
Proof.
  intros Hl Hdat Hrows Hscr Hatt Hkv Hx. unfold layer.
  assert (Hd : 0 < dim p) by apply Hcfg.
  assert (Hra : in_data dlen (rms_att_weight w) (n_layers p * dim p)) by apply Hw.
  assert (Hwo : in_data dlen (wo w) (n_layers p * (dim p * dim p))) by apply Hw.
  assert (Hdd : 0 <= dim p * dim p) by nia.
  eapply spec_conseq with (S0 := S) (W0 := W); [ | auto | auto | | auto ].
  - ints layer_dim_safe. eapply spec_bind.
    { apply rmsnorm_spec; [lia | exact Hx | | scr Hscr].
      apply (data_block S _ _ _ _ l Hra Hl); [lia | ring | exact Hdat]. }
    intros _ _. eapply spec_bind.
    { apply qkv_matmuls_causal; [exact Hl | intros x Hp; left; auto | exact Hscr | win]. }
    intros _ _. eapply spec_bind.
    { apply rope_causal; [intros x Hp; do 4 left; auto | exact Hscr | win | win]. }
    intros _ _. ints layer_offset_safe. eapply spec_bind.
    { apply save_kv_causal; [exact Hl | exact Hkv | win | win]. }
    intros _ _. eapply spec_bind.
    { apply attention_causal; [exact Hl | | exact Hscr | exact Hatt | win].
      intros x (c & t & Hc & Ht & Hslot).
      destruct (Z.eq_dec t pos) as [->|Hne].
      - destruct Hc as [-> | ->]; [left; right; exact Hslot | right; exact Hslot].
      - do 6 left. apply Hrows. exists c, t. split; [exact Hc|]. split; [lia | exact Hslot]. }
    intros _ _. ints layer_dim_dim_safe. eapply spec_bind.
    { apply matmul_spec; [lia | lia | fits | win | | scr Hscr].
      apply (data_block _ _ _ _ _ l Hwo Hl Hdd); [ring | intros x Hp; do 7 left; auto]. }
    intros _ _. eapply spec_bind.
    { apply accum_spec; [lia | win | win | scr Hscr]. }
    intros _ _.
    apply ffn_causal; [exact Hl | intros x Hp; do 9 left; auto | exact Hscr | win].
  - intros y [Hy|Hy]; [tauto|]. unfold layer_written in Hy. tauto.
Qed.

(** The forward pass at [pos] on any read set that holds the past. *)
Lemma transformer_causal (S W : locset) token :
  0 <= token < vocab_size p ->
  (forall x, past p pos x -> S x) -> (forall x, scratch x -> W x) ->
  (forall x, att_rows p pos (n_heads p) x -> W x) ->
  (forall x, kv_slots p pos (n_layers p) x -> W x) ->
  spec len S W (transformer token pos p s w)
    (fun y => S y \/ step_written p pos y) (fun _ => True).
Proof.
  intros Htok Hpast Hscr Hatt Hkv. unfold transformer.
  assert (Hdat : forall x, p_buf x = Buf_data -> S x) by (intros x Hx; apply Hpast; left; exact Hx).
  assert (Hd : 0 < dim p) by apply Hcfg.
  assert (Hnl : 0 < n_layers p) by apply Hcfg.
  assert (Hvs : 0 < vocab_size p) by apply Hcfg.
  assert (Hte : in_data dlen (token_embedding_table w) (vocab_size p * dim p)) by apply Hw.
  assert (Hrf : in_data dlen (rms_final_weight w) (dim p)) by apply Hw.
  assert (Hcl : in_data dlen (wcls w) (vocab_size p * dim p)) by apply Hw.
  eapply spec_conseq with (S0 := S) (W0 := W); [ | auto | auto | | auto ].
  - ints head_size_safe. ints token_safe. eapply spec_bind.
    { apply memcpy_spec; [lia | | scr Hscr].
      apply (data_block S _ _ _ _ token Hte Htok); [lia | ring | exact Hdat]. }
    intros _ _. ints pos_row_safe. ints pos_row_safe. eapply spec_bind.
    { apply spec_conseq with
        (S0 := fun y => (S y \/ rng (RS.x s) (dim p) y) \/ (0 < 0 /\ layer_written p pos y))
        (S0' := fun y => (S y \/ rng (RS.x s) (dim p) y)
                         \/ (0 < n_layers p /\ layer_written p pos y))
        (W0 := W) (Q0 := fun _ => True) (Q := fun _ => True);
        [ apply spec_for_range with
            (Inv := fun l y => (S y \/ rng (RS.x s) (dim p) y)
                               \/ (0 < l /\ layer_written p pos y)); [lia|]
        | | auto | intros y Hy; left; exact Hy | auto ].
      - intros l Hl.
        eapply spec_conseq with
          (S0 := fun y => (S y \/ rng (RS.x s) (dim p) y) \/ (0 < l /\ layer_written p pos y))
          (W0 := W);
          [ apply layer_causal;
            [ exact Hl | intros x Hp; do 2 left; auto
            | intros x Hx; do 2 left; apply Hpast; right; exists l; split; [lia | exact Hx]
            | exact Hscr | exact Hatt
            | intros x Hx; apply Hkv; exists l; split; [lia | exact Hx] | win ]
          | auto | auto | | auto ].
        intros y [Hy|[_ Hy]]; [right; left; exact Hy | left; right; exact Hy].
      - intros y [Hy|[Hy _]]; [exact Hy | lia]. }
    intros _ _. eapply spec_bind.
    { apply rmsnorm_spec; [lia | win | | scr Hscr].
      apply data_whole; [exact Hrf | intros x Hp; do 2 left; auto]. }
    intros _ _.
    apply matmul_spec; [lia | lia | fits | win | | scr Hscr].
    apply data_whole; [exact Hcl | intros x Hp; do 3 left; auto].
  - intros y [Hy|Hy]; [tauto|]. unfold step_written in Hy. tauto.
Qed.

End Causal.

Section CausalClaims.
Context {F : Type} `{!FloatOps F}.

Lemma agree_buffer (S : locset) (m1 m2 : mem F) b n :
  agree S m1 m2 -> Z.of_nat (length (m1 b)) = n ->
  (forall l, rng (Ptr b 0) n l -> S l) -> m1 b = m2 b.
Proof.
  intros [Hlen Hag] Hn HS. apply list_eq. intros i.
  destruct (decide (i < length (m1 b))%nat) as [Hi|Hi].
  - specialize (Hag (Ptr b (Z.of_nat i))). unfold mem_load in Hag. simpl in Hag.
    destruct (Z.leb_spec 0 (Z.of_nat i)); [|lia]. rewrite Nat2Z.id in Hag.
    apply Hag, HS. split; simpl; [reflexivity | lia].
  - rewrite !lookup_ge_None_2; [reflexivity | rewrite <- Hlen; lia | lia].
Qed.

Lemma past_next (p : Config) (pos : Z) (l : ptr) :
  past p (pos + 1) l -> past p pos l \/ kv_slots p pos (n_layers p) l.
Proof.
  intros [Hd|(ly & Hly & c & t & Hc & Ht & Hslot)]; [left; left; exact Hd|].
  destruct (Z.eq_dec t pos) as [->|Hne].
  - right. exists ly. split; [exact Hly|]. destruct Hc as [-> | ->]; [left | right]; exact Hslot.
  - left. right. exists ly. split; [exact Hly|]. exists c, t.
    split; [exact Hc|]. split; [lia | exact Hslot].
Qed.

(** X6: on a valid configuration whose sizes fit an [int], the logits a
    forward pass at [pos] leaves depend only on the
    token, the weights and the cache rows of the positions before [pos]: on
    two memories that agree on these (whatever the scratch vectors, [att] and
    the later cache rows hold) it makes the same accesses and leaves the same
    logits, and the memories then agree on the cache rows up to [pos]. *)
Theorem forward_pass_depends_on_past (p : Config) (dlen : Z) (w : TransformerWeights)
    (token pos : Z) (m1 m2 : mem F) :
  valid_config p -> int_sized p -> weights_in_data p dlen w ->
  0 <= token < vocab_size p -> 0 <= pos < seq_len p ->
  has_shape (state_len p dlen) m1 -> has_shape (state_len p dlen) m2 ->
  agree (past p pos) m1 m2 ->
  exists m1' m2' t,
    run (transformer token pos p run_state w) m1 = Some (tt, m1', t) /\
    run (transformer token pos p run_state w) m2 = Some (tt, m2', t) /\
    m1' Buf_logits = m2' Buf_logits /\
    agree (past p (pos + 1)) m1' m2'.
Proof.
  intros Hcfg Hint Hw Htok Hpos Hm1 Hm2 Hag.
  assert (Hs : spec (state_len p dlen) (past p pos) (step_writes p pos)
                 (transformer token pos p run_state w)
                 (fun y => past p pos y \/ step_written p pos y) (fun _ => True)).
  { apply (transformer_causal p dlen pos w Hcfg Hint Hpos Hw); unfold step_writes; auto. }
  destruct (Hs m1 Hm1) as ([] & m1' & t & Hr1 & _ & Hfresh & Hwr & Hcov).
  destruct (run_agree _ _ _ _ _ _ _ Hr1 Hag Hfresh) as (m2' & Hr2 & Hag').
  exists m1', m2', t. split; [exact Hr1|]. split; [exact Hr2|]. split.
  - apply (agree_buffer _ m1' m2' Buf_logits (vocab_size p) Hag').
    + rewrite (run_length _ _ _ _ _ Hr1 Buf_logits). apply (Hm1 Buf_logits).
    + intros l Hl. apply Hcov. right. unfold step_written. right. left. exact Hl.
  - destruct Hag' as [Hlen Hload]. split; [exact Hlen|].
    intros l Hl. apply Hload. destruct (past_next p pos l Hl) as [Hp|Hslot].
    + left. exact Hp.
    + right. unfold writes. apply wcount_pos.
      rewrite (transformer_cnt p dlen pos w Hcfg Hint Hpos Hw token l Htok Hslot m1 tt m1' t Hm1 Hr1).
      lia.
Qed.

(** X7: on a valid configuration whose sizes fit an [int], a forward pass
    at [pos] never reads a cache row of a later position: every read it makes in a cache is in a row of a position up to
    [pos] of some layer. *)
Theorem forward_pass_reads_no_later_row (p : Config) (dlen : Z) (w : TransformerWeights)
    (token pos : Z) (m : mem F) :
  valid_config p -> int_sized p -> weights_in_data p dlen w ->
  0 <= token < vocab_size p -> 0 <= pos < seq_len p ->
  has_shape (state_len p dlen) m ->
  exists m' t,
    run (transformer token pos p run_state w) m = Some (tt, m', t) /\
    forall l, In (Rd l) t -> in_cache l ->
      exists ly, 0 <= ly < n_layers p /\ cache_rows p ly (pos + 1) l.
Proof.
  intros Hcfg Hint Hw Htok Hpos Hm.
  assert (Hs : spec (state_len p dlen) (past p pos) (step_writes p pos)
                 (transformer token pos p run_state w)
                 (fun y => past p pos y \/ step_written p pos y) (fun _ => True)).
  { apply (transformer_causal p dlen pos w Hcfg Hint Hpos Hw); unfold step_writes; auto. }
  destruct (Hs m Hm) as ([] & m' & t & Hr & _ & Hfresh & Hwr & _).
  exists m', t. split; [exact Hr|]. intros l Hrd Hc.
  assert (Hrows : forall ly c, 0 <= ly < n_layers p ->
            c = Buf_key_cache \/ c = Buf_value_cache -> kv_slot p c ly pos l ->
            exists ly, 0 <= ly < n_layers p /\ cache_rows p ly (pos + 1) l).
  { intros ly c Hly Hcc Hslot. exists ly. split; [exact Hly|]. exists c, pos.
    split; [exact Hcc|]. split; [lia | exact Hslot]. }
  destruct (fresh_ok_reads t _ Hfresh l Hrd) as [[Hd|(ly & Hly & c & t' & Hcc & Ht' & Hslot)]|Hw'].
  - unfold in_cache in Hc. rewrite Hd in Hc. destruct Hc; discriminate.
  - exists ly. split; [exact Hly|]. exists c, t'. split; [exact Hcc|]. split; [lia | exact Hslot].
  - destruct (Hwr l Hw') as [Hscr|[[Hb _]|(ly & Hly & [Hk|Hv])]].
    + unfold in_cache in Hc. unfold scratch in Hscr. exfalso.
      destruct Hc as [Hc|Hc]; rewrite Hc in Hscr; intuition discriminate.
    + unfold in_cache in Hc. rewrite Hb in Hc. destruct Hc; discriminate.
    + apply (Hrows ly Buf_key_cache Hly); [left; reflexivity | exact Hk].
    + apply (Hrows ly Buf_value_cache Hly); [right; reflexivity | exact Hv].
Qed.

End CausalClaims.

(** ** The loop does not depend on what the run state holds at the start *)

Section FreshState.
Context {F : Type} `{!FloatOps F}.
Variables (p : Config) (dlen : Z) (w : TransformerWeights) (temperature : F) (rand : Z -> Z).
Hypothesis Hcfg : valid_config p.
Hypothesis Hint : int_sized p.
Hypothesis Hw : weights_in_data p dlen w.

Lemma loop_body_causal (S W : locset) rnd token pos :
  0 <= pos < seq_len p -> 0 <= token < vocab_size p ->
  (forall x, past p pos x -> S x) -> (forall x, scratch x -> W x) ->
  (forall x, att_rows p pos (n_heads p) x -> W x) ->
  (forall x, kv_slots p pos (n_layers p) x -> W x) ->
  spec (state_len p dlen) S W (loop_body temperature rnd p run_state w token pos)
    (fun y => S y \/ step_written p pos y) (fun next => 0 <= next < vocab_size p).
Proof.
  intros Hpos Htok Hpast Hscr Hatt Hkv. unfold loop_body.
  eapply spec_bind.
  - apply (transformer_causal p dlen pos w Hcfg Hint Hpos Hw); eauto.
  - intros _ _. apply (next_token_spec p dlen pos Hcfg Hpos); [exact Hscr|].
    intros i Hi. split; [unfold inb; simpl; lia|]. right. unfold step_written. right. left.
    apply rng_padd. exact Hi.
Qed.

(** Two runs of the loop from memories that agree on the past choose the
    same tokens and make the same accesses. *)
Lemma generation_loop_agree n :
  forall token pos (m1 m2 : mem F),
  0 <= pos -> pos + Z.of_nat n <= seq_len p -> 0 <= token < vocab_size p ->
  has_shape (state_len p dlen) m1 -> has_shape (state_len p dlen) m2 ->
  agree (past p pos) m1 m2 ->
  exists tr1 tr2,
    generation_loop n temperature rand p run_state w token pos m1 = Some tr1 /\
    generation_loop n temperature rand p run_state w token pos m2 = Some tr2 /\
    map st_next tr1 = map st_next tr2 /\ map st_trace tr1 = map st_trace tr2.
Proof.
  induction n as [|n IH]; intros token pos m1 m2 Hpos Hn Htok Hm1 Hm2 Hag; simpl.
  - exists [], []. repeat split; reflexivity.
  - assert (Hp : 0 <= pos < seq_len p) by lia.
    assert (Hs : spec (state_len p dlen) (past p pos) (step_writes p pos)
                   (loop_body temperature (rand pos) p run_state w token pos)
                   (fun y => past p pos y \/ step_written p pos y)
                   (fun next => 0 <= next < vocab_size p)).
    { apply loop_body_causal; unfold step_writes; auto. }
    destruct (Hs m1 Hm1) as (next & m1' & t & Hr1 & Hnext & Hfresh & Hwr & Hcov).
    destruct (run_agree _ _ _ _ _ _ _ Hr1 Hag Hfresh) as (m2' & Hr2 & Hag').
    rewrite Hr1, Hr2.
    assert (Hag1 : agree (past p (pos + 1)) m1' m2').
    { destruct Hag' as [Hlen Hload]. split; [exact Hlen|].
      intros l Hl. apply Hload. destruct (past_next p pos l Hl) as [Hpl|Hslot].
      - left. exact Hpl.
      - right. unfold writes. apply wcount_pos.
        rewrite (loop_body_cnt p dlen pos w Hcfg Hint Hp Hw temperature (rand pos) token l
                   Htok Hslot m1 next m1' t Hm1 Hr1).
        lia. }
    destruct (IH next (pos + 1) m1' m2') as (tr1 & tr2 & H1 & H2 & Hn12 & Ht12);
      [lia | lia | exact Hnext
      | exact (run_shape _ _ _ _ _ _ Hr1 Hm1) | exact (run_shape _ _ _ _ _ _ Hr2 Hm2)
      | exact Hag1 |].
    rewrite H1, H2. eexists _, _. split; [reflexivity|]. split; [reflexivity|].
    simpl. rewrite Hn12, Ht12. split; reflexivity.
Qed.

End FreshState.

Section FreshStateClaim.
Context {F : Type} `{!FloatOps F}.

(** X8: the tokens the loop chooses do not depend on what the run state
    holds when the loop starts: from any memory of the right shape that maps
    the same checkpoint (scratch vectors, [att] and caches holding anything)
    the loop chooses the tokens, and makes the accesses, of the run of [main],
    which starts from the zeroed state [malloc_run_state] gives. *)
Theorem generation_ignores_initial_state (ck : checkpoint F) (steps : Z)
    (temperature : F) (rand : Z -> Z) (m : mem F) :
  runnable ck ->
  has_shape (state_len (ck_config ck) (Z.of_nat (length (ck_data ck)))) m ->
  m Buf_data = ck_data ck ->
  exists trace trace',
    generate true steps temperature rand ck = Done trace /\
    generation_loop (Z.to_nat (clamp_steps steps (seq_len (ck_config ck)))) temperature rand
      (ck_config ck) run_state (ck_weights ck) 1 0 m = Some trace' /\
    map st_next trace' = map st_next trace /\
    map st_trace trace' = map st_trace trace.
Proof.
  intros (Hcfg & Hint & Hvs & Hw) Hm Hdata. unfold generate. cbv zeta.
  destruct (malloc_run_state_Done (ck_config ck) (ck_data ck) Hcfg Hint)
    as (m0 & Hmalloc & Hm0 & Hdata0 & _).
  rewrite Hmalloc.
  replace (clamp_steps steps (seq_len (ck_config ck)) - 0)
    with (clamp_steps steps (seq_len (ck_config ck))) by lia.
  assert (Hsl : 0 < seq_len (ck_config ck)) by apply Hcfg.
  assert (Hclamp : 0 <= clamp_steps steps (seq_len (ck_config ck)) <= seq_len (ck_config ck)).
  { rewrite clamp_steps_eff. unfold steps_eff.
    destruct (Z.ltb_spec 0 steps), (Z.leb_spec steps (seq_len (ck_config ck))); simpl; lia. }
  destruct (generation_loop_agree (ck_config ck) (Z.of_nat (length (ck_data ck)))
              (ck_weights ck) temperature rand Hcfg Hint Hw
              (Z.to_nat (clamp_steps steps (seq_len (ck_config ck)))) 1 0 m0 m)
    as (tr1 & tr2 & H1 & H2 & Hn & Ht); [lia | lia | lia | exact Hm0 | exact Hm | |].
  { split.
    - intros b. apply Nat2Z.inj. rewrite (Hm0 b), (Hm b). reflexivity.
    - intros l [Hb|(ly & _ & c & t & _ & Ht & _)]; [|lia].
      unfold mem_load. rewrite Hb, Hdata, Hdata0. reflexivity. }
  exists tr1, tr2. rewrite H1. split; [reflexivity|]. split; [exact H2|].
  split; symmetry; assumption.
Qed.

End FreshStateClaim.

(** ** The size of a checkpoint, and runs from a file *)

(** Where the last two tensors start. *)
Lemma last_tensors_offsets (p : Config) (shared_weights : bool) (w : TransformerWeights) :
  checkpoint_init_weights p (Ptr Buf_data 0 +p header_floats) shared_weights = Some w ->
  p_off (freq_cis_imag w)
  = header_floats + weights_floats p true - Z.quot (seq_len p * Z.quot (dim p) (n_heads p)) 2 /\
  (shared_weights = false -> p_off (wcls w) = header_floats + weights_floats p true).
Proof.
  intros Hw. destruct (checkpoint_init_weights_fields _ _ _ _ Hw)
    as (_ & E0 & E1 & E2 & E3 & E4 & E5 & E6 & E7 & E8 & E9 & E10 & E11 & E12 & E13).
  split; [|intros ->; rewrite E13];
    rewrite E12, E11, E10, E9, E8, E7, E6, E5, E4, E3, E2, E1, E0;
    unfold weights_floats, header_floats; cbn [p_off padd]; ring.
Qed.

(** X9: on a valid configuration whose sizes fit an [int],
    [checkpoint_init_weights] hands out tensors that take exactly the floats
    the increments of its pointer add up to: all of them lie in a mapping of
    [dlen] floats if and only if [dlen] is at least the 7 header floats plus
    that sum ([wcls] counted only when the weights are not shared). *)
Theorem weights_fit_exactly (p : Config) (shared_weights : bool) (dlen : Z) :
  valid_config p -> int_sized p ->
  exists w,
    checkpoint_init_weights p (Ptr Buf_data 0 +p header_floats) shared_weights = Some w /\
    (weights_in_data p dlen w <-> header_floats + weights_floats p shared_weights <= dlen).
Proof.
  intros Hcfg Hint.
  destruct (checkpoint_init_weights_defined p (Ptr Buf_data 0 +p header_floats) shared_weights
              (layout_ints_safe p Hcfg Hint)) as [w Hw].
  exists w. split; [exact Hw|].
  split; [|apply (checkpoint_weights_in_data p shared_weights dlen w Hcfg Hw)].
  intros (_ & _ & _ & _ & _ & _ & _ & _ & _ & _ & _ & _ & (_ & _ & Himag) & (_ & _ & Hcls)).
  destruct (head_size_facts p Hcfg) as (_ & _ & _ & Hrow).
  assert (Hsl : 0 < seq_len p) by apply Hcfg.
  destruct (last_tensors_offsets p shared_weights w Hw) as [Eimag Ecls].
  rewrite Eimag, (Hrow (seq_len p)) in Himag by lia.
  destruct shared_weights; [lia|].
  rewrite (Ecls eq_refl) in Hcls.
  assert (E : weights_floats p false = weights_floats p true + vocab_size p * dim p).
  { unfold weights_floats. ring. }
  lia.
Qed.

Section FileRuns.
Context {F : Type} `{!FloatOps F}.

(** No iteration of a run writes the mapping. *)
Lemma steps_from_data temperature rand (p : Config) (dlen : Z) (w : TransformerWeights)
    (trace : list (step F)) :
  forall token pos m,
  steps_from temperature rand p w token pos m trace ->
  Forall (step_good p dlen) trace ->
  Forall (fun st => st_mem st Buf_data = m Buf_data) trace.
Proof.
  induction trace as [|st rest IH]; intros token pos m Hs Hg; [constructor|].
  destruct Hs as (_ & _ & Hstep & Hrest).
  apply Forall_cons_1 in Hg. destruct Hg as [Hgood Hg].
  assert (Hst : st_mem st Buf_data = m Buf_data).
  { apply buffer_unchanged. intros o. apply (run_frame _ _ _ _ _ Hstep).
    intros Hwr. destruct Hgood as (_ & _ & _ & _ & _ & Hin & _).
    destruct (Hin _ Hwr) as [Hscr|[[Hb _]|(ly & _ & [[Hb _]|[Hb _]])]];
      [unfold scratch in Hscr; simpl in Hscr; intuition discriminate
      | simpl in Hb; discriminate .. ]. }
  constructor; [exact Hst|].
  specialize (IH _ _ _ Hrest Hg). eapply Forall_impl; [exact IH|].
  intros st' Hst'. simpl in Hst'. rewrite Hst'. exact Hst.
Qed.

(** X10: a checkpoint file that holds at least the bytes its header
    implies, with a valid configuration whose sizes fit an [int] and at least
    two tokens, is loaded, and with the memory [calloc] is asked for the
    generation loop then runs the clamped number of steps without an access
    outside a buffer; no step changes the mapped file, and every token chosen
    is a token of the vocabulary. *)
Theorem checkpoint_file_runs (page_size : Z) (bytes : list byte) (mapped : bool)
    (ck : checkpoint F) (steps : Z) (temperature : F) (rand : Z -> Z) :
  load_checkpoint page_size (Some bytes) mapped = Done ck ->
  valid_config (ck_config ck) -> int_sized (ck_config ck) ->
  2 <= vocab_size (ck_config ck) ->
  4 * (header_floats + weights_floats (ck_config ck) (ck_shared_weights ck))
    <= Z.of_nat (length bytes) ->
  exists trace,
    generate true steps temperature rand ck = Done trace /\
    Z.of_nat (length trace) = clamp_steps steps (seq_len (ck_config ck)) /\
    Forall (fun st => st_mem st Buf_data = ck_data ck /\
                      0 <= st_next st < vocab_size (ck_config ck)) trace.
Proof.
  intros Hload Hcfg Hint Hvs Hlen.
  assert (Hrun : runnable ck).
  { split; [exact Hcfg|]. split; [exact Hint|]. split; [exact Hvs|].
    exact (load_checkpoint_weights_in_data page_size bytes mapped ck Hload Hcfg Hlen). }
  destruct (generate_good ck steps temperature rand Hrun)
    as (m0 & trace & Hm0 & Hgen & Hn & Hfrom & Hgood).
  exists trace. split; [exact Hgen|]. split; [rewrite clamp_steps_eff; exact Hn|].
  pose proof (steps_from_data _ _ _ _ _ _ _ _ _ Hfrom Hgood) as Hdata.
  destruct (malloc_run_state_Done (ck_config ck) (ck_data ck) Hcfg Hint)
    as (m0' & Hm0' & _ & Hd0 & _).
  rewrite Hm0 in Hm0'. injection Hm0' as <-.
  apply Forall_forall. intros st Hin. split.
  - rewrite <- Hd0. apply (proj1 (Forall_forall _ _) Hdata st Hin).
  - apply (proj1 (Forall_forall _ _) Hgood st Hin).
Qed.

Lemma generation_loop_greedy (temperature : F) (rand1 rand2 : Z -> Z) (p : Config)
    (w : TransformerWeights) (n : nat) :
  f_eq temperature f_zero = true ->
  forall token pos (m : mem F),
  generation_loop n temperature rand1 p run_state w token pos m
  = generation_loop n temperature rand2 p run_state w token pos m.
Proof.
  intros Ht. induction n as [|n IH]; intros token pos m; simpl; [reflexivity|].
  assert (Hbody : loop_body temperature (rand1 pos) p run_state w token pos
                  = loop_body temperature (rand2 pos) p run_state w token pos).
  { unfold loop_body, next_token. rewrite Ht. reflexivity. }
  rewrite Hbody.
  destruct (run _ m) as [[[next m'] t]|]; [|reflexivity].
  rewrite IH. reflexivity.
Qed.

(** X11: with [temperature == 0] the run does not depend on what
    [rand()] returns: the loop is the same for every stream of random
    numbers. *)
Theorem greedy_ignores_rand (heap : bool) (ck : checkpoint F) (steps : Z)
    (temperature : F) (rand1 rand2 : Z -> Z) :
  f_eq temperature f_zero = true ->
  generate heap steps temperature rand1 ck = generate heap steps temperature rand2 ck.
Proof.
  intros Ht. unfold generate. cbv zeta.
  destruct (malloc_run_state heap (ck_config ck) (ck_data ck)) as [m| |]; try reflexivity.
  rewrite (generation_loop_greedy temperature rand1 rand2 _ _ _ Ht). reflexivity.
Qed.

End FileRuns.

(** ** Resetting the run state *)

Section ResetFacts.
Context {F : Type} `{!FloatOps F}.

(** [memset_zero] over a whole buffer leaves it as [calloc] gives it. *)
Lemma memset_zero_buffer (m : mem F) b n :
  Z.of_nat (length (m b)) = n ->
  exists m' t,
    run (memset_zero (Ptr b 0) n) m = Some (tt, m', t) /\
    m' b = calloc n /\ forall b', b' <> b -> m' b' = m b'.
Proof.
  intros Hn. unfold memset_zero. destruct (Z.ltb_spec n 0); [lia|].
  assert (Hal : allocated m (Ptr b 0) n) by (apply allocated_in_buffer; simpl; lia).
  destruct (run_pointwise m (Ptr b 0) n (fun i => store (Ptr b 0 +p i) f_zero)
              (fun _ => f_zero) ltac:(lia)) as (m' & t & Hr & Hv & Hs).
  { intros i m1 Hi _ Hsame. unfold store. cbn [run].
    destruct (run_store_at m1 (Ptr b 0 +p i) f_zero) as (m2 & Hst & Hl & Ho).
    { rewrite (self_read m m1 (Ptr b 0) i Hsame). apply Hal, Hi. }
    rewrite Hst. exists m2. eexists. split; [reflexivity|]. split; assumption. }
  exists m', t. split; [exact Hr|]. split.
  - apply list_eq. intros i. unfold calloc.
    pose proof (run_length _ _ _ _ _ Hr b) as Hlen.
    destruct (decide (i < Z.to_nat n)%nat) as [Hi|Hi].
    + rewrite <- mem_load_whole, Hv by lia. symmetry. apply lookup_replicate_2. exact Hi.
    + rewrite !lookup_ge_None_2; [reflexivity | rewrite length_replicate; lia | lia].
  - intros b' Hb'. apply buffer_unchanged. intros o. apply Hs.
    intros [Hb _]. simpl in Hb. contradiction.
Qed.

(** X12: on a valid configuration whose sizes fit an [int],
    [zero_run_state] on a run state of the shape [malloc_run_state] gives
    runs to the end and leaves every activation buffer and both caches all
    zero, as [malloc_run_state] gave them, whatever they held; the mapped
    checkpoint is left as it is. *)
Theorem zero_run_state_resets (p : Config) (dlen : Z) (m : mem F) :
  valid_config p -> int_sized p ->
  has_shape (state_len p dlen) m ->
  exists m' t m0,
    run (zero_run_state run_state p) m = Some (tt, m', t) /\
    malloc_run_state true p (m Buf_data) = Done m0 /\
    forall b, m' b = m0 b.
Proof.
  intros Hcfg Hint Hm.
  destruct (malloc_run_state_Done p (m Buf_data) Hcfg Hint) as (m0 & Hm0 & _ & Hd0 & Hz0).
  destruct (state_ints_safe p Hcfg Hint) as [Ha Hc].
  unfold zero_run_state.
  change (RS.x run_state) with (Ptr Buf_x 0). change (RS.xb run_state) with (Ptr Buf_xb 0).
  change (RS.xb2 run_state) with (Ptr Buf_xb2 0). change (RS.hb run_state) with (Ptr Buf_hb 0).
  change (RS.hb2 run_state) with (Ptr Buf_hb2 0). change (RS.q run_state) with (Ptr Buf_q 0).
  change (RS.k run_state) with (Ptr Buf_k 0). change (RS.v run_state) with (Ptr Buf_v 0).
  change (RS.att run_state) with (Ptr Buf_att 0).
  change (RS.logits run_state) with (Ptr Buf_logits 0).
  change (RS.key_cache run_state) with (Ptr Buf_key_cache 0).
  change (RS.value_cache run_state) with (Ptr Buf_value_cache 0).
  destruct (memset_zero_buffer m Buf_x (dim p) (Hm Buf_x)) as (m1 & t1 & R1 & Z1 & O1).
  pose proof (run_shape _ _ _ _ _ _ R1 Hm) as S1.
  destruct (memset_zero_buffer m1 Buf_xb (dim p) (S1 Buf_xb)) as (m2 & t2 & R2 & Z2 & O2).
  pose proof (run_shape _ _ _ _ _ _ R2 S1) as S2.
  destruct (memset_zero_buffer m2 Buf_xb2 (dim p) (S2 Buf_xb2)) as (m3 & t3 & R3 & Z3 & O3).
  pose proof (run_shape _ _ _ _ _ _ R3 S2) as S3.
  destruct (memset_zero_buffer m3 Buf_hb (hidden_dim p) (S3 Buf_hb)) as (m4 & t4 & R4 & Z4 & O4).
  pose proof (run_shape _ _ _ _ _ _ R4 S3) as S4.
  destruct (memset_zero_buffer m4 Buf_hb2 (hidden_dim p) (S4 Buf_hb2))
    as (m5 & t5 & R5 & Z5 & O5).
  pose proof (run_shape _ _ _ _ _ _ R5 S4) as S5.
  destruct (memset_zero_buffer m5 Buf_q (dim p) (S5 Buf_q)) as (m6 & t6 & R6 & Z6 & O6).
  pose proof (run_shape _ _ _ _ _ _ R6 S5) as S6.
  destruct (memset_zero_buffer m6 Buf_k (dim p) (S6 Buf_k)) as (m7 & t7 & R7 & Z7 & O7).
  pose proof (run_shape _ _ _ _ _ _ R7 S6) as S7.
  destruct (memset_zero_buffer m7 Buf_v (dim p) (S7 Buf_v)) as (m8 & t8 & R8 & Z8 & O8).
  pose proof (run_shape _ _ _ _ _ _ R8 S7) as S8.
  destruct (memset_zero_buffer m8 Buf_att (n_heads p * seq_len p) (S8 Buf_att))
    as (m9 & t9 & R9 & Z9 & O9).
  pose proof (run_shape _ _ _ _ _ _ R9 S8) as S9.
  destruct (memset_zero_buffer m9 Buf_logits (vocab_size p) (S9 Buf_logits))
    as (m10 & t10 & R10 & Z10 & O10).
  pose proof (run_shape _ _ _ _ _ _ R10 S9) as S10.
  destruct (memset_zero_buffer m10 Buf_key_cache (n_layers p * seq_len p * dim p)
              (S10 Buf_key_cache)) as (m11 & t11 & R11 & Z11 & O11).
  pose proof (run_shape _ _ _ _ _ _ R11 S10) as S11.
  destruct (memset_zero_buffer m11 Buf_value_cache (n_layers p * seq_len p * dim p)
              (S11 Buf_value_cache)) as (m12 & t12 & R12 & Z12 & O12).
  rewrite run_bind, R1, run_bind, R2, run_bind, R3, run_bind, R4, run_bind, R5, run_bind, R6,
    run_bind, R7, run_bind, R8, (run_bind_int _ _ _ Ha).
  cbn [int_value]. rewrite run_bind, R9, run_bind, R10, (run_bind_int _ _ _ Hc).
  cbn [int_value]. rewrite run_bind, R11, (run_bind_int _ _ _ Hc).
  cbn [int_value]. rewrite R12.
  exists m12. eexists. exists m0. split; [reflexivity|]. split; [exact Hm0|].
  intros b. destruct b; first [rewrite Hz0 by discriminate | rewrite Hd0]; cbn [state_len];
    rewrite ?O12, ?O11, ?O10, ?O9, ?O8, ?O7, ?O6, ?O5, ?O4, ?O3, ?O2, ?O1 by discriminate;
    first [assumption | reflexivity].
Qed.

End ResetFacts.

(** ** The tokenizer and the header, read back *)

Section ReadBack.

Lemma byte_of_to_N (z : Z) : Z.of_N (Byte.to_N (byte_of z)) = z mod 256.
Proof.
  unfold byte_of. pose proof (Z.mod_pos_bound z 256 ltac:(lia)) as Hb.
  destruct (Byte.of_N (Z.to_N (z mod 256))) as [b|] eqn:E; simpl.
  - apply Byte.to_of_N in E. rewrite E. apply Z2N.id. lia.
  - apply Byte.of_N_None_iff in E. lia.
Qed.

(** Reading the four bytes of an [int] gives the [int] back. *)
Lemma le_int_int_bytes (z : Z) :
  INT_MIN <= z <= INT_MAX ->
  let u := z mod 4294967296 in
  le_int (byte_of u) (byte_of (u / 256)) (byte_of (u / 65536)) (byte_of (u / 16777216)) = z.
Proof.
  intros Hz u. unfold le_int, le_word. rewrite !byte_of_to_N.
  unfold INT_MIN, INT_MAX in Hz.
  assert (Hu : 0 <= u < 4294967296) by (apply Z.mod_pos_bound; lia).
  assert (Hw : u mod 256 + 256 * ((u / 256) mod 256) + 65536 * ((u / 65536) mod 256)
               + 16777216 * ((u / 16777216) mod 256) = u).
  { Z.to_euclidean_division_equations. lia. }
  rewrite Hw. unfold u in *.
  destruct (Z.ltb_spec (z mod 4294967296) 2147483648);
    Z.to_euclidean_division_equations; lia.
Qed.

Lemma int_at_int_bytes (pre : list byte) (z : Z) (rest : list byte) (k : nat) :
  length pre = (4 * k)%nat -> INT_MIN <= z <= INT_MAX ->
  int_at (pre ++ int_bytes z ++ rest) k = Some z.
Proof.
  intros Hpre Hz. unfold int_at, int_bytes. cbv zeta.
  cbn [app]. set (l := _ :: _ :: _ :: _ :: rest).
  assert (Hj : forall j, (pre ++ l) !! (4 * k + j)%nat = l !! j).
  { intros j. rewrite lookup_app_r by lia. f_equal. lia. }
  replace (4 * k)%nat with (4 * k + 0)%nat at 1 by lia.
  rewrite !Hj. unfold l. cbn [lookup list_lookup]. f_equal.
  apply le_int_int_bytes. exact Hz.
Qed.

Lemma int_bytes_length (z : Z) : length (int_bytes z) = 4%nat.
Proof. reflexivity. Qed.

(** X13: the header read back: the seven [int]s of a configuration,
    written least significant byte first in two's complement and followed by
    anything, are read as that configuration. *)
Theorem read_config_config_bytes (c : Config) (rest : list byte) :
  int_config c -> read_config (config_bytes c ++ rest) = Some c.
Proof.
  intros Hc. unfold int_config in Hc.
  repeat (apply Forall_cons_1 in Hc; destruct Hc as [? Hc]).
  set (file := config_bytes c ++ rest).
  assert (E0 : int_at file 0 = Some (dim c)).
  { replace file with (([]) ++ int_bytes (dim c) ++ int_bytes (hidden_dim c) ++ int_bytes (n_layers c) ++ int_bytes (n_heads c) ++ int_bytes (n_kv_heads c) ++ int_bytes (vocab_size c) ++ int_bytes (seq_len c) ++ rest)
      by (unfold file, config_bytes; rewrite <- ?app_assoc; reflexivity).
    apply int_at_int_bytes; [reflexivity | assumption]. }
  assert (E1 : int_at file 1 = Some (hidden_dim c)).
  { replace file with ((int_bytes (dim c)) ++ int_bytes (hidden_dim c) ++ int_bytes (n_layers c) ++ int_bytes (n_heads c) ++ int_bytes (n_kv_heads c) ++ int_bytes (vocab_size c) ++ int_bytes (seq_len c) ++ rest)
      by (unfold file, config_bytes; rewrite <- ?app_assoc; reflexivity).
    apply int_at_int_bytes; [reflexivity | assumption]. }
  assert (E2 : int_at file 2 = Some (n_layers c)).
  { replace file with ((int_bytes (dim c) ++ int_bytes (hidden_dim c)) ++ int_bytes (n_layers c) ++ int_bytes (n_heads c) ++ int_bytes (n_kv_heads c) ++ int_bytes (vocab_size c) ++ int_bytes (seq_len c) ++ rest)
      by (unfold file, config_bytes; rewrite <- ?app_assoc; reflexivity).
    apply int_at_int_bytes; [reflexivity | assumption]. }
  assert (E3 : int_at file 3 = Some (n_heads c)).
  { replace file with ((int_bytes (dim c) ++ int_bytes (hidden_dim c) ++ int_bytes (n_layers c)) ++ int_bytes (n_heads c) ++ int_bytes (n_kv_heads c) ++ int_bytes (vocab_size c) ++ int_bytes (seq_len c) ++ rest)
      by (unfold file, config_bytes; rewrite <- ?app_assoc; reflexivity).
    apply int_at_int_bytes; [reflexivity | assumption]. }
  assert (E4 : int_at file 4 = Some (n_kv_heads c)).
  { replace file with ((int_bytes (dim c) ++ int_bytes (hidden_dim c) ++ int_bytes (n_layers c) ++ int_bytes (n_heads c)) ++ int_bytes (n_kv_heads c) ++ int_bytes (vocab_size c) ++ int_bytes (seq_len c) ++ rest)
      by (unfold file, config_bytes; rewrite <- ?app_assoc; reflexivity).
    apply int_at_int_bytes; [reflexivity | assumption]. }
  assert (E5 : int_at file 5 = Some (vocab_size c)).
  { replace file with ((int_bytes (dim c) ++ int_bytes (hidden_dim c) ++ int_bytes (n_layers c) ++ int_bytes (n_heads c) ++ int_bytes (n_kv_heads c)) ++ int_bytes (vocab_size c) ++ int_bytes (seq_len c) ++ rest)
      by (unfold file, config_bytes; rewrite <- ?app_assoc; reflexivity).
    apply int_at_int_bytes; [reflexivity | assumption]. }
  assert (E6 : int_at file 6 = Some (seq_len c)).
  { replace file with ((int_bytes (dim c) ++ int_bytes (hidden_dim c) ++ int_bytes (n_layers c) ++ int_bytes (n_heads c) ++ int_bytes (n_kv_heads c) ++ int_bytes (vocab_size c)) ++ int_bytes (seq_len c) ++ rest)
      by (unfold file, config_bytes; rewrite <- ?app_assoc; reflexivity).
    apply int_at_int_bytes; [reflexivity | assumption]. }
  unfold read_config. rewrite E0, E1, E2, E3, E4, E5, E6.
  destruct c; reflexivity.
Qed.

(** What a vocabulary that was read holds. *)
Lemma read_vocab_Done (n : nat) :
  forall bytes vocab,
  read_vocab n bytes = Done vocab ->
  length vocab = n /\ Forall (fun tok => 1 <= Z.of_nat (length tok) < INT_MAX) vocab.
Proof.
  induction n as [|n IH]; intros bytes vocab Hr; simpl in Hr.
  - injection Hr as <-. split; [reflexivity | constructor].
  - destruct bytes as [|b0 [|b1 [|b2 [|b3 rest]]]]; try discriminate.
    set (len := le_int b0 b1 b2 b3) in *.
    destruct (Z.ltb_spec len 0); [discriminate|].
    destruct (Z.eqb_spec len INT_MAX); [discriminate|]. cbn [orb] in Hr.
    destruct (Z.eqb_spec len 0); [discriminate|].
    destruct (Z.ltb_spec (Z.of_nat (length rest)) len); [discriminate|]. cbn [orb] in Hr.
    destruct (read_vocab n (drop (Z.to_nat len) rest)) as [more| |] eqn:E; try discriminate.
    injection Hr as <-. destruct (IH _ _ E) as [Hlen Hall].
    split; [simpl; rewrite Hlen; reflexivity|]. constructor; [|exact Hall].
    assert (Hmax : len <= INT_MAX).
    { unfold len, le_int, le_word, INT_MAX.
      pose proof (Byte.to_N_bounded b0). pose proof (Byte.to_N_bounded b1).
      pose proof (Byte.to_N_bounded b2). pose proof (Byte.to_N_bounded b3).
      match goal with |- context [?a <? ?b] => destruct (Z.ltb_spec a b) end; lia. }
    rewrite length_take. unfold INT_MAX in *. lia.
Qed.

(** X14: a vocabulary that was loaded has as many entries as the
    configuration has tokens, and no entry is empty: a tokenizer file with a
    token of length 0 is never loaded. *)
Theorem loaded_vocab_entries (file : option (list byte)) (vocab_size : Z)
    (vocab : list (list byte)) :
  0 <= vocab_size ->
  load_tokenizer file vocab_size = Done vocab ->
  Z.of_nat (length vocab) = vocab_size /\
  Forall (fun tok => 1 <= Z.of_nat (length tok) < INT_MAX) vocab.
Proof.
  intros Hn Hload. destruct file as [bytes|]; [|discriminate]. simpl in Hload.
  destruct (read_vocab_Done _ _ _ Hload) as [Hlen Hall].
  split; [rewrite Hlen; lia | exact Hall].
Qed.

(** X15: the tokenizer file read back: the entries of a vocabulary
    without an empty token, each written as its length and its bytes and
    followed by anything, are loaded as that vocabulary. *)
Theorem load_tokenizer_tokenizer_bytes (vocab : list (list byte)) (rest : list byte) :
  Forall (fun tok => 1 <= Z.of_nat (length tok) < INT_MAX) vocab ->
  load_tokenizer (Some (tokenizer_bytes vocab ++ rest)) (Z.of_nat (length vocab)) = Done vocab.
Proof.
  intros Hall. unfold load_tokenizer. rewrite Nat2Z.id.
  induction vocab as [|tok vocab IH]; [reflexivity|].
  apply Forall_cons_1 in Hall. destruct Hall as [Htok Hall].
  unfold tokenizer_bytes. cbn [map concat length]. rewrite <- !app_assoc.
  unfold int_bytes at 1. cbv zeta. cbn [app read_vocab].
  assert (Hint : INT_MIN <= Z.of_nat (length tok) <= INT_MAX) by (unfold INT_MIN, INT_MAX in *; lia).
  pose proof (le_int_int_bytes (Z.of_nat (length tok)) Hint) as E. cbv zeta in E.
  rewrite E. clear E.
  destruct (Z.ltb_spec (Z.of_nat (length tok)) 0); [lia|].
  destruct (Z.eqb_spec (Z.of_nat (length tok)) INT_MAX); [lia|]. cbn [orb].
  destruct (Z.eqb_spec (Z.of_nat (length tok)) 0); [lia|].
  destruct (Z.ltb_spec (Z.of_nat (length (tok ++ concat (map (fun tok0 =>
              int_bytes (Z.of_nat (length tok0)) ++ tok0) vocab) ++ rest)))
              (Z.of_nat (length tok))) as [Hshort|_].
  { rewrite length_app in Hshort. lia. }
  cbn [orb]. rewrite Nat2Z.id, drop_app_length, take_app_length.
  fold (tokenizer_bytes vocab). rewrite (IH Hall). reflexivity.
Qed.

End ReadBack.

Section Printing.
Context {F : Type} `{!FloatOps F}.

Lemma printed_defined (vocab : list (list byte)) (nexts : list Z) :
  Forall (fun next => 0 <= next < Z.of_nat (length vocab)) nexts ->
  exists text, printed vocab nexts = Some text.
Proof.
  induction nexts as [|next rest IH]; intros Hall; [exists []; reflexivity|].
  apply Forall_cons_1 in Hall. destruct Hall as [Hn Hall].
  destruct (IH Hall) as [more Hmore]. cbn [printed]. rewrite Hmore.
  unfold token_text. destruct (Z.leb_spec 0 next); [|lia].
  destruct (lookup_lt_is_Some_2 vocab (Z.to_nat next)) as [tok Htok]; [lia|].
  rewrite Htok. eexists. reflexivity.
Qed.

(** X16: with the vocabulary loaded for the configuration of a
    runnable checkpoint, every token the loop chooses (in the run that has
    the memory [calloc] is asked for) has an entry in it, so that the text of
    each step is printed from an entry of the vocabulary. *)
Theorem chosen_tokens_are_printed (ck : checkpoint F) (file : option (list byte))
    (vocab : list (list byte)) (steps : Z) (temperature : F) (rand : Z -> Z) :
  runnable ck ->
  load_tokenizer file (vocab_size (ck_config ck)) = Done vocab ->
  exists trace text,
    generate true steps temperature rand ck = Done trace /\
    printed vocab (map st_next trace) = Some text.
Proof.
  intros Hrun Hload.
  assert (Hvs : 0 <= vocab_size (ck_config ck)) by (destruct Hrun as (_ & _ & ? & _); lia).
  destruct file as [bytes|]; [|discriminate]. simpl in Hload.
  destruct (read_vocab_Done _ _ _ Hload) as [Hlen _].
  destruct (generate_good ck steps temperature rand Hrun)
    as (m0 & trace & _ & Hgen & _ & _ & Hgood).
  destruct (printed_defined vocab (map st_next trace)) as [text Htext].
  { apply Forall_forall. intros next Hin. apply list_elem_of_fmap in Hin.
    destruct Hin as (st & -> & Hst).
    destruct (proj1 (Forall_forall _ _) Hgood st Hst) as (_ & _ & Hnext & _).
    rewrite Hlen. lia. }
  exists trace, text. split; assumption.
Qed.

End Printing.

(** ** The forward pass, the loop and the loaders on the toy checkpoint *)

Section PastFacts.
Context {F : Type} `{!FloatOps F}.

(** Before the first position the past is the mapping alone. *)
Lemma agree_past_0 (p : Config) (m1 m2 : mem F) :
  (forall b, length (m1 b) = length (m2 b)) -> m1 Buf_data = m2 Buf_data ->
  agree (past p 0) m1 m2.
Proof.
  intros Hlen Hdata. split; [exact Hlen|].
  intros l [Hb|(ly & _ & c & t & _ & Ht & _)]; [|lia].
  unfold mem_load. rewrite Hb, Hdata. reflexivity.
Qed.

End PastFacts.

Module Checks.
Import Toy ToyRuns.

Lemma transformer_pos_out_of_range_faults_witness :
  run (transformer 0 2 toy_config run_state (ck_weights toy_ck)) toy_mem = None.
Proof.
  apply (transformer_pos_out_of_range_faults toy_config 49 (ck_weights toy_ck) 0 2 toy_mem
           toy_valid toy_shape).
  right. simpl. lia.
Defined.

Lemma toy_agree : agree (past toy_config 0) toy_mem toy_mem_att.
Proof. apply agree_past_0; [intros b; destruct b; reflexivity | reflexivity]. Qed.

Lemma forward_pass_depends_on_past_witness :
  exists m1' m2' t,
    run (transformer 1 0 toy_config run_state (ck_weights toy_ck)) toy_mem = Some (tt, m1', t) /\
    run (transformer 1 0 toy_config run_state (ck_weights toy_ck)) toy_mem_att
    = Some (tt, m2', t) /\
    m1' Buf_logits = m2' Buf_logits /\
    agree (past toy_config (0 + 1)) m1' m2'.
Proof.
  apply (forward_pass_depends_on_past toy_config 49 (ck_weights toy_ck) 1 0 toy_mem toy_mem_att
           toy_valid toy_int_sized toy_weights);
    [simpl; lia | simpl; lia | exact toy_shape | exact toy_shape_att | exact toy_agree].
Defined.

Lemma forward_pass_reads_no_later_row_witness :
  exists m' t,
    run (transformer 1 0 toy_config run_state (ck_weights toy_ck)) toy_mem_att
    = Some (tt, m', t) /\
    forall l, In (Rd l) t -> in_cache l ->
      exists ly, 0 <= ly < n_layers toy_config /\ cache_rows toy_config ly (0 + 1) l.
Proof.
  apply (forward_pass_reads_no_later_row toy_config 49 (ck_weights toy_ck) 1 0 toy_mem_att
           toy_valid toy_int_sized toy_weights); [simpl; lia | simpl; lia | exact toy_shape_att].
Defined.

Lemma generation_ignores_initial_state_witness :
  exists trace trace',
    generate true 0 B32.one (fun _ => 12345) toy_ck = Done trace /\
    generation_loop (Z.to_nat (clamp_steps 0 (seq_len (ck_config toy_ck)))) B32.one
      (fun _ => 12345) (ck_config toy_ck) run_state (ck_weights toy_ck) 1 0 toy_mem_att
    = Some trace' /\
    map st_next trace' = map st_next trace /\
    map st_trace trace' = map st_trace trace.
Proof.
  apply (generation_ignores_initial_state toy_ck 0 B32.one (fun _ => 12345) toy_mem_att
           toy_runnable); [exact toy_shape_att | reflexivity].
Defined.

Lemma weights_fit_exactly_witness :
  exists w,
    checkpoint_init_weights toy_config (Ptr Buf_data 0 +p header_floats) true = Some w /\
    (weights_in_data toy_config 49 w <-> header_floats + weights_floats toy_config true <= 49).
Proof. exact (weights_fit_exactly toy_config true 49 toy_valid toy_int_sized). Defined.

Lemma checkpoint_file_runs_witness :
  exists trace,
    generate true 0 B32.zero (fun _ => 0) toy_file_ck = Done trace /\
    Z.of_nat (length trace) = clamp_steps 0 (seq_len (ck_config toy_file_ck)) /\
    Forall (fun st => st_mem st Buf_data = ck_data toy_file_ck /\
                      0 <= st_next st < vocab_size (ck_config toy_file_ck)) trace.
Proof.
  apply (checkpoint_file_runs 4096 toy_file true toy_file_ck 0 B32.zero (fun _ => 0));
    [reflexivity | exact toy_valid | exact toy_int_sized | simpl; lia
    | vm_compute; discriminate].
Defined.

Lemma greedy_ignores_rand_witness :
  generate true 0 B32.zero (fun _ => 0) toy_ck
  = generate true 0 B32.zero (fun k => 7 * k + 1) toy_ck.
Proof.
  apply (greedy_ignores_rand true toy_ck 0 B32.zero (fun _ => 0) (fun k => 7 * k + 1)).
  reflexivity.
Defined.

Lemma zero_run_state_resets_witness :
  exists m' t m0,
    run (zero_run_state run_state toy_config) toy_mem_att = Some (tt, m', t) /\
    malloc_run_state true toy_config (toy_mem_att Buf_data) = Done m0 /\
    forall b, m' b = m0 b.
Proof.
  exact (zero_run_state_resets toy_config 49 toy_mem_att toy_valid toy_int_sized
           toy_shape_att).
Defined.

Lemma toy_int_config : int_config toy_config.
Proof. unfold int_config, INT_MIN, INT_MAX. simpl. repeat constructor; lia. Qed.

Lemma read_config_config_bytes_witness :
  read_config (config_bytes toy_config ++ [x2a]) = Some toy_config.
Proof. exact (read_config_config_bytes toy_config [x2a] toy_int_config). Defined.

Lemma toy_vocab_lengths :
  Forall (fun tok => 1 <= Z.of_nat (length tok) < INT_MAX) toy_vocab.
Proof. unfold toy_vocab, INT_MAX. repeat constructor; simpl; lia. Qed.

Lemma toy_tokenizer_loads : load_tokenizer (Some toy_tokenizer) 2 = Done toy_vocab.
Proof. vm_compute. reflexivity. Qed.

Lemma loaded_vocab_entries_witness :
  Z.of_nat (length toy_vocab) = 2 /\
  Forall (fun tok => 1 <= Z.of_nat (length tok) < INT_MAX) toy_vocab.
Proof.
  apply (loaded_vocab_entries (Some toy_tokenizer) 2 toy_vocab); [lia | exact toy_tokenizer_loads].
Defined.

Lemma load_tokenizer_tokenizer_bytes_witness :
  load_tokenizer (Some (tokenizer_bytes toy_vocab ++ [x2a])) (Z.of_nat (length toy_vocab))
  = Done toy_vocab.
Proof. exact (load_tokenizer_tokenizer_bytes toy_vocab [x2a] toy_vocab_lengths). Defined.

Lemma chosen_tokens_are_printed_witness :
  exists trace text,
    generate true 0 B32.zero (fun _ => 0) toy_ck = Done trace /\
    printed toy_vocab (map st_next trace) = Some text.
Proof.
  apply (chosen_tokens_are_printed toy_ck (Some toy_tokenizer) toy_vocab 0 B32.zero (fun _ => 0)
           toy_runnable).
  exact toy_tokenizer_loads.
Defined.

End Checks.

(** ** The loss *)

Section LossFacts.
Context {F : Type} `{!FloatOps F}.
Variable neg_log_eps : F -> F.

(** Dividing the logits by the temperature and taking their softmax, in
    place. *)
Lemma probabilities_in_place (p : Config) (temperature : F) (m : mem F) :
  Z.of_nat (length (m Buf_logits)) = vocab_size p -> m Buf_logits <> [] ->
  exists m1 t1 m2 t2,
    run (for_range 0 (vocab_size p) (fun q =>
           lq <- load (RS.logits run_state +p q);;
           store (RS.logits run_state +p q) (lq /~ temperature))) m = Some (tt, m1, t1) /\
    run (softmax (RS.logits run_state) (vocab_size p)) m1 = Some (tt, m2, t2) /\
    m2 Buf_logits = probabilities temperature (m Buf_logits).
Proof.
  intros Hlen Hne. set (xs := m Buf_logits) in *.
  unfold for_range, for_range_by, trip_count.
  replace (Z.to_nat ((vocab_size p - 0 + 1 - 1) / 1)) with (length xs)
    by (rewrite Z.div_1_r; lia).
  destruct (run_map_loop (fun x => x /~ temperature) Buf_logits xs (length xs) 0%nat m)
    as (m1 & t1 & Hr1 & Hb1 & Ho1); [|lia|].
  { rewrite partly_0. reflexivity. }
  change (Z.of_nat 0) with 0 in Hr1. cbn [bind load]. unfold store.
  change (RS.logits run_state) with (Ptr Buf_logits 0).
  destruct (softmax_correct m1 Buf_logits (map (fun x => x /~ temperature) xs) Hb1)
    as (m2 & t2 & Hr2 & Hb2 & Ho2).
  { destruct xs; [congruence | discriminate]. }
  rewrite length_map, Hlen in Hr2.
  exists m1, t1, m2, t2. split; [exact Hr1|]. split; [exact Hr2 | exact Hb2].
Qed.

(** X17: under the preconditions of the forward pass (on a valid
    configuration whose sizes fit an [int]) and with
    [0 <= nexttok < vocab_size], [loss] runs to the end; it leaves in
    [logits] the probabilities the sampler draws from (the logits of the
    forward pass divided by the temperature, then softmax) and returns the
    negated logarithm of the probability of [nexttok]. *)
Theorem loss_of_next_token (p : Config) (dlen : Z) (w : TransformerWeights)
    (token pos nexttok : Z) (temperature : F) (m : mem F) :
  valid_config p -> int_sized p -> weights_in_data p dlen w ->
  0 <= token < vocab_size p -> 0 <= pos < seq_len p ->
  0 <= nexttok < vocab_size p ->
  has_shape (state_len p dlen) m ->
  exists m1 t1 m' t pr,
    run (transformer token pos p run_state w) m = Some (tt, m1, t1) /\
    run (loss neg_log_eps token pos p run_state w nexttok temperature) m
    = Some (neg_log_eps pr, m', t) /\
    probabilities temperature (m1 Buf_logits) !! Z.to_nat nexttok = Some pr /\
    m' Buf_logits = probabilities temperature (m1 Buf_logits).
Proof.
  intros Hcfg Hint Hw Htok Hpos Hnext Hm.
  assert (Hs : spec (state_len p dlen) persistent (step_writes p pos)
                 (transformer token pos p run_state w)
                 (fun y => persistent y \/ step_written p pos y) (fun _ => True)).
  { apply (transformer_spec p dlen pos w Hcfg Hint Hpos Hw); unfold step_writes; auto. }
  destruct (Hs m Hm) as ([] & m1 & t1 & Hr1 & _).
  pose proof (run_shape _ _ _ _ _ _ Hr1 Hm Buf_logits) as Hlen. simpl in Hlen.
  destruct (probabilities_in_place p temperature m1 Hlen) as (m2 & t2 & m3 & t3 & Hr2 & Hr3 & Hb).
  { intros He. rewrite He in Hlen. simpl in Hlen. lia. }
  destruct (lookup_lt_is_Some_2 (probabilities temperature (m1 Buf_logits)) (Z.to_nat nexttok))
    as [pr Hpr].
  { rewrite probabilities_length. lia. }
  exists m1, t1, m3. eexists. exists pr. split; [exact Hr1|].
  unfold loss. rewrite run_bind, Hr1, run_bind, Hr2, run_bind, Hr3.
  cbn [bind load run]. change (RS.logits run_state) with (Ptr Buf_logits 0).
  replace nexttok with (Z.of_nat (Z.to_nat nexttok)) at 1 by lia.
  rewrite mem_load_whole, Hb, Hpr. split; [reflexivity|]. split; reflexivity.
Qed.

(** X18: [loss] with [nexttok] outside [[0, vocab_size)] never runs to
    the end: its last read is outside [logits]. *)
Theorem loss_next_token_out_of_range (p : Config) (dlen : Z) (w : TransformerWeights)
    (token pos nexttok : Z) (temperature : F) (m : mem F) :
  has_shape (state_len p dlen) m ->
  nexttok < 0 \/ vocab_size p <= nexttok ->
  run (loss neg_log_eps token pos p run_state w nexttok temperature) m = None.
Proof.
  intros Hm Hout. unfold loss.
  apply (bind_faults_r (state_len p dlen)); [|exact Hm]. intros _ m1 Hm1.
  apply (bind_faults_r (state_len p dlen)); [|exact Hm1]. intros _ m2 Hm2.
  apply (bind_faults_r (state_len p dlen)); [|exact Hm2]. intros _ m3 Hm3.
  cbn [bind load run]. unfold mem_load. simpl.
  destruct (Z.leb_spec 0 (0 + nexttok)); [|reflexivity].
  rewrite lookup_ge_None_2; [reflexivity|].
  pose proof (Hm3 Buf_logits) as Hlen. simpl in Hlen. lia.
Qed.

End LossFacts.

(** ** Matching the training text *)

Section MatchFacts.

Lemma starts_with_prefix (tok : list byte) :
  forall text same, starts_with text tok = Some same ->
  (same = true <-> tok `prefix_of` text).
Proof.
  induction tok as [|t tok IH]; intros text same Hs; simpl in Hs.
  - injection Hs as <-. split; [intros _; apply prefix_nil | reflexivity].
  - destruct text as [|c text]; [discriminate|].
    destruct (Byte.eqb c t) eqn:E.
    + apply Byte.byte_dec_bl in E. subst c. rewrite (IH _ _ Hs).
      split; [apply prefix_cons | apply prefix_cons_inv_2].
    + injection Hs as <-. apply Byte.eqb_false in E. split; [discriminate|].
      intros Hp. apply prefix_cons_inv_1 in Hp. congruence.
Qed.

Lemma match_loop_first_longest (text : list byte) (vocab : list (list byte)) :
  forall (tried : list (list byte)) maxlen maxj res,
  first_longest text tried maxlen maxj ->
  match_loop text vocab (Z.of_nat (length tried)) maxlen maxj = Some res ->
  first_longest text (tried ++ vocab) (fst res) (snd res).
Proof.
  induction vocab as [|tok vocab IH]; intros tried maxlen maxj res Hinv Hr; simpl in Hr.
  - injection Hr as <-. rewrite app_nil_r. exact Hinv.
  - destruct (starts_with text (c_string tok)) as [same|] eqn:Hs; [|discriminate].
    pose proof (starts_with_prefix _ _ _ Hs) as Hsame.
    replace (tried ++ tok :: vocab) with ((tried ++ [tok]) ++ vocab)
      by (rewrite <- app_assoc; reflexivity).
    replace (Z.of_nat (length tried) + 1) with (Z.of_nat (length (tried ++ [tok]))) in Hr
      by (rewrite length_app; simpl; lia).
    assert (Hbound : forall j tok', tried !! j = Some tok' -> (j < length tried)%nat).
    { intros j tok' Hj. apply lookup_lt_Some in Hj. exact Hj. }
    assert (Hsplit : forall j tok', (tried ++ [tok]) !! j = Some tok' ->
              tried !! j = Some tok' \/ (j = length tried /\ tok' = tok)).
    { intros j tok' Hj. apply lookup_app_Some in Hj. destruct Hj as [Hj|[Hge Hj]]; [left; exact Hj|].
      right. destruct (j - length tried)%nat as [|k] eqn:Hk; simpl in Hj; [|discriminate].
      split; [lia | congruence]. }
    destruct (same && (maxlen <? Z.of_nat (length (c_string tok)))) eqn:Hc.
    + apply andb_true_iff in Hc. destruct Hc as [-> Hlt]. apply Z.ltb_lt in Hlt.
      apply (IH _ _ _ _) in Hr; [exact Hr|].
      right. split; [lia|]. exists tok. rewrite Nat2Z.id.
      split; [apply list_lookup_middle; reflexivity|].
      split; [apply Hsame; reflexivity|]. split; [reflexivity|].
      intros j tok' Hj Hp. destruct (Hsplit j tok' Hj) as [Hold|[-> ->]]; [|lia].
      destruct Hinv as [(_ & _ & Hnone)|(_ & tok0 & _ & _ & Hlen & Hall)].
      * exfalso. exact (Hnone j tok' Hold Hp).
      * destruct (Hall j tok' Hold Hp). lia.
    + apply (IH _ _ _ _) in Hr; [exact Hr|].
      destruct Hinv as [(Hl & Hj & Hnone)|(Hj0 & tok0 & Hlook & Hp0 & Hlen & Hall)].
      * left. split; [exact Hl|]. split; [exact Hj|].
        intros j tok' Hj' Hp. destruct (Hsplit j tok' Hj') as [Hold|[-> ->]].
        -- exact (Hnone j tok' Hold Hp).
        -- apply Hsame in Hp. subst same. simpl in Hc. apply Z.ltb_ge in Hc. lia.
      * right. split; [exact Hj0|]. exists tok0.
        split; [apply lookup_app_l_Some; exact Hlook|].
        split; [exact Hp0|]. split; [exact Hlen|].
        intros j tok' Hj' Hp. destruct (Hsplit j tok' Hj') as [Hold|[-> ->]].
        -- exact (Hall j tok' Hold Hp).
        -- apply Hsame in Hp. subst same. simpl in Hc. apply Z.ltb_ge in Hc.
           pose proof (Hbound _ _ Hlook). lia.
Qed.

(** X19: when the match of the training text against the vocabulary
    runs to the end, it reports the longest entry the text at [i] starts
    with, and of several of that length the one of lowest index; when the
    text starts with no entry it reports length [-1] and index [-1]. *)
Theorem greedy_match_first_longest (train_text : list byte) (i : Z)
    (vocab : list (list byte)) (maxlen maxj : Z) :
  greedy_match train_text i vocab = Some (maxlen, maxj) ->
  first_longest (drop (Z.to_nat i) train_text) vocab maxlen maxj.
Proof.
  unfold greedy_match. destruct (_ && _); [|discriminate]. intros Hr.
  apply (match_loop_first_longest _ vocab [] (-1) (-1) (maxlen, maxj)); [|exact Hr].
  left. split; [reflexivity|]. split; [reflexivity|]. intros j tok Hj. discriminate.
Qed.

Lemma starts_with_past_end (tok : list byte) :
  forall text, text `prefix_of` tok -> (length text < length tok)%nat ->
  starts_with text tok = None.
Proof.
  induction tok as [|t tok IH]; intros text Hp Hlen; [simpl in Hlen; lia|].
  destruct text as [|c text]; [reflexivity|]. simpl.
  rewrite (prefix_cons_inv_1 _ _ _ _ Hp), (Byte.byte_dec_lb eq_refl).
  apply IH; [exact (prefix_cons_inv_2 _ _ _ _ Hp) | simpl in Hlen; lia].
Qed.

Lemma match_loop_past_end (text : list byte) (vocab : list (list byte)) :
  forall (j : nat) tok k maxlen maxj,
  vocab !! j = Some tok -> starts_with text (c_string tok) = None ->
  match_loop text vocab k maxlen maxj = None.
Proof.
  induction vocab as [|tok0 vocab IH]; intros j tok k maxlen maxj Hj Hs; [discriminate|].
  simpl. destruct j as [|j]; simpl in Hj.
  - injection Hj as ->. rewrite Hs. reflexivity.
  - destruct (starts_with text (c_string tok0)) as [same|]; [|reflexivity].
    destruct (same && _); apply (IH j tok); assumption.
Qed.

(** X20: the training text is not zero-terminated: when it ends inside
    an entry of the vocabulary that it matches up to its end, the comparison
    with that entry reads past the end of the text, and the match has no
    defined result. *)
Theorem greedy_match_reads_past_end (train_text : list byte) (i : Z)
    (vocab : list (list byte)) (j : nat) (tok : list byte) :
  vocab !! j = Some tok ->
  drop (Z.to_nat i) train_text `prefix_of` c_string tok ->
  (length (drop (Z.to_nat i) train_text) < length (c_string tok))%nat ->
  greedy_match train_text i vocab = None.
Proof.
  intros Hj Hp Hlen. unfold greedy_match. destruct (_ && _); [|reflexivity].
  apply (match_loop_past_end _ vocab j tok); [exact Hj|].
  apply starts_with_past_end; assumption.
Qed.

End MatchFacts.

Module TrainingChecks.
Import Toy ToyRuns.

Lemma loss_of_next_token_witness :
  exists m1 t1 m' t pr,
    run (transformer 1 0 toy_config run_state (ck_weights toy_ck)) toy_mem = Some (tt, m1, t1) /\
    run (loss SFopp 1 0 toy_config run_state (ck_weights toy_ck) 1 B32.one) toy_mem
    = Some (SFopp pr, m', t) /\
    probabilities B32.one (m1 Buf_logits) !! Z.to_nat 1 = Some pr /\
    m' Buf_logits = probabilities B32.one (m1 Buf_logits).
Proof.
  apply (loss_of_next_token SFopp toy_config 49 (ck_weights toy_ck) 1 0 1 B32.one toy_mem
           toy_valid toy_int_sized toy_weights);
    [simpl; lia | simpl; lia | simpl; lia | exact toy_shape].
Defined.

Lemma loss_next_token_out_of_range_witness :
  run (loss SFopp 1 0 toy_config run_state (ck_weights toy_ck) (-1) B32.one) toy_mem = None.
Proof.
  apply (loss_next_token_out_of_range SFopp toy_config 49 (ck_weights toy_ck) 1 0 (-1)
           B32.one toy_mem toy_shape).
  left. lia.
Defined.

Lemma greedy_match_first_longest_witness :
  first_longest (drop (Z.to_nat 1) [x61; x62; x63; x61]) toy_vocab 2 1.
Proof.
  apply (greedy_match_first_longest [x61; x62; x63; x61] 1 toy_vocab 2 1). reflexivity.
Defined.

Lemma greedy_match_reads_past_end_witness :
  greedy_match [x61; x62] 1 toy_vocab = None.
Proof.
  apply (greedy_match_reads_past_end [x61; x62] 1 toy_vocab 1 [x62; x63]);
    [reflexivity | exists [x63]; reflexivity | simpl; lia].
Defined.

End TrainingChecks.
